(** * RocketSpeed: a shallow embedding of the wire codec, the
    topic-to-subscription map, the log tailer, the rocketeer server and the
    topic manager, with the properties of their specification.

    Conventions of the embedding.
    - A [uint64_t], [uint32_t], [uint16_t] or 8-bit enum is a [Z]; every
      place where the C++ arithmetic wraps is written with [uint64],
      [uint32] or an explicit [mod].
    - A [Slice] or [std::string] is a [list byte].
    - [RS_ASSERT] is embedded as in a build with [NO_RS_ASSERT]: the
      statement after it runs. What the assertion demands is stated in the
      theorems.
    - A C++ function whose behaviour is undefined on some input (index out
      of range, null dereference, division by zero, a loop that does not
      end) returns [option], with [None] for those inputs.
    - An [int64_t], and the count of a [std::chrono] duration, is a [Z] in
      two's complement range: a conversion from [uint64_t] and a product
      are written with [int64], which is what the machine computes also
      where C++ leaves a signed overflow undefined.
    - Memory is there when asked for: [resize], [reserve] and [push_back]
      return. A [DeSerialize] that sizes a vector by a count read from the
      wire leaves by an exception, not by a [Status], when the count is
      beyond what the vector can hold; on such an input the model returns
      the [InvalidArgument] of the first element that the slice does not
      hold. *)

From Stdlib Require Import ZArith Lia List String Strings.Byte Sorted.
From stdpp Require Import base option list list_numbers gmap.

Local Open Scope Z_scope.

(** * Part I: the model *)

(** ** Machine integers and bytes *)

Definition uint64 (x : Z) : Z := x mod 2 ^ 64.
Definition uint32 (x : Z) : Z := x mod 2 ^ 32.
Definition int64 (x : Z) : Z := (x + 2 ^ 63) mod 2 ^ 64 - 2 ^ 63.

Abbreviation Slice := (list byte) (only parsing).

(** [*(unsigned char* )p] read as an integer. *)
Definition byte_to_Z (b : byte) : Z := Z.of_N (Byte.to_N b).

(** [static_cast<char>(v)]: the low 8 bits of [v]. *)
Definition Z_to_byte (v : Z) : byte :=
  default x00 (Byte.of_N (Z.to_N (v mod 256))).

#[global] Instance byte_eq_dec : EqDecision byte := Byte.byte_eq_dec.

Lemma byte_of_to_N b : default x00 (Byte.of_N (Byte.to_N b)) = b.
Proof. rewrite Byte.of_to_N. reflexivity. Qed.

#[global] Instance byte_countable : Countable byte :=
  inj_countable' Byte.to_N (fun n => default x00 (Byte.of_N n)) byte_of_to_N.

(** ** util/common/coding.cc *)

Module Coding.

(** [EncodeVarint32(dst, v)]: the bytes written at [dst]. *)
Definition EncodeVarint32 (v : Z) : list byte :=
  let B := 128 in
  if v <? Z.shiftl 1 7 then
    [Z_to_byte v]
  else if v <? Z.shiftl 1 14 then
    [Z_to_byte (Z.lor v B); Z_to_byte (Z.shiftr v 7)]
  else if v <? Z.shiftl 1 21 then
    [Z_to_byte (Z.lor v B); Z_to_byte (Z.lor (Z.shiftr v 7) B);
     Z_to_byte (Z.shiftr v 14)]
  else if v <? Z.shiftl 1 28 then
    [Z_to_byte (Z.lor v B); Z_to_byte (Z.lor (Z.shiftr v 7) B);
     Z_to_byte (Z.lor (Z.shiftr v 14) B); Z_to_byte (Z.shiftr v 21)]
  else
    [Z_to_byte (Z.lor v B); Z_to_byte (Z.lor (Z.shiftr v 7) B);
     Z_to_byte (Z.lor (Z.shiftr v 14) B); Z_to_byte (Z.lor (Z.shiftr v 21) B);
     Z_to_byte (Z.shiftr v 28)].

(** The loop of [GetVarint32PtrFallback(p, limit, value)], entered with the
    current [shift] and [result]; the slice is the range [p .. limit). One
    byte is consumed per iteration, so the recursion is on the slice. The
    result is the decoded value and the slice after the returned pointer;
    [None] is the [nullptr] return. *)
Fixpoint GetVarint32PtrFallback_loop (shift result : Z) (p : Slice)
    {struct p} : option (Z * Slice) :=
  if shift <=? 28 then
    match p with
    | [] => None
    | b :: p' =>
        let byte := byte_to_Z b in
        if negb (Z.land byte 128 =? 0) then
          GetVarint32PtrFallback_loop (shift + 7)
            (Z.lor result (uint32 (Z.shiftl (Z.land byte 127) shift))) p'
        else
          Some (Z.lor result (uint32 (Z.shiftl byte shift)), p')
    end
  else None.

Definition GetVarint32PtrFallback (p : Slice) : option (Z * Slice) :=
  GetVarint32PtrFallback_loop 0 0 p.

(** The loop of [GetVarint64Ptr(p, limit, value)]. *)
Fixpoint GetVarint64Ptr_loop (shift result : Z) (p : Slice)
    {struct p} : option (Z * Slice) :=
  if shift <=? 63 then
    match p with
    | [] => None
    | b :: p' =>
        let byte := byte_to_Z b in
        if negb (Z.land byte 128 =? 0) then
          GetVarint64Ptr_loop (shift + 7)
            (Z.lor result (uint64 (Z.shiftl (Z.land byte 127) shift))) p'
        else
          Some (Z.lor result (uint64 (Z.shiftl byte shift)), p')
    end
  else None.

Definition GetVarint64Ptr (p : Slice) : option (Z * Slice) :=
  GetVarint64Ptr_loop 0 0 p.

(** Modelled from the spec: [EncodeVarint64] is declared in coding.h, which
    is not among the sources. The spec gives varints as LEB128-style,
    unsigned, 64 bits at most: seven bits per byte from the low end, the top
    bit of a byte set when more bytes follow. Ten bytes hold 64 bits, so ten
    iterations always reach the last byte. *)
Fixpoint EncodeVarint64_loop (fuel : nat) (v : Z) : list byte :=
  match fuel with
  | O => []
  | S fuel' =>
      if 128 <=? v then
        Z_to_byte (Z.lor (Z.land v 127) 128)
          :: EncodeVarint64_loop fuel' (Z.shiftr v 7)
      else [Z_to_byte v]
  end.

Definition EncodeVarint64 (v : Z) : list byte := EncodeVarint64_loop 10 v.

End Coding.

(** ** The Put/Get helpers of util/common/coding.h

    coding.h is not among the sources. The helpers whose layout follows
    from coding.cc and from the spec are written out below; the layout of
    fixed-width integers (the spec only says "fixed-endian") and of a
    [SubscriptionID] ("variable-length form, detailed bit pattern
    irrelevant") is left open and taken as a parameter, with the one law
    the codec relies on: what was put is what is got. The resolution of
    [Clock], declared in messages.h, is a parameter as well. *)

Class WireFormat := {
  (** the bytes [PutFixed16(out, v)] appends *)
  Fixed16_bytes : Z -> list byte;
  GetFixed16 : Slice -> option (Z * Slice);
  (** the bytes [PutFixed64(out, v)] appends *)
  Fixed64_bytes : Z -> list byte;
  GetFixed64 : Slice -> option (Z * Slice);
  (** the bytes [EncodeSubscriptionID(out, id)] appends *)
  SubscriptionID_bytes : Z -> list byte;
  DecodeSubscriptionID : Slice -> option (Z * Slice);
  (** ticks of [Clock::duration] in one millisecond *)
  ticks_per_ms : Z
}.

Class WireFormatLaws (W : WireFormat) : Prop := {
  GetFixed16_bytes : forall v rest,
    0 <= v < 2 ^ 16 -> GetFixed16 (Fixed16_bytes v ++ rest) = Some (v, rest);
  GetFixed64_bytes : forall v rest,
    0 <= v < 2 ^ 64 -> GetFixed64 (Fixed64_bytes v ++ rest) = Some (v, rest);
  DecodeSubscriptionID_bytes : forall v rest,
    0 <= v < 2 ^ 64 ->
    DecodeSubscriptionID (SubscriptionID_bytes v ++ rest) = Some (v, rest);
  ticks_per_ms_pos : 0 < ticks_per_ms
}.

Module Wire.
Import Coding.

Definition PutFixed16 `{WireFormat} (out : list byte) (v : Z) : list byte :=
  out ++ Fixed16_bytes v.

Definition PutFixed64 `{WireFormat} (out : list byte) (v : Z) : list byte :=
  out ++ Fixed64_bytes v.

Definition EncodeSubscriptionID `{WireFormat} (out : list byte) (id : Z)
    : list byte :=
  out ++ SubscriptionID_bytes id.

(** Modelled from the spec: [PutFixedEnum8] / [GetFixedEnum8] (coding.h):
    an enum travels as one byte, its 8-bit underlying value. *)
Definition PutFixedEnum8 (out : list byte) (v : Z) : list byte :=
  out ++ [Z_to_byte v].

Definition GetFixedEnum8 (in_ : Slice) : option (Z * Slice) :=
  match in_ with
  | [] => None
  | b :: rest => Some (byte_to_Z b, rest)
  end.

(** Modelled from the spec: [PutVarint32] / [GetVarint32] (coding.h) append
    the bytes of [EncodeVarint32] and read with [GetVarint32PtrFallback];
    a failed read leaves the slice where it was. *)
Definition PutVarint32 (out : list byte) (v : Z) : list byte :=
  out ++ EncodeVarint32 v.

Definition GetVarint32 (in_ : Slice) : option (Z * Slice) :=
  GetVarint32PtrFallback in_.

(** Modelled from the spec: [PutVarint64] / [GetVarint64] (coding.h), on
    [EncodeVarint64] and [GetVarint64Ptr]. *)
Definition PutVarint64 (out : list byte) (v : Z) : list byte :=
  out ++ EncodeVarint64 v.

Definition GetVarint64 (in_ : Slice) : option (Z * Slice) :=
  GetVarint64Ptr in_.

(** Modelled from the spec: [PutBytes(out, p, n)] / [GetBytes(in, p, n)]
    (coding.h) copy [n] raw bytes. *)
Definition PutBytes (out : list byte) (p : list byte) (n : nat) : list byte :=
  out ++ take n p.

Definition GetBytes (in_ : Slice) (n : nat) : option (list byte * Slice) :=
  if decide (n <= length in_)%nat then Some (take n in_, drop n in_) else None.

(** Modelled from the spec: a length-prefixed byte string (coding.h) is
    its length as a varint32, then its bytes. *)
Definition PutLengthPrefixedSlice (out : list byte) (value : list byte)
    : list byte :=
  PutVarint32 out (uint32 (Z.of_nat (length value))) ++ value.

Definition GetLengthPrefixedSlice (in_ : Slice) : option (list byte * Slice) :=
  match GetVarint32 in_ with
  | Some (len, rest) =>
      if decide (len <= Z.of_nat (length rest)) then
        Some (take (Z.to_nat len) rest, drop (Z.to_nat len) rest)
      else None
  | None => None
  end.

(** Modelled from the spec: a topic ID (coding.h) is the namespace, then the
    topic name, both length-prefixed. *)
Definition PutTopicID (out : list byte) (namespace_id topic_name : list byte)
    : list byte :=
  PutLengthPrefixedSlice (PutLengthPrefixedSlice out namespace_id) topic_name.

Definition GetTopicID (in_ : Slice)
    : option ((list byte * list byte) * Slice) :=
  match GetLengthPrefixedSlice in_ with
  | Some (namespace_id, rest) =>
      match GetLengthPrefixedSlice rest with
      | Some (topic_name, rest') => Some ((namespace_id, topic_name), rest')
      | None => None
      end
  | None => None
  end.

End Wire.

(** ** messages/messages.cc *)

(** What a [DeSerialize] leaves behind: with [Status::OK()] the object it
    filled in and the slice after the bytes it consumed; with
    [Status::InvalidArgument(what)] the object is half-assigned, and
    [Message::CreateNewInstance] discards it. *)
Inductive result (A : Type) : Type :=
| OK (obj : A) (rest : Slice)
| InvalidArgument (what : string).

Arguments OK {A} obj rest.
Arguments InvalidArgument {A} what.

Definition ok {A} (r : result A) : bool :=
  match r with OK _ _ => true | InvalidArgument _ => false end.

(** [if (!Get(in, &x)) return Status::InvalidArgument(what);] *)
Notation "'get!' ( x , s ) := g 'else' what ; k" :=
  (match g with
   | Some (x, s) => k
   | None => InvalidArgument what%string
   end)
  (at level 10, x pattern, s name, g at level 100, what at level 0,
   k at level 200,
   format "'[v' 'get!'  ( x ,  s )  :=  g  'else'  what ; '/' k ']'").

(** [Status st = Base::DeSerialize(in); if (!st.ok()) return st;] *)
Notation "'base!' ( x , s ) := r ; k" :=
  (match r with
   | OK x s => k
   | InvalidArgument what => InvalidArgument what
   end)
  (at level 10, x pattern, s name, r at level 100,
   k at level 200,
   format "'[v' 'base!'  ( x ,  s )  :=  r ; '/' k ']'").

Abbreviation TenantID := (Z) (only parsing).
Abbreviation SequenceNumber := (Z) (only parsing).
Abbreviation SubscriptionID := (Z) (only parsing).
Abbreviation NamespaceID := (list byte) (only parsing).
Abbreviation Topic := (list byte) (only parsing).
(** [struct MsgId { char id[16]; }] *)
Abbreviation MsgId := (list byte) (only parsing).

Module Message.
Import Wire.

Record t := mk { type_ : Z; tenantid_ : TenantID }.

Definition Serialize `{WireFormat} (m : t) (out : list byte) : list byte :=
  let out := PutFixedEnum8 out (type_ m) in
  let out := PutFixed16 out (tenantid_ m) in
  out.

Definition DeSerialize `{WireFormat} (in_ : Slice) : result t :=
  get! (type_, in_) := GetFixedEnum8 in_ else "Bad MessageType";
  get! (tenantid_, in_) := GetFixed16 in_ else "Bad TenantID";
  OK (mk type_ tenantid_) in_.

Definition WellFormed (m : t) : Prop :=
  0 <= type_ m < 2 ^ 8 /\ 0 <= tenantid_ m < 2 ^ 16.

End Message.

Module MessagePing.
Import Wire.

Record t := mk { base : Message.t; pingtype_ : Z; cookie_ : list byte }.

Definition Serialize `{WireFormat} (m : t) (out : list byte) : list byte :=
  let out := PutFixedEnum8 out (Message.type_ (base m)) in
  let out := PutFixed16 out (Message.tenantid_ (base m)) in
  let out := PutFixedEnum8 out (pingtype_ m) in
  let out := PutLengthPrefixedSlice out (cookie_ m) in
  out.

Definition DeSerialize `{WireFormat} (in_ : Slice) : result t :=
  get! (type_, in_) := GetFixedEnum8 in_ else "Bad type";
  get! (tenantid_, in_) := GetFixed16 in_ else "Bad tenant ID";
  get! (pingtype_, in_) := GetFixedEnum8 in_ else "Bad ping type";
  get! (cookie_, in_) := GetLengthPrefixedSlice in_ else "Bad cookie";
  OK (mk (Message.mk type_ tenantid_) pingtype_ cookie_) in_.

Definition WellFormed (m : t) : Prop :=
  Message.WellFormed (base m) /\ 0 <= pingtype_ m < 2 ^ 8 /\
  Z.of_nat (length (cookie_ m)) < 2 ^ 32.

End MessagePing.

Module MessageData.
Import Wire.

Record t := mk {
  base : Message.t;
  seqno_prev_ : SequenceNumber;
  seqno_ : SequenceNumber;
  topic_name_ : Topic;
  payload_ : list byte;
  namespaceid_ : NamespaceID;
  msgid_ : MsgId
}.

Definition SerializeInternal `{WireFormat} (m : t) (out : list byte)
    : list byte :=
  let out := PutFixed16 out (Message.tenantid_ (base m)) in
  let out := PutTopicID out (namespaceid_ m) (topic_name_ m) in
  let out := PutLengthPrefixedSlice out (msgid_ m) in
  let out := PutLengthPrefixedSlice out (payload_ m) in
  out.

Definition Serialize `{WireFormat} (m : t) (out : list byte) : list byte :=
  let out := PutFixedEnum8 out (Message.type_ (base m)) in
  let out := PutVarint64 out (seqno_prev_ m) in
  let out := PutVarint64 out (seqno_ m) in
  SerializeInternal m out.

(** [DeSerializeStorage] runs on an object whose type tag and sequence
    numbers are already set ([self]) and fills in the rest. *)
Definition DeSerializeStorage `{WireFormat} (self : t) (in_ : Slice)
    : result t :=
  get! (tenantid_, in_) := GetFixed16 in_ else "Bad tenant ID";
  get! (id, in_) := GetTopicID in_ else "Bad Message Topic ID";
  get! (idSlice, in_) := GetLengthPrefixedSlice in_ else "Bad Message Id";
  if decide (length idSlice < 16)%nat then InvalidArgument "Bad Message Id"
  else
    let msgid_ := take 16 idSlice in
    get! (payload_, in_) := GetLengthPrefixedSlice in_ else "Bad payload";
    OK (mk (Message.mk (Message.type_ (base self)) tenantid_)
           (seqno_prev_ self) (seqno_ self) id.2 payload_ id.1 msgid_) in_.

Definition DeSerialize `{WireFormat} (self : t) (in_ : Slice) : result t :=
  get! (type_, in_) := GetFixedEnum8 in_ else "Bad type";
  get! (seqno_prev_, in_) := GetVarint64 in_
    else "Bad Previous Sequence Number";
  get! (seqno_, in_) := GetVarint64 in_ else "Bad Sequence Number";
  DeSerializeStorage
    (mk (Message.mk type_ (Message.tenantid_ (base self))) seqno_prev_ seqno_
        (topic_name_ self) (payload_ self) (namespaceid_ self) (msgid_ self))
    in_.

Definition SetSequenceNumbers (m : t) (prev_seqno seqno : SequenceNumber) : t :=
  mk (base m) prev_seqno seqno (topic_name_ m) (payload_ m) (namespaceid_ m)
     (msgid_ m).

Definition WellFormed (m : t) : Prop :=
  Message.WellFormed (base m) /\
  0 <= seqno_prev_ m < 2 ^ 64 /\ 0 <= seqno_ m < 2 ^ 64 /\
  Z.of_nat (length (namespaceid_ m)) < 2 ^ 32 /\
  Z.of_nat (length (topic_name_ m)) < 2 ^ 32 /\
  length (msgid_ m) = 16%nat /\
  Z.of_nat (length (payload_ m)) < 2 ^ 32.

End MessageData.

Module MessageDataAck.
Import Wire.

Record Ack := mkAck { status : Z; msgid : MsgId; seqno : SequenceNumber }.

Record t := mk { base : Message.t; acks_ : list Ack }.

Definition Serialize_acks (acks : list Ack) (out : list byte) : list byte :=
  foldl (fun out ack =>
           let out := PutFixedEnum8 out (status ack) in
           let out := PutBytes out (msgid ack) 16 in
           let out := PutVarint64 out (seqno ack) in
           out) out acks.

Definition Serialize `{WireFormat} (m : t) (out : list byte) : list byte :=
  let out := PutFixedEnum8 out (Message.type_ (base m)) in
  let out := PutFixed16 out (Message.tenantid_ (base m)) in
  let out := PutVarint32 out (uint32 (Z.of_nat (length (acks_ m)))) in
  Serialize_acks (acks_ m) out.

(** [for (unsigned i = 0; i < num_acks; i++)], entered with [n] acks still
    to read. *)
Fixpoint DeSerialize_acks (n : nat) (acks_ : list Ack) (in_ : Slice)
    : result (list Ack) :=
  match n with
  | O => OK acks_ in_
  | S n' =>
      get! (status, in_) := GetFixedEnum8 in_ else "Bad Ack Status";
      get! (msgid, in_) := GetBytes in_ 16 else "Bad Ack MsgId";
      get! (seqno, in_) := GetVarint64 in_ else "Bad Ack Sequence number";
      DeSerialize_acks n' (acks_ ++ [mkAck status msgid seqno]) in_
  end.

Definition DeSerialize `{WireFormat} (self : t) (in_ : Slice) : result t :=
  get! (type_, in_) := GetFixedEnum8 in_ else "Bad type";
  get! (tenantid_, in_) := GetFixed16 in_ else "Bad tenant ID";
  get! (num_acks, in_) := GetVarint32 in_ else "Bad Number Of Acks";
  base! (acks_, in_) := DeSerialize_acks (Z.to_nat num_acks) (acks_ self) in_;
  OK (mk (Message.mk type_ tenantid_) acks_) in_.

Definition WellFormed_Ack (a : Ack) : Prop :=
  0 <= status a < 2 ^ 8 /\ length (msgid a) = 16%nat /\
  0 <= seqno a < 2 ^ 64.

Definition WellFormed (m : t) : Prop :=
  Message.WellFormed (base m) /\ Z.of_nat (length (acks_ m)) < 2 ^ 32 /\
  Forall WellFormed_Ack (acks_ m).

End MessageDataAck.

Module MessageGap.
Import Wire.

Record t := mk {
  base : Message.t;
  namespace_id_ : NamespaceID;
  topic_name_ : Topic;
  gap_type_ : Z;
  gap_from_ : SequenceNumber;
  gap_to_ : SequenceNumber
}.

Definition Serialize `{WireFormat} (m : t) (out : list byte) : list byte :=
  let out := PutFixedEnum8 out (Message.type_ (base m)) in
  let out := PutFixed16 out (Message.tenantid_ (base m)) in
  let out := PutTopicID out (namespace_id_ m) (topic_name_ m) in
  let out := PutFixedEnum8 out (gap_type_ m) in
  let out := PutVarint64 out (gap_from_ m) in
  let out := PutVarint64 out (gap_to_ m) in
  out.

Definition DeSerialize `{WireFormat} (in_ : Slice) : result t :=
  get! (type_, in_) := GetFixedEnum8 in_ else "Bad type";
  get! (tenantid_, in_) := GetFixed16 in_ else "Bad tenant ID";
  get! (id, in_) := GetTopicID in_ else "Invalid topic ID";
  get! (gap_type_, in_) := GetFixedEnum8 in_ else "Missing gap type";
  get! (gap_from_, in_) := GetVarint64 in_ else "Bad gap log ID";
  get! (gap_to_, in_) := GetVarint64 in_ else "Bad gap log ID";
  OK (mk (Message.mk type_ tenantid_) id.1 id.2 gap_type_ gap_from_ gap_to_)
     in_.

Definition WellFormed (m : t) : Prop :=
  Message.WellFormed (base m) /\
  Z.of_nat (length (namespace_id_ m)) < 2 ^ 32 /\
  Z.of_nat (length (topic_name_ m)) < 2 ^ 32 /\
  0 <= gap_type_ m < 2 ^ 8 /\
  0 <= gap_from_ m < 2 ^ 64 /\ 0 <= gap_to_ m < 2 ^ 64.

End MessageGap.

Module MessageGoodbye.
Import Wire.

Record t := mk { base : Message.t; code_ : Z; origin_type_ : Z }.

Definition Serialize `{WireFormat} (m : t) (out : list byte) : list byte :=
  let out := PutFixedEnum8 out (Message.type_ (base m)) in
  let out := PutFixed16 out (Message.tenantid_ (base m)) in
  let out := PutFixedEnum8 out (code_ m) in
  let out := PutFixedEnum8 out (origin_type_ m) in
  out.

Definition DeSerialize `{WireFormat} (in_ : Slice) : result t :=
  get! (type_, in_) := GetFixedEnum8 in_ else "Bad type";
  get! (tenantid_, in_) := GetFixed16 in_ else "Bad tenant ID";
  get! (code_, in_) := GetFixedEnum8 in_ else "Bad code";
  get! (origin_type_, in_) := GetFixedEnum8 in_ else "Bad origin type";
  OK (mk (Message.mk type_ tenantid_) code_ origin_type_) in_.

Definition WellFormed (m : t) : Prop :=
  Message.WellFormed (base m) /\ 0 <= code_ m < 2 ^ 8 /\
  0 <= origin_type_ m < 2 ^ 8.

End MessageGoodbye.

Module MessageFindTailSeqno.
Import Wire.

Record t := mk {
  base : Message.t; namespace_id_ : NamespaceID; topic_name_ : Topic
}.

Definition Serialize `{WireFormat} (m : t) (out : list byte) : list byte :=
  let out := Message.Serialize (base m) out in
  let out := PutTopicID out (namespace_id_ m) (topic_name_ m) in
  out.

Definition DeSerialize `{WireFormat} (in_ : Slice) : result t :=
  base! (base, in_) := Message.DeSerialize in_;
  get! (id, in_) := GetTopicID in_ else "Bad NamespaceID and/or TopicName";
  OK (mk base id.1 id.2) in_.

Definition WellFormed (m : t) : Prop :=
  Message.WellFormed (base m) /\
  Z.of_nat (length (namespace_id_ m)) < 2 ^ 32 /\
  Z.of_nat (length (topic_name_ m)) < 2 ^ 32.

End MessageFindTailSeqno.

Module MessageTailSeqno.
Import Wire.

Record t := mk {
  base : Message.t;
  namespace_id_ : NamespaceID;
  topic_name_ : Topic;
  seqno_ : SequenceNumber
}.

Definition Serialize `{WireFormat} (m : t) (out : list byte) : list byte :=
  let out := Message.Serialize (base m) out in
  let out := PutTopicID out (namespace_id_ m) (topic_name_ m) in
  let out := PutVarint64 out (seqno_ m) in
  out.

Definition DeSerialize `{WireFormat} (in_ : Slice) : result t :=
  base! (base, in_) := Message.DeSerialize in_;
  get! (id, in_) := GetTopicID in_ else "Bad NamespaceID and/or TopicName";
  get! (seqno_, in_) := GetVarint64 in_ else "Bad sequence number";
  OK (mk base id.1 id.2 seqno_) in_.

Definition WellFormed (m : t) : Prop :=
  Message.WellFormed (base m) /\
  Z.of_nat (length (namespace_id_ m)) < 2 ^ 32 /\
  Z.of_nat (length (topic_name_ m)) < 2 ^ 32 /\
  0 <= seqno_ m < 2 ^ 64.

End MessageTailSeqno.

(** A subscription cursor: [struct Cursor { std::string source; SequenceNumber
    seqno; }], written as all sources followed by all seqnos. *)
Module Cursors.
Import Wire.

Record Cursor := mkCursor { source : list byte; seqno : SequenceNumber }.

(** [for (cursor : v) PutLengthPrefixedSlice(out, cursor.source);] *)
Definition Serialize_sources (v : list Cursor) (out : list byte) : list byte :=
  foldl (fun out cursor => PutLengthPrefixedSlice out (source cursor)) out v.

(** [for (cursor : v) PutVarint64(out, cursor.seqno);] *)
Definition Serialize_seqnos (v : list Cursor) (out : list byte) : list byte :=
  foldl (fun out cursor => PutVarint64 out (seqno cursor)) out v.

(** [for (i = 0; i < num_cursors; ++i) Get(in, &v[i].source)], with [n]
    sources still to read; the sources read so far are [acc]. *)
Fixpoint DeSerialize_sources (n : nat) (acc : list (list byte)) (in_ : Slice)
    : result (list (list byte)) :=
  match n with
  | O => OK acc in_
  | S n' =>
      get! (source, in_) := GetLengthPrefixedSlice in_
        else "Bad cursor source";
      DeSerialize_sources n' (acc ++ [source]) in_
  end.

Fixpoint DeSerialize_seqnos (n : nat) (acc : list SequenceNumber)
    (in_ : Slice) : result (list SequenceNumber) :=
  match n with
  | O => OK acc in_
  | S n' =>
      get! (seqno, in_) := GetVarint64 in_ else "Bad cursor seqno";
      DeSerialize_seqnos n' (acc ++ [seqno]) in_
  end.

(** [v.resize(num_cursors)] and the two loops that assign every
    [v[i].source], then every [v[i].seqno]: on the OK path the vector holds
    exactly the cursors read. The [resize] is taken to return; with a
    count that the vector cannot be resized to, the C++ function throws
    before the first loop, where this one reports the first cursor as
    missing. *)
Definition DeSerialize (num_cursors : Z) (in_ : Slice)
    : result (list Cursor) :=
  base! (sources, in_) := DeSerialize_sources (Z.to_nat num_cursors) [] in_;
  base! (seqnos, in_) := DeSerialize_seqnos (Z.to_nat num_cursors) [] in_;
  OK (zip_with mkCursor sources seqnos) in_.

Definition WellFormed_Cursor (c : Cursor) : Prop :=
  Z.of_nat (length (source c)) < 2 ^ 32 /\ 0 <= seqno c < 2 ^ 64.

Definition WellFormed (v : list Cursor) : Prop :=
  Z.of_nat (length v) < 2 ^ 64 /\ Forall WellFormed_Cursor v.

End Cursors.

Module MessageSubscribe.
Import Wire Cursors.

Record t := mk {
  base : Message.t;
  namespace_id_ : NamespaceID;
  topic_name_ : Topic;
  sub_id_ : SubscriptionID;
  start_ : list Cursor
}.

Definition Serialize `{WireFormat} (m : t) (out : list byte) : list byte :=
  let out := Message.Serialize (base m) out in
  let out := PutTopicID out (namespace_id_ m) (topic_name_ m) in
  let out :=
    match start_ m with
    | cursor :: _ => PutVarint64 out (seqno cursor)
    | [] => PutVarint64 out 0
    end in
  let out := EncodeSubscriptionID out (sub_id_ m) in
  let num_cursors := Z.of_nat (length (start_ m)) in
  let out := PutVarint64 out num_cursors in
  let out := Serialize_sources (start_ m) out in
  let out := Serialize_seqnos (start_ m) out in
  out.

Definition DeSerialize `{WireFormat} (self : t) (in_ : Slice) : result t :=
  base! (base, in_) := Message.DeSerialize in_;
  get! (id, in_) := GetTopicID in_ else "Bad NamespaceID and/or TopicName";
  get! (start_seqno, in_) := GetVarint64 in_ else "Bad SequenceNumber";
  get! (sub_id_, in_) := DecodeSubscriptionID in_ else "Bad SubscriptionID";
  match GetVarint64 in_ with
  | Some (num_cursors, in_) =>
      base! (start_, in_) := Cursors.DeSerialize num_cursors in_;
      OK (mk base id.1 id.2 sub_id_ start_) in_
  | None =>
      (* old message format: start_.emplace_back("", start_seqno) *)
      OK (mk base id.1 id.2 sub_id_ (start_ self ++ [mkCursor [] start_seqno]))
         in_
  end.

(** Modelled from the spec: [GetStartSequenceNumber()] is declared in
    messages.h, which is not among the sources; it is the legacy seqno that
    [Serialize] writes: the seqno of the first cursor, 0 without one. *)
Definition GetStartSequenceNumber (m : t) : SequenceNumber :=
  match start_ m with
  | cursor :: _ => seqno cursor
  | [] => 0
  end.

Definition WellFormed (m : t) : Prop :=
  Message.WellFormed (base m) /\
  Z.of_nat (length (namespace_id_ m)) < 2 ^ 32 /\
  Z.of_nat (length (topic_name_ m)) < 2 ^ 32 /\
  0 <= sub_id_ m < 2 ^ 64 /\
  Cursors.WellFormed (start_ m).

End MessageSubscribe.

Module MessageUnsubscribe.
Import Wire.

Record t := mk {
  base : Message.t;
  sub_id_ : SubscriptionID;
  reason_ : Z;
  namespace_id_ : NamespaceID;
  topic_name_ : Topic
}.

Definition Serialize `{WireFormat} (m : t) (out : list byte) : list byte :=
  let out := Message.Serialize (base m) out in
  let out := EncodeSubscriptionID out (sub_id_ m) in
  let out := PutFixedEnum8 out (reason_ m) in
  let out := PutTopicID out (namespace_id_ m) (topic_name_ m) in
  out.

Definition DeSerialize `{WireFormat} (in_ : Slice) : result t :=
  base! (base, in_) := Message.DeSerialize in_;
  get! (sub_id_, in_) := DecodeSubscriptionID in_ else "Bad SubscriptionID";
  get! (reason_, in_) := GetFixedEnum8 in_ else "Bad Reason";
  match GetTopicID in_ with
  | Some (id, in_) => OK (mk base sub_id_ reason_ id.1 id.2) in_
  | None =>
      (* allowed for backwards compatibility: both are cleared *)
      OK (mk base sub_id_ reason_ [] []) in_
  end.

Definition WellFormed (m : t) : Prop :=
  Message.WellFormed (base m) /\ 0 <= sub_id_ m < 2 ^ 64 /\
  0 <= reason_ m < 2 ^ 8 /\
  Z.of_nat (length (namespace_id_ m)) < 2 ^ 32 /\
  Z.of_nat (length (topic_name_ m)) < 2 ^ 32.

End MessageUnsubscribe.

Module MessageDeliver.
Import Wire.

Record t := mk {
  base : Message.t;
  sub_id_ : SubscriptionID;
  seqno_prev_ : SequenceNumber;
  seqno_ : SequenceNumber
}.

(** [RS_ASSERT(seqno_ >= seqno_prev_)] in [Serialize] and in
    [DeSerialize]. *)
Definition asserted (m : t) : Prop := seqno_prev_ m <= seqno_ m.

Definition Serialize `{WireFormat} (m : t) (out : list byte) : list byte :=
  let out := Message.Serialize (base m) out in
  let out := EncodeSubscriptionID out (sub_id_ m) in
  let out := PutVarint64 out (seqno_prev_ m) in
  let seqno_diff := uint64 (seqno_ m - seqno_prev_ m) in
  let out := PutVarint64 out seqno_diff in
  out.

Definition DeSerialize `{WireFormat} (in_ : Slice) : result t :=
  base! (base, in_) := Message.DeSerialize in_;
  get! (sub_id_, in_) := DecodeSubscriptionID in_ else "Bad SubscriptionID";
  get! (seqno_prev_, in_) := GetVarint64 in_
    else "Bad previous SequenceNumber";
  get! (seqno_diff, in_) := GetVarint64 in_
    else "Bad difference between SequenceNumbers";
  let seqno_ := uint64 (seqno_prev_ + seqno_diff) in
  OK (mk base sub_id_ seqno_prev_ seqno_) in_.

Definition WellFormed (m : t) : Prop :=
  Message.WellFormed (base m) /\ 0 <= sub_id_ m < 2 ^ 64 /\
  0 <= seqno_prev_ m < 2 ^ 64 /\ 0 <= seqno_ m < 2 ^ 64.

End MessageDeliver.

Module MessageDeliverGap.
Import Wire.

Record t := mk {
  deliver : MessageDeliver.t;
  gap_type_ : Z;
  namespace_id_ : NamespaceID;
  topic_ : Topic;
  source_ : list byte
}.

Definition Serialize `{WireFormat} (m : t) (out : list byte) : list byte :=
  let out := MessageDeliver.Serialize (deliver m) out in
  let out := PutFixedEnum8 out (gap_type_ m) in
  let out := PutTopicID out (namespace_id_ m) (topic_ m) in
  let out := PutLengthPrefixedSlice out (source_ m) in
  out.

Definition DeSerialize `{WireFormat} (self : t) (in_ : Slice) : result t :=
  base! (deliver, in_) := MessageDeliver.DeSerialize in_;
  get! (gap_type_, in_) := GetFixedEnum8 in_ else "Bad GapType";
  let '(namespace_id_, topic_, in_) :=
    match GetTopicID in_ with
    | Some (id, in_) => (id.1, id.2, in_)
    | None => ([], [], in_)   (* OK, for backwards compat: cleared *)
    end in
  let '(source_, in_) :=
    match GetLengthPrefixedSlice in_ with
    | Some (source_, in_) => (source_, in_)
    | None => (source_ self, in_)   (* OK, for backwards compat *)
    end in
  OK (mk deliver gap_type_ namespace_id_ topic_ source_) in_.

Definition WellFormed (m : t) : Prop :=
  MessageDeliver.WellFormed (deliver m) /\ 0 <= gap_type_ m < 2 ^ 8 /\
  Z.of_nat (length (namespace_id_ m)) < 2 ^ 32 /\
  Z.of_nat (length (topic_ m)) < 2 ^ 32 /\
  Z.of_nat (length (source_ m)) < 2 ^ 32.

End MessageDeliverGap.

Module MessageSubAck.
Import Wire Cursors.

Record t := mk {
  base : Message.t;
  namespace_id_ : NamespaceID;
  topic_ : Topic;
  sub_id_ : SubscriptionID;
  cursors_ : list Cursor
}.

Definition Serialize `{WireFormat} (m : t) (out : list byte) : list byte :=
  let out := Message.Serialize (base m) out in
  let out := PutTopicID out (namespace_id_ m) (topic_ m) in
  let out := EncodeSubscriptionID out (sub_id_ m) in
  let num_cursors := Z.of_nat (length (cursors_ m)) in
  let out := PutVarint64 out num_cursors in
  let out := Serialize_sources (cursors_ m) out in
  let out := Serialize_seqnos (cursors_ m) out in
  out.

Definition DeSerialize `{WireFormat} (self : t) (in_ : Slice) : result t :=
  base! (base, in_) := Message.DeSerialize in_;
  get! (id, in_) := GetTopicID in_ else "Bad NamespaceID and/or TopicName";
  get! (sub_id_, in_) := DecodeSubscriptionID in_ else "Bad SubscriptionID";
  match GetVarint64 in_ with
  | Some (num_cursors, in_) =>
      base! (cursors_, in_) := Cursors.DeSerialize num_cursors in_;
      OK (mk base id.1 id.2 sub_id_ cursors_) in_
  | None => OK (mk base id.1 id.2 sub_id_ (cursors_ self)) in_
  end.

Definition WellFormed (m : t) : Prop :=
  Message.WellFormed (base m) /\
  Z.of_nat (length (namespace_id_ m)) < 2 ^ 32 /\
  Z.of_nat (length (topic_ m)) < 2 ^ 32 /\
  0 <= sub_id_ m < 2 ^ 64 /\
  Cursors.WellFormed (cursors_ m).

End MessageSubAck.

Module MessageDeliverData.
Import Wire.

Record t := mk {
  deliver : MessageDeliver.t;
  message_id_ : MsgId;
  payload_ : list byte;
  namespace_id_ : NamespaceID;
  topic_ : Topic;
  source_ : list byte
}.

Definition Serialize `{WireFormat} (m : t) (out : list byte) : list byte :=
  let out := MessageDeliver.Serialize (deliver m) out in
  let out := PutLengthPrefixedSlice out (message_id_ m) in
  let out := PutLengthPrefixedSlice out (payload_ m) in
  let out := PutTopicID out (namespace_id_ m) (topic_ m) in
  let out := PutLengthPrefixedSlice out (source_ m) in
  out.

Definition DeSerialize `{WireFormat} (self : t) (in_ : Slice) : result t :=
  base! (deliver, in_) := MessageDeliver.DeSerialize in_;
  get! (id_slice, in_) := GetLengthPrefixedSlice in_ else "Bad Message ID";
  if decide (length id_slice < 16)%nat then InvalidArgument "Bad Message ID"
  else
    let message_id_ := take 16 id_slice in
    get! (payload_, in_) := GetLengthPrefixedSlice in_ else "Bad payload";
    let '(namespace_id_, topic_, in_) :=
      match GetTopicID in_ with
      | Some (id, in_) => (id.1, id.2, in_)
      | None => ([], [], in_)   (* OK, for backwards compat: cleared *)
      end in
    let '(source_, in_) :=
      match GetLengthPrefixedSlice in_ with
      | Some (source_, in_) => (source_, in_)
      | None => (source_ self, in_)   (* OK, for backwards compat *)
      end in
    OK (mk deliver message_id_ payload_ namespace_id_ topic_ source_) in_.

(** Modelled from the spec: the object [new MessageDeliverData()] that
    [MessageDeliverBatch::DeSerialize] fills in; the constructor is in
    messages.h, which is not among the sources. Every member but [source_]
    is assigned before the batch returns OK; a [std::string] starts empty. *)
Definition fresh : t :=
  mk (MessageDeliver.mk (Message.mk 0 0) 0 0 0) [] [] [] [] [].

Definition WellFormed (m : t) : Prop :=
  MessageDeliver.WellFormed (deliver m) /\
  length (message_id_ m) = 16%nat /\
  Z.of_nat (length (payload_ m)) < 2 ^ 32 /\
  Z.of_nat (length (namespace_id_ m)) < 2 ^ 32 /\
  Z.of_nat (length (topic_ m)) < 2 ^ 32 /\
  Z.of_nat (length (source_ m)) < 2 ^ 32.

End MessageDeliverData.

Module MessageDeliverBatch.
Import Wire.

Record t := mk { base : Message.t; messages_ : list MessageDeliverData.t }.

Definition Serialize_messages `{WireFormat}
    (messages : list MessageDeliverData.t) (out : list byte) : list byte :=
  foldl (fun out msg =>
           let one := MessageDeliverData.Serialize msg [] in
           PutLengthPrefixedSlice out one) out messages.

Definition Serialize `{WireFormat} (m : t) (out : list byte) : list byte :=
  let out := Message.Serialize (base m) out in
  let out := PutVarint64 out (Z.of_nat (length (messages_ m))) in
  Serialize_messages (messages_ m) out.

(** [for (size_t i = 0; i < len; ++i)], with [n] sub-messages still to
    read. *)
Fixpoint DeSerialize_messages `{WireFormat} (n : nat)
    (messages_ : list MessageDeliverData.t) (in_ : Slice)
    : result (list MessageDeliverData.t) :=
  match n with
  | O => OK messages_ in_
  | S n' =>
      get! (one, in_) := GetLengthPrefixedSlice in_ else "Bad sub-message";
      base! (msg, _one) :=
        MessageDeliverData.DeSerialize MessageDeliverData.fresh one;
      DeSerialize_messages n' (messages_ ++ [msg]) in_
  end.

(** [messages_.clear(); messages_.reserve(len);] then the loop; the
    [reserve] is taken to return. *)
Definition DeSerialize `{WireFormat} (in_ : Slice) : result t :=
  base! (base, in_) := Message.DeSerialize in_;
  get! (len, in_) := GetVarint64 in_ else "Bad Messages count";
  base! (messages_, in_) := DeSerialize_messages (Z.to_nat len) [] in_;
  OK (mk base messages_) in_.

(** A sub-message travels as a length-prefixed slice, so its encoding has
    to fit the 32-bit length. *)
Definition WellFormed_message `{WireFormat} (msg : MessageDeliverData.t)
    : Prop :=
  MessageDeliverData.WellFormed msg /\
  Z.of_nat (length (MessageDeliverData.Serialize msg [])) < 2 ^ 32.

Definition WellFormed `{WireFormat} (m : t) : Prop :=
  Message.WellFormed (base m) /\
  Z.of_nat (length (messages_ m)) < 2 ^ 64 /\
  Forall WellFormed_message (messages_ m).

End MessageDeliverBatch.

(** A [Clock::time_point] is the count of [Clock::duration] ticks since the
    epoch. *)
Abbreviation time_point := (Z) (only parsing).

Module MessageHeartbeat.
Import Wire.

Record t := mk {
  base : Message.t;
  timestamp_ : time_point;
  healthy_streams_ : list Z
}.

(** [duration_cast<milliseconds>(timestamp_.time_since_epoch()).count()],
    stored in a [uint64_t]: the cast truncates towards zero. *)
Definition source_ms `{WireFormat} (timestamp : time_point) : Z :=
  uint64 (Z.quot timestamp ticks_per_ms).

(** [Clock::duration since_source = std::chrono::milliseconds(source_ms);
    timestamp_ = Clock::time_point(since_source);]
    The [uint64_t] becomes the signed 64-bit count of a [milliseconds], and
    the conversion to [Clock::duration] multiplies that count by the ticks
    in a millisecond, in the signed 64-bit count of the clock. *)
Definition since_source `{WireFormat} (source_ms : Z) : time_point :=
  int64 (int64 source_ms * ticks_per_ms).

Definition Serialize_shards (shards : list Z) (out : list byte) : list byte :=
  foldl (fun out shard => PutVarint32 out shard) out shards.

Definition Serialize `{WireFormat} (m : t) (out : list byte) : list byte :=
  let out := PutFixedEnum8 out (Message.type_ (base m)) in
  let out := PutFixed16 out (Message.tenantid_ (base m)) in
  let out := PutFixed64 out (source_ms (timestamp_ m)) in
  Serialize_shards (healthy_streams_ m) out.

(** [while (GetVarint32(in, &shard)) healthy_streams_.push_back(shard);]
    Every successful read consumes a byte, so [length in_ + 1] iterations
    reach the read that fails. *)
Fixpoint DeSerialize_shards (fuel : nat) (healthy_streams_ : list Z)
    (in_ : Slice) : list Z * Slice :=
  match fuel with
  | O => (healthy_streams_, in_)
  | S fuel' =>
      match GetVarint32 in_ with
      | Some (shard, in_) =>
          DeSerialize_shards fuel' (healthy_streams_ ++ [shard]) in_
      | None => (healthy_streams_, in_)
      end
  end.

Definition DeSerialize `{WireFormat} (self : t) (in_ : Slice) : result t :=
  get! (type_, in_) := GetFixedEnum8 in_ else "Bad type";
  get! (tenantid_, in_) := GetFixed16 in_ else "Bad tenant ID";
  if decide (length in_ = 0%nat) then
    (* for backwards compatibility *)
    OK (mk (Message.mk type_ tenantid_) (timestamp_ self)
           (healthy_streams_ self)) in_
  else
    get! (source_ms, in_) := GetFixed64 in_ else "Bad timestamp";
    let timestamp_ := since_source source_ms in
    let '(healthy_streams_, in_) :=
      DeSerialize_shards (S (length in_)) (healthy_streams_ self) in_ in
    OK (mk (Message.mk type_ tenantid_) timestamp_ healthy_streams_) in_.

(** A [Clock::time_point] holds a signed 64-bit count of ticks. *)
Definition WellFormed_timestamp (ts : time_point) : Prop :=
  - 2 ^ 63 <= ts < 2 ^ 63.

(** The time point with what is below a millisecond dropped, towards the
    epoch: what [Serialize] writes of it. *)
Definition whole_ms `{WireFormat} (ts : time_point) : time_point :=
  Z.quot ts ticks_per_ms * ticks_per_ms.

Definition sent `{WireFormat} (m : t) : t :=
  mk (base m) (whole_ms (timestamp_ m)) (healthy_streams_ m).

Definition WellFormed (m : t) : Prop :=
  Message.WellFormed (base m) /\ WellFormed_timestamp (timestamp_ m) /\
  Forall (fun shard => 0 <= shard < 2 ^ 32) (healthy_streams_ m).

End MessageHeartbeat.

Module MessageHeartbeatDelta.
Import Wire.

Record t := mk {
  base : Message.t;
  timestamp_ : time_point;
  added_healthy_ : list Z;
  removed_healthy_ : list Z
}.

(** [while (num--) { GetVarint32(in, &shard); v.push_back(shard); }] *)
Fixpoint DeSerialize_shards (num : nat) (what : string) (v : list Z)
    (in_ : Slice) : result (list Z) :=
  match num with
  | O => OK v in_
  | S num' =>
      get! (shard, in_) := GetVarint32 in_ else what;
      DeSerialize_shards num' what (v ++ [shard]) in_
  end.

Definition Serialize `{WireFormat} (m : t) (out : list byte) : list byte :=
  let out := PutFixedEnum8 out (Message.type_ (base m)) in
  let out := PutFixed16 out (Message.tenantid_ (base m)) in
  let out := PutFixed64 out (MessageHeartbeat.source_ms (timestamp_ m)) in
  let out := PutVarint64 out (Z.of_nat (length (added_healthy_ m))) in
  let out := MessageHeartbeat.Serialize_shards (added_healthy_ m) out in
  let out := PutVarint64 out (Z.of_nat (length (removed_healthy_ m))) in
  let out := MessageHeartbeat.Serialize_shards (removed_healthy_ m) out in
  out.

(** The two vectors are only appended to; [added_healthy_.reserve(num_added)]
    and [removed_healthy_.reserve(num_removed)] are taken to return. *)
Definition DeSerialize `{WireFormat} (self : t) (in_ : Slice) : result t :=
  get! (type_, in_) := GetFixedEnum8 in_ else "Bad type";
  get! (tenantid_, in_) := GetFixed16 in_ else "Bad tenant ID";
  get! (source_ms, in_) := GetFixed64 in_ else "Bad timestamp";
  let timestamp_ := MessageHeartbeat.since_source source_ms in
  get! (num_added, in_) := GetVarint64 in_ else "Bad num_added";
  base! (added_healthy_, in_) :=
    DeSerialize_shards (Z.to_nat num_added) "Bad added shard"
      (added_healthy_ self) in_;
  get! (num_removed, in_) := GetVarint64 in_ else "Bad num_removed";
  base! (removed_healthy_, in_) :=
    DeSerialize_shards (Z.to_nat num_removed) "Bad removed shard"
      (removed_healthy_ self) in_;
  OK (mk (Message.mk type_ tenantid_) timestamp_ added_healthy_
         removed_healthy_) in_.

Definition sent `{WireFormat} (m : t) : t :=
  mk (base m) (MessageHeartbeat.whole_ms (timestamp_ m)) (added_healthy_ m)
     (removed_healthy_ m).

Definition WellFormed (m : t) : Prop :=
  Message.WellFormed (base m) /\
  MessageHeartbeat.WellFormed_timestamp (timestamp_ m) /\
  Z.of_nat (length (added_healthy_ m)) < 2 ^ 64 /\
  Forall (fun shard => 0 <= shard < 2 ^ 32) (added_healthy_ m) /\
  Z.of_nat (length (removed_healthy_ m)) < 2 ^ 64 /\
  Forall (fun shard => 0 <= shard < 2 ^ 32) (removed_healthy_ m).

End MessageHeartbeatDelta.

Module MessageBacklogQuery.
Import Wire.

Record t := mk {
  base : Message.t;
  sub_id_ : SubscriptionID;
  namespace_id_ : NamespaceID;
  topic_ : Topic;
  source_ : list byte;
  seqno_ : SequenceNumber
}.

Definition Serialize `{WireFormat} (m : t) (out : list byte) : list byte :=
  let out := PutFixedEnum8 out (Message.type_ (base m)) in
  let out := PutFixed16 out (Message.tenantid_ (base m)) in
  let out := EncodeSubscriptionID out (sub_id_ m) in
  let out := PutTopicID out (namespace_id_ m) (topic_ m) in
  let out := PutLengthPrefixedSlice out (source_ m) in
  let out := PutVarint64 out (seqno_ m) in
  out.

Definition DeSerialize `{WireFormat} (in_ : Slice) : result t :=
  get! (type_, in_) := GetFixedEnum8 in_ else "Bad type";
  get! (tenantid_, in_) := GetFixed16 in_ else "Bad tenant ID";
  get! (sub_id_, in_) := DecodeSubscriptionID in_ else "Bad sub ID";
  get! (id, in_) := GetTopicID in_ else "Bad namespace and/or topic";
  get! (source_, in_) := GetLengthPrefixedSlice in_ else "Bad source";
  get! (seqno_, in_) := GetVarint64 in_ else "Bad seqno";
  OK (mk (Message.mk type_ tenantid_) sub_id_ id.1 id.2 source_ seqno_) in_.

Definition WellFormed (m : t) : Prop :=
  Message.WellFormed (base m) /\ 0 <= sub_id_ m < 2 ^ 64 /\
  Z.of_nat (length (namespace_id_ m)) < 2 ^ 32 /\
  Z.of_nat (length (topic_ m)) < 2 ^ 32 /\
  Z.of_nat (length (source_ m)) < 2 ^ 32 /\
  0 <= seqno_ m < 2 ^ 64.

End MessageBacklogQuery.

Module MessageBacklogFill.
Import Wire.

Record t := mk {
  base : Message.t;
  namespace_id_ : NamespaceID;
  topic_ : Topic;
  source_ : list byte;
  prev_seqno_ : SequenceNumber;
  next_seqno_ : SequenceNumber;
  result_ : Z;
  info_ : list byte
}.

Definition Serialize `{WireFormat} (m : t) (out : list byte) : list byte :=
  let out := PutFixedEnum8 out (Message.type_ (base m)) in
  let out := PutFixed16 out (Message.tenantid_ (base m)) in
  let out := PutTopicID out (namespace_id_ m) (topic_ m) in
  let out := PutLengthPrefixedSlice out (source_ m) in
  let out := PutVarint64 out (prev_seqno_ m) in
  let out := PutVarint64 out (next_seqno_ m) in
  let out := PutFixedEnum8 out (result_ m) in
  let out := PutLengthPrefixedSlice out (info_ m) in
  out.

Definition DeSerialize `{WireFormat} (in_ : Slice) : result t :=
  get! (type_, in_) := GetFixedEnum8 in_ else "Bad type";
  get! (tenantid_, in_) := GetFixed16 in_ else "Bad tenant ID";
  get! (id, in_) := GetTopicID in_ else "Bad namespace and/or topic";
  get! (source_, in_) := GetLengthPrefixedSlice in_ else "Bad source";
  get! (prev_seqno_, in_) := GetVarint64 in_ else "Bad prev seqno";
  get! (next_seqno_, in_) := GetVarint64 in_ else "Bad next seqno";
  get! (result_, in_) := GetFixedEnum8 in_ else "Bad result";
  let '(info_, in_) :=
    match GetLengthPrefixedSlice in_ with
    | Some (info_, in_) => (info_, in_)
    | None => ([], in_)   (* info may not be there: cleared *)
    end in
  OK (mk (Message.mk type_ tenantid_) id.1 id.2 source_ prev_seqno_
         next_seqno_ result_ info_) in_.

Definition WellFormed (m : t) : Prop :=
  Message.WellFormed (base m) /\
  Z.of_nat (length (namespace_id_ m)) < 2 ^ 32 /\
  Z.of_nat (length (topic_ m)) < 2 ^ 32 /\
  Z.of_nat (length (source_ m)) < 2 ^ 32 /\
  0 <= prev_seqno_ m < 2 ^ 64 /\ 0 <= next_seqno_ m < 2 ^ 64 /\
  0 <= result_ m < 2 ^ 8 /\
  Z.of_nat (length (info_ m)) < 2 ^ 32.

End MessageBacklogFill.

Module MessageIntroduction.
Import Wire.

(** [std::unordered_map<std::string, std::string>] *)
Abbreviation Properties := (gmap (list byte) (list byte)) (only parsing).

Record t := mk {
  base : Message.t;
  stream_properties_ : Properties;
  client_properties_ : Properties
}.

(** [for (info : properties) { Put(info.first); Put(info.second); }]; the
    order in which an unordered map is walked is not specified, the model
    walks it in the order of [map_to_list]. *)
Definition Serialize_properties (properties : Properties) (out : list byte)
    : list byte :=
  foldl (fun out (info : list byte * list byte) =>
           let out := PutLengthPrefixedSlice out info.1 in
           let out := PutLengthPrefixedSlice out info.2 in
           out) out (map_to_list properties).

Definition Serialize `{WireFormat} (m : t) (out : list byte) : list byte :=
  let out := Message.Serialize (base m) out in
  let out :=
    PutVarint64 out (Z.of_nat (size (stream_properties_ m))) in
  let out := Serialize_properties (stream_properties_ m) out in
  let out :=
    PutVarint64 out (Z.of_nat (size (client_properties_ m))) in
  let out := Serialize_properties (client_properties_ m) out in
  out.

(** [map.emplace(key, value)]: no effect when the key is present. *)
Definition emplace (key value : list byte) (properties : Properties)
    : Properties :=
  match properties !! key with
  | Some _ => properties
  | None => <[key := value]> properties
  end.

Fixpoint DeSerialize_properties (n : nat) (properties : Properties)
    (in_ : Slice) : result Properties :=
  match n with
  | O => OK properties in_
  | S n' =>
      get! (key, in_) := GetLengthPrefixedSlice in_ else "Bad property key";
      get! (value, in_) := GetLengthPrefixedSlice in_
        else "Bad property value";
      DeSerialize_properties n' (emplace key value properties) in_
  end.

(** Each map is cleared, then [reserve]d for the count read, which is
    taken to return, then filled. *)
Definition DeSerialize `{WireFormat} (in_ : Slice) : result t :=
  base! (base, in_) := Message.DeSerialize in_;
  get! (len_stream, in_) := GetVarint64 in_ else "Bad Properties count";
  base! (stream_properties_, in_) :=
    DeSerialize_properties (Z.to_nat len_stream) ∅ in_;
  get! (len_client, in_) := GetVarint64 in_ else "Bad Properties count";
  base! (client_properties_, in_) :=
    DeSerialize_properties (Z.to_nat len_client) ∅ in_;
  OK (mk base stream_properties_ client_properties_) in_.

Definition WellFormed_properties (properties : Properties) : Prop :=
  Z.of_nat (size properties) < 2 ^ 64 /\
  map_Forall (fun key value =>
                Z.of_nat (length key) < 2 ^ 32 /\
                Z.of_nat (length value) < 2 ^ 32) properties.

Definition WellFormed (m : t) : Prop :=
  Message.WellFormed (base m) /\
  WellFormed_properties (stream_properties_ m) /\
  WellFormed_properties (client_properties_ m).

End MessageIntroduction.

(** ** Every message kind behind one interface

    [Serialize] and [DeSerialize] are virtual: the class of the object
    picks the pair. [self] is the object [DeSerialize] is called on, as
    [Message::CreateNewInstance] does with a newly constructed one. *)

Module Codec.

Inductive AnyMessage : Type :=
| Ping (m : MessagePing.t)
| Data (m : MessageData.t)
| DataAck (m : MessageDataAck.t)
| Gap (m : MessageGap.t)
| Goodbye (m : MessageGoodbye.t)
| Subscribe (m : MessageSubscribe.t)
| Unsubscribe (m : MessageUnsubscribe.t)
| Deliver (m : MessageDeliver.t)
| DeliverGap (m : MessageDeliverGap.t)
| DeliverData (m : MessageDeliverData.t)
| DeliverBatch (m : MessageDeliverBatch.t)
| Heartbeat (m : MessageHeartbeat.t)
| HeartbeatDelta (m : MessageHeartbeatDelta.t)
| FindTailSeqno (m : MessageFindTailSeqno.t)
| TailSeqno (m : MessageTailSeqno.t)
| BacklogQuery (m : MessageBacklogQuery.t)
| BacklogFill (m : MessageBacklogFill.t)
| Introduction (m : MessageIntroduction.t)
| SubAck (m : MessageSubAck.t).

Definition Serialize `{WireFormat} (m : AnyMessage) : list byte :=
  match m with
  | Ping m => MessagePing.Serialize m []
  | Data m => MessageData.Serialize m []
  | DataAck m => MessageDataAck.Serialize m []
  | Gap m => MessageGap.Serialize m []
  | Goodbye m => MessageGoodbye.Serialize m []
  | Subscribe m => MessageSubscribe.Serialize m []
  | Unsubscribe m => MessageUnsubscribe.Serialize m []
  | Deliver m => MessageDeliver.Serialize m []
  | DeliverGap m => MessageDeliverGap.Serialize m []
  | DeliverData m => MessageDeliverData.Serialize m []
  | DeliverBatch m => MessageDeliverBatch.Serialize m []
  | Heartbeat m => MessageHeartbeat.Serialize m []
  | HeartbeatDelta m => MessageHeartbeatDelta.Serialize m []
  | FindTailSeqno m => MessageFindTailSeqno.Serialize m []
  | TailSeqno m => MessageTailSeqno.Serialize m []
  | BacklogQuery m => MessageBacklogQuery.Serialize m []
  | BacklogFill m => MessageBacklogFill.Serialize m []
  | Introduction m => MessageIntroduction.Serialize m []
  | SubAck m => MessageSubAck.Serialize m []
  end.

Definition upcast {A} (inj : A -> AnyMessage) (r : result A)
    : result AnyMessage :=
  match r with
  | OK obj rest => OK (inj obj) rest
  | InvalidArgument what => InvalidArgument what
  end.

Definition DeSerialize `{WireFormat} (self : AnyMessage) (in_ : Slice)
    : result AnyMessage :=
  match self with
  | Ping _ => upcast Ping (MessagePing.DeSerialize in_)
  | Data self => upcast Data (MessageData.DeSerialize self in_)
  | DataAck self => upcast DataAck (MessageDataAck.DeSerialize self in_)
  | Gap _ => upcast Gap (MessageGap.DeSerialize in_)
  | Goodbye _ => upcast Goodbye (MessageGoodbye.DeSerialize in_)
  | Subscribe self => upcast Subscribe (MessageSubscribe.DeSerialize self in_)
  | Unsubscribe _ => upcast Unsubscribe (MessageUnsubscribe.DeSerialize in_)
  | Deliver _ => upcast Deliver (MessageDeliver.DeSerialize in_)
  | DeliverGap self =>
      upcast DeliverGap (MessageDeliverGap.DeSerialize self in_)
  | DeliverData self =>
      upcast DeliverData (MessageDeliverData.DeSerialize self in_)
  | DeliverBatch _ => upcast DeliverBatch (MessageDeliverBatch.DeSerialize in_)
  | Heartbeat self => upcast Heartbeat (MessageHeartbeat.DeSerialize self in_)
  | HeartbeatDelta self =>
      upcast HeartbeatDelta (MessageHeartbeatDelta.DeSerialize self in_)
  | FindTailSeqno _ =>
      upcast FindTailSeqno (MessageFindTailSeqno.DeSerialize in_)
  | TailSeqno _ => upcast TailSeqno (MessageTailSeqno.DeSerialize in_)
  | BacklogQuery _ => upcast BacklogQuery (MessageBacklogQuery.DeSerialize in_)
  | BacklogFill _ => upcast BacklogFill (MessageBacklogFill.DeSerialize in_)
  | Introduction _ => upcast Introduction (MessageIntroduction.DeSerialize in_)
  | SubAck self => upcast SubAck (MessageSubAck.DeSerialize self in_)
  end.

(** The object [DeSerialize] runs on is of the class of [m], and newly
    constructed: the vectors that [DeSerialize] only appends to are
    empty. *)
Definition fresh_for (self m : AnyMessage) : Prop :=
  match self, m with
  | Ping _, Ping _ | Data _, Data _ | Gap _, Gap _ | Goodbye _, Goodbye _
  | Subscribe _, Subscribe _ | Unsubscribe _, Unsubscribe _
  | Deliver _, Deliver _ | DeliverGap _, DeliverGap _
  | DeliverData _, DeliverData _ | DeliverBatch _, DeliverBatch _
  | FindTailSeqno _, FindTailSeqno _ | TailSeqno _, TailSeqno _
  | BacklogQuery _, BacklogQuery _ | BacklogFill _, BacklogFill _
  | Introduction _, Introduction _ | SubAck _, SubAck _ => True
  | DataAck self, DataAck _ => MessageDataAck.acks_ self = []
  | Heartbeat self, Heartbeat _ => MessageHeartbeat.healthy_streams_ self = []
  | HeartbeatDelta self, HeartbeatDelta _ =>
      MessageHeartbeatDelta.added_healthy_ self = [] /\
      MessageHeartbeatDelta.removed_healthy_ self = []
  | _, _ => False
  end.

(** A well-formed message: every member fits the width of its C++ type
    (and of its length prefix on the wire), and a [MsgId] has its 16
    bytes. *)
Definition WellFormed `{WireFormat} (m : AnyMessage) : Prop :=
  match m with
  | Ping m => MessagePing.WellFormed m
  | Data m => MessageData.WellFormed m
  | DataAck m => MessageDataAck.WellFormed m
  | Gap m => MessageGap.WellFormed m
  | Goodbye m => MessageGoodbye.WellFormed m
  | Subscribe m => MessageSubscribe.WellFormed m
  | Unsubscribe m => MessageUnsubscribe.WellFormed m
  | Deliver m => MessageDeliver.WellFormed m
  | DeliverGap m => MessageDeliverGap.WellFormed m
  | DeliverData m => MessageDeliverData.WellFormed m
  | DeliverBatch m => MessageDeliverBatch.WellFormed m
  | Heartbeat m => MessageHeartbeat.WellFormed m
  | HeartbeatDelta m => MessageHeartbeatDelta.WellFormed m
  | FindTailSeqno m => MessageFindTailSeqno.WellFormed m
  | TailSeqno m => MessageTailSeqno.WellFormed m
  | BacklogQuery m => MessageBacklogQuery.WellFormed m
  | BacklogFill m => MessageBacklogFill.WellFormed m
  | Introduction m => MessageIntroduction.WellFormed m
  | SubAck m => MessageSubAck.WellFormed m
  end.

(** What the wire carries of a message: all of it, but of the timestamp of
    a heartbeat only the whole milliseconds. *)
Definition sent `{WireFormat} (m : AnyMessage) : AnyMessage :=
  match m with
  | Heartbeat m => Heartbeat (MessageHeartbeat.sent m)
  | HeartbeatDelta m => HeartbeatDelta (MessageHeartbeatDelta.sent m)
  | _ => m
  end.

(** The timestamp of a heartbeat is a whole number of milliseconds; the
    other messages have none. *)
Definition in_milliseconds `{WireFormat} (m : AnyMessage) : Prop :=
  match m with
  | Heartbeat m =>
      Z.rem (MessageHeartbeat.timestamp_ m) ticks_per_ms = 0
  | HeartbeatDelta m =>
      Z.rem (MessageHeartbeatDelta.timestamp_ m) ticks_per_ms = 0
  | _ => True
  end.

(** *** An instance of the layout left open

    Little-endian fixed-width integers, a subscription ID written as a
    varint64, and a clock that ticks in nanoseconds. The codec is run on
    concrete messages with it. *)

Definition fixed_bytes (n : nat) (v : Z) : list byte :=
  Z_to_byte <$> Z_to_little_endian (Z.of_nat n) 8 v.

Definition get_fixed (n : nat) (in_ : Slice) : option (Z * Slice) :=
  if decide (n <= length in_)%nat then
    Some (little_endian_to_Z 8 (byte_to_Z <$> take n in_), drop n in_)
  else None.

#[export] Instance LittleEndian : WireFormat := {|
  Fixed16_bytes := fixed_bytes 2;
  GetFixed16 := get_fixed 2;
  Fixed64_bytes := fixed_bytes 8;
  GetFixed64 := get_fixed 8;
  SubscriptionID_bytes := Coding.EncodeVarint64;
  DecodeSubscriptionID := Coding.GetVarint64Ptr;
  ticks_per_ms := 1000000
|}.

End Codec.

(** ** client/topic_subscription_map.cc *)

Module TopicToSubscriptionMap.

(** [class SubscriptionState] (client/subscriber.h), without its observer:
    the tenant and namespace of the flyweight, the topic name and the next
    expected sequence number. *)
Record SubscriptionState := mkState {
  GetTenant : TenantID;
  GetNamespace : NamespaceID;
  GetTopicName : Topic;
  GetExpected : SequenceNumber
}.

(** Reserved subscription ID, that doesn't represent any valid
    subscription. *)
Definition kReservedSubscriptionID : SubscriptionID := 0.

Record t := mk {
  vector_ : list SubscriptionID;
  sub_count_low_ : Z;
  sub_count_high_ : Z;
  sub_count_ : Z
}.

(** The constructor: an empty vector and zeroed counters. *)
Definition empty : t := mk [] 0 0 0.

Definition size_t (x : Z) : Z := x mod 2 ^ 64.

Section with_environment.

(** [XXH64] (util/xxhash.h) is not among the sources: [XXH64 seed data] is
    the 64-bit digest of [data] under [seed]. Feeding the namespace and then
    the topic to the streaming interface digests their concatenation. *)
Variable XXH64 : Z -> list byte -> Z.

(** [get_state_]: the state of a subscription, [None] for the null
    pointer. *)
Variable get_state_ : SubscriptionID -> option SubscriptionState.

(** [FindOptimalPosition], for a vector of [size] slots. The C++ computes
    [hash % vector_.size()], undefined on an empty vector; every caller
    below checks the slot it reads, so an empty vector ends in [None]
    there. *)
Definition FindOptimalPosition (size : nat) (namespace_id : NamespaceID)
    (topic_name : Topic) : nat :=
  let seed := 0x57933c4a28a735b0 in
  let hash := size_t (XXH64 seed (namespace_id ++ topic_name)) in
  Z.to_nat (hash mod Z.of_nat size).

(** The [do { ... } while (position != optimal_position)] of [Find], at
    the top of an iteration. [None]: out of fuel, a slot out of range, or
    a null state. *)
Fixpoint Find_loop (fuel : nat) (vector_ : list SubscriptionID)
    (namespace_id : NamespaceID) (topic_name : Topic)
    (optimal_position position : nat)
    : option (SubscriptionID * option SubscriptionState) :=
  match fuel with
  | O => None
  | S fuel' =>
      sub_id ← vector_ !! position;
      if decide (sub_id = kReservedSubscriptionID) then
        (* Reached the gap. *)
        Some (kReservedSubscriptionID, None)
      else
        state ← get_state_ sub_id;
        if decide (GetTopicName state = topic_name /\
                   GetNamespace state = namespace_id) then
          (* Found the right subscription ID. *)
          Some (sub_id, Some state)
        else
          (* Namespace or topic don't match, move on. *)
          let position := ((position + 1) mod length vector_)%nat in
          if decide (position <> optimal_position) then
            Find_loop fuel' vector_ namespace_id topic_name optimal_position
              position
          else
            (* Went through entire vector and didn't find it. *)
            Some (kReservedSubscriptionID, None)
  end.

Definition Find (namespace_id : NamespaceID) (topic_name : Topic) (m : t)
    : option (SubscriptionID * option SubscriptionState) :=
  if decide (vector_ m = []) then Some (0, None)
  else
    let optimal_position :=
      FindOptimalPosition (length (vector_ m)) namespace_id topic_name in
    Find_loop (length (vector_ m)) (vector_ m) namespace_id topic_name
      optimal_position optimal_position.

(** The loop of [InsertInternal]; the result is the vector and the count. *)
Fixpoint InsertInternal_loop (fuel : nat) (vector_ : list SubscriptionID)
    (sub_count_ : Z) (sub_id : SubscriptionID)
    (optimal_position position : nat) : option (list SubscriptionID * Z) :=
  match fuel with
  | O => None
  | S fuel' =>
      current ← vector_ !! position;
      if decide (current = sub_id) then
        (* already inserted: RS_ASSERT(false); return; *)
        Some (vector_, sub_count_)
      else if decide (current = kReservedSubscriptionID) then
        Some (<[position := sub_id]> vector_, size_t (sub_count_ + 1))
      else
        let position := ((position + 1) mod length vector_)%nat in
        if decide (position <> optimal_position) then
          InsertInternal_loop fuel' vector_ sub_count_ sub_id
            optimal_position position
        else
          (* Failed to find a spot: RS_ASSERT(false); *)
          Some (vector_, sub_count_)
  end.

Definition InsertInternal (namespace_id : NamespaceID) (topic_name : Topic)
    (sub_id : SubscriptionID) (m : t) : option t :=
  let optimal_position :=
    FindOptimalPosition (length (vector_ m)) namespace_id topic_name in
  '(vector_', sub_count_') ←
    InsertInternal_loop (length (vector_ m)) (vector_ m) (sub_count_ m) sub_id
      optimal_position optimal_position;
  Some (mk vector_' (sub_count_low_ m) (sub_count_high_ m) sub_count_').

Definition NeedsRehash (m : t) : bool :=
  bool_decide (sub_count_low_ m > sub_count_ m \/
               sub_count_ m >= sub_count_high_ m).

Definition kMinSize : Z := 16.

(** The three conversions through [double] in [Rehash]. With
    [kLoadFLow = 0.25], [kLoadFHigh = 0.5] and [kLoadFOpt = 0.375] they are
    [count / 0.375], [new_size * 0.25] and [new_size * 0.5], truncated to
    [size_t]. For counts below [2^50] (every table that fits in memory) the
    double arithmetic yields exactly the truncated quotients written
    here. *)
Definition new_size_for (sub_count_ : Z) : Z := sub_count_ * 8 / 3.
Definition low_for (new_size : Z) : Z := new_size / 4.
Definition high_for (new_size : Z) : Z := new_size / 2.

(** [for (SubscriptionID sub_id : old_vector)]: reinsert every ID. *)
Fixpoint Rehash_reinsert (old_vector : list SubscriptionID) (m : t)
    : option t :=
  match old_vector with
  | [] => Some m
  | sub_id :: old_vector' =>
      if decide (sub_id <> kReservedSubscriptionID) then
        state ← get_state_ sub_id;
        m' ← InsertInternal (GetNamespace state) (GetTopicName state) sub_id
               m;
        Rehash_reinsert old_vector' m'
      else Rehash_reinsert old_vector' m
  end.

Definition Rehash (m : t) : option t :=
  if negb (NeedsRehash m) then
    (* We're within the "load limit", no need to rehash. *)
    Some m
  else
    let new_size := new_size_for (sub_count_ m) in
    let sub_count_low_ := low_for new_size in
    (* Account for lower bound on the vector size. *)
    let '(new_size, sub_count_low_) :=
      if decide (new_size <= kMinSize) then (kMinSize, 0)
      else (new_size, sub_count_low_) in
    let sub_count_high_ := high_for new_size in
    (* Resize the vector and clear it. *)
    let old_vector := vector_ m in
    let vector_ := replicate (Z.to_nat new_size) kReservedSubscriptionID in
    Rehash_reinsert old_vector (mk vector_ sub_count_low_ sub_count_high_ 0).

Definition Insert (namespace_id : NamespaceID) (topic_name : Topic)
    (sub_id : SubscriptionID) (m : t) : option t :=
  m ← Rehash m;
  InsertInternal namespace_id topic_name sub_id m.

(** The first loop of [Remove]: the position of an entry with this ID, of
    a gap, or the optimal position again after a full circle. *)
Fixpoint Remove_find (fuel : nat) (vector_ : list SubscriptionID)
    (sub_id : SubscriptionID) (optimal_position position : nat)
    : option nat :=
  match fuel with
  | O => None
  | S fuel' =>
      current ← vector_ !! position;
      if decide (current = kReservedSubscriptionID \/ current = sub_id) then
        Some position
      else
        let position := ((position + 1) mod length vector_)%nat in
        if decide (position <> optimal_position) then
          Remove_find fuel' vector_ sub_id optimal_position position
        else Some position
  end.

(** [position <= current_position
       ? (position < x && x <= current_position)
       : (position < x || x <= current_position)] *)
Definition between (position x current_position : nat) : bool :=
  if decide (position <= current_position)%nat then
    bool_decide (position < x /\ x <= current_position)%nat
  else
    bool_decide (position < x \/ x <= current_position)%nat.

(** The second loop of [Remove], [do { ... } while (true)], at the top of
    an iteration. *)
Fixpoint Remove_shift (fuel : nat) (vector_ : list SubscriptionID)
    (position current_position : nat) : option (list SubscriptionID) :=
  match fuel with
  | O => None
  | S fuel' =>
      _ ← vector_ !! position;
      let vector_ := <[position := kReservedSubscriptionID]> vector_ in
      let current_position :=
        ((current_position + 1) mod length vector_)%nat in
      current_id ← vector_ !! current_position;
      if decide (current_id = kReservedSubscriptionID) then Some vector_
      else
        current_state ← get_state_ current_id;
        let x := FindOptimalPosition (length vector_)
                   (GetNamespace current_state)
                   (GetTopicName current_state) in
        if between position x current_position then
          (* continue *)
          Remove_shift fuel' vector_ position current_position
        else
          let vector_ := <[position := current_id]> vector_ in
          let position := current_position in
          Remove_shift fuel' vector_ position current_position
  end.

Definition Remove (namespace_id : NamespaceID) (topic_name : Topic)
    (sub_id : SubscriptionID) (m : t) : option (bool * t) :=
  let optimal_position :=
    FindOptimalPosition (length (vector_ m)) namespace_id topic_name in
  position ←
    Remove_find (length (vector_ m)) (vector_ m) sub_id optimal_position
      optimal_position;
  current ← vector_ m !! position;
  if decide (sub_id <> current) then Some (false, m)
  else
    let sub_count_ := size_t (sub_count_ m - 1) in
    vector_' ← Remove_shift (length (vector_ m)) (vector_ m) position position;
    m' ← Rehash (mk vector_' (sub_count_low_ m) (sub_count_high_ m)
                    sub_count_);
    Some (true, m').

End with_environment.

End TopicToSubscriptionMap.

(** ** controltower/log_tailer.cc *)

Module LogTailer.

Abbreviation LogID := Z (only parsing).

Inductive GapType := kBenign | kDataLoss | kRetention.

(** [struct LogRecord] and [struct GapRecord] (util/storage.h): the
    members the tailer reads. *)
Record LogRecord := mkLogRecord {
  log_id : LogID;
  seqno : SequenceNumber;
  payload : Slice
}.

Record GapRecord := mkGapRecord {
  gap_log_id : LogID;
  gap_type : GapType;
  gap_from : SequenceNumber;
  gap_to : SequenceNumber
}.

Inductive Status := StatusOK | StatusInvalidArgument (what : string).

Definition ok (st : Status) : bool :=
  match st with StatusOK => true | _ => false end.

(** [struct LogRecordMessageData : public MessageData]: the message and
    the record it was built from. *)
Record LogRecordMessageData := mkData {
  message : MessageData.t;
  record_ : LogRecord
}.

Section constructor.

Context `{WireFormat}.

(** Modelled from the spec: the value of [MessageType::mDeliver] and the
    object [MessageData(MessageType::mDeliver)] come from messages.h, which
    is not among the sources; the members of a new object are zero and
    empty. *)
Variable mDeliver : Z.

Definition MessageData_new : MessageData.t :=
  MessageData.mk (Message.mk mDeliver 0) 0 0 [] [] [] [].

(** The constructor of [LogRecordMessageData]. When [DeSerializeStorage]
    fails, the members it had parsed are not carried over here; nothing
    reads them. *)
Definition LogRecordMessageData_new (record : LogRecord)
    : LogRecordMessageData * Status :=
  let '(msg, status) :=
    match MessageData.DeSerializeStorage MessageData_new (payload record) with
    | OK msg _ => (msg, StatusOK)
    | InvalidArgument what => (MessageData_new, StatusInvalidArgument what)
    end in
  (mkData (MessageData.SetSequenceNumbers msg (uint64 (seqno record - 1))
             (seqno record))
          record,
   status).

Definition MoveRecord (msg : LogRecordMessageData) : LogRecord := record_ msg.

Definition GetSequenceNumber (msg : LogRecordMessageData) : SequenceNumber :=
  MessageData.seqno_ (message msg).

End constructor.

(** The two counters of [stats_] that the callbacks touch. *)
Record Stats := mkStats {
  log_records_out_of_order : Z;
  gap_records_out_of_order : Z
}.

(** [struct Reader]: [log_state] maps an open log to the sequence number
    expected next. The callbacks are the same for every reader and are
    parameters below. *)
Record Reader := mkReader {
  log_state : gmap Z SequenceNumber
}.

Record t := mk {
  readers_ : list Reader;
  stats_ : Stats
}.

(** [it->second = v] on the reader [reader_id]. *)
Definition set_expected (s : t) (reader_id : nat) (log : LogID)
    (v : SequenceNumber) : t :=
  mk (alter (fun r => mkReader (<[log := v]> (log_state r))) reader_id
        (readers_ s))
     (stats_ s).

Definition count_record_out_of_order (s : t) : t :=
  mk (readers_ s)
     (mkStats (log_records_out_of_order (stats_ s) + 1)
              (gap_records_out_of_order (stats_ s))).

Definition count_gap_out_of_order (s : t) : t :=
  mk (readers_ s)
     (mkStats (log_records_out_of_order (stats_ s))
              (gap_records_out_of_order (stats_ s) + 1)).

(** The commands written to the queue for the tailer thread: the two
    closures of [CreateReader], with what they capture. *)
Inductive Command :=
  | ForwardRecord (msg : LogRecordMessageData) (log : LogID)
      (reader_id : nat)
  | ForwardGap (log : LogID) (type : GapType) (from to : SequenceNumber)
      (reader_id : nat).

Section callbacks.

(** [on_record] and [on_gap] are whatever the user passed to
    [Initialize]. They run on the tailer thread, so they see the tailer as
    it is when they are called, along with the rest of the world. *)
Context {World : Type}.
Variable on_record :
  LogRecordMessageData -> LogID -> nat -> t * World -> t * World.
Variable on_gap :
  LogID -> GapType -> SequenceNumber -> SequenceNumber -> nat ->
  t * World -> t * World.

(** [None]: [reader_id] is out of range, which the C++ asserts not to
    happen. *)
Definition RecordCallback (msg : LogRecordMessageData) (log : LogID)
    (reader_id : nat) (s : t * World) : option (t * World) :=
  let seqno := GetSequenceNumber msg in
  reader ← readers_ s.1 !! reader_id;
  match log_state reader !! log with
  | None =>
      (* Log not open, ignore. *)
      Some (count_record_out_of_order s.1, s.2)
  | Some expected =>
      if decide (expected <> seqno) then
        (* Log not at this sequence number, ignore. *)
        Some (count_record_out_of_order s.1, s.2)
      else
        (* Now expecting next seqno. *)
        let s1 := set_expected s.1 reader_id log (uint64 (seqno + 1)) in
        Some (on_record msg log reader_id (s1, s.2))
  end.

Definition GapCallback (log : LogID) (type : GapType)
    (from to : SequenceNumber) (reader_id : nat) (s : t * World)
    : option (t * World) :=
  reader ← readers_ s.1 !! reader_id;
  match log_state reader !! log with
  | None =>
      (* Log not open, ignore. *)
      Some (count_gap_out_of_order s.1, s.2)
  | Some expected =>
      if decide (expected <> from) then
        (* Log not at this sequence number, ignore. *)
        Some (count_gap_out_of_order s.1, s.2)
      else
        (* Now expecting next seqno. *)
        let s1 := set_expected s.1 reader_id log (uint64 (to + 1)) in
        Some (on_gap log type from to reader_id (s1, s.2))
  end.

(** Running a command on the tailer thread. *)
Definition run_command (c : Command) (s : t * World) : option (t * World) :=
  match c with
  | ForwardRecord msg log reader_id => RecordCallback msg log reader_id s
  | ForwardGap log type from to reader_id =>
      GapCallback log type from to reader_id s
  end.

Fixpoint run_commands (cs : list Command) (s : t * World)
    : option (t * World) :=
  match cs with
  | [] => Some s
  | c :: cs' => s' ← run_command c s; run_commands cs' s'
  end.

End callbacks.

(** [TryForward]. The queue (messages/queues.h) is not among the sources:
    a write either appends the command and returns true, or returns false
    and leaves the queue as it is. [accepted] is the outcome, which
    depends on the room in the queue and on the fault injection. *)
Definition TryForward (accepted : bool) (command : Command)
    (queue : list Command) : bool * list Command :=
  if accepted then (true, queue ++ [command]) else (false, queue).

Section reader.

Context `{WireFormat}.
Variable mDeliver : Z.

(** The [record_cb] lambda of [CreateReader]. The result is [success],
    the record put back for the storage layer to retry (when not
    [success]), and the queue. *)
Definition record_cb (reader_id : nat) (accepted : bool)
    (record : LogRecord) (queue : list Command)
    : bool * option LogRecord * list Command :=
  (* Convert storage record into RocketSpeed message. *)
  let log := log_id record in
  let seqno := seqno record in
  let '(msg, st) := LogRecordMessageData_new mDeliver record in
  let '(success, queue) :=
    if negb (ok st) then
      (* Treat corrupt data as data loss. *)
      TryForward accepted (ForwardGap log kDataLoss seqno seqno reader_id)
        queue
    else
      TryForward accepted (ForwardRecord msg log reader_id) queue in
  if negb success then
    (* Need to put the record back so that the storage layer can retry. *)
    (success, Some (MoveRecord msg), queue)
  else (success, None, queue).

(** The [gap_cb] lambda. *)
Definition gap_cb (reader_id : nat) (accepted : bool) (record : GapRecord)
    (queue : list Command) : bool * list Command :=
  TryForward accepted
    (ForwardGap (gap_log_id record) (gap_type record) (gap_from record)
       (gap_to record) reader_id)
    queue.

End reader.

End LogTailer.

(** ** engine/rocketeer_server.cc *)

Module Rocketeer.

Abbreviation StreamID := Z (only parsing).

Record InboundID := mkInboundID {
  stream_id : StreamID;
  sub_id : SubscriptionID;
  worker_id : Z
}.

Record InboundSubscription := mkSub {
  tenant_id : TenantID;
  prev_seqno : SequenceNumber
}.

Record SubscriptionParameters := mkParams {
  params_tenant_id : TenantID;
  params_namespace_id : NamespaceID;
  params_topic_name : Topic;
  params_start_seqno : SequenceNumber
}.

Record Stats := mkStats {
  subscribes : Z;
  unsubscribes : Z;
  terminations : Z;
  inbound_subscriptions : Z;
  dropped_reordered : Z
}.

(** The object: [inbound_subscriptions_], the counters and [id_]. *)
Record t := mk {
  inbound_subscriptions_ : gmap Z (gmap Z InboundSubscription);
  stats_ : Stats;
  id_ : Z
}.

(** What a member function does to the outside, in order: a response
    handed to [server_->msg_loop_->SendResponse], or a call into the
    rocketeer above. What the application does in return is not part of
    the model. *)
Inductive Effect :=
  | SendData (data : MessageDeliverData.t) (stream : StreamID) (worker : Z)
  | SendGap (gap : MessageDeliverGap.t) (stream : StreamID) (worker : Z)
  | HandleNewSubscription (inbound_id : InboundID)
      (params : SubscriptionParameters).

Section messages.

(** Modelled from the spec: messages.h and include/Types.h are not among
    the sources. [mDeliverData], [mDeliverGap] and [kBenign] are the
    values of the enumerators, [Empty] is [MsgId::Empty], and the two
    constructors set the members they are given and leave the sequence
    numbers at zero and the strings empty. *)
Variable mDeliverData mDeliverGap kBenign : Z.
Variable Empty : MsgId -> bool.

Definition MessageDeliverData_new (tenant_id : TenantID)
    (sub_id : SubscriptionID) (msg_id : MsgId) (payload : list byte)
    : MessageDeliverData.t :=
  MessageDeliverData.mk
    (MessageDeliver.mk (Message.mk mDeliverData tenant_id) sub_id 0 0)
    msg_id payload [] [] [].

Definition MessageDeliverGap_new (tenant_id : TenantID)
    (sub_id : SubscriptionID) (gap_type : Z) : MessageDeliverGap.t :=
  MessageDeliverGap.mk
    (MessageDeliver.mk (Message.mk mDeliverGap tenant_id) sub_id 0 0)
    gap_type [] [] [].

(** [MessageDeliver::SetSequenceNumbers], on the two subclasses. *)
Definition SetSequenceNumbers (m : MessageDeliver.t)
    (seqno_prev seqno : SequenceNumber) : MessageDeliver.t :=
  MessageDeliver.mk (MessageDeliver.base m) (MessageDeliver.sub_id_ m)
    seqno_prev seqno.

Definition data_SetSequenceNumbers (m : MessageDeliverData.t)
    (seqno_prev seqno : SequenceNumber) : MessageDeliverData.t :=
  MessageDeliverData.mk
    (SetSequenceNumbers (MessageDeliverData.deliver m) seqno_prev seqno)
    (MessageDeliverData.message_id_ m) (MessageDeliverData.payload_ m)
    (MessageDeliverData.namespace_id_ m) (MessageDeliverData.topic_ m)
    (MessageDeliverData.source_ m).

Definition gap_SetSequenceNumbers (m : MessageDeliverGap.t)
    (seqno_prev seqno : SequenceNumber) : MessageDeliverGap.t :=
  MessageDeliverGap.mk
    (SetSequenceNumbers (MessageDeliverGap.deliver m) seqno_prev seqno)
    (MessageDeliverGap.gap_type_ m) (MessageDeliverGap.namespace_id_ m)
    (MessageDeliverGap.topic_ m) (MessageDeliverGap.source_ m).

(** [Find]: the subscription, [None] for the null pointer. *)
Definition Find (inbound_id : InboundID) (s : t)
    : option InboundSubscription :=
  subs ← inbound_subscriptions_ s !! stream_id inbound_id;
  subs !! sub_id inbound_id.

(** [sub->prev_seqno = seqno] through the pointer that [Find] returned. *)
Definition set_prev_seqno (inbound_id : InboundID) (seqno : SequenceNumber)
    (s : t) : t :=
  mk (alter (alter (fun sub => mkSub (tenant_id sub) seqno)
               (sub_id inbound_id))
        (stream_id inbound_id) (inbound_subscriptions_ s))
     (stats_ s) (id_ s).

Definition count_dropped_reordered (s : t) : t :=
  mk (inbound_subscriptions_ s)
     (mkStats (subscribes (stats_ s)) (unsubscribes (stats_ s))
        (terminations (stats_ s)) (inbound_subscriptions (stats_ s))
        (dropped_reordered (stats_ s) + 1))
     (id_ s).

(** [Deliver]. [generated] is the GUID that the thread-local generator
    would hand out. *)
Definition Deliver (inbound_id : InboundID) (seqno : SequenceNumber)
    (payload : list byte) (msg_id : MsgId) (generated : MsgId) (s : t)
    : t * list Effect :=
  let msg_id := if Empty msg_id then generated else msg_id in
  match Find inbound_id s with
  | Some sub =>
      if decide (prev_seqno sub < seqno) then
        let data :=
          MessageDeliverData_new (tenant_id sub) (sub_id inbound_id) msg_id
            payload in
        let data := data_SetSequenceNumbers data (prev_seqno sub) seqno in
        (set_prev_seqno inbound_id seqno s,
         [SendData data (stream_id inbound_id) (worker_id inbound_id)])
      else (count_dropped_reordered s, [])
  | None => (s, [])
  end.

Definition Advance (inbound_id : InboundID) (seqno : SequenceNumber) (s : t)
    : t * list Effect :=
  match Find inbound_id s with
  | Some sub =>
      if decide (prev_seqno sub < seqno) then
        let gap :=
          MessageDeliverGap_new (tenant_id sub) (sub_id inbound_id) kBenign in
        let gap := gap_SetSequenceNumbers gap (prev_seqno sub) seqno in
        (set_prev_seqno inbound_id seqno s,
         [SendGap gap (stream_id inbound_id) (worker_id inbound_id)])
      else (count_dropped_reordered s, [])
  | None => (s, [])
  end.

(** [GetID], with its assertion on the worker index left out. *)
Definition GetID (s : t) : Z := id_ s.

(** [Receive(std::unique_ptr<MessageSubscribe>, StreamID)]. *)
Definition Receive_subscribe (subscribe : MessageSubscribe.t)
    (origin : StreamID) (s : t) : t * list Effect :=
  let sub_id := MessageSubscribe.sub_id_ subscribe in
  let start_seqno := MessageSubscribe.GetStartSequenceNumber subscribe in
  let tenant := Message.tenantid_ (MessageSubscribe.base subscribe) in
  (* inbound_subscriptions_[origin] *)
  let subs := default ∅ (inbound_subscriptions_ s !! origin) in
  match subs !! sub_id with
  | Some _ =>
      (* Duplicated subscription: the map holds [origin] already. *)
      (s, [])
  | None =>
      let sub :=
        mkSub tenant
          (if decide (start_seqno = 0) then start_seqno
           else uint64 (start_seqno - 1)) in
      let s1 :=
        mk (<[origin := <[sub_id := sub]> subs]> (inbound_subscriptions_ s))
           (stats_ s) (id_ s) in
      let params :=
        mkParams tenant (MessageSubscribe.namespace_id_ subscribe)
          (MessageSubscribe.topic_name_ subscribe) start_seqno in
      (mk (inbound_subscriptions_ s1)
          (mkStats (subscribes (stats_ s1) + 1) (unsubscribes (stats_ s1))
             (terminations (stats_ s1)) (inbound_subscriptions (stats_ s1) + 1)
             (dropped_reordered (stats_ s1)))
          (id_ s1),
       [HandleNewSubscription (mkInboundID origin sub_id (GetID s1)) params])
  end.

(** Calls of [Deliver] and [Advance], one after another. *)
Inductive Call :=
  | CallDeliver (inbound_id : InboundID) (seqno : SequenceNumber)
      (payload : list byte) (msg_id : MsgId) (generated : MsgId)
  | CallAdvance (inbound_id : InboundID) (seqno : SequenceNumber).

Definition run_call (c : Call) (s : t) : t * list Effect :=
  match c with
  | CallDeliver inbound_id seqno payload msg_id generated =>
      Deliver inbound_id seqno payload msg_id generated s
  | CallAdvance inbound_id seqno => Advance inbound_id seqno s
  end.

Fixpoint run_calls (cs : list Call) (s : t) : t * list Effect :=
  match cs with
  | [] => (s, [])
  | c :: cs' =>
      let '(s1, out1) := run_call c s in
      let '(s2, out2) := run_calls cs' s1 in
      (s2, out1 ++ out2)
  end.

End messages.

End Rocketeer.

(** ** controltower/topic.h *)

Module TopicManager.

Abbreviation HostNumber := Z (only parsing).
Abbreviation TopicUUID := (list byte) (only parsing).

(** [class TopicSubscription]. *)
Record TopicSubscription := mkTopicSubscription {
  GetHostNum : HostNumber;
  GetSequenceNumber : SequenceNumber
}.

Definition SetSequenceNumber (sub : TopicSubscription)
    (seqno : SequenceNumber) : TopicSubscription :=
  mkTopicSubscription (GetHostNum sub) seqno.

(** [typedef autovector<TopicSubscription, 1> TopicList]. *)
Abbreviation TopicList := (list TopicSubscription) (only parsing).

Record t := mk { topic_map_ : gmap (list byte) (list TopicSubscription) }.

(** The subscribers of a topic; none for a topic that is not in the map. *)
Definition subscribers (m : t) (topic : TopicUUID) : TopicList :=
  default [] (topic_map_ m !! topic).

(** Modelled from the spec: [TopicManager::AddSubscriber] is declared in
    topic.h and defined in topic.cc, which is not among the sources. The
    manager stores the subscribers of each topic, one entry per host with
    the sequence number it expects next; adding a host puts it on the list
    of the topic (a host already there gets the new sequence number), and
    the result is true iff the subscriber set went from empty to
    non-empty. *)
Definition AddSubscriber (topic : TopicUUID) (start : SequenceNumber)
    (subscriber : HostNumber) (m : t) : bool * t :=
  let before := subscribers m topic in
  let after :=
    if bool_decide (subscriber ∈ GetHostNum <$> before) then
      (fun sub =>
         if decide (GetHostNum sub = subscriber)
         then SetSequenceNumber sub start else sub) <$> before
    else before ++ [mkTopicSubscription subscriber start] in
  (bool_decide (before = [] /\ after <> []),
   mk (<[topic := after]> (topic_map_ m))).

(** Modelled from the spec: [TopicManager::RemoveSubscriber], likewise
    from topic.cc: the host leaves the list of the topic, and the result is
    true iff the subscriber set went from non-empty to empty. *)
Definition RemoveSubscriber (topic : TopicUUID) (subscriber : HostNumber)
    (m : t) : bool * t :=
  let before := subscribers m topic in
  let after := filter (fun sub => GetHostNum sub <> subscriber) before in
  (bool_decide (before <> [] /\ after = []),
   mk (if decide (after = []) then delete topic (topic_map_ m)
       else <[topic := after]> (topic_map_ m))).

End TopicManager.

(** ** util/common/coding.cc: the bit stream *)

Module BitStream.

(** The loop of [BitStreamPutInt(char* dst, size_t dstlen, size_t offset,
    uint32_t bits, uint64_t value)], at its test. Every iteration takes at
    least one bit, so [fuel] iterations are enough when [fuel] is the
    number of bits. [None]: a byte outside of the buffer. *)
Fixpoint BitStreamPutInt_loop (fuel : nat) (ptr : list byte)
    (byteOffset bitOffset bits value : Z) : option (list byte) :=
  if bits >? 0 then
    match fuel with
    | O => None
    | S fuel' =>
        let bitsToGet := Z.min bits (8 - bitOffset) in
        let mask := (Z.shiftl 1 bitsToGet - 1) mod 2 ^ 8 in
        cur ← ptr !! Z.to_nat byteOffset;
        let new :=
          (Z.land (byte_to_Z cur) (Z.lnot (Z.shiftl mask bitOffset))
           + uint64 (Z.shiftl (Z.land value mask) bitOffset)) mod 2 ^ 8 in
        BitStreamPutInt_loop fuel'
          (<[Z.to_nat byteOffset := Z_to_byte new]> ptr)
          (byteOffset + 1) 0 (uint32 (bits - bitsToGet))
          (Z.shiftr value bitsToGet)
    end
  else Some ptr.

Definition BitStreamPutInt (dst : list byte) (offset bits value : Z)
    : option (list byte) :=
  let byteOffset := offset / 8 in
  let bitOffset := offset mod 8 in
  BitStreamPutInt_loop (Z.to_nat bits) dst byteOffset bitOffset bits value.

(** The loop of [BitStreamGetInt(const char* src, size_t srclen,
    size_t offset, uint32_t bits)]. [None]: a byte outside of the buffer,
    or a shift of a 64-bit value by 64 bits or more. *)
Fixpoint BitStreamGetInt_loop (fuel : nat) (ptr : list byte)
    (byteOffset bitOffset shift bits result : Z) : option Z :=
  if bits >? 0 then
    match fuel with
    | O => None
    | S fuel' =>
        let bitsToGet := Z.min bits (8 - bitOffset) in
        let mask := (Z.shiftl 1 bitsToGet - 1) mod 2 ^ 8 in
        cur ← ptr !! Z.to_nat byteOffset;
        if 64 <=? shift then None
        else
          let result :=
            uint64
              (result
               + uint64
                   (Z.shiftl
                      (Z.land (Z.shiftr (byte_to_Z cur) bitOffset) mask)
                      shift)) in
          BitStreamGetInt_loop fuel' ptr (byteOffset + 1) 0
            (shift + bitsToGet) (uint32 (bits - bitsToGet)) result
    end
  else Some result.

Definition BitStreamGetInt (src : list byte) (offset bits : Z) : option Z :=
  let byteOffset := offset / 8 in
  let bitOffset := offset mod 8 in
  BitStreamGetInt_loop (Z.to_nat bits) src byteOffset bitOffset 0 bits 0.

End BitStream.



(** ** util/logging.cc *)

Module Logging.

(** The character of a decimal or hexadecimal digit. *)
Definition digit_char (d : Z) : byte :=
  Z_to_byte (if d <? 10 then 48 + d else 87 + d).

(** What [snprintf] writes for [%llu] and [PRIu64]: the decimal digits of
    the number, the most significant first, and ["0"] for zero. A 64-bit
    number has twenty digits at most. *)
Fixpoint decimal_loop (fuel : nat) (num : Z) (acc : list byte) : list byte :=
  match fuel with
  | O => acc
  | S fuel' =>
      let acc := digit_char (num mod 10) :: acc in
      if num <? 10 then acc else decimal_loop fuel' (num / 10) acc
  end.

Definition decimal (num : Z) : list byte := decimal_loop 20 num [].

(** [snprintf(output, len, ...)] of a string: the characters stored before
    the terminating zero, and the returned length. *)
Definition snprintf (len : Z) (formatted : list byte) : list byte * Z :=
  (take (Z.to_nat (len - 1)) formatted, Z.of_nat (length formatted)).

(** [AppendHumanBytes(bytes, output, len)]: what is stored in [output],
    and the returned length. *)
Definition AppendHumanBytes (bytes : Z) (len : Z) : list byte * Z :=
  let ull10 := 10 in
  if bytes >=? uint64 (Z.shiftl ull10 40) then
    snprintf len (decimal (Z.shiftr bytes 40) ++ [x54; x42])
  else if bytes >=? uint64 (Z.shiftl ull10 30) then
    snprintf len (decimal (Z.shiftr bytes 30) ++ [x47; x42])
  else if bytes >=? uint64 (Z.shiftl ull10 20) then
    snprintf len (decimal (Z.shiftr bytes 20) ++ [x4d; x42])
  else if bytes >=? uint64 (Z.shiftl ull10 10) then
    snprintf len (decimal (Z.shiftr bytes 10) ++ [x4b; x42])
  else
    snprintf len (decimal bytes ++ [x42]).

(** [AppendNumberTo(str, num)]; the buffer of 30 characters holds every
    64-bit number. *)
Definition AppendNumberTo (str : list byte) (num : Z) : list byte :=
  str ++ (snprintf 30 (decimal num)).1.

(** One step of the loop of [AppendEscapedStringTo]. *)
Definition escape_char (str : list byte) (c : byte) : list byte :=
  if (32 <=? byte_to_Z c) && (byte_to_Z c <=? 126) then str ++ [c]
  else
    let v := Z.land (byte_to_Z c) 255 in
    str ++ [x5c; x78; digit_char (v / 16); digit_char (v mod 16)].

Definition AppendEscapedStringTo (str : list byte) (value : Slice)
    : list byte :=
  foldl escape_char str value.

Definition NumberToString (num : Z) : list byte := AppendNumberTo [] num.

Definition BytesToString (bytes : Z) : list byte :=
  (AppendHumanBytes bytes 32).1.

Definition EscapeString (value : Slice) : list byte :=
  AppendEscapedStringTo [] value.

(** The loop of [ConsumeDecimalNumber(in, val)]. [None] is the return at
    an overflow; otherwise the value, the number of digits and the slice
    at the end of the loop. The source counts the digits in an [int]; the
    count here is the same for a slice shorter than [2 ^ 31]. *)
Fixpoint ConsumeDecimalNumber_loop (in_ : Slice) (v digits : Z)
    : option (Z * Z * Slice) :=
  match in_ with
  | [] => Some (v, digits, in_)
  | c :: in' =>
      if (48 <=? byte_to_Z c) && (byte_to_Z c <=? 57) then
        let digits := digits + 1 in
        let delta := byte_to_Z c - 48 in
        let kMaxUint64 := 2 ^ 64 - 1 in
        if (v >? kMaxUint64 / 10)
           || ((v =? kMaxUint64 / 10) && (delta >? kMaxUint64 mod 10))
        then (* Overflow *) None
        else ConsumeDecimalNumber_loop in' (uint64 (v * 10 + delta)) digits
      else Some (v, digits, in_)
  end.

(** [ConsumeDecimalNumber]: the returned flag, the value stored in [*val]
    if one is stored, and the slice. After an overflow the model does not
    say where the slice stands. *)
Definition ConsumeDecimalNumber (in_ : Slice) : bool * option (Z * Slice) :=
  match ConsumeDecimalNumber_loop in_ 0 0 with
  | None => (false, None)
  | Some (v, digits, rest) => (digits >? 0, Some (v, rest))
  end.

End Logging.

(** ** engine/rocketeer_server.cc: the end of a subscription *)

Module RocketeerLifecycle.
Import Rocketeer.

(** [Rocketeer::TerminationSource] *)
Inductive TerminationSource := Subscriber | Rocketeer.

(** What the member functions do to the outside, in order: the effects of
    [Deliver], [Advance] and [Receive(MessageSubscribe)], a call of
    [HandleTermination] into the rocketeer above, or the
    [MessageUnsubscribe(tenant_id, sub_id, reason)] that [Terminate] hands
    to [SendResponse]. *)
Inductive Event :=
  | Did (e : Effect)
  | HandleTermination (inbound_id : InboundID) (source : TerminationSource)
  | SendUnsubscribe (tenant_id : TenantID) (sub_id : SubscriptionID)
      (reason : Z) (stream : StreamID) (worker : Z).

(** [Initialize]: the ID that the server assigned and fresh counters; the
    map is empty in a new object. *)
Definition Initialize (id : Z) : t := mk ∅ (mkStats 0 0 0 0 0) id.

(** [stats_->inbound_subscriptions->Add(-1); stats_->terminations->Add(1);] *)
Definition count_termination (st : Stats) : Stats :=
  mkStats (subscribes st) (unsubscribes st) (terminations st + 1)
    (inbound_subscriptions st - 1) (dropped_reordered st).

(** [stats_->inbound_subscriptions->Add(-1); stats_->unsubscribes->Add(1);] *)
Definition count_unsubscribe (st : Stats) : Stats :=
  mkStats (subscribes st) (unsubscribes st + 1) (terminations st)
    (inbound_subscriptions st - 1) (dropped_reordered st).

(** [Terminate]. The stream keeps its map, also when the map is empty
    now. *)
Definition Terminate (inbound_id : InboundID) (reason : Z) (s : t)
    : t * list Event :=
  let origin := stream_id inbound_id in
  let sub_id := Rocketeer.sub_id inbound_id in
  match inbound_subscriptions_ s !! origin with
  | Some subs =>
      match subs !! sub_id with
      | Some sub =>
          let tenant_id := tenant_id sub in
          let s1 :=
            mk (<[origin := delete sub_id subs]> (inbound_subscriptions_ s))
               (count_termination (stats_ s)) (id_ s) in
          (s1,
           [HandleTermination (mkInboundID origin sub_id (GetID s1))
              Rocketeer;
            SendUnsubscribe tenant_id (Rocketeer.sub_id inbound_id) reason
              (stream_id inbound_id) (worker_id inbound_id)])
      | None => (s, [])
      end
  | None => (s, [])
  end.

(** [Receive(std::unique_ptr<MessageUnsubscribe>, StreamID)]. *)
Definition Receive_unsubscribe (unsubscribe : MessageUnsubscribe.t)
    (origin : StreamID) (s : t) : t * list Event :=
  let sub_id := MessageUnsubscribe.sub_id_ unsubscribe in
  match inbound_subscriptions_ s !! origin with
  | Some subs =>
      (* removed > 0 *)
      if decide (is_Some (subs !! sub_id)) then
        let subs := delete sub_id subs in
        let s1 :=
          mk (<[origin := subs]> (inbound_subscriptions_ s))
             (count_unsubscribe (stats_ s)) (id_ s) in
        (mk (if decide (subs = ∅)
             then delete origin (inbound_subscriptions_ s1)
             else inbound_subscriptions_ s1)
            (stats_ s1) (id_ s1),
         [HandleTermination (mkInboundID origin sub_id (GetID s1))
            Subscriber])
      else (s, [])
  | None => (s, [])
  end.

(** [Receive(std::unique_ptr<MessageGoodbye>, StreamID)]. The loop goes
    through the subscriptions of the stream in the order of the
    [unordered_map], which is [map_to_list] here. *)
Definition Receive_goodbye (goodbye : MessageGoodbye.t) (origin : StreamID)
    (s : t) : t * list Event :=
  match inbound_subscriptions_ s !! origin with
  | None => (s, [])
  | Some subs =>
      let '(stats, events) :=
        foldl (fun '(stats, events) (entry : Z * InboundSubscription) =>
                 (count_unsubscribe stats,
                  events ++ [HandleTermination
                               (mkInboundID origin entry.1 (GetID s))
                               Subscriber]))
          (stats_ s, []) (map_to_list subs) in
      (mk (delete origin (inbound_subscriptions_ s)) stats (id_ s), events)
  end.

(** What a rocketeer is asked to do: the three messages that
    [RocketeerServer::Start] registers callbacks for, and the three
    commands of the application. *)
Inductive Request :=
  | ReceiveSubscribe (subscribe : MessageSubscribe.t) (origin : StreamID)
  | ReceiveUnsubscribe (unsubscribe : MessageUnsubscribe.t)
      (origin : StreamID)
  | ReceiveGoodbye (goodbye : MessageGoodbye.t) (origin : StreamID)
  | DoTerminate (inbound_id : InboundID) (reason : Z)
  | DoCall (c : Call).

Section messages.

Variable mDeliverData mDeliverGap kBenign : Z.
Variable Empty : MsgId -> bool.

Definition run_request (r : Request) (s : t) : t * list Event :=
  match r with
  | ReceiveSubscribe subscribe origin =>
      let '(s', out) := Receive_subscribe subscribe origin s in
      (s', Did <$> out)
  | ReceiveUnsubscribe unsubscribe origin =>
      Receive_unsubscribe unsubscribe origin s
  | ReceiveGoodbye goodbye origin => Receive_goodbye goodbye origin s
  | DoTerminate inbound_id reason => Terminate inbound_id reason s
  | DoCall c =>
      let '(s', out) := run_call mDeliverData mDeliverGap kBenign Empty c s in
      (s', Did <$> out)
  end.

Fixpoint run_requests (rs : list Request) (s : t) : t * list Event :=
  match rs with
  | [] => (s, [])
  | r :: rs' =>
      let '(s1, out1) := run_request r s in
      let '(s2, out2) := run_requests rs' s1 in
      (s2, out1 ++ out2)
  end.

End messages.

End RocketeerLifecycle.

(** ** controltower/log_tailer.cc: opening and closing logs *)

Module LogTailerControl.
Import LogTailer.

(** A [Status], as far as the tailer tells one from another: the three
    that it makes, and whatever else the storage returns. *)
Inductive Status :=
  | OK
  | NotInitialized
  | InvalidArgument (what : string)
  | Failure (what : string).

Definition ok (st : Status) : bool :=
  match st with OK => true | _ => false end.

(** The counters of [stats_] that [StartReading] and [StopReading]
    touch. *)
Record Counters := mkCounters {
  readers_started : Z;
  readers_restarted : Z;
  readers_stopped : Z
}.

(** The calls into the storage: [reader.log_reader->Open(logid, start)]
    and [reader.log_reader->Close(logid)]. *)
Inductive StorageCall :=
  | Open (reader_id : nat) (logid : LogID) (start : SequenceNumber)
  | Close (reader_id : nat) (logid : LogID).

(** The loop of [Initialize]. [CreateReader reader_id] is the status of
    that call; a reader begins with no open log. *)
Fixpoint Initialize_loop (CreateReader : nat -> Status) (todo : nat)
    (reader_id : nat) (readers_ : list Reader) : Status * list Reader :=
  match todo with
  | O => (OK, readers_)
  | S todo' =>
      let st := CreateReader reader_id in
      if negb (ok st) then (st, readers_)
      else
        Initialize_loop CreateReader todo' (S reader_id)
          (readers_ ++ [mkReader ∅])
  end.

(** [Initialize]. [on_record] and [on_gap] say whether the function
    objects hold a callback. The loop counts in an [unsigned int], so
    [num_readers] is below [2 ^ 32]. *)
Definition Initialize (on_record on_gap : bool) (num_readers : nat)
    (CreateReader : nat -> Status) (s : t) : Status * t :=
  if decide (length (readers_ s) <> 0%nat) then
    (* already initialized, nothing more to do *)
    (OK, s)
  else if negb on_record then
    (InvalidArgument "on_record must not be null", s)
  else if negb on_gap then
    (InvalidArgument "on_gap must not be null", s)
  else
    let '(st, readers_) :=
      Initialize_loop CreateReader num_readers 0 (readers_ s) in
    (st, mk readers_ (stats_ s)).

(** [Stop], without the storage. *)
Definition Stop (s : t) : t := mk [] (stats_ s).

(** [StartReading]. [opened] is the status that [Open] returns. [None]:
    [reader_id] is out of range, which the C++ asserts not to happen. *)
Definition StartReading (opened : Status) (logid : LogID)
    (start : SequenceNumber) (reader_id : nat) (s : t * Counters)
    : option (Status * (t * Counters) * list StorageCall) :=
  if decide (length (readers_ s.1) = 0%nat) then Some (NotInitialized, s, [])
  else
    reader ← readers_ s.1 !! reader_id;
    let st := opened in
    let s :=
      if ok st then
        match log_state reader !! logid with
        | None =>
            (set_expected s.1 reader_id logid start,
             mkCounters (readers_started s.2 + 1) (readers_restarted s.2)
               (readers_stopped s.2))
        | Some _ =>
            (set_expected s.1 reader_id logid start,
             mkCounters (readers_started s.2) (readers_restarted s.2 + 1)
               (readers_stopped s.2))
        end
      else s in
    Some (st, s, [Open reader_id logid start]).

(** [reader.log_state.erase(logid)] *)
Definition erase_log (s : t) (reader_id : nat) (logid : LogID) : t :=
  mk (alter (fun r => mkReader (delete logid (log_state r))) reader_id
        (readers_ s))
     (stats_ s).

(** [StopReading]. [closed] is the status that [Close] returns. [None]:
    [reader_id] is out of range. *)
Definition StopReading (closed : Status) (logid : LogID) (reader_id : nat)
    (s : t * Counters) : option (Status * (t * Counters) * list StorageCall) :=
  if decide (length (readers_ s.1) = 0%nat) then Some (NotInitialized, s, [])
  else
    reader ← readers_ s.1 !! reader_id;
    if decide (is_Some (log_state reader !! logid)) then
      Some (closed,
            (erase_log s.1 reader_id logid,
             mkCounters (readers_started s.2) (readers_restarted s.2)
               (readers_stopped s.2 + 1)),
            [Close reader_id logid])
    else Some (OK, s, []).

(** [NumberOpenLogs]; the count is an [int], so there are fewer than
    [2 ^ 31] open logs. *)
Definition NumberOpenLogs (s : t) : Z :=
  foldl (fun count reader => count + Z.of_nat (size (log_state reader))) 0
    (readers_ s).

(** What happens on the tailer thread: the two calls of the room, and the
    commands that the readers forward. *)
Inductive Op :=
  | DoStartReading (opened : Status) (logid : LogID)
      (start : SequenceNumber) (reader_id : nat)
  | DoStopReading (closed : Status) (logid : LogID) (reader_id : nat)
  | DoCommand (c : Command).

Section callbacks.

Context {World : Type}.
Variable on_record :
  LogRecordMessageData -> LogID -> nat -> t * World -> t * World.
Variable on_gap :
  LogID -> GapType -> SequenceNumber -> SequenceNumber -> nat ->
  t * World -> t * World.

Definition run_op (o : Op) (s : t * Counters * World)
    : option (t * Counters * World * list StorageCall) :=
  match o with
  | DoStartReading opened logid start reader_id =>
      '(_, s1, calls) ← StartReading opened logid start reader_id s.1;
      Some (s1, s.2, calls)
  | DoStopReading closed logid reader_id =>
      '(_, s1, calls) ← StopReading closed logid reader_id s.1;
      Some (s1, s.2, calls)
  | DoCommand c =>
      '(t1, w1) ← run_command on_record on_gap c (s.1.1, s.2);
      Some (t1, s.1.2, w1, [])
  end.

End callbacks.

End LogTailerControl.

(** ** messages/messages.cc: [Message::CreateNewInstance] and [Message::Copy] *)

Module NewInstance.
Import Codec.

(** messages.h is not among the sources, so the enumerators of
    [MessageType] are parameters. [kMessageTypeNames] has an entry for
    each value up to [MessageType::max], and an enumerator is written to
    the wire with [PutFixedEnum8]: it is one byte wide. *)
Record MessageTypes := mkTypes {
  NotInitialized : Z;
  mPing : Z;
  mPublish : Z;
  mDeliver : Z;
  mDataAck : Z;
  mGap : Z;
  mGoodbye : Z;
  mSubscribe : Z;
  mUnsubscribe : Z;
  mDeliverGap : Z;
  mDeliverData : Z;
  mFindTailSeqno : Z;
  mTailSeqno : Z;
  mDeliverBatch : Z;
  mHeartbeat : Z;
  mHeartbeatDelta : Z;
  mBacklogQuery : Z;
  mBacklogFill : Z;
  mIntroduction : Z;
  mSubAck : Z
}.

(** The objects that the default constructors make, for the classes
    whose [DeSerialize] reads a member of the object it runs on. The
    constructors but that of [MessageData] are in messages.h. *)
Record NewObjects := mkNew {
  new_MessageData : MessageData.t;
  new_MessageDataAck : MessageDataAck.t;
  new_MessageSubscribe : MessageSubscribe.t;
  new_MessageDeliverGap : MessageDeliverGap.t;
  new_MessageDeliverData : MessageDeliverData.t;
  new_MessageHeartbeat : MessageHeartbeat.t;
  new_MessageHeartbeatDelta : MessageHeartbeatDelta.t;
  new_MessageSubAck : MessageSubAck.t
}.

(** [GetMessageType()]: the [type_] of the [Message] at the base of the
    object. *)
Definition GetMessageType (m : AnyMessage) : Z :=
  Message.type_
    match m with
    | Ping m => MessagePing.base m
    | Data m => MessageData.base m
    | DataAck m => MessageDataAck.base m
    | Gap m => MessageGap.base m
    | Goodbye m => MessageGoodbye.base m
    | Subscribe m => MessageSubscribe.base m
    | Unsubscribe m => MessageUnsubscribe.base m
    | Deliver m => MessageDeliver.base m
    | DeliverGap m => MessageDeliver.base (MessageDeliverGap.deliver m)
    | DeliverData m => MessageDeliver.base (MessageDeliverData.deliver m)
    | DeliverBatch m => MessageDeliverBatch.base m
    | Heartbeat m => MessageHeartbeat.base m
    | HeartbeatDelta m => MessageHeartbeatDelta.base m
    | FindTailSeqno m => MessageFindTailSeqno.base m
    | TailSeqno m => MessageTailSeqno.base m
    | BacklogQuery m => MessageBacklogQuery.base m
    | BacklogFill m => MessageBacklogFill.base m
    | Introduction m => MessageIntroduction.base m
    | SubAck m => MessageSubAck.base m
    end.

Section types.

Context `{WireFormat}.
Variable T : MessageTypes.
Variable new : NewObjects.

(** [ReadMessageType]: the first byte of the slice. *)
Definition ReadMessageType (slice : Slice) : Z :=
  match slice with
  | [] => NotInitialized T
  | mtype :: _ => byte_to_Z mtype
  end.

(** [if (st.ok()) return msg; break;] and the [return nullptr] after the
    [switch]: [None] is the null pointer. *)
Definition release {A} (inj : A -> AnyMessage) (st : result A)
    : option AnyMessage :=
  match st with
  | OK msg _ => Some (inj msg)
  | InvalidArgument _ => None
  end.

(** [CreateNewInstance(Slice* in)], without what it leaves of the
    slice. The labels of a [switch] are distinct, so the [switch] is read
    as a chain of tests. *)
Definition CreateNewInstance (in_ : Slice) : option AnyMessage :=
  let mtype := ReadMessageType in_ in
  if decide (mtype = NotInitialized T) then None
  else if decide (mtype = mPing T) then
    release Ping (MessagePing.DeSerialize in_)
  else if decide (mtype = mPublish T \/ mtype = mDeliver T) then
    release Data (MessageData.DeSerialize (new_MessageData new) in_)
  else if decide (mtype = mDataAck T) then
    release DataAck (MessageDataAck.DeSerialize (new_MessageDataAck new) in_)
  else if decide (mtype = mGap T) then
    release Gap (MessageGap.DeSerialize in_)
  else if decide (mtype = mGoodbye T) then
    release Goodbye (MessageGoodbye.DeSerialize in_)
  else if decide (mtype = mSubscribe T) then
    release Subscribe
      (MessageSubscribe.DeSerialize (new_MessageSubscribe new) in_)
  else if decide (mtype = mUnsubscribe T) then
    release Unsubscribe (MessageUnsubscribe.DeSerialize in_)
  else if decide (mtype = mDeliverGap T) then
    release DeliverGap
      (MessageDeliverGap.DeSerialize (new_MessageDeliverGap new) in_)
  else if decide (mtype = mDeliverData T) then
    release DeliverData
      (MessageDeliverData.DeSerialize (new_MessageDeliverData new) in_)
  else if decide (mtype = mFindTailSeqno T) then
    release FindTailSeqno (MessageFindTailSeqno.DeSerialize in_)
  else if decide (mtype = mTailSeqno T) then
    release TailSeqno (MessageTailSeqno.DeSerialize in_)
  else if decide (mtype = mDeliverBatch T) then
    release DeliverBatch (MessageDeliverBatch.DeSerialize in_)
  else if decide (mtype = mHeartbeat T) then
    release Heartbeat
      (MessageHeartbeat.DeSerialize (new_MessageHeartbeat new) in_)
  else if decide (mtype = mHeartbeatDelta T) then
    release HeartbeatDelta
      (MessageHeartbeatDelta.DeSerialize (new_MessageHeartbeatDelta new) in_)
  else if decide (mtype = mBacklogQuery T) then
    release BacklogQuery (MessageBacklogQuery.DeSerialize in_)
  else if decide (mtype = mBacklogFill T) then
    release BacklogFill (MessageBacklogFill.DeSerialize in_)
  else if decide (mtype = mIntroduction T) then
    release Introduction (MessageIntroduction.DeSerialize in_)
  else if decide (mtype = mSubAck T) then
    release SubAck (MessageSubAck.DeSerialize (new_MessageSubAck new) in_)
  else None.

(** [Copy]: [SerializeToString] is the [Serialize] of the class of the
    message. *)
Definition Copy (msg : AnyMessage) : option AnyMessage :=
  let serial := Serialize msg in
  CreateNewInstance serial.

End types.

End NewInstance.

(** ** messages/messages.cc: what goes into the log storage *)

Module MessageStorage.

(** [MessageData::GetStorage] *)
Definition GetStorage `{WireFormat} (m : MessageData.t) : list byte :=
  MessageData.SerializeInternal m [].

End MessageStorage.

(** ** util/common/coding.cc: [BitStreamPutInt] on a [std::string] *)

Module BitStreamString.
Import BitStream.

(** Reading the character [pos] of [*dst]: the character at [pos], and
    the terminating zero at [pos == size()]. *)
Definition char_at (dst : list byte) (pos : Z) : option byte :=
  if decide (pos = Z.of_nat (length dst)) then Some x00
  else dst !! Z.to_nat pos.

(** Storing [c] into the character [pos] of [*dst]. At [pos == size()]
    the terminating zero may be stored again and nothing else; C++11
    leaves even that store undefined. *)
Definition set_char (dst : list byte) (pos : Z) (c : byte)
    : option (list byte) :=
  if decide (pos = Z.of_nat (length dst)) then
    if decide (c = x00) then Some dst else None
  else if decide (0 <= pos < Z.of_nat (length dst)) then
    Some (<[Z.to_nat pos := c]> dst)
  else None.

(** The first [for (idx = 0; idx <= kUsedBytes; ++idx)], which copies
    the character [offset/8 + idx] of [*dst] to [tmpBuf[idx]], with [todo]
    iterations to go. *)
Fixpoint copy_to_tmpBuf (todo : nat) (dst : list byte) (first idx : Z)
    (tmpBuf : list byte) : option (list byte) :=
  match todo with
  | O => Some tmpBuf
  | S todo' =>
      c ← char_at dst (first + idx);
      if decide (Z.to_nat idx < length tmpBuf)%nat then
        copy_to_tmpBuf todo' dst first (idx + 1)
          (<[Z.to_nat idx := c]> tmpBuf)
      else None
  end.

(** The second [for (idx = 0; idx <= kUsedBytes; ++idx)], which copies
    [tmpBuf[idx]] back to the character [offset/8 + idx] of [*dst]. *)
Fixpoint copy_to_dst (todo : nat) (tmpBuf : list byte) (first idx : Z)
    (dst : list byte) : option (list byte) :=
  match todo with
  | O => Some dst
  | S todo' =>
      c ← tmpBuf !! Z.to_nat idx;
      dst ← set_char dst (first + idx) c;
      copy_to_dst todo' tmpBuf first (idx + 1) dst
  end.

(** [BitStreamPutInt(std::string* dst, size_t offset, uint32_t bits,
    uint64_t value)]. [tmpBuf] is the local array of [sizeof(value) + 1]
    characters as it is found, not initialised. *)
Definition BitStreamPutInt_string (tmpBuf : list byte) (dst : list byte)
    (offset bits value : Z) : option (list byte) :=
  (* Number of bytes of tmpBuf being used *)
  let kUsedBytes := (offset mod 8 + bits) / 8 in
  (* Copy relevant parts of dst to tmpBuf *)
  tmpBuf ← copy_to_tmpBuf (Z.to_nat (kUsedBytes + 1)) dst (offset / 8) 0
             tmpBuf;
  tmpBuf ← BitStreamPutInt tmpBuf (offset mod 8) bits value;
  (* Copy tmpBuf back to dst *)
  copy_to_dst (Z.to_nat (kUsedBytes + 1)) tmpBuf (offset / 8) 0 dst.

End BitStreamString.

(** ** client/subscriber.h: [struct TenantAndNamespace] *)

Module TenantAndNamespace.

Record t := mk {
  tenant_id : TenantID;
  namespace_id : NamespaceID
}.

(** [operator<] of [std::string]: the first character that differs
    decides, compared as [unsigned char]; without one, the shorter string
    is the smaller. *)
Fixpoint string_lt (lhs rhs : list byte) : bool :=
  match lhs, rhs with
  | _, [] => false
  | [], _ :: _ => true
  | a :: lhs', b :: rhs' =>
      if byte_to_Z a <? byte_to_Z b then true
      else if byte_to_Z b <? byte_to_Z a then false
      else string_lt lhs' rhs'
  end.

(** [friend bool operator<(const TenantAndNamespace& lhs,
                           const TenantAndNamespace& rhs)] *)
Definition lt (lhs rhs : t) : bool :=
  if decide (tenant_id lhs = tenant_id rhs) then
    string_lt (namespace_id lhs) (namespace_id rhs)
  else tenant_id lhs <? tenant_id rhs.

End TenantAndNamespace.

(** * Part II: the properties *)

(** ** Bytes as integers *)

Lemma byte_to_Z_range b : 0 <= byte_to_Z b < 256.
Proof.
  unfold byte_to_Z. pose proof (Byte.to_N_bounded b). lia.
Qed.

Lemma byte_to_Z_to_byte v : byte_to_Z (Z_to_byte v) = v mod 256.
Proof.
  unfold byte_to_Z, Z_to_byte.
  assert (Hr : 0 <= v mod 256 < 256) by (apply Z.mod_pos_bound; lia).
  destruct (Byte.of_N (Z.to_N (v mod 256))) as [b|] eqn:E.
  - apply Byte.to_of_N in E. simpl. rewrite E. lia.
  - apply Byte.of_N_None_iff in E. lia.
Qed.

Lemma Z_to_byte_to_Z b : Z_to_byte (byte_to_Z b) = b.
Proof.
  unfold Z_to_byte, byte_to_Z.
  pose proof (Byte.to_N_bounded b).
  rewrite Z.mod_small by lia. rewrite N2Z.id, Byte.of_to_N. reflexivity.
Qed.

(** ** The varints of coding.cc decode what was encoded *)

Module CodingProofs.
Import Coding.

(** *** Facts about single bytes, by enumeration of the 256 values *)

Lemma byte_continuation_bit b :
  negb (Z.land (byte_to_Z b) 128 =? 0) = (128 <=? byte_to_Z b).
Proof. destruct b; reflexivity. Qed.

Lemma byte_low_seven b : Z.land (byte_to_Z b) 127 = byte_to_Z b mod 128.
Proof. destruct b; reflexivity. Qed.

(** *** Bitwise or of disjoint ranges is addition *)

Lemma lor_shifted_disjoint a b k :
  0 <= k -> 0 <= a < 2 ^ k -> 0 <= b ->
  Z.lor a (b * 2 ^ k) = a + b * 2 ^ k.
Proof.
  intros Hk Ha Hb.
  rewrite <- Z.lxor_lor, <- Z.add_nocarry_lxor; try reflexivity.
  all: apply Z.bits_inj'; intros n Hn; rewrite Z.land_spec, Z.bits_0.
  all: rewrite <- Z.shiftl_mul_pow2 by lia.
  all: destruct (Z.lt_ge_cases n k) as [Hlt|Hge].
  all: try (rewrite Z.shiftl_spec_low by lia; apply andb_false_r).
  all: replace a with (a mod 2 ^ k) by (apply Z.mod_small; lia).
  all: rewrite Z.mod_pow2_bits_high by lia; reflexivity.
Qed.

(** The continuation byte written by the unrolled encoder, [v | B]
    truncated to a char, is the low seven bits of [v] with the top bit
    set. *)
Lemma continuation_byte v :
  0 <= v -> Z_to_byte (Z.lor v 128) = Z_to_byte (Z.lor (Z.land v 127) 128).
Proof.
  intros Hv. unfold Z_to_byte. do 3 f_equal.
  change 256 with (2 ^ 8).
  apply Z.bits_inj'; intros n Hn.
  rewrite !Z.testbit_mod_pow2 by lia.
  destruct (n <? 8) eqn:E; [|reflexivity]. simpl.
  apply Z.ltb_lt in E.
  rewrite !Z.lor_spec, Z.land_spec.
  assert (Hc : n = 0 \/ n = 1 \/ n = 2 \/ n = 3 \/ n = 4 \/ n = 5 \/ n = 6
               \/ n = 7) by lia.
  destruct Hc as [->|[->|[->|[->|[->|[->|[->| ->]]]]]]]; simpl;
    rewrite ?andb_true_r, ?orb_true_r, ?orb_false_r; reflexivity.
Qed.

Lemma continuation_byte_value v :
  0 <= v ->
  byte_to_Z (Z_to_byte (Z.lor (Z.land v 127) 128)) = v mod 128 + 128.
Proof.
  intros Hv. rewrite byte_to_Z_to_byte.
  change 127 with (Z.ones 7). rewrite Z.land_ones by lia.
  assert (0 <= v mod 2 ^ 7 < 2 ^ 7) by (apply Z.mod_pos_bound; lia).
  change 128 with (1 * 2 ^ 7) at 1.
  rewrite lor_shifted_disjoint by lia.
  change (2 ^ 7) with 128 in *. rewrite Z.mod_small by lia. lia.
Qed.

(** *** Decoding what the encoder wrote *)

Lemma shifted_group_bound v shift :
  0 <= shift -> 0 <= v ->
  0 <= (v mod 128) * 2 ^ shift <= v * 2 ^ shift.
Proof.
  intros Hs Hv.
  assert (0 < 2 ^ shift) by (apply Z.pow_pos_nonneg; lia).
  assert (0 <= v mod 128 <= v).
  { pose proof (Z.mod_pos_bound v 128). pose proof (Z.mod_le v 128). lia. }
  split; [apply Z.mul_nonneg_nonneg; lia | apply Z.mul_le_mono_nonneg_r; lia].
Qed.

Lemma split_low_group v shift result :
  0 <= shift -> 0 <= v ->
  result + (v mod 128) * 2 ^ shift + (v / 128) * 2 ^ (shift + 7)
  = result + v * 2 ^ shift.
Proof.
  intros Hs Hv. rewrite Z.pow_add_r by lia. change (2 ^ 7) with 128.
  rewrite (Z.div_mod v 128) at 3 by lia. ring.
Qed.

Lemma GetVarint64Ptr_loop_encode fuel : forall v shift result rest,
  0 <= shift <= 63 -> 0 <= result < 2 ^ shift -> 0 <= v ->
  result + v * 2 ^ shift < 2 ^ 64 -> v < 2 ^ (7 * Z.of_nat fuel) ->
  fuel <> O ->
  GetVarint64Ptr_loop shift result (EncodeVarint64_loop fuel v ++ rest)
  = Some (result + v * 2 ^ shift, rest).
Proof.
  induction fuel as [|fuel IH]; intros v shift result rest Hs Hr Hv Hlt Hf H0;
    [done|clear H0].
  assert (Hp : 0 < 2 ^ shift) by (apply Z.pow_pos_nonneg; lia).
  pose proof (shifted_group_bound v shift (proj1 Hs) Hv) as Hg.
  cbn [EncodeVarint64_loop]. destruct (128 <=? v) eqn:E.
  - apply Z.leb_le in E. cbn [app GetVarint64Ptr_loop].
    replace (shift <=? 63) with true by (symmetry; apply Z.leb_le; lia).
    cbv zeta. rewrite byte_continuation_bit, byte_low_seven.
    rewrite continuation_byte_value by lia.
    replace (128 <=? v mod 128 + 128) with true
      by (symmetry; apply Z.leb_le; pose proof (Z.mod_pos_bound v 128); lia).
    replace ((v mod 128 + 128) mod 128) with (v mod 128)
      by (rewrite <- Z.add_mod_idemp_r, Z.mod_same, Z.add_0_r, Z.mod_mod; lia).
    rewrite Z.shiftl_mul_pow2 by lia. unfold uint64.
    rewrite Z.mod_small by lia.
    rewrite lor_shifted_disjoint by (try apply Z.mod_pos_bound; lia).
    rewrite Z.shiftr_div_pow2 by lia. change (2 ^ 7) with 128.
    assert (Hd : 1 <= v / 128) by (apply Z.div_le_lower_bound; lia).
    assert (H128 : 2 ^ (shift + 7) = 128 * 2 ^ shift)
      by (rewrite Z.pow_add_r by lia; change (2 ^ 7) with 128; ring).
    pose proof (split_low_group v shift result (proj1 Hs) Hv) as Hsplit.
    assert (Hs7 : shift + 7 <= 63).
    { destruct (Z.le_gt_cases (shift + 7) 63) as [|Hbig]; [done|exfalso].
      assert (2 ^ 64 <= 2 ^ (shift + 7)) by (apply Z.pow_le_mono_r; lia).
      assert (2 ^ (shift + 7) <= (v / 128) * 2 ^ (shift + 7)).
      { rewrite <- (Z.mul_1_l (2 ^ (shift + 7))) at 1.
        apply Z.mul_le_mono_nonneg_r; lia. }
      lia. }
    rewrite IH.
    + rewrite Hsplit. reflexivity.
    + lia.
    + rewrite H128. pose proof (Z.mod_pos_bound v 128).
      split; [lia|]. nia.
    + lia.
    + lia.
    + apply Z.div_lt_upper_bound; [lia|].
      replace (7 * Z.of_nat (S fuel)) with (7 + 7 * Z.of_nat fuel) in Hf by lia.
      rewrite Z.pow_add_r in Hf by lia. exact Hf.
    + intros ->. change (2 ^ (7 * Z.of_nat 1)) with 128 in Hf. lia.
  - apply Z.leb_gt in E. cbn [app GetVarint64Ptr_loop].
    replace (shift <=? 63) with true by (symmetry; apply Z.leb_le; lia).
    cbv zeta. rewrite byte_continuation_bit, byte_to_Z_to_byte.
    rewrite Z.mod_small by lia.
    replace (128 <=? v) with false by (symmetry; apply Z.leb_gt; lia).
    cbn [negb]. rewrite Z.shiftl_mul_pow2 by lia. unfold uint64.
    rewrite Z.mod_small by (split; [apply Z.mul_nonneg_nonneg|]; lia).
    rewrite lor_shifted_disjoint by lia. reflexivity.
Qed.

(** [GetVarint64Ptr] after [EncodeVarint64]: every 64-bit value is read
    back, and the slice stands after it. *)
Lemma GetVarint64Ptr_EncodeVarint64 v rest :
  0 <= v < 2 ^ 64 ->
  GetVarint64Ptr (EncodeVarint64 v ++ rest) = Some (v, rest).
Proof.
  intros Hv. unfold GetVarint64Ptr, EncodeVarint64.
  rewrite GetVarint64Ptr_loop_encode; try (simpl; lia).
  f_equal. f_equal. simpl. lia.
Qed.

Lemma GetVarint32PtrFallback_loop_encode fuel : forall v k result rest,
  0 <= k -> 7 * k <= 28 -> 0 <= result < 2 ^ (7 * k) -> 0 <= v ->
  result + v * 2 ^ (7 * k) < 2 ^ 32 -> v < 2 ^ (7 * Z.of_nat fuel) ->
  fuel <> O ->
  GetVarint32PtrFallback_loop (7 * k) result
    (EncodeVarint64_loop fuel v ++ rest)
  = Some (result + v * 2 ^ (7 * k), rest).
Proof.
  induction fuel as [|fuel IH]; intros v k result rest Hk Hs Hr Hv Hlt Hf H0;
    [done|clear H0].
  set (shift := 7 * k) in *.
  assert (Hs0 : 0 <= shift) by (unfold shift; lia).
  assert (Hp : 0 < 2 ^ shift) by (apply Z.pow_pos_nonneg; lia).
  pose proof (shifted_group_bound v shift Hs0 Hv) as Hg.
  cbn [EncodeVarint64_loop]. destruct (128 <=? v) eqn:E.
  - apply Z.leb_le in E. cbn [app GetVarint32PtrFallback_loop].
    replace (shift <=? 28) with true by (symmetry; apply Z.leb_le; lia).
    cbv zeta. rewrite byte_continuation_bit, byte_low_seven.
    rewrite continuation_byte_value by lia.
    replace (128 <=? v mod 128 + 128) with true
      by (symmetry; apply Z.leb_le; pose proof (Z.mod_pos_bound v 128); lia).
    replace ((v mod 128 + 128) mod 128) with (v mod 128)
      by (rewrite <- Z.add_mod_idemp_r, Z.mod_same, Z.add_0_r, Z.mod_mod; lia).
    rewrite Z.shiftl_mul_pow2 by lia. unfold uint32.
    rewrite Z.mod_small by lia.
    rewrite lor_shifted_disjoint by (try apply Z.mod_pos_bound; lia).
    rewrite Z.shiftr_div_pow2 by lia. change (2 ^ 7) with 128.
    assert (Hd : 1 <= v / 128) by (apply Z.div_le_lower_bound; lia).
    assert (H128 : 2 ^ (shift + 7) = 128 * 2 ^ shift)
      by (rewrite Z.pow_add_r by lia; change (2 ^ 7) with 128; ring).
    pose proof (split_low_group v shift result Hs0 Hv) as Hsplit.
    assert (Hs7 : shift + 7 < 32).
    { destruct (Z.lt_ge_cases (shift + 7) 32) as [|Hbig]; [done|exfalso].
      assert (2 ^ 32 <= 2 ^ (shift + 7)) by (apply Z.pow_le_mono_r; lia).
      assert (2 ^ (shift + 7) <= (v / 128) * 2 ^ (shift + 7)).
      { rewrite <- (Z.mul_1_l (2 ^ (shift + 7))) at 1.
        apply Z.mul_le_mono_nonneg_r; lia. }
      lia. }
    replace (shift + 7) with (7 * (k + 1)) in * by (unfold shift; lia).
    rewrite IH.
    + rewrite Hsplit. reflexivity.
    + lia.
    + lia.
    + rewrite H128. pose proof (Z.mod_pos_bound v 128).
      split; [lia|]. nia.
    + lia.
    + lia.
    + apply Z.div_lt_upper_bound; [lia|].
      replace (7 * Z.of_nat (S fuel)) with (7 + 7 * Z.of_nat fuel) in Hf by lia.
      rewrite Z.pow_add_r in Hf by lia. exact Hf.
    + intros ->. change (2 ^ (7 * Z.of_nat 1)) with 128 in Hf. lia.
  - apply Z.leb_gt in E. cbn [app GetVarint32PtrFallback_loop].
    replace (shift <=? 28) with true by (symmetry; apply Z.leb_le; lia).
    cbv zeta. rewrite byte_continuation_bit, byte_to_Z_to_byte.
    rewrite Z.mod_small by lia.
    replace (128 <=? v) with false by (symmetry; apply Z.leb_gt; lia).
    cbn [negb]. rewrite Z.shiftl_mul_pow2 by lia. unfold uint32.
    rewrite Z.mod_small by (split; [apply Z.mul_nonneg_nonneg|]; lia).
    rewrite lor_shifted_disjoint by lia. reflexivity.
Qed.

Lemma leb_div128 v c :
  0 < c -> (128 * c <=? v) = (c <=? v / 128).
Proof.
  intros Hc. destruct (Z.leb_spec c (v / 128)) as [H|H].
  - apply Z.leb_le. pose proof (Z.mul_div_le v 128). lia.
  - apply Z.leb_gt. pose proof (Z.div_mod v 128).
    pose proof (Z.mod_pos_bound v 128). lia.
Qed.

(** The unrolled 32-bit encoder writes the same bytes as the generic loop. *)
Lemma EncodeVarint32_as_loop v :
  0 <= v < 2 ^ 32 -> EncodeVarint32 v = EncodeVarint64_loop 5 v.
Proof.
  intros Hv. unfold EncodeVarint32. cbv zeta.
  change (Z.shiftl 1 7) with 128. change (Z.shiftl 1 14) with 16384.
  change (Z.shiftl 1 21) with 2097152. change (Z.shiftl 1 28) with 268435456.
  assert (Hstep : forall x, Z.shiftr x 7 = x / 128)
    by (intros x; apply (Z.shiftr_div_pow2 x 7); lia).
  assert (H14 : Z.shiftr v 14 = v / 128 / 128).
  { rewrite (Z.shiftr_div_pow2 v 14), Z.div_div by lia. reflexivity. }
  assert (H21 : Z.shiftr v 21 = v / 128 / 128 / 128).
  { rewrite (Z.shiftr_div_pow2 v 21), !Z.div_div by lia. reflexivity. }
  assert (H28 : Z.shiftr v 28 = v / 128 / 128 / 128 / 128).
  { rewrite (Z.shiftr_div_pow2 v 28), !Z.div_div by lia. reflexivity. }
  assert (Hd1 : 0 <= v / 128) by (apply Z.div_pos; lia).
  assert (Hd2 : 0 <= v / 128 / 128) by (apply Z.div_pos; lia).
  assert (Hd3 : 0 <= v / 128 / 128 / 128) by (apply Z.div_pos; lia).
  assert (Hlast : (128 <=? v / 128 / 128 / 128 / 128) = false).
  { rewrite <- !leb_div128 by lia. apply Z.leb_gt. simpl. lia. }
  cbn [EncodeVarint64_loop]. rewrite ?Hstep, ?H14, ?H21, ?H28, Hlast.
  rewrite <- !leb_div128 by lia.
  change (128 * (128 * (128 * 128))) with 268435456.
  change (128 * (128 * 128)) with 2097152. change (128 * 128) with 16384.
  rewrite <- !continuation_byte by lia.
  destruct (Z.ltb_spec v 128), (Z.leb_spec 128 v); try lia; try reflexivity.
  destruct (Z.ltb_spec v 16384), (Z.leb_spec 16384 v); try lia;
    try reflexivity.
  destruct (Z.ltb_spec v 2097152), (Z.leb_spec 2097152 v); try lia;
    try reflexivity.
  destruct (Z.ltb_spec v 268435456), (Z.leb_spec 268435456 v); try lia;
    reflexivity.
Qed.

(** [GetVarint32PtrFallback] after [EncodeVarint32]: every 32-bit value is
    read back, and the slice stands after it. *)
Lemma GetVarint32PtrFallback_EncodeVarint32 v rest :
  0 <= v < 2 ^ 32 ->
  GetVarint32PtrFallback (EncodeVarint32 v ++ rest) = Some (v, rest).
Proof.
  intros Hv. unfold GetVarint32PtrFallback.
  rewrite EncodeVarint32_as_loop by done.
  change 0 with (7 * 0) at 1.
  rewrite GetVarint32PtrFallback_loop_encode; try (simpl; lia).
  f_equal. f_equal. simpl. lia.
Qed.

(** A successful read consumes at least one byte. *)
Lemma GetVarint32PtrFallback_loop_shorter p : forall shift result v rest,
  GetVarint32PtrFallback_loop shift result p = Some (v, rest) ->
  (length rest < length p)%nat.
Proof.
  induction p as [|b p IH]; intros shift result v rest; simpl.
  - destruct (shift <=? 28); discriminate.
  - destruct (shift <=? 28); [|discriminate].
    destruct (negb _).
    + intros H. apply IH in H. lia.
    + intros [= _ <-]. lia.
Qed.

End CodingProofs.

(** ** The codec reads back what it wrote *)

Module WireProofs.
Import Coding CodingProofs Wire.

Lemma byte_to_Z_to_byte_small v :
  0 <= v < 2 ^ 8 -> byte_to_Z (Z_to_byte v) = v.
Proof. intros Hv. rewrite byte_to_Z_to_byte. apply Z.mod_small. lia. Qed.

Lemma GetFixedEnum8_Put v rest :
  0 <= v < 2 ^ 8 -> GetFixedEnum8 ([Z_to_byte v] ++ rest) = Some (v, rest).
Proof. intros Hv. simpl. rewrite byte_to_Z_to_byte_small by lia. done. Qed.

Lemma GetVarint32_Put v rest :
  0 <= v < 2 ^ 32 -> GetVarint32 (EncodeVarint32 v ++ rest) = Some (v, rest).
Proof. apply GetVarint32PtrFallback_EncodeVarint32. Qed.

Lemma GetVarint64_Put v rest :
  0 <= v < 2 ^ 64 -> GetVarint64 (EncodeVarint64 v ++ rest) = Some (v, rest).
Proof. apply GetVarint64Ptr_EncodeVarint64. Qed.

Lemma GetBytes_Put (p : list byte) n rest :
  length p = n -> GetBytes (take n p ++ rest) n = Some (p, rest).
Proof.
  intros <-. unfold GetBytes. rewrite firstn_all.
  rewrite decide_True by (rewrite length_app; lia).
  rewrite take_app_length, drop_app_length. reflexivity.
Qed.

Lemma GetLengthPrefixedSlice_Put (value : list byte) rest :
  Z.of_nat (length value) < 2 ^ 32 ->
  GetLengthPrefixedSlice
    (EncodeVarint32 (uint32 (Z.of_nat (length value))) ++ value ++ rest)
  = Some (value, rest).
Proof.
  intros Hlen. unfold GetLengthPrefixedSlice, uint32.
  rewrite Z.mod_small by lia. rewrite GetVarint32_Put by lia.
  rewrite decide_True by (rewrite length_app; lia).
  rewrite Nat2Z.id, take_app_length, drop_app_length. reflexivity.
Qed.

Lemma GetTopicID_Put (namespace_id topic_name : list byte) rest :
  Z.of_nat (length namespace_id) < 2 ^ 32 ->
  Z.of_nat (length topic_name) < 2 ^ 32 ->
  GetTopicID
    (EncodeVarint32 (uint32 (Z.of_nat (length namespace_id))) ++ namespace_id
     ++ EncodeVarint32 (uint32 (Z.of_nat (length topic_name))) ++ topic_name
     ++ rest)
  = Some ((namespace_id, topic_name), rest).
Proof.
  intros Hn Ht. unfold GetTopicID.
  rewrite !GetLengthPrefixedSlice_Put by done. reflexivity.
Qed.

(** Unfold every Put down to an append, and make the appends right-nested
    so that each Get meets the bytes of its own field first. *)
Ltac put_to_app :=
  unfold PutTopicID, PutLengthPrefixedSlice, PutVarint32, PutVarint64,
    PutFixedEnum8, PutFixed16, PutFixed64, PutBytes, EncodeSubscriptionID;
  cbv zeta; rewrite <- ?app_assoc; rewrite ?app_nil_l.

Ltac get_step :=
  first
  [ progress cbn [GetFixedEnum8]
  | rewrite GetFixedEnum8_Put by lia
  | rewrite GetFixed16_bytes by lia
  | rewrite GetFixed64_bytes by lia
  | rewrite DecodeSubscriptionID_bytes by lia
  | rewrite GetTopicID_Put by lia
  | rewrite GetLengthPrefixedSlice_Put by lia
  | rewrite GetVarint32_Put by lia
  | rewrite GetVarint64_Put by lia ].

Ltac get_all :=
  repeat (get_step; cbv beta iota zeta);
  rewrite ?byte_to_Z_to_byte_small by lia.

Section laws.
Context `{WireFormatLaws}.

Lemma Message_roundtrip (m : Message.t) rest :
  Message.WellFormed m ->
  Message.DeSerialize (Message.Serialize m [] ++ rest) = OK m rest.
Proof.
  destruct m as [ty tenant]; intros [Hty Htenant]; simpl in *.
  unfold Message.Serialize, Message.DeSerialize; simpl.
  put_to_app. get_all. reflexivity.
Qed.

Lemma MessagePing_roundtrip (m : MessagePing.t) rest :
  MessagePing.WellFormed m ->
  MessagePing.DeSerialize (MessagePing.Serialize m [] ++ rest) = OK m rest.
Proof.
  destruct m as [[ty tenant] pt cookie]; intros ([Hty Htenant] & Hpt & Hc).
  simpl in *.
  unfold MessagePing.Serialize, MessagePing.DeSerialize; simpl.
  put_to_app. get_all. reflexivity.
Qed.

Lemma foldl_appends {A} (f : list byte -> A -> list byte) :
  (forall out a, f out a = out ++ f [] a) ->
  forall l out, foldl f out l = out ++ foldl f [] l.
Proof.
  intros Hf l. induction l as [|a l IH]; intros out; simpl.
  - by rewrite app_nil_r.
  - rewrite IH, (IH (f [] a)), (Hf out a), app_assoc. reflexivity.
Qed.

Lemma foldl_appends_cons {A} (f : list byte -> A -> list byte) a l :
  (forall out a, f out a = out ++ f [] a) ->
  foldl f [] (a :: l) = f [] a ++ foldl f [] l.
Proof. intros Hf. simpl. by apply foldl_appends. Qed.

Lemma MessageData_roundtrip self (m : MessageData.t) rest :
  MessageData.WellFormed m ->
  MessageData.DeSerialize self (MessageData.Serialize m [] ++ rest)
  = OK m rest.
Proof.
  destruct m as [[ty tenant] prev seqno topic payload ns msgid].
  intros ([Hty Htenant] & Hprev & Hseqno & Hns & Htopic & Hid & Hpayload).
  simpl in *.
  unfold MessageData.Serialize, MessageData.SerializeInternal,
    MessageData.DeSerialize, MessageData.DeSerializeStorage; simpl.
  put_to_app. get_all.
  rewrite decide_False by lia. get_all.
  rewrite <- Hid, firstn_all. reflexivity.
Qed.

Lemma Serialize_acks_app acks out :
  MessageDataAck.Serialize_acks acks out
  = out ++ MessageDataAck.Serialize_acks acks [].
Proof.
  apply foldl_appends. intros o a. put_to_app. reflexivity.
Qed.

Lemma DeSerialize_acks_roundtrip acks : forall acc rest,
  Forall MessageDataAck.WellFormed_Ack acks ->
  MessageDataAck.DeSerialize_acks (length acks) acc
    (MessageDataAck.Serialize_acks acks [] ++ rest)
  = OK (acc ++ acks) rest.
Proof.
  induction acks as [|[st id sq] acks IH]; intros acc rest Hwf.
  - simpl. by rewrite app_nil_r.
  - apply Forall_cons in Hwf as [(Hst & Hid & Hsq) Hwf].
    simpl in Hst, Hid, Hsq.
    unfold MessageDataAck.Serialize_acks in *.
    rewrite foldl_appends_cons by (intros; put_to_app; reflexivity).
    cbn [length MessageDataAck.DeSerialize_acks MessageDataAck.status
         MessageDataAck.msgid MessageDataAck.seqno].
    put_to_app. get_all.
    rewrite GetBytes_Put by done. cbv beta iota. get_all.
    rewrite IH by done. by rewrite <- app_assoc.
Qed.

Lemma MessageDataAck_roundtrip self (m : MessageDataAck.t) rest :
  MessageDataAck.acks_ self = [] ->
  MessageDataAck.WellFormed m ->
  MessageDataAck.DeSerialize self (MessageDataAck.Serialize m [] ++ rest)
  = OK m rest.
Proof.
  destruct m as [[ty tenant] acks].
  intros Hself ([Hty Htenant] & Hlen & Hacks). simpl in *.
  unfold MessageDataAck.Serialize, MessageDataAck.DeSerialize; simpl.
  rewrite Serialize_acks_app. put_to_app. unfold uint32.
  rewrite Z.mod_small by lia. get_all.
  rewrite Nat2Z.id, Hself, DeSerialize_acks_roundtrip by done.
  reflexivity.
Qed.

Lemma MessageGap_roundtrip (m : MessageGap.t) rest :
  MessageGap.WellFormed m ->
  MessageGap.DeSerialize (MessageGap.Serialize m [] ++ rest) = OK m rest.
Proof.
  destruct m as [[ty tenant] ns topic gt from to].
  intros ([Hty Htenant] & Hns & Htopic & Hgt & Hfrom & Hto). simpl in *.
  unfold MessageGap.Serialize, MessageGap.DeSerialize; simpl.
  put_to_app. get_all. reflexivity.
Qed.

Lemma MessageGoodbye_roundtrip (m : MessageGoodbye.t) rest :
  MessageGoodbye.WellFormed m ->
  MessageGoodbye.DeSerialize (MessageGoodbye.Serialize m [] ++ rest)
  = OK m rest.
Proof.
  destruct m as [[ty tenant] code origin].
  intros ([Hty Htenant] & Hcode & Horigin). simpl in *.
  unfold MessageGoodbye.Serialize, MessageGoodbye.DeSerialize; simpl.
  put_to_app. get_all. reflexivity.
Qed.

Lemma Message_Serialize_app (m : Message.t) out :
  Message.Serialize m out = out ++ Message.Serialize m [].
Proof. unfold Message.Serialize. put_to_app. reflexivity. Qed.

Lemma MessageFindTailSeqno_roundtrip (m : MessageFindTailSeqno.t) rest :
  MessageFindTailSeqno.WellFormed m ->
  MessageFindTailSeqno.DeSerialize
    (MessageFindTailSeqno.Serialize m [] ++ rest) = OK m rest.
Proof.
  destruct m as [[ty tenant] ns topic].
  intros ([Hty Htenant] & Hns & Htopic). simpl in *.
  unfold MessageFindTailSeqno.Serialize, MessageFindTailSeqno.DeSerialize,
    Message.Serialize, Message.DeSerialize.
  simpl. put_to_app. get_all. reflexivity.
Qed.

Lemma MessageTailSeqno_roundtrip (m : MessageTailSeqno.t) rest :
  MessageTailSeqno.WellFormed m ->
  MessageTailSeqno.DeSerialize (MessageTailSeqno.Serialize m [] ++ rest)
  = OK m rest.
Proof.
  destruct m as [[ty tenant] ns topic seqno].
  intros ([Hty Htenant] & Hns & Htopic & Hseqno). simpl in *.
  unfold MessageTailSeqno.Serialize, MessageTailSeqno.DeSerialize,
    Message.Serialize, Message.DeSerialize.
  simpl. put_to_app. get_all. reflexivity.
Qed.

Lemma Serialize_sources_app v out :
  Cursors.Serialize_sources v out = out ++ Cursors.Serialize_sources v [].
Proof. apply foldl_appends. intros o a. put_to_app. reflexivity. Qed.

Lemma Serialize_seqnos_app v out :
  Cursors.Serialize_seqnos v out = out ++ Cursors.Serialize_seqnos v [].
Proof. apply foldl_appends. intros o a. put_to_app. reflexivity. Qed.

Lemma DeSerialize_sources_roundtrip v : forall acc rest,
  Forall Cursors.WellFormed_Cursor v ->
  Cursors.DeSerialize_sources (length v) acc
    (Cursors.Serialize_sources v [] ++ rest)
  = OK (acc ++ map Cursors.source v) rest.
Proof.
  induction v as [|[src sq] v IH]; intros acc rest Hwf.
  - simpl. by rewrite app_nil_r.
  - apply Forall_cons in Hwf as [[Hsrc Hsq] Hwf]. simpl in Hsrc, Hsq.
    unfold Cursors.Serialize_sources in *.
    rewrite foldl_appends_cons by (intros; put_to_app; reflexivity).
    cbn [length map Cursors.DeSerialize_sources Cursors.source].
    put_to_app. get_all. rewrite IH by done. by rewrite <- app_assoc.
Qed.

Lemma DeSerialize_seqnos_roundtrip v : forall acc rest,
  Forall Cursors.WellFormed_Cursor v ->
  Cursors.DeSerialize_seqnos (length v) acc
    (Cursors.Serialize_seqnos v [] ++ rest)
  = OK (acc ++ map Cursors.seqno v) rest.
Proof.
  induction v as [|[src sq] v IH]; intros acc rest Hwf.
  - simpl. by rewrite app_nil_r.
  - apply Forall_cons in Hwf as [[Hsrc Hsq] Hwf]. simpl in Hsrc, Hsq.
    unfold Cursors.Serialize_seqnos in *.
    rewrite foldl_appends_cons by (intros; put_to_app; reflexivity).
    cbn [length map Cursors.DeSerialize_seqnos Cursors.seqno].
    put_to_app. get_all. rewrite IH by done. by rewrite <- app_assoc.
Qed.

Lemma zip_with_mkCursor v :
  zip_with Cursors.mkCursor (map Cursors.source v) (map Cursors.seqno v) = v.
Proof.
  induction v as [|[src sq] v IH]; simpl; [done|]. by rewrite IH.
Qed.

Lemma Cursors_roundtrip v rest :
  Cursors.WellFormed v ->
  Cursors.DeSerialize (Z.of_nat (length v))
    (Cursors.Serialize_sources v [] ++ Cursors.Serialize_seqnos v [] ++ rest)
  = OK v rest.
Proof.
  intros [Hlen Hwf]. unfold Cursors.DeSerialize. rewrite Nat2Z.id.
  rewrite DeSerialize_sources_roundtrip by done.
  rewrite DeSerialize_seqnos_roundtrip by done.
  simpl. by rewrite zip_with_mkCursor.
Qed.

Lemma first_seqno_range (v : list Cursors.Cursor) :
  Forall Cursors.WellFormed_Cursor v ->
  0 <= match v with c :: _ => Cursors.seqno c | [] => 0 end < 2 ^ 64.
Proof.
  destruct v as [|c v]; [lia|]. intros Hwf.
  apply Forall_cons in Hwf as [[_ Hsq] _]. exact Hsq.
Qed.

Lemma PutVarint64_first out (v : list Cursors.Cursor) :
  match v with
  | cursor :: _ => PutVarint64 out (Cursors.seqno cursor)
  | [] => PutVarint64 out 0
  end
  = PutVarint64 out match v with c :: _ => Cursors.seqno c | [] => 0 end.
Proof. destruct v; reflexivity. Qed.

Lemma MessageSubscribe_roundtrip self (m : MessageSubscribe.t) rest :
  MessageSubscribe.WellFormed m ->
  MessageSubscribe.DeSerialize self (MessageSubscribe.Serialize m [] ++ rest)
  = OK m rest.
Proof.
  destruct m as [[ty tenant] ns topic sub start].
  intros ([Hty Htenant] & Hns & Htopic & Hsub & Hstart). simpl in *.
  pose proof (first_seqno_range start (proj2 Hstart)) as Hfirst.
  destruct Hstart as [Hlen Hwf].
  unfold MessageSubscribe.Serialize, MessageSubscribe.DeSerialize,
    Message.Serialize, Message.DeSerialize.
  simpl. rewrite Serialize_seqnos_app, Serialize_sources_app.
  rewrite PutVarint64_first.
  put_to_app. get_all.
  rewrite Cursors_roundtrip by done. reflexivity.
Qed.

Lemma MessageUnsubscribe_roundtrip (m : MessageUnsubscribe.t) rest :
  MessageUnsubscribe.WellFormed m ->
  MessageUnsubscribe.DeSerialize (MessageUnsubscribe.Serialize m [] ++ rest)
  = OK m rest.
Proof.
  destruct m as [[ty tenant] sub reason ns topic].
  intros ([Hty Htenant] & Hsub & Hreason & Hns & Htopic). simpl in *.
  unfold MessageUnsubscribe.Serialize, MessageUnsubscribe.DeSerialize,
    Message.Serialize, Message.DeSerialize.
  simpl. put_to_app. get_all. reflexivity.
Qed.

Lemma seqno_diff_range prev seqno :
  0 <= uint64 (seqno - prev) < 2 ^ 64.
Proof. apply Z.mod_pos_bound. lia. Qed.

Lemma seqno_diff_back prev seqno :
  0 <= seqno < 2 ^ 64 -> uint64 (prev + uint64 (seqno - prev)) = seqno.
Proof.
  intros Hs. unfold uint64. rewrite Z.add_mod_idemp_r by lia.
  replace (prev + (seqno - prev)) with seqno by lia.
  apply Z.mod_small. lia.
Qed.

Lemma MessageDeliver_roundtrip (m : MessageDeliver.t) rest :
  MessageDeliver.WellFormed m ->
  MessageDeliver.DeSerialize (MessageDeliver.Serialize m [] ++ rest)
  = OK m rest.
Proof.
  destruct m as [[ty tenant] sub prev seqno].
  intros ([Hty Htenant] & Hsub & Hprev & Hseqno). simpl in *.
  pose proof (seqno_diff_range prev seqno) as Hdiff.
  unfold MessageDeliver.Serialize, MessageDeliver.DeSerialize,
    Message.Serialize, Message.DeSerialize.
  simpl. put_to_app. get_all. rewrite seqno_diff_back by done.
  reflexivity.
Qed.

Lemma MessageDeliverGap_roundtrip self (m : MessageDeliverGap.t) rest :
  MessageDeliverGap.WellFormed m ->
  MessageDeliverGap.DeSerialize self
    (MessageDeliverGap.Serialize m [] ++ rest) = OK m rest.
Proof.
  destruct m as [[[ty tenant] sub prev seqno] gt ns topic src].
  intros (([Hty Htenant] & Hsub & Hprev & Hseqno) & Hgt & Hns & Htopic
          & Hsrc).
  simpl in *. pose proof (seqno_diff_range prev seqno) as Hdiff.
  unfold MessageDeliverGap.Serialize, MessageDeliverGap.DeSerialize,
    MessageDeliver.Serialize, MessageDeliver.DeSerialize,
    Message.Serialize, Message.DeSerialize.
  simpl. put_to_app. get_all. rewrite seqno_diff_back by done.
  reflexivity.
Qed.

Lemma MessageSubAck_roundtrip self (m : MessageSubAck.t) rest :
  MessageSubAck.WellFormed m ->
  MessageSubAck.DeSerialize self (MessageSubAck.Serialize m [] ++ rest)
  = OK m rest.
Proof.
  destruct m as [[ty tenant] ns topic sub cursors].
  intros ([Hty Htenant] & Hns & Htopic & Hsub & Hcursors). simpl in *.
  destruct (Hcursors) as [Hlen Hwf].
  unfold MessageSubAck.Serialize, MessageSubAck.DeSerialize,
    Message.Serialize, Message.DeSerialize.
  simpl. rewrite Serialize_seqnos_app, Serialize_sources_app.
  put_to_app. get_all.
  rewrite Cursors_roundtrip by done. reflexivity.
Qed.

Lemma MessageDeliverData_roundtrip self (m : MessageDeliverData.t) rest :
  MessageDeliverData.WellFormed m ->
  MessageDeliverData.DeSerialize self
    (MessageDeliverData.Serialize m [] ++ rest) = OK m rest.
Proof.
  destruct m as [[[ty tenant] sub prev seqno] id payload ns topic src].
  intros (([Hty Htenant] & Hsub & Hprev & Hseqno) & Hid & Hpayload & Hns
          & Htopic & Hsrc).
  simpl in *. pose proof (seqno_diff_range prev seqno) as Hdiff.
  unfold MessageDeliverData.Serialize, MessageDeliverData.DeSerialize,
    MessageDeliver.Serialize, MessageDeliver.DeSerialize,
    Message.Serialize, Message.DeSerialize.
  simpl. put_to_app. get_all. rewrite decide_False by lia. get_all.
  rewrite seqno_diff_back by done. rewrite <- Hid, firstn_all.
  reflexivity.
Qed.

Lemma MessageDeliverData_roundtrip_nil self (m : MessageDeliverData.t) :
  MessageDeliverData.WellFormed m ->
  MessageDeliverData.DeSerialize self (MessageDeliverData.Serialize m [])
  = OK m [].
Proof.
  intros Hwf. rewrite <- (app_nil_r (MessageDeliverData.Serialize m [])).
  by apply MessageDeliverData_roundtrip.
Qed.

Lemma Serialize_messages_app l out :
  MessageDeliverBatch.Serialize_messages l out
  = out ++ MessageDeliverBatch.Serialize_messages l [].
Proof. apply foldl_appends. intros o a. put_to_app. reflexivity. Qed.

Lemma DeSerialize_messages_roundtrip l : forall acc rest,
  Forall MessageDeliverBatch.WellFormed_message l ->
  MessageDeliverBatch.DeSerialize_messages (length l) acc
    (MessageDeliverBatch.Serialize_messages l [] ++ rest)
  = OK (acc ++ l) rest.
Proof.
  induction l as [|msg l IH]; intros acc rest Hwf.
  - simpl. by rewrite app_nil_r.
  - apply Forall_cons in Hwf as [[Hmsg Hlen] Hwf].
    unfold MessageDeliverBatch.Serialize_messages in *.
    rewrite foldl_appends_cons by (intros; put_to_app; reflexivity).
    cbn [length MessageDeliverBatch.DeSerialize_messages].
    put_to_app. get_all.
    rewrite MessageDeliverData_roundtrip_nil by done.
    rewrite IH by done. by rewrite <- app_assoc.
Qed.

Lemma MessageDeliverBatch_roundtrip (m : MessageDeliverBatch.t) rest :
  MessageDeliverBatch.WellFormed m ->
  MessageDeliverBatch.DeSerialize (MessageDeliverBatch.Serialize m [] ++ rest)
  = OK m rest.
Proof.
  destruct m as [[ty tenant] msgs].
  intros ([Hty Htenant] & Hlen & Hwf). simpl in *.
  unfold MessageDeliverBatch.Serialize, MessageDeliverBatch.DeSerialize,
    Message.Serialize, Message.DeSerialize.
  simpl. rewrite Serialize_messages_app. put_to_app. get_all.
  rewrite Nat2Z.id, DeSerialize_messages_roundtrip by done. reflexivity.
Qed.

(** The laws leave no room for an empty fixed-width encoding. *)
Lemma Fixed64_bytes_nonempty v : 0 <= v < 2 ^ 64 -> Fixed64_bytes v <> [].
Proof.
  intros Hv Hnil.
  set (v' := if decide (v = 0) then 1 else 0).
  assert (Hv' : 0 <= v' < 2 ^ 64) by (unfold v'; case_decide; lia).
  assert (Hne : v <> v') by (unfold v'; case_decide; lia).
  pose proof (GetFixed64_bytes v (Fixed64_bytes v' ++ []) Hv) as H1.
  rewrite Hnil, app_nil_l, (GetFixed64_bytes v' [] Hv') in H1.
  congruence.
Qed.

Lemma int64_small x : - 2 ^ 63 <= x < 2 ^ 63 -> int64 x = x.
Proof. intros Hx. unfold int64. rewrite Z.mod_small by lia. lia. Qed.

Lemma int64_uint64 x : int64 (uint64 x) = int64 x.
Proof.
  unfold int64, uint64. f_equal.
  rewrite Zplus_mod_idemp_l. reflexivity.
Qed.

(** The milliseconds of a time point and their ticks lie between the
    epoch and the time point. *)
Lemma quot_between ts :
  let q := Z.quot ts ticks_per_ms in
  (0 <= ts -> 0 <= q <= ts /\ 0 <= q * ticks_per_ms <= ts) /\
  (ts <= 0 -> ts <= q <= 0 /\ ts <= q * ticks_per_ms <= 0).
Proof.
  pose proof ticks_per_ms_pos as Hpos. cbv zeta.
  pose proof (Z.quot_rem' ts ticks_per_ms) as Hqr.
  split; intros Hts.
  - pose proof (Z.rem_bound_pos ts ticks_per_ms Hts Hpos).
    pose proof (Z.quot_pos ts ticks_per_ms Hts Hpos). nia.
  - pose proof (Z.rem_bound_pos (- ts) ticks_per_ms ltac:(lia) Hpos) as Hr.
    pose proof (Z.quot_pos (- ts) ticks_per_ms ltac:(lia) Hpos) as Hq.
    rewrite Z.rem_opp_l in Hr by lia. rewrite Z.quot_opp_l in Hq by lia.
    nia.
Qed.

(** What [DeSerialize] makes of the milliseconds that [Serialize] wrote:
    the time point without what is below a millisecond. *)
Lemma source_ms_roundtrip ts :
  MessageHeartbeat.WellFormed_timestamp ts ->
  0 <= MessageHeartbeat.source_ms ts < 2 ^ 64 /\
  MessageHeartbeat.since_source (MessageHeartbeat.source_ms ts)
  = MessageHeartbeat.whole_ms ts.
Proof.
  intros Hts. unfold MessageHeartbeat.WellFormed_timestamp in Hts.
  unfold MessageHeartbeat.source_ms, MessageHeartbeat.since_source,
    MessageHeartbeat.whole_ms.
  split; [unfold uint64; apply Z.mod_pos_bound; lia|].
  rewrite int64_uint64.
  destruct (quot_between ts) as [Hpos Hneg].
  destruct (Z.le_ge_cases 0 ts) as [H0|H0].
  - destruct (Hpos H0). rewrite (int64_small (Z.quot _ _)) by lia.
    apply int64_small. lia.
  - destruct (Hneg H0). rewrite (int64_small (Z.quot _ _)) by lia.
    apply int64_small. lia.
Qed.

Lemma EncodeVarint32_nonempty v : (1 <= length (EncodeVarint32 v))%nat.
Proof.
  unfold EncodeVarint32. cbv zeta.
  repeat match goal with |- context [if ?c then _ else _] => destruct c end;
    simpl; lia.
Qed.

Lemma Serialize_shards_app l out :
  MessageHeartbeat.Serialize_shards l out
  = out ++ MessageHeartbeat.Serialize_shards l [].
Proof. apply foldl_appends. intros o a. put_to_app. reflexivity. Qed.

Lemma Serialize_shards_cons a l :
  MessageHeartbeat.Serialize_shards (a :: l) []
  = EncodeVarint32 a ++ MessageHeartbeat.Serialize_shards l [].
Proof.
  unfold MessageHeartbeat.Serialize_shards.
  rewrite foldl_appends_cons by (intros; put_to_app; reflexivity).
  reflexivity.
Qed.

Lemma Serialize_shards_length l :
  (length l <= length (MessageHeartbeat.Serialize_shards l []))%nat.
Proof.
  induction l as [|a l IH]; [simpl; lia|].
  rewrite Serialize_shards_cons, length_app.
  pose proof (EncodeVarint32_nonempty a). simpl. lia.
Qed.

(** The read-until-it-fails loop of a heartbeat, on the bytes of the
    shards alone: enough fuel returns every shard and the empty slice. *)
Lemma Heartbeat_shards_roundtrip l : forall acc fuel,
  Forall (fun shard => 0 <= shard < 2 ^ 32) l ->
  (length l < fuel)%nat ->
  MessageHeartbeat.DeSerialize_shards fuel acc
    (MessageHeartbeat.Serialize_shards l [])
  = (acc ++ l, []).
Proof.
  induction l as [|a l IH]; intros acc fuel Hwf Hfuel.
  - destruct fuel as [|fuel]; [simpl in Hfuel; lia|].
    simpl. by rewrite app_nil_r.
  - apply Forall_cons in Hwf as [Ha Hwf].
    destruct fuel as [|fuel]; [simpl in Hfuel; lia|].
    rewrite Serialize_shards_cons.
    cbn [MessageHeartbeat.DeSerialize_shards].
    rewrite GetVarint32_Put by done.
    rewrite IH by (simpl in Hfuel; done || lia). by rewrite <- app_assoc.
Qed.

Lemma MessageHeartbeat_roundtrip self (m : MessageHeartbeat.t) :
  MessageHeartbeat.healthy_streams_ self = [] ->
  MessageHeartbeat.WellFormed m ->
  MessageHeartbeat.DeSerialize self (MessageHeartbeat.Serialize m [])
  = OK (MessageHeartbeat.sent m) [].
Proof.
  destruct m as [[ty tenant] ts hs].
  intros Hself ([Hty Htenant] & Hts & Hhs). simpl in *.
  destruct (source_ms_roundtrip ts Hts) as [Hms Hback].
  pose proof (Fixed64_bytes_nonempty _ Hms) as Hne.
  unfold MessageHeartbeat.Serialize, MessageHeartbeat.DeSerialize.
  cbn [MessageHeartbeat.base MessageHeartbeat.timestamp_
       MessageHeartbeat.healthy_streams_ Message.type_ Message.tenantid_].
  rewrite Serialize_shards_app. put_to_app. get_all.
  rewrite decide_False.
  2:{ rewrite length_app.
      destruct (Fixed64_bytes (MessageHeartbeat.source_ms ts)); [done|].
      simpl. lia. }
  get_all. rewrite Hself, Hback.
  rewrite Heartbeat_shards_roundtrip;
    [reflexivity | done | pose proof (Serialize_shards_length hs); lia].
Qed.

Lemma HeartbeatDelta_shards_roundtrip what l : forall acc rest,
  Forall (fun shard => 0 <= shard < 2 ^ 32) l ->
  MessageHeartbeatDelta.DeSerialize_shards (length l) what acc
    (MessageHeartbeat.Serialize_shards l [] ++ rest)
  = OK (acc ++ l) rest.
Proof.
  induction l as [|a l IH]; intros acc rest Hwf.
  - simpl. by rewrite app_nil_r.
  - apply Forall_cons in Hwf as [Ha Hwf].
    rewrite Serialize_shards_cons.
    cbn [length MessageHeartbeatDelta.DeSerialize_shards].
    rewrite <- app_assoc, GetVarint32_Put by done.
    rewrite IH by done. by rewrite <- app_assoc.
Qed.

Lemma MessageHeartbeatDelta_roundtrip self (m : MessageHeartbeatDelta.t) rest :
  MessageHeartbeatDelta.added_healthy_ self = [] ->
  MessageHeartbeatDelta.removed_healthy_ self = [] ->
  MessageHeartbeatDelta.WellFormed m ->
  MessageHeartbeatDelta.DeSerialize self
    (MessageHeartbeatDelta.Serialize m [] ++ rest)
  = OK (MessageHeartbeatDelta.sent m) rest.
Proof.
  destruct m as [[ty tenant] ts added removed].
  intros Hadd Hrem ([Hty Htenant] & Hts & Hla & Hadded & Hlr & Hremoved).
  simpl in *.
  destruct (source_ms_roundtrip ts Hts) as [Hms Hback].
  unfold MessageHeartbeatDelta.Serialize, MessageHeartbeatDelta.DeSerialize.
  cbn [MessageHeartbeatDelta.base MessageHeartbeatDelta.timestamp_
       MessageHeartbeatDelta.added_healthy_
       MessageHeartbeatDelta.removed_healthy_ Message.type_
       Message.tenantid_].
  cbv zeta.
  rewrite (Serialize_shards_app removed), (Serialize_shards_app added).
  put_to_app. get_all.
  rewrite Nat2Z.id, Hadd, HeartbeatDelta_shards_roundtrip by done.
  get_all.
  rewrite Nat2Z.id, Hrem, HeartbeatDelta_shards_roundtrip by done.
  rewrite Hback. reflexivity.
Qed.

Lemma MessageBacklogQuery_roundtrip (m : MessageBacklogQuery.t) rest :
  MessageBacklogQuery.WellFormed m ->
  MessageBacklogQuery.DeSerialize (MessageBacklogQuery.Serialize m [] ++ rest)
  = OK m rest.
Proof.
  destruct m as [[ty tenant] sub ns topic src seqno].
  intros ([Hty Htenant] & Hsub & Hns & Htopic & Hsrc & Hseqno). simpl in *.
  unfold MessageBacklogQuery.Serialize, MessageBacklogQuery.DeSerialize.
  simpl. put_to_app. get_all. reflexivity.
Qed.

Lemma MessageBacklogFill_roundtrip (m : MessageBacklogFill.t) rest :
  MessageBacklogFill.WellFormed m ->
  MessageBacklogFill.DeSerialize (MessageBacklogFill.Serialize m [] ++ rest)
  = OK m rest.
Proof.
  destruct m as [[ty tenant] ns topic src prev next res info].
  intros ([Hty Htenant] & Hns & Htopic & Hsrc & Hprev & Hnext & Hres
          & Hinfo).
  simpl in *.
  unfold MessageBacklogFill.Serialize, MessageBacklogFill.DeSerialize.
  simpl. put_to_app. get_all. reflexivity.
Qed.

Definition put_property (out : list byte) (info : list byte * list byte)
    : list byte :=
  PutLengthPrefixedSlice (PutLengthPrefixedSlice out info.1) info.2.

Definition emplace_all (l : list (list byte * list byte))
    (acc : MessageIntroduction.Properties) : MessageIntroduction.Properties :=
  foldl (fun acc info => MessageIntroduction.emplace info.1 info.2 acc) acc l.

Lemma emplace_all_fresh (l : list (list byte * list byte)) : forall acc,
  NoDup l.*1 -> (forall k, k ∈ l.*1 -> acc !! k = None) ->
  emplace_all l acc = list_to_map l ∪ acc.
Proof.
  induction l as [|[k v] l IH]; intros acc Hnd Hfresh.
  - simpl. by rewrite (left_id_L ∅ (∪)).
  - apply NoDup_cons in Hnd as [Hk Hnd]. unfold emplace_all in *.
    cbn [foldl fst snd]. unfold MessageIntroduction.emplace at 2.
    rewrite (Hfresh k) by (simpl; left).
    rewrite IH; [|done|].
    + rewrite list_to_map_cons, <- insert_union_l, <- insert_union_r;
        [done|]. by apply not_elem_of_list_to_map_1.
    + intros k' Hk'. rewrite lookup_insert_ne by (intros ->; done).
      apply Hfresh. simpl. by right.
Qed.

Lemma emplace_all_map_to_list (m : MessageIntroduction.Properties) :
  emplace_all (map_to_list m) ∅ = m.
Proof.
  rewrite emplace_all_fresh.
  - by rewrite list_to_map_to_list, (right_id_L ∅ (∪)).
  - apply NoDup_fst_map_to_list.
  - intros k _. apply lookup_empty.
Qed.

Lemma DeSerialize_properties_roundtrip
    (l : list (list byte * list byte)) : forall acc rest,
  Forall (fun info => Z.of_nat (length info.1) < 2 ^ 32 /\
                      Z.of_nat (length info.2) < 2 ^ 32) l ->
  MessageIntroduction.DeSerialize_properties (length l) acc
    (foldl put_property [] l ++ rest)
  = OK (emplace_all l acc) rest.
Proof.
  induction l as [|[k v] l IH]; intros acc rest Hwf.
  - reflexivity.
  - apply Forall_cons in Hwf as [[Hk Hv] Hwf]. simpl in Hk, Hv.
    rewrite foldl_appends_cons
      by (intros; unfold put_property; put_to_app; reflexivity).
    cbn [length MessageIntroduction.DeSerialize_properties].
    unfold put_property at 1. cbn [fst snd]. put_to_app. get_all.
    rewrite IH by done. reflexivity.
Qed.

Lemma Serialize_properties_app m out :
  MessageIntroduction.Serialize_properties m out
  = out ++ foldl put_property [] (map_to_list m).
Proof.
  unfold MessageIntroduction.Serialize_properties.
  change (fun (out : list byte) (info : list byte * list byte) =>
            let out := PutLengthPrefixedSlice out info.1 in
            let out := PutLengthPrefixedSlice out info.2 in out)
    with put_property.
  apply foldl_appends. intros o a. unfold put_property. put_to_app.
  reflexivity.
Qed.

Lemma MessageIntroduction_roundtrip (m : MessageIntroduction.t) rest :
  MessageIntroduction.WellFormed m ->
  MessageIntroduction.DeSerialize (MessageIntroduction.Serialize m [] ++ rest)
  = OK m rest.
Proof.
  destruct m as [[ty tenant] sp cp].
  intros ([Hty Htenant] & [Hls Hsp] & [Hlc Hcp]).
  cbn [MessageIntroduction.base MessageIntroduction.stream_properties_
       MessageIntroduction.client_properties_ Message.type_
       Message.tenantid_] in *.
  apply map_Forall_to_list in Hsp, Hcp.
  unfold MessageIntroduction.Serialize, MessageIntroduction.DeSerialize,
    Message.Serialize, Message.DeSerialize.
  cbn [MessageIntroduction.base MessageIntroduction.stream_properties_
       MessageIntroduction.client_properties_ Message.type_
       Message.tenantid_].
  cbv zeta. rewrite !Serialize_properties_app. put_to_app. get_all.
  rewrite Nat2Z.id, <- (length_map_to_list sp).
  rewrite DeSerialize_properties_roundtrip
    by (eapply Forall_impl; [eassumption|]; by intros [? ?]).
  get_all.
  rewrite Nat2Z.id, <- (length_map_to_list cp).
  rewrite DeSerialize_properties_roundtrip
    by (eapply Forall_impl; [eassumption|]; by intros [? ?]).
  rewrite !emplace_all_map_to_list. reflexivity.
Qed.

End laws.
End WireProofs.

(** ** The round trip of every message kind *)

Module CodecProofs.
Import Codec WireProofs.

(** *** The little-endian instance obeys the laws *)

Lemma bytes_back (l : list Z) :
  Forall (fun b => 0 <= b < 2 ^ 8) l -> byte_to_Z <$> (Z_to_byte <$> l) = l.
Proof.
  induction 1 as [|b l Hb _ IH]; [done|]. rewrite !fmap_cons, IH.
  rewrite byte_to_Z_to_byte, Z.mod_small by lia. reflexivity.
Qed.

Lemma get_fixed_bytes (n : nat) v rest :
  0 <= v < 2 ^ (Z.of_nat n * 8) ->
  get_fixed n (fixed_bytes n v ++ rest) = Some (v, rest).
Proof.
  intros Hv. unfold get_fixed, fixed_bytes.
  assert (Hlen : length (Z_to_byte <$> Z_to_little_endian (Z.of_nat n) 8 v)
                 = n).
  { rewrite length_fmap.
    pose proof (length_Z_to_little_endian (Z.of_nat n) 8 v). lia. }
  rewrite decide_True by (rewrite length_app; lia).
  rewrite take_app_length', drop_app_length' by done.
  rewrite bytes_back by (apply Z_to_little_endian_bound; lia).
  rewrite little_endian_to_Z_to_little_endian by lia.
  rewrite Z.mod_small by lia. reflexivity.
Qed.

#[export] Instance LittleEndian_laws : WireFormatLaws LittleEndian.
Proof.
  split.
  - intros v rest Hv. apply (get_fixed_bytes 2). simpl. lia.
  - intros v rest Hv. apply (get_fixed_bytes 8). simpl. lia.
  - apply CodingProofs.GetVarint64Ptr_EncodeVarint64.
  - simpl. lia.
Qed.

Ltac with_empty_rest :=
  match goal with
  | |- context [?D (?S ?m [])] =>
      rewrite <- (app_nil_r (S m []))
  end.

Lemma whole_ms_fixed `{WireFormatLaws} ts :
  MessageHeartbeat.whole_ms ts = ts <-> Z.rem ts ticks_per_ms = 0.
Proof.
  unfold MessageHeartbeat.whole_ms.
  pose proof (Z.quot_rem' ts ticks_per_ms). lia.
Qed.

Lemma sent_fixed `{WireFormatLaws} (m : AnyMessage) :
  sent m = m <-> in_milliseconds m.
Proof.
  destruct m as [m|m|m|m|m|m|m|m|m|m|m|m|m|m|m|m|m|m|m];
    cbn [sent in_milliseconds]; try done.
  - destruct m as [b ts hs]. unfold MessageHeartbeat.sent.
    cbn [MessageHeartbeat.base MessageHeartbeat.timestamp_
         MessageHeartbeat.healthy_streams_].
    rewrite <- whole_ms_fixed. split; [by intros [= ->]|by intros ->].
  - destruct m as [b ts added removed]. unfold MessageHeartbeatDelta.sent.
    cbn [MessageHeartbeatDelta.base MessageHeartbeatDelta.timestamp_
         MessageHeartbeatDelta.added_healthy_
         MessageHeartbeatDelta.removed_healthy_].
    rewrite <- whole_ms_fixed. split; [by intros [= ->]|by intros ->].
Qed.

(** C1. For every message kind and every well-formed message [m] of that
    kind, [DeSerialize], run on a newly constructed object of the same
    class, reads back from the bytes of [Serialize m], with OK status and
    nothing left over, the message [m], but for the timestamp of a
    heartbeat, which comes back without what it had below a millisecond.
    So the message read back is [m] exactly when [m] is no heartbeat, or
    a heartbeat on a whole millisecond. This holds for every layout of the
    fixed-width integers and of the subscription ID that reads back what
    it wrote, and for every resolution of the clock. *)
Theorem codec_roundtrip `{WireFormatLaws} (self m : AnyMessage) :
  fresh_for self m -> WellFormed m ->
  DeSerialize self (Serialize m) = OK (sent m) [] /\
  (sent m = m <-> in_milliseconds m).
Proof.
  intros Hfresh Hwf. split; [|apply sent_fixed].
  destruct self as [s|s|s|s|s|s|s|s|s|s|s|s|s|s|s|s|s|s|s],
           m as [m|m|m|m|m|m|m|m|m|m|m|m|m|m|m|m|m|m|m];
    try contradiction;
    cbn [DeSerialize Serialize fresh_for WellFormed sent] in *.
  - with_empty_rest. by rewrite MessagePing_roundtrip.
  - with_empty_rest. by rewrite MessageData_roundtrip.
  - with_empty_rest. by rewrite MessageDataAck_roundtrip.
  - with_empty_rest. by rewrite MessageGap_roundtrip.
  - with_empty_rest. by rewrite MessageGoodbye_roundtrip.
  - with_empty_rest. by rewrite MessageSubscribe_roundtrip.
  - with_empty_rest. by rewrite MessageUnsubscribe_roundtrip.
  - with_empty_rest. by rewrite MessageDeliver_roundtrip.
  - with_empty_rest. by rewrite MessageDeliverGap_roundtrip.
  - with_empty_rest. by rewrite MessageDeliverData_roundtrip.
  - with_empty_rest. by rewrite MessageDeliverBatch_roundtrip.
  - by rewrite MessageHeartbeat_roundtrip.
  - destruct Hfresh. with_empty_rest.
    by rewrite MessageHeartbeatDelta_roundtrip.
  - with_empty_rest. by rewrite MessageFindTailSeqno_roundtrip.
  - with_empty_rest. by rewrite MessageTailSeqno_roundtrip.
  - with_empty_rest. by rewrite MessageBacklogQuery_roundtrip.
  - with_empty_rest. by rewrite MessageBacklogFill_roundtrip.
  - with_empty_rest. by rewrite MessageIntroduction_roundtrip.
  - with_empty_rest. by rewrite MessageSubAck_roundtrip.
Qed.

Definition bytes_of_string (s : string) : list byte :=
  list_byte_of_string s.

(** A subscription with two cursors, on the little-endian layout. *)
Definition example_subscribe : AnyMessage :=
  Subscribe
    (MessageSubscribe.mk (Message.mk 8 102)
       (bytes_of_string "102") (bytes_of_string "test_topic") 4660
       [Cursors.mkCursor (bytes_of_string "log-a") 1;
        Cursors.mkCursor (bytes_of_string "log-b") 18446744073709551615]).

Definition empty_subscribe : AnyMessage :=
  Subscribe (MessageSubscribe.mk (Message.mk 0 0) [] [] 0 []).

Lemma codec_roundtrip_witness :
  fresh_for empty_subscribe example_subscribe /\
  WellFormed example_subscribe /\
  DeSerialize empty_subscribe (Serialize example_subscribe)
  = OK (sent example_subscribe) [] /\
  (sent example_subscribe = example_subscribe
   <-> in_milliseconds example_subscribe).
Proof.
  assert (Hwf : WellFormed example_subscribe).
  { repeat split; simpl; try lia;
      repeat constructor; simpl; lia. }
  split; [exact I|]. split; [exact Hwf|].
  exact (codec_roundtrip (H := LittleEndian_laws) empty_subscribe
           example_subscribe I Hwf).
Defined.

(** A count of milliseconds from the wire that has its top bit set is a
    time before the epoch: all ones is one millisecond before it. *)
Lemma since_source_all_ones :
  MessageHeartbeat.since_source (H := LittleEndian) (2 ^ 64 - 1) = - 1000000.
Proof. reflexivity. Qed.

(** *** A heartbeat between two milliseconds

    On a clock of nanoseconds, a heartbeat of tenant 7 for the streams 3
    and 200, taken 1.5 ms after the epoch. *)
Definition example_heartbeat : AnyMessage :=
  Heartbeat (MessageHeartbeat.mk (Message.mk 15 7) 1500000 [3; 200]).

Definition empty_heartbeat : AnyMessage :=
  Heartbeat (MessageHeartbeat.mk (Message.mk 0 0) 0 []).

Lemma example_heartbeat_WellFormed : WellFormed example_heartbeat.
Proof.
  repeat split; simpl; try lia;
    unfold MessageHeartbeat.WellFormed_timestamp; simpl; try lia;
    repeat constructor; simpl; lia.
Defined.

(** [Serialize] writes 1 as the milliseconds of the heartbeat, and
    [DeSerialize] reads a heartbeat of 1 ms after the epoch: every member
    of the message fits its type, and the message read is another one. *)
Lemma heartbeat_comes_back_on_the_millisecond :
  fresh_for empty_heartbeat example_heartbeat /\
  WellFormed example_heartbeat /\
  exists m,
    DeSerialize empty_heartbeat (Serialize example_heartbeat)
    = OK (Heartbeat m) [] /\
    MessageHeartbeat.timestamp_ m = 1000000 /\
    Heartbeat m <> example_heartbeat.
Proof.
  split; [reflexivity|]. split; [exact example_heartbeat_WellFormed|].
  eexists. split; [vm_compute; reflexivity|].
  split; [reflexivity|]. intros E. discriminate E.
Qed.

End CodecProofs.

(** ** An input on which [MessageDeliver::DeSerialize] wraps around *)

Module DeliverOverflow.
Import Codec.

(** A deliver header (type tag 11, tenant 0, subscription 1), then the
    varint of [prev_seqno = 2^64 - 1] and the varint of [seqno_diff = 1]:
    fifteen bytes. *)
Definition wrapping_input : Slice :=
  [x0b; x00; x00; x01;
   xff; xff; xff; xff; xff; xff; xff; xff; xff; x01;
   x01].

(** C7. [MessageDeliver::DeSerialize] returns OK on [wrapping_input],
    and the sum [seqno_prev_ + seqno_diff] has wrapped around in 64 bits:
    the message has [seqno_ = 0] below [seqno_prev_ = 2^64 - 1], which is
    what [RS_ASSERT(seqno_ >= seqno_prev_)] says cannot happen. *)
Theorem MessageDeliver_DeSerialize_wraps :
  exists m,
    MessageDeliver.DeSerialize (H := LittleEndian) wrapping_input = OK m [] /\
    MessageDeliver.seqno_prev_ m = 2 ^ 64 - 1 /\
    MessageDeliver.seqno_ m = 0 /\
    ~ MessageDeliver.asserted m.
Proof.
  eexists. split; [vm_compute; reflexivity|].
  unfold MessageDeliver.asserted. simpl. lia.
Qed.

End DeliverOverflow.

(** ** The topic map finds what is live and keeps its probe paths whole *)

Module TopicMapProofs.
Import TopicToSubscriptionMap.

Local Open Scope nat_scope.

(** *** Cyclic positions *)

(** The slot after [p] in a vector of [n] slots. *)
Lemma next_position n p :
  p < n -> (p + 1) mod n = if decide (S p = n) then 0 else S p.
Proof.
  intros Hp. case_decide as E.
  - replace (p + 1) with n by lia. apply Nat.Div0.mod_same.
  - replace (p + 1) with (S p) by lia. apply Nat.mod_small. lia.
Qed.

(** The number of steps from [a] forward to [b], around the end. *)
Definition dist (n a b : nat) : nat :=
  if decide (a <= b) then b - a else b + n - a.

(** Arithmetic on cyclic distances: drop what is not a comparison of
    positions, split on every wrap-around, and leave the rest to [lia]. *)
Ltac keep_arith :=
  repeat match goal with
  | H : ?T |- _ =>
      lazymatch T with
      | forall _, _ => clear H
      | context [@Some] => clear H
      | context [@None] => clear H
      end
  end.

Ltac dist_lia :=
  keep_arith; unfold dist in *; repeat case_decide; lia.

Lemma between_dist n g x c :
  g < n -> x < n -> c < n -> g <> c ->
  between g x c = bool_decide (0 < dist n g x <= dist n g c).
Proof.
  intros Hg Hx Hc Hne. unfold between.
  case_decide; apply bool_decide_ext; dist_lia.
Qed.

(** The slots visited from [x] up to and including [p]. *)
Definition probe_path (n x p : nat) : list nat :=
  (fun i => (x + i) mod n) <$> seq 0 (S (dist n x p)).

Lemma elem_of_probe_path n x p q :
  x < n -> p < n ->
  q ∈ probe_path n x p <-> q < n /\ dist n x q <= dist n x p.
Proof.
  intros Hx Hp. unfold probe_path. rewrite list_elem_of_fmap. split.
  - intros (i & -> & Hi). apply elem_of_seq in Hi.
    assert (Hm : (x + i) mod n = if decide (x + i < n) then x + i
                                 else x + i - n).
    { case_decide.
      - apply Nat.mod_small. lia.
      - assert (i < n) by dist_lia.
        transitivity (((x + i - n) + 1 * n) mod n); [f_equal; lia|].
        rewrite Nat.Div0.mod_add. apply Nat.mod_small. lia. }
    rewrite Hm. case_decide; dist_lia.
  - intros [Hq Hd]. exists (dist n x q). split.
    + unfold dist. case_decide.
      * replace (x + (q - x)) with q by lia. symmetry.
        by apply Nat.mod_small.
      * replace (x + (q + n - x)) with (q + 1 * n) by lia.
        rewrite Nat.Div0.mod_add. symmetry. by apply Nat.mod_small.
    + apply elem_of_seq. lia.
Qed.

(** *** One scan for the three probing loops

    [Find], [InsertInternal] and the first loop of [Remove] walk the vector
    from the optimal position until a slot stops them or the walk is back
    where it began. *)

Fixpoint scan (stop : SubscriptionID -> bool) (fuel : nat)
    (v : list SubscriptionID) (x p : nat) : option (option nat) :=
  match fuel with
  | O => None
  | S fuel' =>
      c ← v !! p;
      if stop c then Some (Some p)
      else
        let p' := (p + 1) mod length v in
        if decide (p' <> x) then scan stop fuel' v x p' else Some None
  end.

Definition stops (stop : SubscriptionID -> bool) (v : list SubscriptionID)
    (q : nat) : Prop :=
  exists c, v !! q = Some c /\ stop c = true.

Lemma scan_spec stop v x : forall fuel p,
  x < length v -> p < length v ->
  length v <= fuel + dist (length v) x p ->
  (forall q, q < length v ->
             dist (length v) x q < dist (length v) x p -> ~ stops stop v q) ->
  (exists q, scan stop fuel v x p = Some (Some q) /\ q < length v /\
             stops stop v q /\
             forall q', q' < length v ->
                        dist (length v) x q' < dist (length v) x q ->
                        ~ stops stop v q') \/
  (scan stop fuel v x p = Some None /\
   forall q, q < length v -> ~ stops stop v q).
Proof.
  set (n := length v).
  induction fuel as [|fuel IH]; intros p Hx Hp Hfuel Hbefore.
  { exfalso. dist_lia. }
  destruct (lookup_lt_is_Some_2 v p Hp) as [c Hc].
  cbn [scan]. rewrite Hc. cbn [mbind option_bind].
  destruct (stop c) eqn:Hstop.
  { left. exists p. repeat split; try done. by exists c. }
  fold n. rewrite (next_position n p Hp).
  assert (Hhere : ~ stops stop v p).
  { intros (c' & Hc' & Hs'). congruence. }
  case_decide as Hnext.
  - apply IH; try done.
    + case_decide; lia.
    + case_decide; dist_lia.
    + intros q Hq Hd.
      destruct (decide (q = p)) as [->|Hqp]; [done|].
      apply Hbefore; [done|]. case_decide; dist_lia.
  - right. split; [done|]. intros q Hq.
    destruct (decide (q = p)) as [->|Hqp]; [done|].
    apply Hbefore; [done|]. case_decide; dist_lia.
Qed.

Section with_environment.

Variable XXH64 : Z -> list byte -> Z.
Variable get_state_ : SubscriptionID -> option SubscriptionState.

Abbreviation optimal_of n st :=
  (FindOptimalPosition XXH64 n (GetNamespace st) (GetTopicName st)).

Lemma FindOptimalPosition_lt n namespace_id topic_name :
  0 < n -> FindOptimalPosition XXH64 n namespace_id topic_name < n.
Proof.
  intros Hn. unfold FindOptimalPosition. cbv zeta.
  match goal with |- Z.to_nat (?h mod _) < _ =>
    pose proof (Z.mod_pos_bound h (Z.of_nat n) ltac:(lia)) end.
  lia.
Qed.

(** Does the state of [c] carry this namespace and topic? *)
Definition key_matches (namespace_id : NamespaceID) (topic_name : Topic)
    (c : SubscriptionID) : bool :=
  match get_state_ c with
  | Some state =>
      bool_decide (GetTopicName state = topic_name /\
                   GetNamespace state = namespace_id)
  | None => false
  end.

Definition has_states (v : list SubscriptionID) : Prop :=
  forall q c, v !! q = Some c -> c <> 0%Z -> is_Some (get_state_ c).

Lemma Find_loop_scan v namespace_id topic_name x fuel : forall p,
  has_states v ->
  Find_loop get_state_ fuel v namespace_id topic_name x p
  = r ← scan (fun c => bool_decide (c = 0%Z) ||
                       key_matches namespace_id topic_name c) fuel v x p;
    Some match r with
         | Some q =>
             match v !! q with
             | Some c =>
                 if decide (c = 0%Z) then (0%Z, None) else (c, get_state_ c)
             | None => (0%Z, None)
             end
         | None => (0%Z, None)
         end.
Proof.
  induction fuel as [|fuel IH]; intros p Hst; [done|].
  cbn [Find_loop scan]. destruct (v !! p) as [c|] eqn:Hc; [|done].
  cbn [mbind option_bind]. unfold kReservedSubscriptionID.
  destruct (decide (c = 0%Z)) as [->|Hc0].
  { rewrite bool_decide_true by done. cbn [mbind option_bind orb]. rewrite Hc.
    by rewrite decide_True. }
  rewrite bool_decide_false by done. cbn [orb]. unfold key_matches.
  destruct (Hst p c Hc Hc0) as [st Hget]. rewrite Hget.
  cbn [mbind option_bind]. case_decide as Hkey.
  - rewrite bool_decide_true by done. cbn [mbind option_bind orb]. rewrite Hc.
    rewrite decide_False by done. by rewrite Hget.
  - rewrite bool_decide_false by done. case_decide; [by apply IH|done].
Qed.

Lemma InsertInternal_loop_scan v count sub_id x fuel : forall p,
  InsertInternal_loop fuel v count sub_id x p
  = r ← scan (fun c => bool_decide (c = sub_id \/ c = 0%Z)) fuel v x p;
    Some match r with
         | Some q =>
             if decide (v !! q = Some sub_id) then (v, count)
             else (<[q := sub_id]> v, size_t (count + 1))
         | None => (v, count)
         end.
Proof.
  induction fuel as [|fuel IH]; intros p; [done|].
  cbn [InsertInternal_loop scan]. destruct (v !! p) as [c|] eqn:Hc; [|done].
  cbn [mbind option_bind]. unfold kReservedSubscriptionID.
  destruct (decide (c = sub_id)) as [->|Hne].
  { rewrite bool_decide_true by (by left). cbn [mbind option_bind].
    by rewrite decide_True. }
  destruct (decide (c = 0%Z)) as [->|Hc0].
  { rewrite bool_decide_true by (by right). cbn [mbind option_bind].
    rewrite decide_False by congruence. done. }
  rewrite bool_decide_false by (intros [?|?]; done).
  case_decide; [by apply IH|done].
Qed.

Lemma Remove_find_scan v sub_id x fuel : forall p,
  Remove_find fuel v sub_id x p
  = r ← scan (fun c => bool_decide (c = 0%Z \/ c = sub_id)) fuel v x p;
    Some match r with Some q => q | None => x end.
Proof.
  induction fuel as [|fuel IH]; intros p; [done|].
  cbn [Remove_find scan]. destruct (v !! p) as [c|] eqn:Hc; [|done].
  cbn [mbind option_bind]. unfold kReservedSubscriptionID.
  case_decide as Hstop.
  { by rewrite bool_decide_true. }
  rewrite bool_decide_false by done.
  case_decide as Hnext; [by apply IH|]. simpl. by f_equal.
Qed.

(** *** The invariant: no entry lies beyond a gap from its optimum *)

Definition occupied (v : list SubscriptionID) (q : nat) : Prop :=
  exists c, v !! q = Some c /\ c <> 0%Z.

(** Every slot on the way from [x] to [p] is occupied. *)
Definition chained (v : list SubscriptionID) (x p : nat) : Prop :=
  forall q, q < length v ->
            dist (length v) x q <= dist (length v) x p -> occupied v q.

Definition gap_free (v : list SubscriptionID) : Prop :=
  forall p id, v !! p = Some id -> id <> 0%Z ->
    exists st, get_state_ id = Some st /\
               chained v (optimal_of (length v) st) p.

(** The IDs stored in the vector. *)
Definition entries (v : list SubscriptionID) : list SubscriptionID :=
  filter (fun c => c <> 0%Z) v.

Lemma elem_of_entries v c : c ∈ entries v <-> c <> 0%Z /\ c ∈ v.
Proof. unfold entries. by rewrite list_elem_of_filter. Qed.

Lemma entries_insert v q c c' :
  v !! q = Some c ->
  entries (<[q := c']> v)
  = entries (take q v) ++ entries [c'] ++ entries (drop (S q) v) /\
  entries v = entries (take q v) ++ entries [c] ++ entries (drop (S q) v).
Proof.
  intros Hq. pose proof (lookup_lt_Some _ _ _ Hq) as Hlt.
  assert (Hmid : forall l1 a l2,
            entries (l1 ++ a :: l2) = entries l1 ++ entries [a] ++ entries l2).
  { intros l1 a l2. unfold entries. rewrite filter_app. f_equal.
    change (a :: l2) with ([a] ++ l2). by rewrite filter_app. }
  split.
  - by rewrite insert_take_drop, Hmid.
  - rewrite <- (take_drop_middle v q c Hq) at 1. by rewrite Hmid.
Qed.

Lemma entries_singleton c :
  entries [c] = if decide (c <> 0%Z) then [c] else [].
Proof.
  unfold entries. case_decide.
  - by rewrite filter_cons_True by done.
  - by rewrite filter_cons_False by naive_solver.
Qed.

Lemma entries_fill v q id :
  v !! q = Some 0%Z -> id <> 0%Z ->
  entries (<[q := id]> v) ≡ₚ id :: entries v.
Proof.
  intros Hq Hid. destruct (entries_insert v q 0%Z id Hq) as [-> ->].
  rewrite !entries_singleton. repeat case_decide; try done.
  simpl. symmetry. apply Permutation_middle.
Qed.

Lemma entries_clear v q id :
  v !! q = Some id -> id <> 0%Z ->
  id :: entries (<[q := 0%Z]> v) ≡ₚ entries v.
Proof.
  intros Hq Hid. destruct (entries_insert v q id 0%Z Hq) as [-> ->].
  rewrite !entries_singleton. repeat case_decide; try done.
  simpl. apply Permutation_middle.
Qed.

Lemma entries_position v : forall p q c,
  NoDup (entries v) -> v !! p = Some c -> v !! q = Some c -> c <> 0%Z ->
  p = q.
Proof.
  induction v as [|a v IH]; intros p q c Hnd Hp Hq Hc; [done|].
  unfold entries in Hnd. destruct p as [|p], q as [|q]; simplify_eq/=.
  - done.
  - rewrite filter_cons_True in Hnd by done.
    apply NoDup_cons in Hnd as [Hin _]. exfalso. apply Hin.
    apply elem_of_entries. split; [done|]. by eapply list_elem_of_lookup_2.
  - rewrite filter_cons_True in Hnd by done.
    apply NoDup_cons in Hnd as [Hin _]. exfalso. apply Hin.
    apply elem_of_entries. split; [done|]. by eapply list_elem_of_lookup_2.
  - f_equal. apply (IH p q c); try done.
    destruct (decide (a <> 0%Z)).
    + rewrite filter_cons_True in Hnd by done. by apply NoDup_cons in Hnd as [].
    + by rewrite filter_cons_False in Hnd by done.
Qed.

Lemma occupied_lt v q : occupied v q -> q < length v.
Proof. intros (c & Hc & _). by eapply lookup_lt_Some. Qed.

Lemma occupied_fill v q q' id :
  id <> 0%Z -> occupied v q' -> occupied (<[q := id]> v) q'.
Proof.
  intros Hid (c & Hc & Hc0). destruct (decide (q = q')) as [->|Hne].
  - exists id. split; [|done]. apply list_lookup_insert_eq.
    by eapply lookup_lt_Some.
  - exists c. by rewrite list_lookup_insert_ne.
Qed.

Lemma not_occupied v q : q < length v -> ~ occupied v q -> v !! q = Some 0%Z.
Proof.
  intros Hq Hno. destruct (lookup_lt_is_Some_2 v q Hq) as [c Hc].
  destruct (decide (c = 0%Z)) as [->|Hc0]; [done|].
  exfalso. apply Hno. by exists c.
Qed.

Lemma dist_inj n x q q' :
  x < n -> q < n -> q' < n -> dist n x q = dist n x q' -> q = q'.
Proof. intros. dist_lia. Qed.

(** *** [InsertInternal] puts the ID into the first gap *)

Lemma InsertInternal_loop_spec v count id st :
  0 < length v -> gap_free v -> id <> 0%Z -> id ∉ v ->
  get_state_ id = Some st -> (exists z, v !! z = Some 0%Z) ->
  exists q,
    InsertInternal_loop (length v) v count id
      (optimal_of (length v) st) (optimal_of (length v) st)
    = Some (<[q := id]> v, size_t (count + 1)) /\
    v !! q = Some 0%Z /\ gap_free (<[q := id]> v).
Proof.
  intros Hn Hgf Hid Hnew Hst [z Hz].
  set (x := optimal_of (length v) st).
  assert (Hx : x < length v) by by apply FindOptimalPosition_lt.
  rewrite InsertInternal_loop_scan.
  destruct (scan_spec (fun c => bool_decide (c = id \/ c = 0%Z)) v x
              (length v) x Hx Hx) as
    [(q & Hscan & Hq & (c & Hc & Hstop) & Hfirst)|[_ Hnone]].
  { dist_lia. }
  { intros q _ Hd. exfalso. dist_lia. }
  2:{ exfalso. apply (Hnone z); [by eapply lookup_lt_Some|].
      exists 0%Z. split; [done|]. apply bool_decide_eq_true. by right. }
  rewrite Hscan. cbn [mbind option_bind].
  apply bool_decide_eq_true in Hstop as [->| ->].
  { exfalso. apply Hnew. by eapply list_elem_of_lookup_2. }
  rewrite decide_False by (rewrite Hc; congruence).
  exists q. split; [done|]. split; [done|].
  intros p c Hp Hc0. rewrite length_insert.
  destruct (decide (p = q)) as [->|Hpq].
  - rewrite list_lookup_insert_eq in Hp by done. simplify_eq.
    exists st. split; [done|]. fold x. intros q' Hq' Hd.
    rewrite length_insert in Hq', Hd.
    destruct (decide (q' = q)) as [->|Hne].
    { exists c. split; [|done]. by apply list_lookup_insert_eq. }
    apply occupied_fill; [done|].
    destruct (lookup_lt_is_Some_2 v q' Hq') as [c' Hc'].
    exists c'. split; [done|]. intros ->.
    apply (Hfirst q' Hq').
    + assert (dist (length v) x q' <> dist (length v) x q); [|lia].
      intros Heq. by apply dist_inj in Heq.
    + exists 0%Z. split; [done|]. apply bool_decide_eq_true. by right.
  - rewrite list_lookup_insert_ne in Hp by done.
    destruct (Hgf p c Hp Hc0) as (st' & Hst' & Hch).
    exists st'. split; [done|]. intros q' Hq' Hd.
    rewrite length_insert in Hq', Hd.
    apply occupied_fill; [done|]. by apply Hch.
Qed.

(** *** Arithmetic of the cyclic walk *)

Definition next (n c : nat) : nat := if decide (S c = n) then 0 else S c.

Lemma dist_self n a : dist n a a = 0.
Proof. unfold dist. case_decide; lia. Qed.

Lemma dist_pos n a b : a < n -> b < n -> a <> b -> 0 < dist n a b.
Proof. unfold dist. intros. case_decide; lia. Qed.

Lemma dist_lt n a b : a < n -> b < n -> dist n a b < n.
Proof. unfold dist. intros. case_decide; lia. Qed.

Lemma next_facts n g c h :
  g < n -> c < n -> h < n -> dist n g c < dist n g h ->
  next n c < n /\ next n c <> g /\
  dist n g (next n c) = S (dist n g c) /\
  S (dist n (next n c) h) = dist n c h.
Proof.
  unfold next, dist. intros. repeat case_decide; lia.
Qed.

Lemma path_extends n x g p c :
  x < n -> g < n -> p < n -> c < n ->
  dist n x g <= dist n x p -> dist n g c <= dist n g p ->
  dist n x c <= dist n x p.
Proof. unfold dist. intros. repeat case_decide; lia. Qed.

Lemma between_not_through n g x c :
  x < n -> g < n -> c < n ->
  0 < dist n g x <= dist n g c -> dist n x g <= dist n x c -> False.
Proof. unfold dist. intros. repeat case_decide; lia. Qed.

Lemma not_between_through n g x c :
  x < n -> g < n -> c < n ->
  ~ (0 < dist n g x <= dist n g c) -> dist n x g <= dist n x c.
Proof. unfold dist. intros. repeat case_decide; lia. Qed.

Lemma path_prefix n x q g c :
  x < n -> q < n -> g < n -> c < n -> q <> g ->
  dist n x q <= dist n x g -> dist n x g <= dist n x c -> q <> c.
Proof. unfold dist. intros. repeat case_decide; lia. Qed.

(** *** The backward shift of [Remove]

    At the top of an iteration the gap is at [g] (the slot the loop is
    about to clear) and the slots after it up to [c] have been looked at.
    Every entry either has its whole probe path occupied, or its path runs
    through the gap and the entry lies beyond [c], still to be visited. *)

Definition shift_inv (w : list SubscriptionID) (g c : nat) : Prop :=
  (forall q, q < length w ->
     0 < dist (length w) g q <= dist (length w) g c -> occupied w q) /\
  (forall p id, w !! p = Some id -> id <> 0%Z ->
     exists st, get_state_ id = Some st /\
       (forall q, q < length w ->
          dist (length w) (optimal_of (length w) st) q
          <= dist (length w) (optimal_of (length w) st) p ->
          q <> g -> occupied w q) /\
       (dist (length w) (optimal_of (length w) st) g
        <= dist (length w) (optimal_of (length w) st) p ->
        dist (length w) g c < dist (length w) g p)).

Lemma Remove_shift_spec n fuel : forall v g c h,
  length v = n ->
  g < n -> c < n -> h < n -> h <> g ->
  v !! h = Some 0%Z ->
  dist n g c < dist n g h ->
  dist n c h <= fuel ->
  shift_inv (<[g := 0%Z]> v) g c ->
  exists w',
    Remove_shift XXH64 get_state_ fuel v g c = Some w' /\
    length w' = n /\ gap_free w' /\
    entries w' ≡ₚ entries (<[g := 0%Z]> v).
Proof.
  induction fuel as [|fuel IH];
    intros v g c h Hlen Hg Hc Hh Hhg Hvh Hlt Hfuel [J2 J3].
  { exfalso. destruct (next_facts n g c h) as (_ & _ & _ & ?); lia. }
  cbn [Remove_shift].
  destruct (lookup_lt_is_Some_2 v g) as [vg Hvg]; [lia|]. rewrite Hvg.
  cbn [mbind option_bind]. unfold kReservedSubscriptionID.
  remember (<[g := 0%Z]> v) as w eqn:Hw.
  assert (Hlw : length w = n) by (subst w; by rewrite length_insert).
  assert (Hwg : w !! g = Some 0%Z)
    by (subst w; apply list_lookup_insert_eq; lia).
  assert (Hwh : w !! h = Some 0%Z)
    by (subst w; by rewrite list_lookup_insert_ne).
  assert (Hww : <[g := 0%Z]> w = w) by by apply list_insert_id.
  clear Hw Hvg Hvh Hlen v vg.
  rewrite Hlw in *. rewrite (next_position n c Hc). fold (next n c).
  destruct (next_facts n g c h Hg Hc Hh Hlt) as (Hc' & Hc'g & Hdc' & Hch).
  remember (next n c) as c' eqn:Hc'def. clear Hc'def.
  destruct (lookup_lt_is_Some_2 w c') as [id Hid]; [lia|]. rewrite Hid.
  cbn [mbind option_bind]. case_decide as Hid0.
  - (* the next gap: the loop ends *)
    subst id. exists w. repeat split; try done.
    intros p idp Hp Hidp. rewrite Hlw.
    destruct (J3 p idp Hp Hidp) as (st & Hst & Hpath & Hpend).
    exists st. split; [done|]. intros q Hq Hd. rewrite Hlw in Hq, Hd.
    apply Hpath; try done. intros ->. specialize (Hpend Hd).
    pose proof (lookup_lt_Some _ _ _ Hp) as Hpn. rewrite Hlw in Hpn.
    assert (Hx : optimal_of n st < n) by (apply FindOptimalPosition_lt; lia).
    destruct (Hpath c' Hc') as (cc & Hcc & Hcc0); [|done|congruence].
    apply (path_extends n _ g p c'); try done. lia.
  - (* an entry at [c'] *)
    destruct (J3 c' id Hid Hid0) as (st & Hst & Hpath & Hpend).
    rewrite Hst. cbn [mbind option_bind].
    remember (optimal_of n st) as x eqn:Hxdef.
    assert (Hx : x < n) by (subst x; apply FindOptimalPosition_lt; lia).
    assert (Hc'h : c' <> h) by congruence.
    rewrite (between_dist n g x c') by (done || lia).
    case_bool_decide as Hbetween.
    + (* it may stay: continue *)
      destruct (IH w g c' h) as (w' & Hrun & Hlen' & Hgf & Hperm);
        try done; try lia.
      * pose proof (dist_inj n g c' h). lia.
      * rewrite Hww. unfold shift_inv. rewrite Hlw. split.
        -- intros q Hq Hd. destruct (decide (q = c')) as [->|Hqc].
           ++ by exists id.
           ++ apply J2; [done|]. pose proof (dist_inj n g q c'). lia.
        -- intros p idp Hp Hidp.
           destruct (J3 p idp Hp Hidp) as (stp & Hstp & Hpathp & Hpendp).
           exists stp. split; [done|]. split; [done|]. intros Hd.
           specialize (Hpendp Hd).
           pose proof (lookup_lt_Some _ _ _ Hp) as Hpn. rewrite Hlw in Hpn.
           destruct (decide (p = c')) as [->|Hpc].
           ++ exfalso. assert (idp = id) as -> by congruence.
              assert (stp = st) as -> by congruence.
              rewrite <- Hxdef in Hd.
              by apply (between_not_through n g x c').
           ++ pose proof (dist_inj n g p c'). lia.
      * exists w'. repeat split; try done. by rewrite Hww in Hperm.
    + (* it is moved into the gap *)
      destruct (IH (<[g := id]> w) c' c' h)
        as (w' & Hrun & Hlen' & Hgf & Hperm); try done.
      * by rewrite length_insert.
      * by rewrite list_lookup_insert_ne.
      * rewrite dist_self. by apply dist_pos.
      * lia.
      * remember (<[c' := 0%Z]> (<[g := id]> w)) as w2 eqn:Hw2.
        assert (Hlw2 : length w2 = n)
          by (subst w2; by rewrite !length_insert).
        assert (Hocc : forall q, q <> c' -> occupied w q \/ q = g ->
                                 occupied w2 q).
        { intros q Hqc [(cq & Hcq & Hcq0)| ->].
          - subst w2. destruct (decide (q = g)) as [->|Hqg].
            + exists id. split; [|done].
              rewrite list_lookup_insert_ne by done.
              apply list_lookup_insert_eq. lia.
            + exists cq. by rewrite !list_lookup_insert_ne.
          - exists id. split; [|done]. subst w2.
            rewrite list_lookup_insert_ne by done.
            apply list_lookup_insert_eq. lia. }
        assert (Hthrough : dist n x g <= dist n x c')
          by by apply not_between_through.
        unfold shift_inv. rewrite Hlw2. split.
        -- intros q Hq Hd. rewrite dist_self in Hd. lia.
        -- intros p idp Hp Hidp.
           pose proof (lookup_lt_Some _ _ _ Hp) as Hpn. rewrite Hlw2 in Hpn.
           assert (Hpc : p <> c').
           { intros ->. subst w2.
             rewrite list_lookup_insert_eq in Hp
               by (rewrite length_insert; lia).
             congruence. }
           assert (Hpos : dist n c' c' < dist n c' p)
             by (rewrite dist_self; by apply dist_pos).
           subst w2. rewrite list_lookup_insert_ne in Hp by done.
           destruct (decide (p = g)) as [->|Hpg].
           ++ rewrite list_lookup_insert_eq in Hp by lia.
              injection Hp as <-.
              exists st. rewrite <- Hxdef. split; [done|]. split; [|done].
              intros q Hq Hd Hqc. apply Hocc; [done|].
              destruct (decide (q = g)) as [->|Hqg]; [by right|left].
              apply Hpath; [done|lia|done].
           ++ rewrite list_lookup_insert_ne in Hp by done.
              destruct (J3 p idp Hp Hidp) as (stp & Hstp & Hpathp & Hpendp).
              exists stp. split; [done|]. split; [|done].
              intros q Hq Hd Hqc. apply Hocc; [done|].
              destruct (decide (q = g)) as [->|Hqg]; [by right|left].
              by apply Hpathp.
      * exists w'. repeat split; try done.
        rewrite Hperm.
        assert (Hfill : entries (<[g := id]> w) ≡ₚ id :: entries w)
          by by apply entries_fill.
        assert (Hclear : id :: entries (<[c' := 0%Z]> (<[g := id]> w))
                         ≡ₚ entries (<[g := id]> w)).
        { apply entries_clear; [|done]. by rewrite list_lookup_insert_ne. }
        rewrite Hfill in Hclear.
        by apply Permutation_cons_inv in Hclear.
Qed.

(** *** [Rehash] rebuilds a table that holds the same IDs *)

Lemma gap_free_has_states v : gap_free v -> has_states v.
Proof.
  intros Hgf q c Hq Hc. destruct (Hgf q c Hq Hc) as (st & -> & _). by eexists.
Qed.

Lemma has_states_tail a v : has_states (a :: v) -> has_states v.
Proof. intros H q c Hq. by apply (H (S q)). Qed.

Lemma entries_cons a v :
  entries (a :: v) = if decide (a <> 0%Z) then a :: entries v else entries v.
Proof.
  unfold entries. case_decide.
  - by rewrite filter_cons_True by done.
  - by rewrite filter_cons_False by naive_solver.
Qed.

Lemma length_entries v : length (entries v) <= length v.
Proof. apply length_filter. Qed.

(** A vector with fewer entries than slots has a gap. *)
Lemma gap_exists v :
  length (entries v) < length v -> exists z, v !! z = Some 0%Z.
Proof.
  induction v as [|a v IH]; [simpl; lia|].
  rewrite entries_cons. case_decide as Ha.
  - simpl. intros Hlt. destruct IH as [z Hz]; [lia|]. by exists (S z).
  - intros _. exists 0. simpl. f_equal. lia.
Qed.

Lemma gap_free_replicate n : gap_free (replicate n 0%Z).
Proof.
  intros p id Hp Hid. apply lookup_replicate in Hp as [-> _]. done.
Qed.

Lemma entries_replicate n : entries (replicate n 0%Z) = [].
Proof.
  induction n as [|n IH]; [done|]. simpl. rewrite entries_cons.
  by rewrite decide_False by naive_solver.
Qed.

Lemma size_t_small x : (0 <= x < 2 ^ 64)%Z -> size_t x = x.
Proof. intros. unfold size_t. by apply Z.mod_small. Qed.

Lemma InsertInternal_spec m live namespace_id topic_name id st :
  0 < length (vector_ m) ->
  (Z.of_nat (length (vector_ m)) < 2 ^ 64)%Z ->
  gap_free (vector_ m) -> entries (vector_ m) ≡ₚ live ->
  sub_count_ m = Z.of_nat (length live) ->
  length live < length (vector_ m) ->
  id <> 0%Z -> id ∉ live -> get_state_ id = Some st ->
  GetNamespace st = namespace_id -> GetTopicName st = topic_name ->
  exists m',
    InsertInternal XXH64 namespace_id topic_name id m = Some m' /\
    length (vector_ m') = length (vector_ m) /\
    gap_free (vector_ m') /\
    entries (vector_ m') ≡ₚ id :: live /\
    sub_count_ m' = Z.of_nat (length (id :: live)) /\
    sub_count_low_ m' = sub_count_low_ m /\
    sub_count_high_ m' = sub_count_high_ m.
Proof.
  intros Hn Hsmall Hgf Hperm Hcount Hroom Hid Hnew Hst <- <-.
  assert (Hnotin : id ∉ vector_ m).
  { intros Hin. apply Hnew. rewrite <- Hperm. by apply elem_of_entries. }
  assert (Hgap : exists z, vector_ m !! z = Some 0%Z).
  { apply gap_exists. by rewrite Hperm. }
  destruct (InsertInternal_loop_spec (vector_ m) (sub_count_ m) id st
              Hn Hgf Hid Hnotin Hst Hgap) as (q & Hrun & Hq & Hgf').
  unfold InsertInternal. cbv zeta. rewrite Hrun. cbn [mbind option_bind].
  eexists. split; [done|]. cbn [vector_ sub_count_ sub_count_low_
                                sub_count_high_].
  rewrite length_insert. repeat split; try done.
  - rewrite entries_fill by done. by rewrite Hperm.
  - rewrite Hcount, size_t_small by lia. simpl. lia.
Qed.

Lemma Rehash_reinsert_spec old : forall m done_,
  0 < length (vector_ m) ->
  (Z.of_nat (length (vector_ m)) < 2 ^ 64)%Z ->
  gap_free (vector_ m) -> entries (vector_ m) ≡ₚ done_ ->
  sub_count_ m = Z.of_nat (length done_) ->
  NoDup (done_ ++ entries old) -> has_states old ->
  length done_ + length (entries old) < length (vector_ m) ->
  exists m',
    Rehash_reinsert XXH64 get_state_ old m = Some m' /\
    length (vector_ m') = length (vector_ m) /\
    gap_free (vector_ m') /\
    entries (vector_ m') ≡ₚ done_ ++ entries old /\
    sub_count_ m' = Z.of_nat (length (done_ ++ entries old)) /\
    sub_count_low_ m' = sub_count_low_ m /\
    sub_count_high_ m' = sub_count_high_ m.
Proof.
  induction old as [|a old IH];
    intros m done_ Hn Hsmall Hgf Hperm Hcount Hnd Hst Hroom.
  { exists m. cbn. rewrite app_nil_r. by repeat split. }
  cbn [Rehash_reinsert]. unfold kReservedSubscriptionID.
  rewrite entries_cons in Hnd, Hroom |- *. case_decide as Ha.
  - destruct (Hst 0 a eq_refl Ha) as [st Hget]. rewrite Hget.
    cbn [mbind option_bind].
    apply NoDup_app in Hnd as (Hnd1 & Hdisj & Hnd2).
    apply NoDup_cons in Hnd2 as [Hfresh Hnd2].
    destruct (InsertInternal_spec m done_ (GetNamespace st) (GetTopicName st)
                a st) as (m1 & Hrun & Hlen & Hgf1 & Hperm1 & Hcount1 & Hlow
                          & Hhigh); try done.
    { simpl in Hroom. lia. }
    { intros Hin. apply (Hdisj a Hin). by left. }
    rewrite Hrun. cbn [mbind option_bind].
    destruct (IH m1 (done_ ++ [a])) as (m' & Hrun' & Hlen' & Hgf' & Hperm'
                                         & Hcount' & Hlow' & Hhigh').
    + lia.
    + by rewrite Hlen.
    + done.
    + rewrite Hperm1. by rewrite Permutation_cons_append.
    + rewrite Hcount1, length_app. simpl. lia.
    + rewrite <- app_assoc. simpl. apply NoDup_app. repeat split; try done.
      by apply NoDup_cons.
    + by eapply has_states_tail.
    + rewrite Hlen, length_app. simpl in *. lia.
    + exists m'. rewrite <- app_assoc in Hperm', Hcount'. simpl in *.
      repeat split; try done; congruence.
  - destruct (IH m done_) as (m' & ?); try done.
    { by eapply has_states_tail. }
    by exists m'.
Qed.

(** *** [Rehash] *)

Lemma Rehash_noop m : NeedsRehash m = false -> Rehash XXH64 get_state_ m = Some m.
Proof. intros Hno. unfold Rehash. by rewrite Hno. Qed.

(** When the count left its range, the table is rebuilt: [count / 0.375]
    slots but not fewer than [kMinSize], the lower watermark a quarter of
    the size (zero at the minimal size) and the upper watermark half of
    it, with every ID reinserted. *)
Lemma Rehash_rebuild m live :
  entries (vector_ m) ≡ₚ live -> NoDup live ->
  sub_count_ m = Z.of_nat (length live) -> has_states (vector_ m) ->
  (Z.of_nat (length live) < 2 ^ 50)%Z ->
  NeedsRehash m = true ->
  exists m',
    Rehash XXH64 get_state_ m = Some m' /\
    Z.of_nat (length (vector_ m')) = Z.max 16 (sub_count_ m * 8 / 3) /\
    sub_count_low_ m' = (if decide (sub_count_ m * 8 / 3 <= 16)%Z then 0%Z
                         else sub_count_ m * 8 / 3 / 4)%Z /\
    sub_count_high_ m' = (Z.max 16 (sub_count_ m * 8 / 3) / 2)%Z /\
    sub_count_ m' = sub_count_ m /\
    gap_free (vector_ m') /\
    entries (vector_ m') ≡ₚ live.
Proof.
  intros Hperm Hnd Hcount Hst Hsmall Hneeds.
  unfold Rehash. rewrite Hneeds. cbn [negb]. cbv zeta.
  unfold new_size_for, low_for, high_for, kMinSize, kReservedSubscriptionID.
  set (c := sub_count_ m) in *.
  assert (Hlen : length (entries (vector_ m)) = length live) by by rewrite Hperm.
  assert (Hsize : exists n, Z.max 16 (c * 8 / 3) = Z.of_nat n /\
                   16 <= n /\ length live < n /\ (Z.of_nat n < 2 ^ 53)%Z).
  { exists (Z.to_nat (Z.max 16 (c * 8 / 3))).
    assert (c * 8 / 3 < 2 ^ 53)%Z by (apply Z.div_lt_upper_bound; lia).
    assert (c <= 6 \/ c < c * 8 / 3)%Z.
    { destruct (Z.le_gt_cases c 6); [by left|right].
      assert (c + 1 <= c * 8 / 3)%Z by (apply Z.div_le_lower_bound; lia).
      lia. }
    lia. }
  destruct Hsize as (n & Hn & Hn16 & Hroom & Hn53).
  set (m0 := mk (replicate n 0%Z)
                (if decide (c * 8 / 3 <= 16)%Z then 0 else c * 8 / 3 / 4)%Z
                (Z.of_nat n / 2)%Z 0).
  destruct (Rehash_reinsert_spec (vector_ m) m0 []) as
    (m' & Hrun & Hlen' & Hgf & Hperm' & Hcount' & Hlow & Hhigh).
  { simpl. rewrite length_replicate. lia. }
  { simpl. rewrite length_replicate. lia. }
  { apply gap_free_replicate. }
  { simpl. by rewrite entries_replicate. }
  { done. }
  { simpl. by rewrite Hperm. }
  { done. }
  { simpl. rewrite length_replicate. lia. }
  exists m'. simpl in Hlen', Hperm', Hcount', Hlow, Hhigh.
  rewrite length_replicate in Hlen'.
  split.
  { rewrite <- Hrun. subst m0. case_decide.
    - replace n with 16 by lia. done.
    - replace (Z.to_nat (c * 8 / 3)) with n by lia.
      replace (c * 8 / 3)%Z with (Z.of_nat n) by lia. done. }
  rewrite Hlen', Hn, Hlow, Hhigh, Hcount', Hperm', Hlen.
  repeat split; done.
Qed.

(** *** The invariant of the map

    [live] lists the IDs inserted and not yet removed. *)
Definition Inv (m : t) (live : list SubscriptionID) : Prop :=
  16 <= length (vector_ m) /\
  (Z.of_nat (length (vector_ m)) < 2 ^ 53)%Z /\
  gap_free (vector_ m) /\
  entries (vector_ m) ≡ₚ live /\
  NoDup live /\
  sub_count_ m = Z.of_nat (length live) /\
  (0 <= sub_count_low_ m <= sub_count_ m)%Z /\
  (sub_count_ m <= sub_count_high_ m)%Z /\
  (sub_count_high_ m < Z.of_nat (length (vector_ m)))%Z.

(** After [Rehash] the count is strictly below the upper watermark. *)
Lemma Rehash_establishes m live :
  entries (vector_ m) ≡ₚ live -> NoDup live ->
  sub_count_ m = Z.of_nat (length live) -> has_states (vector_ m) ->
  (Z.of_nat (length live) < 2 ^ 50)%Z ->
  (NeedsRehash m = false ->
   gap_free (vector_ m) /\ 16 <= length (vector_ m) /\
   (Z.of_nat (length (vector_ m)) < 2 ^ 53)%Z /\
   (0 <= sub_count_low_ m)%Z /\
   (sub_count_high_ m < Z.of_nat (length (vector_ m)))%Z) ->
  exists m',
    Rehash XXH64 get_state_ m = Some m' /\ Inv m' live /\
    (sub_count_ m' < sub_count_high_ m')%Z.
Proof.
  intros Hperm Hnd Hcount Hst Hsmall Hkeep.
  destruct (NeedsRehash m) eqn:Hneeds.
  - destruct (Rehash_rebuild m live) as
      (m' & Hrun & Hlen & Hlow & Hhigh & Hcount' & Hgf & Hperm'); try done.
    exists m'. split; [done|].
    set (c := sub_count_ m) in *.
    assert (Hc : (0 <= c < 2 ^ 50)%Z) by lia.
    assert (Hq : (c * 8 - 2 <= 3 * (c * 8 / 3) <= c * 8)%Z).
    { pose proof (Z.div_mod (c * 8) 3). pose proof (Z.mod_pos_bound (c * 8) 3).
      lia. }
    assert (Hh : (Z.max 16 (c * 8 / 3) - 1 <= 2 * (Z.max 16 (c * 8 / 3) / 2)
                  <= Z.max 16 (c * 8 / 3))%Z).
    { pose proof (Z.div_mod (Z.max 16 (c * 8 / 3)) 2).
      pose proof (Z.mod_pos_bound (Z.max 16 (c * 8 / 3)) 2). lia. }
    assert (Hl : (0 <= 4 * (c * 8 / 3 / 4) <= c * 8 / 3)%Z).
    { pose proof (Z.div_mod (c * 8 / 3) 4).
      pose proof (Z.mod_pos_bound (c * 8 / 3) 4). lia. }
    unfold Inv. rewrite Hlow, Hhigh, Hcount'.
    assert (Hlow' : (0 <= (if decide (c * 8 / 3 <= 16)%Z then 0
                           else c * 8 / 3 / 4) <= c)%Z)
      by (case_decide; lia).
    repeat split; try done; try lia.
  - destruct (Hkeep eq_refl) as (Hgf & Hn16 & Hn53 & Hlow & Hhigh).
    exists m. split; [by apply Rehash_noop|].
    unfold NeedsRehash in Hneeds. apply bool_decide_eq_false in Hneeds.
    unfold Inv. repeat split; try done; lia.
Qed.

(** *** [Insert] and [Remove] keep the invariant *)

(** The namespace and topic under which an ID is subscribed. *)
Definition key_of (id : SubscriptionID) : option (NamespaceID * Topic) :=
  st ← get_state_ id; Some (GetNamespace st, GetTopicName st).

Lemma key_of_Some id namespace_id topic_name :
  key_of id = Some (namespace_id, topic_name) <->
  exists st, get_state_ id = Some st /\ GetNamespace st = namespace_id /\
             GetTopicName st = topic_name.
Proof.
  unfold key_of. destruct (get_state_ id) as [st|]; simpl.
  - split; [intros [= <- <-]; by exists st|].
    by intros (st' & [= <-] & <- & <-).
  - split; [done|]. by intros (? & ? & _).
Qed.

(** A stored ID sits at a slot whose whole probe path is occupied. *)
Lemma stored_chained v id st :
  gap_free v -> id <> 0%Z -> id ∈ v -> get_state_ id = Some st ->
  exists p, v !! p = Some id /\ p < length v /\
            chained v (optimal_of (length v) st) p.
Proof.
  intros Hgf Hid Hin Hst. apply list_elem_of_lookup_1 in Hin as [p Hp].
  exists p. split; [done|]. split; [by eapply lookup_lt_Some|].
  destruct (Hgf p id Hp Hid) as (st' & Hst' & Hch).
  by replace st with st' by congruence.
Qed.

Lemma Inv_empty_states m live :
  Inv m live \/ (m = empty /\ live = []) -> has_states (vector_ m).
Proof.
  intros [(_ & _ & Hgf & _)|[-> _]]; [by apply gap_free_has_states|].
  by intros q c Hq.
Qed.

Lemma Insert_spec m live namespace_id topic_name id :
  Inv m live \/ (m = empty /\ live = []) ->
  id <> 0%Z -> id ∉ live ->
  key_of id = Some (namespace_id, topic_name) ->
  (Z.of_nat (length live) < 2 ^ 50)%Z ->
  exists m',
    Insert XXH64 get_state_ namespace_id topic_name id m = Some m' /\
    Inv m' (id :: live).
Proof.
  intros Hinv Hid Hnew Hkey Hsmall.
  apply key_of_Some in Hkey as (st & Hst & Hns & Htopic).
  destruct (Rehash_establishes m live) as (m1 & Hrehash & Hinv1 & Hbelow).
  - destruct Hinv as [(_ & _ & _ & Hperm & _)|[-> ->]]; done.
  - destruct Hinv as [(_ & _ & _ & _ & Hnd & _)|[-> ->]];
      [done|apply NoDup_nil_2].
  - destruct Hinv as [(_ & _ & _ & _ & _ & Hcount & _)|[-> ->]]; done.
  - by apply (Inv_empty_states m live).
  - done.
  - destruct Hinv as [(Hn16 & Hn53 & Hgf & _ & _ & _ & Hlow & _ & Hcap)
                     |[-> ->]]; [|done].
    intros _. repeat split; try done. lia.
  - destruct Hinv1 as (Hn16 & Hn53 & Hgf & Hperm & Hnd & Hcount & Hlow
                       & Hhigh & Hcap).
    destruct (InsertInternal_spec m1 live namespace_id topic_name id st)
      as (m' & Hrun & Hlen & Hgf' & Hperm' & Hcount' & Hlow' & Hhigh');
      try done; try lia.
    exists m'. split.
    { unfold Insert. rewrite Hrehash. done. }
    unfold Inv. rewrite Hlen, Hlow', Hhigh', Hcount'.
    repeat split; try done; try (simpl; lia).
    by apply NoDup_cons.
Qed.

Lemma filter_not_in (id : SubscriptionID) (l : list SubscriptionID) :
  id ∉ l -> filter (fun c => c <> id) l = l.
Proof.
  induction l as [|a l IH]; [done|]. intros Hnotin.
  apply not_elem_of_cons in Hnotin as [Hne Hnotin].
  rewrite filter_cons_True by done. by rewrite IH.
Qed.

(** The first loop of [Remove] ends on the slot of the ID when it is
    stored, and on a gap otherwise. *)
Lemma Remove_find_spec m live namespace_id topic_name id :
  Inv m live -> id <> 0%Z ->
  (id ∈ live -> key_of id = Some (namespace_id, topic_name)) ->
  exists q c,
    Remove_find (length (vector_ m)) (vector_ m) id
      (FindOptimalPosition XXH64 (length (vector_ m)) namespace_id topic_name)
      (FindOptimalPosition XXH64 (length (vector_ m)) namespace_id topic_name)
    = Some q /\
    vector_ m !! q = Some c /\
    (c = id <-> id ∈ live).
Proof.
  intros (Hn16 & Hn53 & Hgf & Hperm & Hnd & Hcount & Hlow & Hhigh & Hcap)
    Hid Hkey.
  set (v := vector_ m) in *. set (n := length v) in *.
  set (x := FindOptimalPosition XXH64 n namespace_id topic_name).
  assert (Hx : x < n) by (apply FindOptimalPosition_lt; lia).
  assert (Hgap : exists z, v !! z = Some 0%Z).
  { apply gap_exists. rewrite Hperm. fold n. lia. }
  rewrite Remove_find_scan.
  destruct (scan_spec (fun c => bool_decide (c = 0%Z \/ c = id)) v x n x
              Hx Hx) as
    [(q & Hscan & Hq & (c & Hc & Hstop) & Hfirst)|[_ Hnone]].
  { lia. }
  { intros q _ Hd. fold n in Hd. rewrite dist_self in Hd. lia. }
  - rewrite Hscan. exists q, c. split; [done|]. split; [done|].
    apply bool_decide_eq_true in Hstop.
    split.
    { intros ->. rewrite <- Hperm. apply elem_of_entries. split; [done|].
      by eapply list_elem_of_lookup_2. }
    intros Hin. destruct Hstop as [->|Hc0]; [|done]. exfalso.
    apply Hkey in Hin as Hk.
    apply key_of_Some in Hk as (st & Hst & <- & <-).
    rewrite <- Hperm in Hin. apply elem_of_entries in Hin as [_ Hin].
    destruct (stored_chained v id st Hgf Hid Hin Hst) as (p & Hp & Hpn & Hch).
    fold n in Hch, Hpn, Hfirst. fold x in Hch.
    destruct (decide (dist n x p < dist n x q)) as [Hlt|Hge].
    + apply (Hfirst p Hpn Hlt). exists id. split; [done|].
      apply bool_decide_eq_true. by right.
    + assert (Hd : dist n x q <= dist n x p) by lia.
      destruct (Hch q Hq Hd) as (c' & Hc' & Hne). congruence.
  - exfalso. destruct Hgap as [z Hz].
    apply (Hnone z); [by eapply lookup_lt_Some|].
    exists 0%Z. split; [done|]. apply bool_decide_eq_true. by left.
Qed.

(** Clearing a slot of a table without detached entries sets up the
    backward shift. *)
Lemma shift_inv_start v g :
  gap_free v -> g < length v -> shift_inv (<[g := 0%Z]> v) g g.
Proof.
  intros Hgf Hg. unfold shift_inv. rewrite length_insert. split.
  { intros q _ Hd. rewrite dist_self in Hd. lia. }
  intros p id Hp Hid.
  assert (Hpg : p <> g).
  { intros ->. rewrite list_lookup_insert_eq in Hp by done. congruence. }
  rewrite list_lookup_insert_ne in Hp by done.
  destruct (Hgf p id Hp Hid) as (st & Hst & Hch).
  exists st. split; [done|]. split.
  - intros q Hq Hd Hqg. destruct (Hch q Hq Hd) as (c & Hc & Hc0).
    exists c. by rewrite list_lookup_insert_ne.
  - intros _. rewrite dist_self. apply dist_pos; try done.
    by eapply lookup_lt_Some.
Qed.

Lemma Remove_spec m live namespace_id topic_name id :
  Inv m live -> id <> 0%Z ->
  (id ∈ live -> key_of id = Some (namespace_id, topic_name)) ->
  (Z.of_nat (length live) < 2 ^ 50)%Z ->
  exists m',
    Remove XXH64 get_state_ namespace_id topic_name id m
    = Some (bool_decide (id ∈ live), m') /\
    Inv m' (filter (fun c => c <> id) live) /\
    (id ∈ live -> (sub_count_ m' < sub_count_high_ m')%Z).
Proof.
  intros Hinv Hid Hkey Hsmall.
  destruct (Remove_find_spec m live namespace_id topic_name id Hinv Hid Hkey)
    as (q & c & Hfind & Hc & Hiff).
  unfold Remove. cbv zeta. rewrite Hfind. cbn [mbind option_bind].
  rewrite Hc. cbn [mbind option_bind].
  case_decide as Hne.
  { assert (Hnotin : id ∉ live) by (intros Hin; apply Hne; symmetry; tauto).
    exists m. rewrite bool_decide_false by done.
    rewrite filter_not_in by done. done. }
  assert (c = id) as -> by (by destruct (decide (c = id))). clear Hne.
  assert (Hin : id ∈ live) by tauto. rewrite bool_decide_true by done.
  destruct Hinv as (Hn16 & Hn53 & Hgf & Hperm & Hnd & Hcount & Hlow & Hhigh
                    & Hcap).
  set (v := vector_ m) in *. set (n := length v) in *.
  assert (Hq : q < n) by (by eapply lookup_lt_Some).
  destruct (gap_exists v) as [h Hh].
  { rewrite Hperm. fold n. lia. }
  assert (Hhn : h < n) by (by eapply lookup_lt_Some).
  assert (Hhq : h <> q) by (intros ->; congruence).
  destruct (Remove_shift_spec n n v q q h) as (w' & Hshift & Hlen & Hgf' & Hperm');
    try done.
  { rewrite dist_self. by apply dist_pos. }
  { pose proof (dist_lt n q h Hq Hhn). lia. }
  { by apply shift_inv_start. }
  rewrite Hshift. cbn [mbind option_bind].
  pose proof (entries_clear v q id Hc Hid) as Hclear.
  rewrite <- Hperm' in Hclear. rewrite Hperm in Hclear.
  assert (Hnd' : NoDup (id :: entries w')) by by rewrite Hclear.
  apply NoDup_cons in Hnd' as [Hfresh Hnd'].
  assert (Hlive' : entries w' ≡ₚ filter (fun c => c <> id) live).
  { rewrite <- Hclear. rewrite filter_cons_False by (intros Hx; by apply Hx).
    by rewrite filter_not_in. }
  assert (Hlength : length live = S (length (entries w'))).
  { by rewrite <- Hclear. }
  destruct (Rehash_establishes
              (mk w' (sub_count_low_ m) (sub_count_high_ m)
                 (size_t (sub_count_ m - 1)))
              (filter (fun c => c <> id) live))
    as (m' & Hrehash & Hinv' & Hbelow); cbn [vector_ sub_count_ sub_count_low_
                                            sub_count_high_].
  - done.
  - by apply NoDup_filter.
  - rewrite <- Hlive', Hcount, Hlength, size_t_small by lia. lia.
  - by apply gap_free_has_states.
  - rewrite <- Hlive'. lia.
  - intros _. rewrite Hlen. repeat split; try done. lia.
  - exists m'. rewrite Hrehash. done.
Qed.

(** *** [Find] *)

Lemma key_matches_true namespace_id topic_name c :
  key_matches namespace_id topic_name c = true <->
  key_of c = Some (namespace_id, topic_name).
Proof.
  rewrite key_of_Some. unfold key_matches.
  destruct (get_state_ c) as [st|].
  - rewrite bool_decide_eq_true. split.
    + intros [? ?]. by exists st.
    + by intros (st' & [= <-] & ? & ?).
  - split; [done|]. by intros (? & ? & _).
Qed.

(** [Find] returns an ID that is live under the namespace and topic,
    with its state, and the reserved ID with a null state exactly when no
    such ID is live. *)
Lemma Find_spec m live namespace_id topic_name :
  Inv m live \/ (m = empty /\ live = []) ->
  exists r ost,
    Find XXH64 get_state_ namespace_id topic_name m = Some (r, ost) /\
    ((r = 0%Z /\ ost = None /\
      forall id, id ∈ live -> key_of id <> Some (namespace_id, topic_name)) \/
     (r ∈ live /\ key_of r = Some (namespace_id, topic_name) /\
      ost = get_state_ r)).
Proof.
  intros [Hinv|[-> ->]]; cycle 1.
  { exists 0%Z, None. split; [done|]. left. repeat split.
    intros id Hin. by apply elem_of_nil in Hin. }
  destruct Hinv as (Hn16 & Hn53 & Hgf & Hperm & Hnd & Hcount & Hlow & Hhigh
                    & Hcap).
  unfold Find. cbv zeta.
  set (v := vector_ m) in *. set (n := length v) in *.
  set (x := FindOptimalPosition XXH64 n namespace_id topic_name).
  assert (Hx : x < n) by (apply FindOptimalPosition_lt; lia).
  rewrite decide_False by (intros Hnil; subst n; rewrite Hnil in Hn16;
                           simpl in Hn16; lia).
  rewrite Find_loop_scan by by apply gap_free_has_states.
  assert (Hgap : exists z, v !! z = Some 0%Z).
  { apply gap_exists. rewrite Hperm. fold n. lia. }
  destruct (scan_spec (fun c => bool_decide (c = 0%Z) ||
                                key_matches namespace_id topic_name c)
              v x n x Hx Hx) as
    [(q & Hscan & Hq & (c & Hc & Hstop) & Hfirst)|[_ Hnone]].
  { lia. }
  { intros q _ Hd. fold n in Hd. rewrite dist_self in Hd. lia. }
  - rewrite Hscan. cbn [mbind option_bind]. rewrite Hc.
    fold n in Hfirst.
    case_decide as Hc0.
    + subst c. exists 0%Z, None. split; [done|]. left. repeat split.
      intros id Hin Hk.
      rewrite <- Hperm in Hin. apply elem_of_entries in Hin as [Hid Hin].
      apply key_of_Some in Hk as Hk'. destruct Hk' as (st & Hst & <- & <-).
      destruct (stored_chained v id st Hgf Hid Hin Hst) as (p & Hp & Hpn & Hch).
      destruct (decide (dist n x p < dist n x q)) as [Hlt|Hge].
      * apply (Hfirst p Hpn Hlt). exists id. split; [done|].
        apply orb_true_intro. right. by apply key_matches_true.
      * assert (Hd : dist n x q <= dist n x p) by lia.
        destruct (Hch q Hq Hd) as (c' & Hc' & Hne). congruence.
    + exists c, (get_state_ c). split; [done|]. right.
      rewrite bool_decide_false in Hstop by done. cbn [orb] in Hstop.
      repeat split.
      * rewrite <- Hperm. apply elem_of_entries. split; [done|].
        by eapply list_elem_of_lookup_2.
      * by apply key_matches_true.
  - exfalso. destruct Hgap as [z Hz].
    apply (Hnone z); [by eapply lookup_lt_Some|].
    exists 0%Z. split; [done|]. by rewrite bool_decide_true.
Qed.

End with_environment.

(** *** Sequences of operations *)

Inductive op :=
  | OpInsert (namespace_id : NamespaceID) (topic_name : Topic)
             (sub_id : SubscriptionID)
  | OpRemove (namespace_id : NamespaceID) (topic_name : Topic)
             (sub_id : SubscriptionID).

(** The IDs inserted and not yet removed, the most recently inserted
    first. *)
Definition live_step (live : list SubscriptionID) (o : op)
    : list SubscriptionID :=
  match o with
  | OpInsert _ _ sub_id => sub_id :: live
  | OpRemove _ _ sub_id => filter (fun c => c <> sub_id) live
  end.

Definition live_after (ops : list op) : list SubscriptionID :=
  foldl live_step [] ops.

Definition starts_with_remove (ops : list op) : Prop :=
  match ops with
  | OpRemove _ _ _ :: _ => True
  | _ => False
  end.

Section traces.

Variable XXH64 : Z -> list byte -> Z.
Variable get_state_ : SubscriptionID -> option SubscriptionState.

Definition apply_op (o : op) (m : t) : option t :=
  match o with
  | OpInsert namespace_id topic_name sub_id =>
      Insert XXH64 get_state_ namespace_id topic_name sub_id m
  | OpRemove namespace_id topic_name sub_id =>
      snd <$> Remove XXH64 get_state_ namespace_id topic_name sub_id m
  end.

Fixpoint run (ops : list op) (m : t) : option t :=
  match ops with
  | [] => Some m
  | o :: ops' => m' ← apply_op o m; run ops' m'
  end.

(** The contract of one call. [Insert]: the ID is not the reserved one, is
    not in the map already, and [get_state_] knows it under the namespace
    and topic of the call. [Remove]: the ID is not the reserved one, and if
    it is in the map the namespace and topic of the call are its own. *)
Definition legal_op (live : list SubscriptionID) (o : op) : Prop :=
  match o with
  | OpInsert namespace_id topic_name sub_id =>
      sub_id <> 0%Z /\ (sub_id ∉ live) /\
      key_of get_state_ sub_id = Some (namespace_id, topic_name)
  | OpRemove namespace_id topic_name sub_id =>
      sub_id <> 0%Z /\
      (sub_id ∈ live ->
       key_of get_state_ sub_id = Some (namespace_id, topic_name))
  end.

Fixpoint legal (live : list SubscriptionID) (ops : list op) : Prop :=
  match ops with
  | [] => True
  | o :: ops' => legal_op live o /\ legal (live_step live o) ops'
  end.

(** A legal sequence on a fresh map. [Remove] on a map that never saw an
    [Insert] takes a remainder by the size of the empty vector, so a
    sequence does not begin with it. *)
Definition legal_from_empty (ops : list op) : Prop :=
  ~ starts_with_remove ops /\ legal [] ops.

Lemma run_spec ops : forall m live,
  Inv XXH64 get_state_ m live \/
    (m = empty /\ live = [] /\ ~ starts_with_remove ops) ->
  legal live ops ->
  (Z.of_nat (length live + length ops) < 2 ^ 50)%Z ->
  exists m',
    run ops m = Some m' /\
    (Inv XXH64 get_state_ m' (foldl live_step live ops) \/
     (ops = [] /\ m' = empty /\ live = [])).
Proof.
  induction ops as [|o ops IH]; intros m live Hinv Hlegal Hsmall.
  { exists m. split; [done|]. destruct Hinv as [?|(? & ? & _)]; auto. }
  destruct Hlegal as [Hop Hlegal]. cbn [run foldl].
  assert (Hstep : exists m1, apply_op o m = Some m1 /\
                    Inv XXH64 get_state_ m1 (live_step live o)).
  { destruct o as [namespace_id topic_name id|namespace_id topic_name id];
      cbn [apply_op live_step legal_op] in *.
    - destruct Hop as (Hid & Hnew & Hkey).
      apply Insert_spec; try done; [|simpl in Hsmall; lia].
      destruct Hinv as [?|(? & ? & _)]; auto.
    - destruct Hop as (Hid & Hkey).
      destruct Hinv as [Hinv|(_ & _ & Hstart)]; [|by destruct Hstart].
      destruct (Remove_spec XXH64 get_state_ m live namespace_id topic_name
                  id Hinv Hid Hkey) as (m1 & Hrun & Hinv1 & _); [lia|].
      exists m1. by rewrite Hrun. }
  destruct Hstep as (m1 & Hrun & Hinv1). rewrite Hrun. cbn [mbind option_bind].
  destruct (IH m1 (live_step live o)) as (m' & Hrun' & Hinv'); auto.
  { assert (length (live_step live o) <= S (length live)); [|simpl in *; lia].
    destruct o; cbn [live_step]; [simpl; lia|].
    etrans; [apply length_filter|lia]. }
  exists m'. split; [done|]. left.
  destruct Hinv' as [?|(-> & -> & Hlive)]; [done|].
  simpl in Hrun'. injection Hrun' as ->.
  destruct Hinv1 as (Hn16 & _). simpl in Hn16. lia.
Qed.

Lemma run_from_empty ops :
  legal_from_empty ops -> (Z.of_nat (length ops) < 2 ^ 50)%Z ->
  exists m,
    run ops empty = Some m /\
    (Inv XXH64 get_state_ m (live_after ops) \/
     (m = empty /\ live_after ops = [])).
Proof.
  intros [Hstart Hlegal] Hsmall.
  destruct (run_spec ops empty []) as (m & Hrun & Hinv); auto.
  exists m. split; [done|]. destruct Hinv as [?|(-> & -> & _)]; auto.
Qed.

(** No assertion keeps two IDs from being live under one namespace and
    topic. After every legal sequence of [Insert] and [Remove] on a fresh
    map, [Find] on a namespace and topic returns an ID that is live under
    them, that is inserted under them and not yet removed, together with
    its state; the ID is the last one inserted whenever a single ID is
    live under them. [Find] returns the reserved ID 0 and a null state
    when no ID is live under them. *)
Theorem Find_returns_a_live_subscription ops namespace_id topic_name :
  legal_from_empty ops -> (Z.of_nat (length ops) < 2 ^ 50)%Z ->
  exists m r state,
    run ops empty = Some m /\
    Find XXH64 get_state_ namespace_id topic_name m = Some (r, state) /\
    let candidates :=
      filter (fun id => key_of get_state_ id
                        = Some (namespace_id, topic_name))
             (live_after ops) in
    (candidates = [] -> r = 0%Z /\ state = None) /\
    (candidates <> [] ->
     r ∈ candidates /\ state = get_state_ r /\ is_Some state) /\
    (forall id, candidates = [id] -> r = id).
Proof.
  intros Hlegal Hsmall.
  destruct (run_from_empty ops Hlegal Hsmall) as (m & Hrun & Hinv).
  destruct (Find_spec XXH64 get_state_ m (live_after ops) namespace_id
              topic_name) as (r & state & Hfind & Hres).
  { destruct Hinv as [?|[? ?]]; auto. }
  exists m, r, state. split; [done|]. split; [done|]. cbv zeta.
  set (candidates := filter _ _).
  assert (Hcases :
    (candidates = [] /\ r = 0%Z /\ state = None) \/
    (r ∈ candidates /\ state = get_state_ r /\ is_Some state)).
  { destruct Hres as [(-> & -> & Hnone)|(Hin & Hkey & ->)].
    - left. split; [|done]. destruct candidates as [|id l] eqn:E; [done|].
      assert (Hid : id ∈ candidates) by (rewrite E; left).
      apply list_elem_of_filter in Hid as [Hk Hid]. by destruct (Hnone id).
    - right. split; [by apply list_elem_of_filter|]. split; [done|].
      apply key_of_Some in Hkey as (st & -> & _). by eexists. }
  destruct Hcases as [(-> & -> & ->)|(Hin & -> & Hsome)].
  - repeat split; done.
  - split; [intros E; rewrite E in Hin; by apply elem_of_nil in Hin|].
    split; [done|]. intros id E. rewrite E in Hin.
    by apply list_elem_of_singleton in Hin.
Qed.

(** C3. After every legal sequence of [Insert] and [Remove] on a fresh
    map, every stored ID has a state, and every slot on the cyclic probe
    path from the optimal position of its namespace and topic to the slot
    that holds it is occupied by an ID other than the reserved one: no
    entry lies beyond a gap. In particular each [Insert], placing the ID
    into the first gap, and each [Remove], shifting entries backwards,
    runs to completion and keeps this. *)
Theorem no_entry_beyond_a_gap ops :
  legal_from_empty ops -> (Z.of_nat (length ops) < 2 ^ 50)%Z ->
  exists m,
    run ops empty = Some m /\
    forall p id, vector_ m !! p = Some id -> id <> 0%Z ->
      exists state,
        get_state_ id = Some state /\
        forall q,
          q ∈ probe_path (length (vector_ m))
                (FindOptimalPosition XXH64 (length (vector_ m))
                   (GetNamespace state) (GetTopicName state)) p ->
          exists c, vector_ m !! q = Some c /\ c <> 0%Z.
Proof.
  intros Hlegal Hsmall.
  destruct (run_from_empty ops Hlegal Hsmall) as (m & Hrun & Hinv).
  exists m. split; [done|]. intros p id Hp Hid.
  destruct Hinv as [(Hn16 & _ & Hgf & _)|[-> _]]; [|done].
  destruct (Hgf p id Hp Hid) as (state & Hstate & Hchained).
  exists state. split; [done|]. intros q Hq.
  apply elem_of_probe_path in Hq as [Hq Hd].
  - by apply Hchained.
  - apply FindOptimalPosition_lt. lia.
  - by eapply lookup_lt_Some.
Qed.

(** C6. After every legal, non-empty sequence of [Insert] and [Remove] on
    a fresh map the vector has at least 16 slots and the count, which is
    the number of live IDs, lies between the low and the high watermark,
    both included, with the high watermark below the number of slots.
    Whenever [Rehash] runs on a table with distinct IDs and a count
    outside of the half-open range from the low to the high watermark, it
    rebuilds the table with [count / 0.375] slots, at least 16, the low
    watermark a quarter of that (0 at the minimal size) and the high
    watermark half of the slots; in every case the count it leaves lies in
    the half-open range. *)
Theorem load_between_watermarks :
  (forall ops,
     ops <> [] -> legal_from_empty ops ->
     (Z.of_nat (length ops) < 2 ^ 50)%Z ->
     exists m,
       run ops empty = Some m /\
       16 <= length (vector_ m) /\
       sub_count_ m = Z.of_nat (length (live_after ops)) /\
       (0 <= sub_count_low_ m <= sub_count_ m)%Z /\
       (sub_count_ m <= sub_count_high_ m)%Z /\
       (sub_count_high_ m < Z.of_nat (length (vector_ m)))%Z) /\
  (forall m,
     NoDup (entries (vector_ m)) -> has_states get_state_ (vector_ m) ->
     sub_count_ m = Z.of_nat (length (entries (vector_ m))) ->
     (sub_count_ m < 2 ^ 50)%Z ->
     exists m',
       Rehash XXH64 get_state_ m = Some m' /\
       sub_count_ m' = sub_count_ m /\
       (sub_count_low_ m' <= sub_count_ m' < sub_count_high_ m')%Z /\
       if decide (sub_count_ m < sub_count_low_ m \/
                  sub_count_ m >= sub_count_high_ m)%Z
       then
         Z.of_nat (length (vector_ m')) = Z.max 16 (sub_count_ m * 8 / 3) /\
         sub_count_low_ m'
         = (if decide (sub_count_ m * 8 / 3 <= 16)%Z then 0%Z
            else sub_count_ m * 8 / 3 / 4)%Z /\
         sub_count_high_ m' = (Z.max 16 (sub_count_ m * 8 / 3) / 2)%Z
       else m' = m).
Proof.
  split.
  - intros ops Hne Hlegal Hsmall.
    destruct (run_from_empty ops Hlegal Hsmall) as (m & Hrun & Hinv).
    exists m. split; [done|].
    destruct Hinv as [(Hn16 & _ & _ & _ & _ & Hcount & Hlow & Hhigh & Hcap)
                     |[-> _]].
    { repeat split; try done; lia. }
    exfalso. destruct ops as [|o ops]; [done|]. cbn [run] in Hrun.
    destruct Hlegal as [Hstart [Hop Hlegal]].
    destruct o as [namespace_id topic_name id|]; [|by destruct Hstart].
    destruct Hop as (Hid & Hnew & Hkey).
    destruct (Insert_spec XXH64 get_state_ empty [] namespace_id topic_name
                id) as (m1 & Hins & Hinv1); auto; [done|].
    cbn [apply_op] in Hrun. rewrite Hins in Hrun. cbn [mbind option_bind] in Hrun.
    destruct (run_spec ops m1 [id]) as (m' & Hrun' & Hinv');
      [by left|done|cbn [length] in *; lia|].
    rewrite Hrun in Hrun'. injection Hrun' as Hm. subst m'.
    destruct Hinv' as [(Hn16 & _)|(_ & _ & [=])].
    simpl in Hn16. lia.
  - intros m Hnd Hst Hcount Hsmall.
    destruct (NeedsRehash m) eqn:Hneeds.
    + destruct (Rehash_rebuild XXH64 get_state_ m (entries (vector_ m)))
        as (m' & Hrun & Hlen & Hlow & Hhigh & Hcount' & _); try done; [lia|].
      exists m'. split; [done|]. split; [done|].
      unfold NeedsRehash in Hneeds. apply bool_decide_eq_true in Hneeds.
      rewrite decide_True by lia.
      split; [|done]. rewrite Hlow, Hhigh, Hcount'.
      set (c := sub_count_ m) in *.
      assert (Hc : (0 <= c < 2 ^ 50)%Z) by lia.
      assert (Hq : (c * 8 - 2 <= 3 * (c * 8 / 3) <= c * 8)%Z).
      { pose proof (Z.div_mod (c * 8) 3).
        pose proof (Z.mod_pos_bound (c * 8) 3). lia. }
      assert (Hh : (Z.max 16 (c * 8 / 3) - 1
                    <= 2 * (Z.max 16 (c * 8 / 3) / 2))%Z).
      { pose proof (Z.div_mod (Z.max 16 (c * 8 / 3)) 2).
        pose proof (Z.mod_pos_bound (Z.max 16 (c * 8 / 3)) 2). lia. }
      assert (Hl : (4 * (c * 8 / 3 / 4) <= c * 8 / 3)%Z).
      { pose proof (Z.div_mod (c * 8 / 3) 4).
        pose proof (Z.mod_pos_bound (c * 8 / 3) 4). lia. }
      case_decide; lia.
    + exists m. split; [by apply Rehash_noop|]. split; [done|].
      unfold NeedsRehash in Hneeds. apply bool_decide_eq_false in Hneeds.
      rewrite decide_False by lia. split; [lia|done].
Qed.

End traces.

(** *** What the caller holds

    The header has the map take a namespace and topic to "the ID of the
    only upstream subscription": a caller inserts an ID for a namespace and
    topic when it holds none for them. What it holds is read off the calls:
    every ID with the namespace and topic it was inserted for, the most
    recently inserted first. *)
Definition inserted_step (held : list (NamespaceID * Topic * SubscriptionID))
    (o : op) : list (NamespaceID * Topic * SubscriptionID) :=
  match o with
  | OpInsert namespace_id topic_name sub_id =>
      (namespace_id, topic_name, sub_id) :: held
  | OpRemove _ _ sub_id => filter (fun e => e.2 <> sub_id) held
  end.

Definition inserted_after (ops : list op)
    : list (NamespaceID * Topic * SubscriptionID) :=
  foldl inserted_step [] ops.

(** The ID last inserted for a namespace and topic and not yet removed. *)
Definition last_inserted (ops : list op) (namespace_id : NamespaceID)
    (topic_name : Topic) : option SubscriptionID :=
  snd <$> head (filter (fun e => e.1 = (namespace_id, topic_name))
                       (inserted_after ops)).

(** No [Insert] for a namespace and topic that have an ID inserted and not
    yet removed. *)
Definition first_for_topic
    (held : list (NamespaceID * Topic * SubscriptionID)) (o : op) : Prop :=
  match o with
  | OpInsert namespace_id topic_name _ =>
      Forall (fun e => e.1 <> (namespace_id, topic_name)) held
  | OpRemove _ _ _ => True
  end.

Fixpoint no_duplicate
    (held : list (NamespaceID * Topic * SubscriptionID)) (ops : list op)
    : Prop :=
  match ops with
  | [] => True
  | o :: ops' => first_for_topic held o /\ no_duplicate (inserted_step held o) ops'
  end.

Definition no_duplicate_insertion (ops : list op) : Prop :=
  no_duplicate [] ops.

Section last_inserted.

Variable XXH64 : Z -> list byte -> Z.
Variable get_state_ : SubscriptionID -> option SubscriptionState.

(** What is held agrees with the live IDs and with the states. *)
Definition agrees (held : list (NamespaceID * Topic * SubscriptionID))
    (live : list SubscriptionID) : Prop :=
  live = snd <$> held /\
  Forall (fun e => key_of get_state_ e.2 = Some e.1) held.

Lemma agrees_step held live o :
  agrees held live -> legal_op get_state_ live o ->
  agrees (inserted_step held o) (live_step live o).
Proof.
  intros [-> Hkeys] Hop.
  destruct o as [namespace_id topic_name id|namespace_id topic_name id];
    cbn [inserted_step live_step legal_op] in *.
  - destruct Hop as (_ & _ & Hkey). split; [done|]. by constructor.
  - split.
    + clear. induction held as [|e held IH]; [done|].
      rewrite fmap_cons, !filter_cons. cbn [snd].
      destruct (decide (e.2 <> id)); rewrite IH; done.
    + apply Forall_forall. intros e He.
      apply list_elem_of_filter in He as [_ He].
      by apply (proj1 (Forall_forall _ _) Hkeys).
Qed.

Lemma agrees_after ops : forall held live,
  agrees held live -> legal get_state_ live ops ->
  agrees (foldl inserted_step held ops) (foldl live_step live ops).
Proof.
  induction ops as [|o ops IH]; intros held live Hag Hlegal; [done|].
  destruct Hlegal as [Hop Hlegal]. cbn [foldl].
  apply IH; [by apply agrees_step|done].
Qed.

(** The live IDs under a namespace and topic are the IDs held for them. *)
Lemma agrees_filter held live key :
  agrees held live ->
  filter (fun id => key_of get_state_ id = Some key) live
  = snd <$> filter (fun e => e.1 = key) held.
Proof.
  intros [-> Hkeys]. induction Hkeys as [|e held He _ IH]; [done|].
  rewrite fmap_cons, !filter_cons, He.
  destruct (decide (Some e.1 = Some key)) as [Hk|Hk].
  - injection Hk as Hk. rewrite decide_True by done. by rewrite fmap_cons, IH.
  - rewrite decide_False by congruence. done.
Qed.

(** At most one ID is held for a namespace and topic. *)
Definition one_per_topic
    (held : list (NamespaceID * Topic * SubscriptionID)) : Prop :=
  forall key, length (filter (fun e => e.1 = key) held) <= 1.

Lemma filter_none {A} (P : A -> Prop) `{forall x, Decision (P x)} l :
  Forall (fun x => ~ P x) l -> filter P l = [].
Proof.
  induction 1 as [|x l Hx _ IH]; [done|].
  by rewrite filter_cons, decide_False.
Qed.

Lemma length_filter_filter {A} (P Q : A -> Prop)
    `{forall x, Decision (P x)} `{forall x, Decision (Q x)} l :
  length (filter P (filter Q l)) <= length (filter P l).
Proof.
  induction l as [|x l IH]; [done|].
  rewrite !filter_cons.
  destruct (decide (Q x)), (decide (P x)); rewrite ?filter_cons;
    rewrite ?decide_True, ?decide_False by done; simpl; lia.
Qed.

Lemma one_per_topic_step held o :
  one_per_topic held -> first_for_topic held o ->
  one_per_topic (inserted_step held o).
Proof.
  intros Hone Hfirst key.
  destruct o as [namespace_id topic_name id|namespace_id topic_name id];
    cbn [inserted_step first_for_topic] in *.
  - rewrite filter_cons. cbn [fst]. case_decide as Hkey; [|apply Hone].
    subst key. cbn [length]. by rewrite filter_none.
  - etrans; [apply length_filter_filter|apply Hone].
Qed.

Lemma one_per_topic_after ops : forall held,
  one_per_topic held -> no_duplicate held ops ->
  one_per_topic (foldl inserted_step held ops).
Proof.
  induction ops as [|o ops IH]; intros held Hone Hnd; [done|].
  destruct Hnd as [Hfirst Hnd]. cbn [foldl].
  apply IH; [by apply one_per_topic_step|done].
Qed.

(** C2. After every legal sequence of [Insert] and [Remove] on a fresh
    map in which no [Insert] is for a namespace and topic that have an ID
    inserted and not yet removed, [Find] on a namespace and topic returns
    the ID last inserted for them and not yet removed, together with its
    state, and the reserved ID 0 with a null state when there is no such
    ID, as after the [Remove] of the one there was. *)
Theorem Find_returns_the_last_inserted ops namespace_id topic_name :
  legal_from_empty get_state_ ops -> no_duplicate_insertion ops ->
  (Z.of_nat (length ops) < 2 ^ 50)%Z ->
  exists m,
    run XXH64 get_state_ ops empty = Some m /\
    match last_inserted ops namespace_id topic_name with
    | Some id =>
        Find XXH64 get_state_ namespace_id topic_name m
        = Some (id, get_state_ id) /\
        is_Some (get_state_ id)
    | None =>
        Find XXH64 get_state_ namespace_id topic_name m = Some (0%Z, None)
    end.
Proof.
  intros Hlegal Hnodup Hsmall.
  destruct (run_from_empty XXH64 get_state_ ops Hlegal Hsmall)
    as (m & Hrun & Hinv).
  destruct (Find_spec XXH64 get_state_ m (live_after ops) namespace_id
              topic_name) as (r & state & Hfind & Hres).
  { destruct Hinv as [?|[? ?]]; auto. }
  exists m. split; [done|].
  assert (Hag : agrees (inserted_after ops) (live_after ops)).
  { apply agrees_after; [by split|by destruct Hlegal]. }
  pose proof (agrees_filter _ _ (namespace_id, topic_name) Hag) as Hlive.
  assert (Hempty : one_per_topic []) by (intros key; simpl; lia).
  pose proof (one_per_topic_after ops [] Hempty Hnodup
                (namespace_id, topic_name)) as Hone.
  unfold last_inserted. fold (inserted_after ops) in Hone.
  destruct (filter (fun e => e.1 = (namespace_id, topic_name))
              (inserted_after ops)) as [|e [|e' held]] eqn:Hheld;
    cbn [head fmap option_fmap option_map length] in *; [| |lia].
  - destruct Hres as [(-> & -> & _)|(Hin & Hkey & _)]; [done|].
    assert (Hr : r ∈ filter (fun id => key_of get_state_ id
                                     = Some (namespace_id, topic_name))
                   (live_after ops))
      by (by apply list_elem_of_filter).
    rewrite Hlive in Hr. by apply elem_of_nil in Hr.
  - assert (He : e.2 ∈ filter (fun id => key_of get_state_ id
                                     = Some (namespace_id, topic_name))
                   (live_after ops))
      by (rewrite Hlive; cbn; left).
    apply list_elem_of_filter in He as [Hekey Helive].
    destruct Hres as [(_ & _ & Hnone)|(Hin & Hkey & ->)].
    { by destruct (Hnone e.2 Helive). }
    assert (Hr : r ∈ filter (fun id => key_of get_state_ id
                                     = Some (namespace_id, topic_name))
                   (live_after ops))
      by (by apply list_elem_of_filter).
    rewrite Hlive in Hr. cbn in Hr. apply list_elem_of_singleton in Hr.
    subst r. split; [done|].
    apply key_of_Some in Hkey as (st & -> & _). by eexists.
Qed.

End last_inserted.

(** *** A concrete environment *)

(** A stand-in digest: the bytes folded into the seed. *)
Definition example_hash (seed : Z) (data : list byte) : Z :=
  foldl (fun h b => (h * 31 + byte_to_Z b) mod 2 ^ 64)%Z seed data.

Definition topic_of (id : SubscriptionID) : Topic := [Z_to_byte (id mod 16)].

(** Subscriptions 1 to 99 on the empty namespace; sixteen topics. *)
Definition example_state (id : SubscriptionID) : option SubscriptionState :=
  if decide (0 < id < 100)%Z then Some (mkState 0 [] (topic_of id) 0)
  else None.

Definition insert_of (id : SubscriptionID) : op := OpInsert [] (topic_of id) id.
Definition remove_of (id : SubscriptionID) : op := OpRemove [] (topic_of id) id.

Ltac legal_steps :=
  repeat first
    [ split
    | exact I
    | progress cbn [legal legal_op live_step insert_of remove_of fmap
                    list_fmap]
    | (intros [] ; fail)
    | (intros E; discriminate E)
    | (vm_compute; reflexivity)
    | (intros _; vm_compute; reflexivity)
    | apply not_elem_of_nil
    | (apply not_elem_of_cons; split; [intros E; discriminate E|]) ].

(** Two subscriptions to one topic: [Find] stops at the one that comes
    first on the probe path, here the one inserted first. *)
Definition same_topic_twice : list op :=
  [insert_of 1; OpInsert [] (topic_of 1) 17]%Z.

Lemma same_topic_twice_legal :
  legal_from_empty example_state same_topic_twice.
Proof. unfold legal_from_empty, same_topic_twice. legal_steps. Defined.

Lemma Find_misses_the_last_inserted :
  legal_from_empty example_state same_topic_twice /\
  exists m,
    run example_hash example_state same_topic_twice empty = Some m /\
    head (filter (fun id => key_of example_state id = Some ([], topic_of 1%Z))
                 (live_after same_topic_twice)) = Some 17%Z /\
    Find example_hash example_state [] (topic_of 1%Z) m
    = Some (1%Z, example_state 1%Z).
Proof.
  split.
  - unfold legal_from_empty, same_topic_twice. legal_steps.
  - eexists. split; [vm_compute; reflexivity|]. split; vm_compute; reflexivity.
Qed.

Definition insert_remove_insert : list op :=
  [insert_of 1; remove_of 1; insert_of 2]%Z.

Lemma insert_remove_insert_legal :
  legal_from_empty example_state insert_remove_insert.
Proof. unfold legal_from_empty, insert_remove_insert. legal_steps. Defined.

Lemma Find_returns_a_live_subscription_witness :
  legal_from_empty example_state same_topic_twice /\
  (Z.of_nat (length same_topic_twice) < 2 ^ 50)%Z /\
  exists m r state,
    run example_hash example_state same_topic_twice empty = Some m /\
    Find example_hash example_state [] (topic_of 1%Z) m = Some (r, state) /\
    let candidates :=
      filter (fun id => key_of example_state id = Some ([], topic_of 1%Z))
             (live_after same_topic_twice) in
    (candidates = [] -> r = 0%Z /\ state = None) /\
    (candidates <> [] ->
     r ∈ candidates /\ state = example_state r /\ is_Some state) /\
    (forall id, candidates = [id] -> r = id).
Proof.
  split; [exact same_topic_twice_legal|].
  split; [reflexivity|].
  apply (Find_returns_a_live_subscription example_hash example_state
           same_topic_twice [] (topic_of 1%Z)).
  - exact same_topic_twice_legal.
  - reflexivity.
Defined.

(** *** Subscribed again to a topic

    Subscription 1 is removed and subscription 17 takes its topic, then
    subscription 2 another one. *)
Definition subscribed_again : list op :=
  [insert_of 1; remove_of 1; insert_of 17; insert_of 2]%Z.

Lemma subscribed_again_legal : legal_from_empty example_state subscribed_again.
Proof. unfold legal_from_empty, subscribed_again. legal_steps. Defined.

Lemma subscribed_again_no_duplicate : no_duplicate_insertion subscribed_again.
Proof.
  unfold no_duplicate_insertion, subscribed_again.
  cbn [no_duplicate first_for_topic inserted_step insert_of remove_of].
  repeat split; vm_compute; repeat constructor; intros E; discriminate E.
Defined.

Lemma Find_returns_the_last_inserted_witness :
  legal_from_empty example_state subscribed_again /\
  no_duplicate_insertion subscribed_again /\
  (Z.of_nat (length subscribed_again) < 2 ^ 50)%Z /\
  last_inserted subscribed_again [] (topic_of 1%Z) = Some 17%Z /\
  exists m,
    run example_hash example_state subscribed_again empty = Some m /\
    match last_inserted subscribed_again [] (topic_of 1%Z) with
    | Some id =>
        Find example_hash example_state [] (topic_of 1%Z) m
        = Some (id, example_state id) /\
        is_Some (example_state id)
    | None =>
        Find example_hash example_state [] (topic_of 1%Z) m
        = Some (0%Z, None)
    end.
Proof.
  split; [exact subscribed_again_legal|].
  split; [exact subscribed_again_no_duplicate|].
  split; [reflexivity|]. split; [vm_compute; reflexivity|].
  exact (Find_returns_the_last_inserted example_hash example_state
           subscribed_again [] (topic_of 1%Z) subscribed_again_legal
           subscribed_again_no_duplicate eq_refl).
Defined.

Lemma no_entry_beyond_a_gap_witness :
  legal_from_empty example_state insert_remove_insert /\
  (Z.of_nat (length insert_remove_insert) < 2 ^ 50)%Z /\
  exists m,
    run example_hash example_state insert_remove_insert empty = Some m /\
    forall p id, vector_ m !! p = Some id -> id <> 0%Z ->
      exists state,
        example_state id = Some state /\
        forall q,
          q ∈ probe_path (length (vector_ m))
                (FindOptimalPosition example_hash (length (vector_ m))
                   (GetNamespace state) (GetTopicName state)) p ->
          exists c, vector_ m !! q = Some c /\ c <> 0%Z.
Proof.
  split; [exact insert_remove_insert_legal|].
  split; [reflexivity|].
  apply (no_entry_beyond_a_gap example_hash example_state
           insert_remove_insert).
  - exact insert_remove_insert_legal.
  - reflexivity.
Defined.

(** Eight subscriptions on eight topics. *)
Definition eight_inserts : list op :=
  insert_of <$> [1; 2; 3; 4; 5; 6; 7; 8]%Z.

Lemma count_reaches_the_high_watermark :
  eight_inserts <> [] /\
  legal_from_empty example_state eight_inserts /\
  exists m,
    run example_hash example_state eight_inserts empty = Some m /\
    length (vector_ m) = 16 /\
    sub_count_low_ m = 0%Z /\ sub_count_ m = 8%Z /\
    sub_count_high_ m = 8%Z /\
    ~ (sub_count_low_ m <= sub_count_ m < sub_count_high_ m)%Z.
Proof.
  split; [done|]. split.
  - unfold legal_from_empty, eight_inserts. legal_steps.
  - eexists. split; [vm_compute; reflexivity|]. cbn. repeat split. lia.
Qed.

(** A table right after a removal took its count below the low
    watermark. *)
Definition underfull : t := mk (replicate 30 0%Z ++ [1; 2]%Z) 8 16 2.

Lemma underfull_has_states : has_states example_state (vector_ underfull).
Proof.
  intros q c Hq Hc. apply list_elem_of_lookup_2 in Hq.
  cbn in Hq. rewrite !elem_of_cons in Hq.
  repeat (destruct Hq as [->|Hq]; [try done; by eexists|]).
  by apply elem_of_nil in Hq.
Defined.

Lemma underfull_distinct : NoDup (entries (vector_ underfull)).
Proof.
  change (NoDup [1; 2]%Z). apply NoDup_cons. split.
  - apply not_elem_of_cons. split; [done|apply not_elem_of_nil].
  - apply NoDup_singleton.
Defined.

Lemma load_between_watermarks_witness :
  (insert_remove_insert <> [] /\
   legal_from_empty example_state insert_remove_insert /\
   (Z.of_nat (length insert_remove_insert) < 2 ^ 50)%Z /\
   exists m,
     run example_hash example_state insert_remove_insert empty = Some m /\
     16 <= length (vector_ m) /\
     sub_count_ m = Z.of_nat (length (live_after insert_remove_insert)) /\
     (0 <= sub_count_low_ m <= sub_count_ m)%Z /\
     (sub_count_ m <= sub_count_high_ m)%Z /\
     (sub_count_high_ m < Z.of_nat (length (vector_ m)))%Z) /\
  (NoDup (entries (vector_ underfull)) /\
   has_states example_state (vector_ underfull) /\
   sub_count_ underfull = Z.of_nat (length (entries (vector_ underfull))) /\
   (sub_count_ underfull < 2 ^ 50)%Z /\
   exists m',
     Rehash example_hash example_state underfull = Some m' /\
     sub_count_ m' = sub_count_ underfull /\
     (sub_count_low_ m' <= sub_count_ m' < sub_count_high_ m')%Z /\
     if decide (sub_count_ underfull < sub_count_low_ underfull \/
                sub_count_ underfull >= sub_count_high_ underfull)%Z
     then
       Z.of_nat (length (vector_ m'))
       = Z.max 16 (sub_count_ underfull * 8 / 3) /\
       sub_count_low_ m'
       = (if decide (sub_count_ underfull * 8 / 3 <= 16)%Z then 0%Z
          else sub_count_ underfull * 8 / 3 / 4)%Z /\
       sub_count_high_ m' = (Z.max 16 (sub_count_ underfull * 8 / 3) / 2)%Z
     else m' = underfull).
Proof.
  destruct (load_between_watermarks example_hash example_state)
    as [Htrace Hrehash].
  split.
  - split; [discriminate|]. split; [exact insert_remove_insert_legal|].
    split; [reflexivity|].
    apply Htrace; [discriminate|exact insert_remove_insert_legal|reflexivity].
  - split; [exact underfull_distinct|].
    split; [exact underfull_has_states|].
    split; [reflexivity|]. split; [reflexivity|].
    apply Hrehash;
      [exact underfull_distinct|exact underfull_has_states|reflexivity
      |reflexivity].
Defined.

End TopicMapProofs.

(** ** The log tailer passes on what is expected, in order *)

Module LogTailerProofs.
Import LogTailer.

Local Open Scope nat_scope.

(** The sequence number expected next on a log of a reader, if the log is
    open. *)
Definition expected_at (s : t) (reader_id : nat) (log : Z)
    : option SequenceNumber :=
  reader ← readers_ s !! reader_id; log_state reader !! log.

Definition reader_of (c : Command) : nat :=
  match c with
  | ForwardRecord _ _ reader_id => reader_id
  | ForwardGap _ _ _ _ reader_id => reader_id
  end.

Definition log_of (c : Command) : Z :=
  match c with
  | ForwardRecord _ log _ => log
  | ForwardGap log _ _ _ _ => log
  end.

(** The sequence numbers a record or gap covers, first and last. *)
Definition first_of (c : Command) : SequenceNumber :=
  match c with
  | ForwardRecord msg _ _ => GetSequenceNumber msg
  | ForwardGap _ _ from _ _ => from
  end.

Definition last_of (c : Command) : SequenceNumber :=
  match c with
  | ForwardRecord msg _ _ => GetSequenceNumber msg
  | ForwardGap _ _ _ to _ => to
  end.

(** User callbacks that write down what they are called with. *)
Definition note_record (msg : LogRecordMessageData) (log : Z)
    (reader_id : nat) (s : t * list Command) : t * list Command :=
  (s.1, s.2 ++ [ForwardRecord msg log reader_id]).

Definition note_gap (log : Z) (type : GapType) (from to : SequenceNumber)
    (reader_id : nat) (s : t * list Command) : t * list Command :=
  (s.1, s.2 ++ [ForwardGap log type from to reader_id]).

(** What the callbacks were called with for one log of one reader. *)
Definition calls_for (reader_id : nat) (log : Z) (calls : list Command)
    : list Command :=
  filter (fun c => reader_of c = reader_id /\ log_of c = log) calls.

(** Each call begins at the sequence number after the end of the call
    before it, the first one at [expected]; [final] follows the last. *)
Fixpoint contiguous (expected : SequenceNumber) (calls : list Command)
    (final : SequenceNumber) : Prop :=
  match calls with
  | [] => final = expected
  | c :: calls' =>
      first_of c = expected /\ contiguous (uint64 (last_of c + 1)%Z) calls' final
  end.

Lemma expected_at_set s reader_id log v r l :
  reader_id < length (readers_ s) ->
  expected_at (set_expected s reader_id log v) r l
  = if decide (r = reader_id /\ l = log) then Some v else expected_at s r l.
Proof.
  intros Hlt. unfold expected_at, set_expected. cbn [readers_].
  destruct (decide (r = reader_id)) as [->|Hr].
  - destruct (lookup_lt_is_Some_2 _ _ Hlt) as [reader Hreader].
    rewrite list_lookup_alter_eq, Hreader. cbn.
    destruct (decide (l = log)) as [->|Hl].
    + rewrite lookup_insert_eq. by rewrite decide_True.
    + rewrite lookup_insert_ne by done. rewrite decide_False by tauto. done.
  - rewrite list_lookup_alter_ne by done. rewrite decide_False by tauto. done.
Qed.

(** One command under the noting callbacks: it is dropped and changes no
    expectation, or it is the expected one, is passed on, and moves the
    expectation of its log past its end. *)
Lemma run_command_noted c s w :
  reader_of c < length (readers_ s) ->
  exists s1 out,
    run_command note_record note_gap c (s, w) = Some (s1, w ++ out) /\
    length (readers_ s1) = length (readers_ s) /\
    ((out = [] /\ forall r l, expected_at s1 r l = expected_at s r l) \/
     (out = [c] /\
      expected_at s (reader_of c) (log_of c) = Some (first_of c) /\
      forall r l,
        expected_at s1 r l
        = if decide (r = reader_of c /\ l = log_of c)
          then Some (uint64 (last_of c + 1)%Z) else expected_at s r l)).
Proof.
  intros Hlt. destruct (lookup_lt_is_Some_2 _ _ Hlt) as [reader Hreader].
  destruct c as [msg log reader_id|log type from to reader_id];
    cbn [run_command reader_of log_of first_of last_of] in *;
    unfold RecordCallback, GapCallback; cbn [fst snd]; rewrite Hreader;
    cbn [mbind option_bind].
  - destruct (log_state reader !! log) as [expected|] eqn:Hexp.
    + case_decide as Hne.
      * exists (count_record_out_of_order s), []. rewrite app_nil_r.
        split; [done|]. split; [done|]. by left.
      * exists (set_expected s reader_id log
                  (uint64 (GetSequenceNumber msg + 1)%Z)),
               [ForwardRecord msg log reader_id].
        split; [done|]. split.
        { unfold set_expected. cbn. by rewrite length_alter. }
        right. split; [done|]. split.
        { unfold expected_at. rewrite Hreader. cbn. rewrite Hexp.
          f_equal. lia. }
        intros r l. by apply expected_at_set.
    + exists (count_record_out_of_order s), []. rewrite app_nil_r.
      split; [done|]. split; [done|]. by left.
  - destruct (log_state reader !! log) as [expected|] eqn:Hexp.
    + case_decide as Hne.
      * exists (count_gap_out_of_order s), []. rewrite app_nil_r.
        split; [done|]. split; [done|]. by left.
      * exists (set_expected s reader_id log (uint64 (to + 1)%Z)),
               [ForwardGap log type from to reader_id].
        split; [done|]. split.
        { unfold set_expected. cbn. by rewrite length_alter. }
        right. split; [done|]. split.
        { unfold expected_at. rewrite Hreader. cbn. rewrite Hexp.
          f_equal. lia. }
        intros r l. by apply expected_at_set.
    + exists (count_gap_out_of_order s), []. rewrite app_nil_r.
      split; [done|]. split; [done|]. by left.
Qed.

Lemma run_commands_noted cs : forall s w,
  Forall (fun c => reader_of c < length (readers_ s)) cs ->
  exists s' out,
    run_commands note_record note_gap cs (s, w) = Some (s', w ++ out) /\
    forall reader_id log,
      match expected_at s reader_id log with
      | Some expected =>
          exists final,
            expected_at s' reader_id log = Some final /\
            contiguous expected (calls_for reader_id log out) final
      | None =>
          expected_at s' reader_id log = None /\
          calls_for reader_id log out = []
      end.
Proof.
  induction cs as [|c cs IH]; intros s w Hrange.
  { exists s, []. rewrite app_nil_r. split; [done|]. intros reader_id log.
    destruct (expected_at s reader_id log) as [e|]; [|done]. by exists e. }
  apply Forall_cons in Hrange as [Hc Hrange].
  destruct (run_command_noted c s w Hc) as (s1 & out1 & Hrun1 & Hlen & Hcase).
  destruct (IH s1 (w ++ out1)) as (s' & out & Hrun & Hrest).
  { by rewrite Hlen. }
  exists s', (out1 ++ out). cbn [run_commands]. rewrite Hrun1.
  cbn [mbind option_bind]. rewrite Hrun, app_assoc. split; [done|].
  intros reader_id log. specialize (Hrest reader_id log).
  destruct Hcase as [[-> Hsame]|(-> & Hexp & Hmoved)].
  - rewrite Hsame in Hrest. done.
  - rewrite Hmoved in Hrest. unfold calls_for in *. cbn [app].
    case_decide as Hhere.
    + destruct Hhere as [-> ->]. rewrite Hexp.
      rewrite filter_cons_True by done.
      destruct Hrest as (final & Hfinal & Hcont). exists final. by split.
    + rewrite filter_cons_False by (intros [? ?]; apply Hhere; by split).
      done.
Qed.

(** C4. [RecordCallback] and [GapCallback] drop a record or gap for a
    log that is not open, or whose sequence number (for a gap, whose
    [from]) is not the one expected next: the matching out-of-order
    counter goes up by one, nothing else changes and the user callback does
    not run. Otherwise the expected sequence number of the log moves to
    [seqno + 1] (for a gap, [to + 1]) in 64-bit arithmetic, and the user
    callback runs on the state that has it. Consequently what the user
    callbacks receive for one log of one reader is in consecutive order:
    each record or gap begins at the sequence number after the end of the
    one before it, and nothing is received for a log that is not open. *)
Theorem callbacks_in_consecutive_order :
  (forall (World : Type) on_record (msg : LogRecordMessageData) log
          reader_id (s : t * World) reader,
     readers_ s.1 !! reader_id = Some reader ->
     RecordCallback on_record msg log reader_id s
     = Some (if decide (log_state reader !! log
                        = Some (GetSequenceNumber msg))
             then on_record msg log reader_id
                    (set_expected s.1 reader_id log
                       (uint64 (GetSequenceNumber msg + 1)%Z), s.2)
             else (mk (readers_ s.1)
                      (mkStats (log_records_out_of_order (stats_ s.1) + 1)%Z
                               (gap_records_out_of_order (stats_ s.1))),
                   s.2))) /\
  (forall (World : Type) on_gap log type from to reader_id (s : t * World)
          reader,
     readers_ s.1 !! reader_id = Some reader ->
     GapCallback on_gap log type from to reader_id s
     = Some (if decide (log_state reader !! log = Some from)
             then on_gap log type from to reader_id
                    (set_expected s.1 reader_id log (uint64 (to + 1)%Z), s.2)
             else (mk (readers_ s.1)
                      (mkStats (log_records_out_of_order (stats_ s.1))
                               (gap_records_out_of_order (stats_ s.1) + 1)%Z),
                   s.2))) /\
  (forall cs s,
     Forall (fun c => reader_of c < length (readers_ s)) cs ->
     exists s' calls,
       run_commands note_record note_gap cs (s, []) = Some (s', calls) /\
       forall reader_id log,
         match expected_at s reader_id log with
         | Some expected =>
             exists final,
               expected_at s' reader_id log = Some final /\
               contiguous expected (calls_for reader_id log calls) final
         | None =>
             expected_at s' reader_id log = None /\
             calls_for reader_id log calls = []
         end).
Proof.
  split; [|split].
  - intros World on_record msg log reader_id s reader Hreader.
    unfold RecordCallback. rewrite Hreader. cbn [mbind option_bind].
    destruct (log_state reader !! log) as [expected|].
    + case_decide as Hne.
      * rewrite decide_False by congruence. done.
      * rewrite decide_True; [done|]. f_equal. lia.
    + by rewrite decide_False.
  - intros World on_gap log type from to reader_id s reader Hreader.
    unfold GapCallback. rewrite Hreader. cbn [mbind option_bind].
    destruct (log_state reader !! log) as [expected|].
    + case_decide as Hne.
      * rewrite decide_False by congruence. done.
      * rewrite decide_True; [done|]. f_equal. lia.
    + by rewrite decide_False.
  - intros cs s Hrange.
    destruct (run_commands_noted cs s [] Hrange) as (s' & out & Hrun & Hrest).
    by exists s', out.
Qed.

(** C8. When the payload of a storage record does not deserialise,
    [record_cb] forwards no record: the one command it writes to the
    queue, if the queue takes it, is a gap of type [kDataLoss] from the
    sequence number of the record to that same sequence number, on the log
    of the record. If the queue does not take it, nothing is written and
    the record is handed back for a retry. Run on the tailer thread, the
    command is that call of [GapCallback]; on a log that expects the
    sequence number, the user's [on_gap] receives the data-loss gap. *)
Theorem corrupt_record_becomes_data_loss_gap `{WireFormat} (mDeliver : Z)
    (reader_id : nat) (accepted : bool) (record : LogRecord)
    (queue : list Command) (what : string) :
  MessageData.DeSerializeStorage (MessageData_new mDeliver) (payload record)
  = InvalidArgument what ->
  let gap :=
    ForwardGap (log_id record) kDataLoss (seqno record) (seqno record)
      reader_id in
  record_cb mDeliver reader_id accepted record queue
  = (accepted, if accepted then None else Some record,
     if accepted then queue ++ [gap] else queue) /\
  forall (World : Type) on_record on_gap (s : t * World),
    run_command on_record on_gap gap s
    = GapCallback on_gap (log_id record) kDataLoss (seqno record)
        (seqno record) reader_id s /\
    forall reader,
      readers_ s.1 !! reader_id = Some reader ->
      log_state reader !! log_id record = Some (seqno record) ->
      run_command on_record on_gap gap s
      = Some (on_gap (log_id record) kDataLoss (seqno record) (seqno record)
                reader_id
                (set_expected s.1 reader_id (log_id record)
                   (uint64 (seqno record + 1)%Z), s.2)).
Proof.
  intros Hbad gap. split.
  - unfold record_cb, LogRecordMessageData_new. rewrite Hbad.
    cbn [ok negb]. unfold TryForward. by destruct accepted.
  - intros World on_record on_gap s. split; [done|].
    intros reader Hreader Hexp. cbn [run_command gap]. unfold GapCallback.
    rewrite Hreader. cbn [mbind option_bind]. rewrite Hexp.
    by rewrite decide_False by (intros Hne; by apply Hne).
Qed.

(** *** A tailer with one reader, on log 7 at sequence number 5 *)

Definition example_tailer : t := mk [mkReader {[ 7%Z := 5%Z ]}] (mkStats 0 0).

Definition example_data (seqno : SequenceNumber) : LogRecordMessageData :=
  mkData (MessageData.mk (Message.mk 0 0) (seqno - 1) seqno [] [] [] [])
         (mkLogRecord 7 seqno []).

Definition example_commands : list Command :=
  [ForwardRecord (example_data 5) 7%Z 0; ForwardGap 7%Z kBenign 6%Z 8%Z 0;
   ForwardRecord (example_data 9) 7%Z 0].

Lemma example_commands_in_range :
  Forall (fun c => reader_of c < length (readers_ example_tailer))
         example_commands.
Proof. repeat constructor. Defined.

Lemma callbacks_in_consecutive_order_witness :
  (readers_ example_tailer !! 0 = Some (mkReader {[ 7%Z := 5%Z ]}) /\
   RecordCallback note_record (example_data 5) 7%Z 0 (example_tailer, [])
   = Some (if decide (log_state (mkReader {[ 7%Z := 5%Z ]}) !! 7%Z
                      = Some (GetSequenceNumber (example_data 5)))
           then note_record (example_data 5) 7%Z 0
                  (set_expected example_tailer 0 7%Z
                     (uint64 (GetSequenceNumber (example_data 5) + 1)%Z), [])
           else (mk (readers_ example_tailer)
                    (mkStats
                       (log_records_out_of_order (stats_ example_tailer) + 1)%Z
                       (gap_records_out_of_order (stats_ example_tailer))),
                 []))) /\
  (readers_ example_tailer !! 0 = Some (mkReader {[ 7%Z := 5%Z ]}) /\
   GapCallback note_gap 7%Z kBenign 6%Z 8%Z 0 (example_tailer, [])
   = Some (if decide (log_state (mkReader {[ 7%Z := 5%Z ]}) !! 7%Z
                      = Some 6%Z)
           then note_gap 7%Z kBenign 6%Z 8%Z 0
                  (set_expected example_tailer 0 7%Z (uint64 (8 + 1)%Z), [])
           else (mk (readers_ example_tailer)
                    (mkStats
                       (log_records_out_of_order (stats_ example_tailer))
                       (gap_records_out_of_order (stats_ example_tailer) + 1)%Z),
                 []))) /\
  (Forall (fun c => reader_of c < length (readers_ example_tailer))
          example_commands /\
   exists s' calls,
     run_commands note_record note_gap example_commands (example_tailer, [])
     = Some (s', calls) /\
     forall reader_id log,
       match expected_at example_tailer reader_id log with
       | Some expected =>
           exists final,
             expected_at s' reader_id log = Some final /\
             contiguous expected (calls_for reader_id log calls) final
       | None =>
           expected_at s' reader_id log = None /\
           calls_for reader_id log calls = []
       end).
Proof.
  destruct callbacks_in_consecutive_order as (Hrecord & Hgap & Hrun).
  split; [|split].
  - split; [reflexivity|].
    exact (Hrecord _ note_record (example_data 5) 7%Z 0 (example_tailer, [])
             (mkReader {[ 7%Z := 5%Z ]}) eq_refl).
  - split; [reflexivity|].
    exact (Hgap _ note_gap 7%Z kBenign 6%Z 8%Z 0 (example_tailer, [])
             (mkReader {[ 7%Z := 5%Z ]}) eq_refl).
  - split; [exact example_commands_in_range|].
    exact (Hrun example_commands example_tailer example_commands_in_range).
Defined.

Definition corrupt_record : LogRecord := mkLogRecord 7 5 [].

Lemma corrupt_record_becomes_data_loss_gap_witness :
  MessageData.DeSerializeStorage (H := Codec.LittleEndian) (MessageData_new 0)
    (payload corrupt_record)
  = InvalidArgument "Bad tenant ID" /\
  let gap := ForwardGap 7%Z kDataLoss 5%Z 5%Z 0 in
  record_cb (H := Codec.LittleEndian) 0 0 true corrupt_record []
  = (true, None, [gap]) /\
  forall (World : Type) on_record on_gap (s : t * World),
    run_command on_record on_gap gap s
    = GapCallback on_gap 7%Z kDataLoss 5%Z 5%Z 0 s /\
    forall reader,
      readers_ s.1 !! 0 = Some reader ->
      log_state reader !! 7%Z = Some 5%Z ->
      run_command on_record on_gap gap s
      = Some (on_gap 7%Z kDataLoss 5%Z 5%Z 0
                (set_expected s.1 0 7%Z (uint64 (5 + 1)%Z), s.2)).
Proof.
  split; [reflexivity|].
  exact (corrupt_record_becomes_data_loss_gap (H := Codec.LittleEndian) 0 0
           true corrupt_record [] "Bad tenant ID" eq_refl).
Defined.

End LogTailerProofs.

(** ** The rocketeer sends increasing sequence numbers *)

Module RocketeerProofs.
Import Rocketeer.

Section messages.

Variable mDeliverData mDeliverGap kBenign : Z.
Variable Empty : MsgId -> bool.

Abbreviation Deliver' := (Deliver mDeliverData Empty).
Abbreviation Advance' := (Advance mDeliverGap kBenign).
Abbreviation run_call' := (run_call mDeliverData mDeliverGap kBenign Empty).
Abbreviation run_calls' := (run_calls mDeliverData mDeliverGap kBenign Empty).

(** The subscription with this ID on this stream. *)
Definition subscription_at (s : t) (stream sub : Z)
    : option InboundSubscription :=
  Find (mkInboundID stream sub 0) s.

(** The sequence numbers (previous, current) of the messages sent for a
    subscription. *)
Definition seqnos_on (stream sub : Z) (e : Effect) : option (Z * Z) :=
  match e with
  | SendData data stream' _ =>
      let deliver := MessageDeliverData.deliver data in
      if decide (stream' = stream /\ MessageDeliver.sub_id_ deliver = sub)
      then Some (MessageDeliver.seqno_prev_ deliver,
                 MessageDeliver.seqno_ deliver)
      else None
  | SendGap gap stream' _ =>
      let deliver := MessageDeliverGap.deliver gap in
      if decide (stream' = stream /\ MessageDeliver.sub_id_ deliver = sub)
      then Some (MessageDeliver.seqno_prev_ deliver,
                 MessageDeliver.seqno_ deliver)
      else None
  | HandleNewSubscription _ _ => None
  end.

Definition sent_on (stream sub : Z) (out : list Effect) : list (Z * Z) :=
  omap (seqnos_on stream sub) out.

(** Each message names the sequence number of the one before it as its
    previous one, the first one names [prev], and its own is larger;
    [final] is the sequence number of the last. *)
Fixpoint chained (prev : Z) (sent : list (Z * Z)) (final : Z) : Prop :=
  match sent with
  | [] => final = prev
  | (seqno_prev, seqno) :: sent' =>
      seqno_prev = prev /\ prev < seqno /\ chained seqno sent' final
  end.

Lemma chained_app prev sent1 : forall middle sent2 final,
  chained prev sent1 middle -> chained middle sent2 final ->
  chained prev (sent1 ++ sent2) final.
Proof.
  revert prev. induction sent1 as [|[p q] sent1 IH];
    intros prev middle sent2 final H1 H2.
  - simpl in H1. by subst middle.
  - destruct H1 as (-> & Hlt & H1). cbn. repeat split; try done.
    by eapply IH.
Qed.

Lemma chained_increasing sent : forall prev final,
  chained prev sent final ->
  prev <= final /\ StronglySorted Z.lt (prev :: (snd <$> sent)).
Proof.
  induction sent as [|[p q] sent IH]; intros prev final Hch.
  - simpl in Hch. subst final. split; [lia|].
    constructor; [constructor|constructor].
  - destruct Hch as (-> & Hlt & Hch). destruct (IH q final Hch) as [Hle Hs].
    split; [lia|]. cbn. apply StronglySorted_inv in Hs as Hs'.
    destruct Hs' as [_ Hall].
    constructor; [done|]. constructor; [done|].
    eapply Forall_impl; [exact Hall|]. intros x Hx. cbn in Hx. lia.
Qed.

Lemma Find_subscription_at inbound_id s :
  Find inbound_id s = subscription_at s (stream_id inbound_id)
                        (sub_id inbound_id).
Proof. done. Qed.

Lemma subscription_at_set_prev inbound_id seqno s stream sub :
  subscription_at (set_prev_seqno inbound_id seqno s) stream sub
  = if decide (stream_id inbound_id = stream /\ sub_id inbound_id = sub)
    then (fun x => mkSub (tenant_id x) seqno) <$> subscription_at s stream sub
    else subscription_at s stream sub.
Proof.
  unfold subscription_at, Find, set_prev_seqno.
  cbn [inbound_subscriptions_ Rocketeer.stream_id Rocketeer.sub_id].
  destruct (decide (stream_id inbound_id = stream)) as [<-|Hstream].
  - rewrite lookup_alter_eq.
    destruct (inbound_subscriptions_ s !! stream_id inbound_id) as [subs|];
      cbn; [|by case_decide].
    destruct (decide (sub_id inbound_id = sub)) as [<-|Hsub].
    + rewrite lookup_alter_eq. by rewrite decide_True.
    + rewrite lookup_alter_ne by done. by rewrite decide_False by tauto.
  - rewrite lookup_alter_ne by done. by rewrite decide_False by tauto.
Qed.

(** A call that sends one message with the sequence numbers
    [(prev_seqno y, seqno)] and moves the subscription to [seqno], seen
    from one subscription. *)
Lemma sent_one inbound_id seqno s y stream sub :
  subscription_at s (stream_id inbound_id) (sub_id inbound_id) = Some y ->
  prev_seqno y < seqno ->
  match subscription_at s stream sub with
  | Some x =>
      exists x',
        subscription_at (set_prev_seqno inbound_id seqno s) stream sub
        = Some x' /\
        tenant_id x' = tenant_id x /\
        chained (prev_seqno x)
          (if decide (stream_id inbound_id = stream /\
                      sub_id inbound_id = sub)
           then [(prev_seqno y, seqno)] else [])
          (prev_seqno x')
  | None =>
      subscription_at (set_prev_seqno inbound_id seqno s) stream sub = None /\
      (if decide (stream_id inbound_id = stream /\ sub_id inbound_id = sub)
       then [(prev_seqno y, seqno)] else []) = []
  end.
Proof.
  intros Hy Hlt. rewrite subscription_at_set_prev. case_decide as Hhere.
  - destruct Hhere as [<- <-]. rewrite Hy. cbn.
    exists (mkSub (tenant_id y) seqno). by repeat split.
  - destruct (subscription_at s stream sub) as [x|]; [by exists x|done].
Qed.

(** A call that sends nothing and leaves the subscriptions alone. *)
Lemma sent_none (s s1 : t) stream sub :
  inbound_subscriptions_ s1 = inbound_subscriptions_ s ->
  match subscription_at s stream sub with
  | Some x =>
      exists x',
        subscription_at s1 stream sub = Some x' /\
        tenant_id x' = tenant_id x /\
        chained (prev_seqno x) [] (prev_seqno x')
  | None => subscription_at s1 stream sub = None /\ @nil (Z * Z) = []
  end.
Proof.
  intros Hsame. unfold subscription_at, Find. rewrite Hsame.
  match goal with |- match ?o with _ => _ end => destruct o as [x|] end;
    [by exists x|done].
Qed.

(** One call, seen from one subscription. *)
Lemma run_call_sent c s stream sub :
  match subscription_at s stream sub with
  | Some x =>
      exists x',
        subscription_at (run_call' c s).1 stream sub = Some x' /\
        tenant_id x' = tenant_id x /\
        chained (prev_seqno x) (sent_on stream sub (run_call' c s).2)
          (prev_seqno x')
  | None =>
      subscription_at (run_call' c s).1 stream sub = None /\
      sent_on stream sub (run_call' c s).2 = []
  end.
Proof.
  destruct c as [inbound_id seqno payload msg_id generated|inbound_id seqno];
    cbn [run_call]; unfold Deliver, Advance; cbv zeta;
    rewrite Find_subscription_at;
    destruct (subscription_at s (stream_id inbound_id) (sub_id inbound_id))
      as [y|] eqn:Hy.
  - case_decide as Hlt.
    + pose proof (sent_one inbound_id seqno s y stream sub Hy Hlt) as Hone.
      unfold sent_on. cbn. by case_decide.
    + by apply sent_none.
  - by apply sent_none.
  - case_decide as Hlt.
    + pose proof (sent_one inbound_id seqno s y stream sub Hy Hlt) as Hone.
      unfold sent_on. cbn. by case_decide.
    + by apply sent_none.
  - by apply sent_none.
Qed.

Lemma run_calls_sent cs : forall s stream sub,
  match subscription_at s stream sub with
  | Some x =>
      exists x',
        subscription_at (run_calls' cs s).1 stream sub = Some x' /\
        tenant_id x' = tenant_id x /\
        chained (prev_seqno x) (sent_on stream sub (run_calls' cs s).2)
          (prev_seqno x')
  | None =>
      subscription_at (run_calls' cs s).1 stream sub = None /\
      sent_on stream sub (run_calls' cs s).2 = []
  end.
Proof.
  induction cs as [|c cs IH]; intros s stream sub.
  { cbn. destruct (subscription_at s stream sub) as [x|]; [by exists x|done]. }
  cbn [run_calls]. pose proof (run_call_sent c s stream sub) as Hone.
  destruct (run_call' c s) as [s1 out1]. cbn [fst snd] in Hone.
  specialize (IH s1 stream sub).
  destruct (run_calls' cs s1) as [s2 out2]. cbn [fst snd] in *.
  unfold sent_on in *. rewrite omap_app.
  destruct (subscription_at s stream sub) as [x|].
  - destruct Hone as (x1 & Hx1 & Ht1 & Hch1). rewrite Hx1 in IH.
    destruct IH as (x2 & Hx2 & Ht2 & Hch2). exists x2.
    split; [done|]. split; [congruence|]. by eapply chained_app.
  - destruct Hone as [Hx1 Hout1]. rewrite Hx1 in IH.
    destruct IH as [Hx2 Hout2]. by rewrite Hout1, Hout2.
Qed.

(** C5. On a subscription that [Find] returns, [Deliver] with a
    sequence number above [prev_seqno] hands one [MessageDeliverData] to
    [SendResponse], carrying the sequence numbers [(prev_seqno, seqno)],
    and sets [prev_seqno] to [seqno]; otherwise it sends nothing, leaves
    the subscriptions as they are and adds one to [dropped_reordered].
    [Advance] does the same with a [MessageDeliverGap] of type [kBenign].
    Hence over any run of [Deliver] and [Advance] calls the messages sent
    on one subscription are chained, each naming the sequence number of
    the one before it as previous, and their sequence numbers are strictly
    increasing from the [prev_seqno] the subscription began with. *)
Theorem deliveries_strictly_increasing :
  (forall inbound_id seqno payload msg_id generated s sub,
     Find inbound_id s = Some sub ->
     let r := Deliver' inbound_id seqno payload msg_id generated s in
     if decide (prev_seqno sub < seqno) then
       (exists data,
          r.2 = [SendData data (stream_id inbound_id)
                   (worker_id inbound_id)] /\
          MessageDeliver.sub_id_ (MessageDeliverData.deliver data)
          = sub_id inbound_id /\
          MessageDeliver.seqno_prev_ (MessageDeliverData.deliver data)
          = prev_seqno sub /\
          MessageDeliver.seqno_ (MessageDeliverData.deliver data) = seqno /\
          MessageDeliverData.payload_ data = payload) /\
       Find inbound_id r.1 = Some (mkSub (tenant_id sub) seqno) /\
       stats_ r.1 = stats_ s
     else
       r.2 = [] /\ inbound_subscriptions_ r.1 = inbound_subscriptions_ s /\
       dropped_reordered (stats_ r.1) = dropped_reordered (stats_ s) + 1) /\
  (forall inbound_id seqno s sub,
     Find inbound_id s = Some sub ->
     let r := Advance' inbound_id seqno s in
     if decide (prev_seqno sub < seqno) then
       (exists gap,
          r.2 = [SendGap gap (stream_id inbound_id) (worker_id inbound_id)] /\
          MessageDeliver.sub_id_ (MessageDeliverGap.deliver gap)
          = sub_id inbound_id /\
          MessageDeliver.seqno_prev_ (MessageDeliverGap.deliver gap)
          = prev_seqno sub /\
          MessageDeliver.seqno_ (MessageDeliverGap.deliver gap) = seqno /\
          MessageDeliverGap.gap_type_ gap = kBenign) /\
       Find inbound_id r.1 = Some (mkSub (tenant_id sub) seqno) /\
       stats_ r.1 = stats_ s
     else
       r.2 = [] /\ inbound_subscriptions_ r.1 = inbound_subscriptions_ s /\
       dropped_reordered (stats_ r.1) = dropped_reordered (stats_ s) + 1) /\
  (forall cs s stream sub x,
     subscription_at s stream sub = Some x ->
     exists x',
       subscription_at (run_calls' cs s).1 stream sub = Some x' /\
       chained (prev_seqno x) (sent_on stream sub (run_calls' cs s).2)
         (prev_seqno x') /\
       StronglySorted Z.lt
         (prev_seqno x :: (snd <$> sent_on stream sub (run_calls' cs s).2))).
Proof.
  assert (Hmoved : forall inbound_id seqno s sub,
            Find inbound_id s = Some sub ->
            Find inbound_id (set_prev_seqno inbound_id seqno s)
            = Some (mkSub (tenant_id sub) seqno)).
  { intros inbound_id seqno s sub Hsub.
    rewrite Find_subscription_at in Hsub |- *.
    rewrite subscription_at_set_prev, decide_True by done. by rewrite Hsub. }
  split; [|split].
  - intros inbound_id seqno payload msg_id generated s sub Hsub r. subst r.
    unfold Deliver. cbv zeta. rewrite Hsub. case_decide as Hlt; cbn [fst snd].
    + split; [|split]; [|by apply Hmoved|done]. eexists. split; [done|].
      by cbn.
    + by cbn.
  - intros inbound_id seqno s sub Hsub r. subst r.
    unfold Advance. cbv zeta. rewrite Hsub. case_decide as Hlt; cbn [fst snd].
    + split; [|split]; [|by apply Hmoved|done]. eexists. split; [done|].
      by cbn.
    + by cbn.
  - intros cs s stream sub x Hx.
    pose proof (run_calls_sent cs s stream sub) as Hrun. rewrite Hx in Hrun.
    destruct Hrun as (x' & Hx' & _ & Hch). exists x'.
    split; [done|]. split; [done|]. by eapply chained_increasing.
Qed.

End messages.

(** C10. A [MessageSubscribe] for a subscription ID that the stream
    already has changes nothing: the subscriptions, with the tenant and
    [prev_seqno] of the existing one, and every counter are as before, and
    [HandleNewSubscription] is not called. *)
Theorem duplicate_subscribe_has_no_effect subscribe origin s subs existing :
  inbound_subscriptions_ s !! origin = Some subs ->
  subs !! MessageSubscribe.sub_id_ subscribe = Some existing ->
  Receive_subscribe subscribe origin s = (s, []).
Proof.
  intros Hstream Hsub. unfold Receive_subscribe. cbv zeta.
  rewrite Hstream. cbn [from_option id]. by rewrite Hsub.
Qed.

(** *** One subscription, number 9 on stream 3, at sequence number 10 *)

Definition example_subscriptions : gmap Z InboundSubscription :=
  {[ 9 := mkSub 1 10 ]}.

Definition example_rocketeer : t :=
  mk {[ 3 := example_subscriptions ]} (mkStats 1 0 0 1 0) 0.

Definition example_id : InboundID := mkInboundID 3 9 0.

Definition example_calls : list Call :=
  [CallDeliver example_id 12 [] [] []; CallAdvance example_id 11;
   CallAdvance example_id 15].

Definition never_empty (_ : MsgId) : bool := false.

Lemma example_Find : Find example_id example_rocketeer = Some (mkSub 1 10).
Proof. vm_compute. reflexivity. Defined.

Lemma deliveries_strictly_increasing_witness :
  (Find example_id example_rocketeer = Some (mkSub 1 10) /\
   let r := Deliver 20 never_empty example_id 12 [] [] [] example_rocketeer in
   if decide (prev_seqno (mkSub 1 10) < 12) then
     (exists data,
        r.2 = [SendData data (stream_id example_id) (worker_id example_id)] /\
        MessageDeliver.sub_id_ (MessageDeliverData.deliver data)
        = sub_id example_id /\
        MessageDeliver.seqno_prev_ (MessageDeliverData.deliver data)
        = prev_seqno (mkSub 1 10) /\
        MessageDeliver.seqno_ (MessageDeliverData.deliver data) = 12 /\
        MessageDeliverData.payload_ data = []) /\
     Find example_id r.1 = Some (mkSub (tenant_id (mkSub 1 10)) 12) /\
     stats_ r.1 = stats_ example_rocketeer
   else
     r.2 = [] /\
     inbound_subscriptions_ r.1 = inbound_subscriptions_ example_rocketeer /\
     dropped_reordered (stats_ r.1)
     = dropped_reordered (stats_ example_rocketeer) + 1) /\
  (Find example_id example_rocketeer = Some (mkSub 1 10) /\
   let r := Advance 21 2 example_id 7 example_rocketeer in
   if decide (prev_seqno (mkSub 1 10) < 7) then
     (exists gap,
        r.2 = [SendGap gap (stream_id example_id) (worker_id example_id)] /\
        MessageDeliver.sub_id_ (MessageDeliverGap.deliver gap)
        = sub_id example_id /\
        MessageDeliver.seqno_prev_ (MessageDeliverGap.deliver gap)
        = prev_seqno (mkSub 1 10) /\
        MessageDeliver.seqno_ (MessageDeliverGap.deliver gap) = 7 /\
        MessageDeliverGap.gap_type_ gap = 2) /\
     Find example_id r.1 = Some (mkSub (tenant_id (mkSub 1 10)) 7) /\
     stats_ r.1 = stats_ example_rocketeer
   else
     r.2 = [] /\
     inbound_subscriptions_ r.1 = inbound_subscriptions_ example_rocketeer /\
     dropped_reordered (stats_ r.1)
     = dropped_reordered (stats_ example_rocketeer) + 1) /\
  (subscription_at example_rocketeer 3 9 = Some (mkSub 1 10) /\
   exists x',
     subscription_at
       (run_calls 20 21 2 never_empty example_calls example_rocketeer).1 3 9
     = Some x' /\
     chained (prev_seqno (mkSub 1 10))
       (sent_on 3 9
          (run_calls 20 21 2 never_empty example_calls example_rocketeer).2)
       (prev_seqno x') /\
     StronglySorted Z.lt
       (prev_seqno (mkSub 1 10)
        :: (snd <$> sent_on 3 9
              (run_calls 20 21 2 never_empty example_calls
                 example_rocketeer).2))).
Proof.
  destruct (deliveries_strictly_increasing 20 21 2 never_empty)
    as (Hdeliver & Hadvance & Hrun).
  split; [|split].
  - split; [exact example_Find|].
    exact (Hdeliver example_id 12 [] [] [] example_rocketeer (mkSub 1 10)
             example_Find).
  - split; [exact example_Find|].
    exact (Hadvance example_id 7 example_rocketeer (mkSub 1 10) example_Find).
  - split; [exact example_Find|].
    exact (Hrun example_calls example_rocketeer 3 9 (mkSub 1 10)
             example_Find).
Defined.

Definition example_subscribe : MessageSubscribe.t :=
  MessageSubscribe.mk (Message.mk 0 2) [] [] 9 [Cursors.mkCursor [] 40].

Lemma duplicate_subscribe_has_no_effect_witness :
  inbound_subscriptions_ example_rocketeer !! 3 = Some example_subscriptions /\
  example_subscriptions !! MessageSubscribe.sub_id_ example_subscribe
  = Some (mkSub 1 10) /\
  Receive_subscribe example_subscribe 3 example_rocketeer
  = (example_rocketeer, []).
Proof.
  assert (H1 : inbound_subscriptions_ example_rocketeer !! 3
               = Some example_subscriptions) by (vm_compute; reflexivity).
  assert (H2 : example_subscriptions
                 !! MessageSubscribe.sub_id_ example_subscribe
               = Some (mkSub 1 10)) by (vm_compute; reflexivity).
  split; [exact H1|]. split; [exact H2|].
  exact (duplicate_subscribe_has_no_effect example_subscribe 3
           example_rocketeer example_subscriptions (mkSub 1 10) H1 H2).
Defined.

End RocketeerProofs.

(** ** The topic manager reports the first subscriber *)

Module TopicManagerProofs.
Import TopicManager.

Lemma subscribers_after_add topic start subscriber m :
  subscribers (AddSubscriber topic start subscriber m).2 topic <> [] /\
  subscriber ∈ GetHostNum <$>
    subscribers (AddSubscriber topic start subscriber m).2 topic.
Proof.
  unfold AddSubscriber, subscribers. cbn [snd topic_map_].
  rewrite lookup_insert_eq. cbn [from_option id].
  set (before := default [] (topic_map_ m !! topic)).
  case_bool_decide as Hin.
  - assert (Hafter :
      subscriber ∈ GetHostNum <$>
        ((fun sub => if decide (GetHostNum sub = subscriber)
                     then SetSequenceNumber sub start else sub) <$> before)).
    { rewrite <- list_fmap_compose.
      apply list_elem_of_fmap in Hin as (sub & -> & Hsub).
      apply list_elem_of_fmap. exists sub. split; [|done].
      cbn. by case_decide. }
    split; [|done]. intros Hnil. rewrite Hnil in Hafter.
    by apply elem_of_nil in Hafter.
  - split.
    + intros Hnil. by apply app_eq_nil in Hnil as [_ [=]].
    + rewrite fmap_app. apply elem_of_app. right. cbn. left.
Qed.

(** C9. [AddSubscriber] returns true if and only if the subscriber set
    of the topic went from empty to non-empty, that is if the call added
    the first subscriber of the topic; on a topic that has subscribers
    already it returns false. After the call the host is among the
    subscribers of the topic. *)
Theorem AddSubscriber_true_iff_first topic start subscriber m :
  ((AddSubscriber topic start subscriber m).1 = true <->
   subscribers m topic = [] /\
   subscribers (AddSubscriber topic start subscriber m).2 topic <> []) /\
  (subscribers m topic <> [] ->
   (AddSubscriber topic start subscriber m).1 = false) /\
  (subscribers m topic = [] ->
   (AddSubscriber topic start subscriber m).1 = true) /\
  subscriber ∈ GetHostNum <$>
    subscribers (AddSubscriber topic start subscriber m).2 topic.
Proof.
  destruct (subscribers_after_add topic start subscriber m) as [Hne Hin].
  assert (Hiff : (AddSubscriber topic start subscriber m).1 = true <->
                 subscribers m topic = []).
  { unfold AddSubscriber. cbn [fst]. rewrite bool_decide_eq_true.
    split; [by intros [? _]|]. intros Hnil. split; [done|].
    rewrite Hnil. cbn. rewrite bool_decide_false by apply not_elem_of_nil.
    done. }
  split; [|split; [|split]].
  - rewrite Hiff. split; [by intros ?|by intros [? _]].
  - intros Hsome. apply not_true_is_false. rewrite Hiff. done.
  - by apply Hiff.
  - done.
Qed.

Definition example_manager : t :=
  mk {[ [x61] := [mkTopicSubscription 4 17] ]}.

Lemma AddSubscriber_true_iff_first_witness :
  let r := AddSubscriber [x62] 5 9 example_manager in
  (r.1 = true <->
   subscribers example_manager [x62] = [] /\ subscribers r.2 [x62] <> []) /\
  (subscribers example_manager [x62] <> [] -> r.1 = false) /\
  (subscribers example_manager [x62] = [] -> r.1 = true) /\
  9 ∈ GetHostNum <$> subscribers r.2 [x62].
Proof. exact (AddSubscriber_true_iff_first [x62] 5 9 example_manager). Defined.

End TopicManagerProofs.

(** ** The bit stream of coding.cc *)

Module BitStreamProofs.
Import BitStream.

(** Bit [i] of a buffer: bit [i mod 8] of the byte [i / 8]. *)
Definition stream_bit (buf : list byte) (i : Z) : bool :=
  match buf !! Z.to_nat (i / 8) with
  | Some b => Z.testbit (byte_to_Z b) (i mod 8)
  | None => false
  end.

(** The buffer as one number, the first byte at the low end. *)
Definition stream_value (buf : list byte) : Z :=
  foldr (fun b rest => byte_to_Z b + 256 * rest) 0 buf.

Lemma mask_ones g :
  0 <= g <= 8 -> (Z.shiftl 1 g - 1) mod 2 ^ 8 = Z.ones g.
Proof.
  intros Hg. rewrite Z.ones_equiv, Z.shiftl_1_l.
  assert (0 < 2 ^ g <= 2 ^ 8).
  { split; [apply Z.pow_pos_nonneg; lia|apply Z.pow_le_mono_r; lia]. }
  rewrite Z.mod_small; lia.
Qed.

Lemma testbit_small a s j :
  0 <= a < 2 ^ s -> s <= j -> Z.testbit a j = false.
Proof.
  intros Ha Hj. destruct (Z.eq_dec a 0) as [->|Hne]; [apply Z.bits_0|].
  apply Z.bits_above_log2; [lia|].
  assert (0 <= s) by (destruct (Z.le_gt_cases 0 s); [done|];
                      rewrite Z.pow_neg_r in Ha; lia).
  apply Z.lt_le_trans with s; [|done]. apply Z.log2_lt_pow2; lia.
Qed.

Lemma small_of_bits a s :
  0 <= a -> 0 <= s -> (forall j, s <= j -> Z.testbit a j = false) ->
  a < 2 ^ s.
Proof.
  intros Ha Hs Hbits. destruct (Z.eq_dec a 0) as [->|Hne].
  { apply Z.pow_pos_nonneg; lia. }
  apply Z.log2_lt_pow2; [lia|].
  destruct (Z.lt_ge_cases (Z.log2 a) s) as [|Hge]; [done|].
  pose proof (Z.bit_log2 a ltac:(lia)) as Hlog.
  rewrite Hbits in Hlog; [done|lia].
Qed.

(** The bits of a sum of two numbers that have no bit in common. *)
Lemma testbit_add_disjoint a b j :
  Z.land a b = 0 -> Z.testbit (a + b) j = Z.testbit a j || Z.testbit b j.
Proof.
  intros Hd. rewrite Z.add_nocarry_lxor, Z.lxor_lor by done.
  apply Z.lor_spec.
Qed.

(** The chunk that [BitStreamGetInt] takes from a byte. *)
Lemma chunk_testbit b o g k :
  0 <= o -> 0 <= g -> 0 <= k ->
  Z.testbit (Z.land (Z.shiftr b o) (Z.ones g)) k
  = (k <? g) && Z.testbit b (k + o).
Proof.
  intros Ho Hg Hk. rewrite Z.land_spec, Z.shiftr_spec by done.
  destruct (Z.ltb_spec k g).
  - rewrite Z.ones_spec_low by lia. by rewrite andb_true_r.
  - rewrite Z.ones_spec_high by lia. by rewrite andb_false_r.
Qed.

Lemma chunk_range b o g :
  0 <= o -> 0 <= g -> 0 <= b ->
  0 <= Z.land (Z.shiftr b o) (Z.ones g) < 2 ^ g.
Proof.
  intros Ho Hg Hb.
  assert (0 <= Z.land (Z.shiftr b o) (Z.ones g)).
  { apply Z.land_nonneg. left. by apply Z.shiftr_nonneg. }
  split; [done|]. apply small_of_bits; try done.
  intros j Hj. rewrite chunk_testbit by lia.
  destruct (Z.ltb_spec j g); [lia|done].
Qed.

(** Appending a chunk above the [s] bits read so far. *)
Lemma append_chunk result chunk s g :
  0 <= s -> 0 <= g -> 0 <= result < 2 ^ s -> 0 <= chunk < 2 ^ g ->
  0 <= result + Z.shiftl chunk s < 2 ^ (s + g) /\
  forall j, 0 <= j ->
    Z.testbit (result + Z.shiftl chunk s) j
    = if j <? s then Z.testbit result j else Z.testbit chunk (j - s).
Proof.
  intros Hs Hg Hr Hc.
  assert (Hd : Z.land result (Z.shiftl chunk s) = 0).
  { apply Z.bits_inj'. intros n Hn. rewrite Z.land_spec, Z.bits_0.
    destruct (Z.lt_ge_cases n s).
    - rewrite Z.shiftl_spec_low by done. apply andb_false_r.
    - by rewrite (testbit_small result s n). }
  assert (Hbits : forall j, 0 <= j ->
            Z.testbit (result + Z.shiftl chunk s) j
            = if j <? s then Z.testbit result j else Z.testbit chunk (j - s)).
  { intros j Hj. rewrite testbit_add_disjoint by done.
    destruct (Z.ltb_spec j s).
    - rewrite Z.shiftl_spec_low by done. apply orb_false_r.
    - rewrite (testbit_small result s j) by done.
      by rewrite Z.shiftl_spec by done. }
  split; [|done].
  assert (0 <= Z.shiftl chunk s) by (apply Z.shiftl_nonneg; lia).
  split; [lia|]. apply small_of_bits; [lia|lia|].
  intros j Hj. rewrite Hbits by lia.
  destruct (Z.ltb_spec j s); [lia|]. apply (testbit_small chunk g); lia.
Qed.

Lemma stream_bit_in_byte buf byteOffset k b :
  0 <= byteOffset -> 0 <= k < 8 ->
  buf !! Z.to_nat byteOffset = Some b ->
  stream_bit buf (8 * byteOffset + k) = Z.testbit (byte_to_Z b) k.
Proof.
  intros Hb Hk Hlook. unfold stream_bit.
  replace ((8 * byteOffset + k) / 8) with byteOffset
    by (apply Z.div_unique with k; lia).
  replace ((8 * byteOffset + k) mod 8) with k
    by (apply Z.mod_unique with byteOffset; lia).
  by rewrite Hlook.
Qed.

Lemma uint64_small x : 0 <= x < 2 ^ 64 -> uint64 x = x.
Proof. intros. unfold uint64. by apply Z.mod_small. Qed.

Lemma uint32_small x : 0 <= x < 2 ^ 32 -> uint32 x = x.
Proof. intros. unfold uint32. by apply Z.mod_small. Qed.

(** What the loop of [BitStreamGetInt] returns: the bits read before, then
    the next [bits] bits of the buffer. *)
Lemma BitStreamGetInt_loop_spec buf fuel :
  forall byteOffset bitOffset shift bits result,
  0 <= byteOffset -> 0 <= bitOffset < 8 -> 0 <= shift -> 0 <= bits ->
  shift + bits <= 64 -> 0 <= result < 2 ^ shift ->
  8 * byteOffset + bitOffset + bits <= 8 * Z.of_nat (length buf) ->
  bits <= Z.of_nat fuel ->
  exists r,
    BitStreamGetInt_loop fuel buf byteOffset bitOffset shift bits result
    = Some r /\
    0 <= r < 2 ^ (shift + bits) /\
    forall j, 0 <= j ->
      Z.testbit r j
      = if j <? shift then Z.testbit result j
        else if j <? shift + bits
             then stream_bit buf (8 * byteOffset + bitOffset + (j - shift))
             else false.
Proof.
  induction fuel as [|fuel IH];
    intros byteOffset bitOffset shift bits result Hbyte Hbit Hshift Hbits
      Hroom Hresult Hlen Hfuel.
  - assert (bits = 0) as -> by lia. exists result. cbn.
    rewrite Z.add_0_r. repeat split; try lia.
    intros j Hj. destruct (Z.ltb_spec j shift); [done|].
    by apply (testbit_small result shift).
  - cbn [BitStreamGetInt_loop]. destruct (Z.gtb_spec bits 0) as [Hpos|Hzero].
    2:{ assert (bits = 0) as -> by lia. exists result.
        rewrite Z.add_0_r. repeat split; try lia.
        intros j Hj. destruct (Z.ltb_spec j shift); [done|].
        by apply (testbit_small result shift). }
    cbv zeta. set (g := Z.min bits (8 - bitOffset)).
    assert (Hg : 1 <= g <= 8 /\ g <= bits) by lia.
    rewrite mask_ones by lia.
    destruct (lookup_lt_is_Some_2 buf (Z.to_nat byteOffset)) as [cur Hcur];
      [lia|].
    rewrite Hcur. cbn [mbind option_bind].
    destruct (Z.leb_spec 64 shift); [lia|].
    pose proof (byte_to_Z_range cur) as Hcurr.
    set (chunk := Z.land (Z.shiftr (byte_to_Z cur) bitOffset) (Z.ones g)).
    pose proof (chunk_range (byte_to_Z cur) bitOffset g) as Hchunk.
    fold chunk in Hchunk.
    destruct (append_chunk result chunk shift g) as [Hsum Hsumbits];
      try lia.
    assert (Hpow : 2 ^ (shift + g) <= 2 ^ 64)
      by (apply Z.pow_le_mono_r; lia).
    assert (Hshl : 0 <= Z.shiftl chunk shift) by (apply Z.shiftl_nonneg; lia).
    rewrite (uint64_small (Z.shiftl chunk shift)) by lia.
    rewrite uint64_small by lia.
    rewrite uint32_small by lia.
    destruct (IH (byteOffset + 1) 0 (shift + g) (bits - g)
                (result + Z.shiftl chunk shift))
      as (r & Hrun & Hr & Hrbits); try lia.
    exists r. split; [done|].
    replace (shift + g + (bits - g)) with (shift + bits) in * by lia.
    split; [done|]. intros j Hj. rewrite Hrbits by done.
    destruct (Z.ltb_spec j (shift + g)) as [Hlow|Hhigh].
    + rewrite Hsumbits by done. destruct (Z.ltb_spec j shift); [done|].
      destruct (Z.ltb_spec j (shift + bits)); [|lia].
      unfold chunk. rewrite chunk_testbit by lia.
      destruct (Z.ltb_spec (j - shift) g); [|lia]. cbn [andb].
      replace (8 * byteOffset + bitOffset + (j - shift))
        with (8 * byteOffset + (j - shift + bitOffset)) by lia.
      symmetry. apply stream_bit_in_byte; [done|lia|done].
    + destruct (Z.ltb_spec j shift); [lia|].
      destruct (Z.ltb_spec j (shift + bits)); [|done].
      f_equal. lia.
Qed.

Lemma shifted_ones_testbit g o n :
  0 <= g -> 0 <= o -> 0 <= n ->
  Z.testbit (Z.shiftl (Z.ones g) o) n = (o <=? n) && (n <? o + g).
Proof.
  intros Hg Ho Hn. destruct (Z.leb_spec o n) as [Hle|Hlt].
  - rewrite Z.shiftl_spec by done. destruct (Z.ltb_spec n (o + g)).
    + by rewrite Z.ones_spec_low by lia.
    + by rewrite Z.ones_spec_high by lia.
  - by rewrite Z.shiftl_spec_low by done.
Qed.

(** The byte that [BitStreamPutInt] stores: [g] bits of the value at bit
    [o], and the old bits around them. *)
Lemma put_byte_testbit cur value o g k :
  0 <= cur -> 0 <= value -> 0 <= o -> 0 <= g -> o + g <= 8 -> 0 <= k < 8 ->
  Z.testbit
    ((Z.land cur (Z.lnot (Z.shiftl (Z.ones g) o))
      + uint64 (Z.shiftl (Z.land value (Z.ones g)) o)) mod 2 ^ 8) k
  = if (o <=? k) && (k <? o + g) then Z.testbit value (k - o)
    else Z.testbit cur k.
Proof.
  intros Hcur Hvalue Ho Hg Hfit Hk.
  set (A := Z.land cur (Z.lnot (Z.shiftl (Z.ones g) o))).
  set (B := Z.shiftl (Z.land value (Z.ones g)) o).
  assert (HA : forall n, 0 <= n ->
            Z.testbit A n
            = Z.testbit cur n && negb ((o <=? n) && (n <? o + g))).
  { intros n Hn. unfold A.
    by rewrite Z.land_spec, Z.lnot_spec, shifted_ones_testbit by done. }
  assert (HB : forall n, 0 <= n ->
            Z.testbit B n
            = (o <=? n) && (n <? o + g) && Z.testbit value (n - o)).
  { intros n Hn. unfold B. destruct (Z.leb_spec o n) as [Hle|Hlt].
    - rewrite Z.shiftl_spec, Z.land_spec by done.
      destruct (Z.ltb_spec n (o + g)).
      + rewrite Z.ones_spec_low by lia. by rewrite andb_true_r.
      + rewrite Z.ones_spec_high by lia. by rewrite andb_false_r.
    - by rewrite Z.shiftl_spec_low by done. }
  assert (Hchunk : 0 <= Z.land value (Z.ones g) < 2 ^ g).
  { pose proof (chunk_range value 0 g) as Hc.
    rewrite Z.shiftr_0_r in Hc. apply Hc; lia. }
  assert (HBrange : 0 <= B < 2 ^ 64).
  { unfold B. rewrite Z.shiftl_mul_pow2 by done.
    assert (0 < 2 ^ o) by (apply Z.pow_pos_nonneg; lia).
    assert (2 ^ g * 2 ^ o <= 2 ^ 64).
    { rewrite <- Z.pow_add_r by lia. apply Z.pow_le_mono_r; lia. }
    nia. }
  rewrite uint64_small by done.
  rewrite Z.mod_pow2_bits_low by lia.
  rewrite testbit_add_disjoint.
  - rewrite HA, HB by lia.
    destruct ((o <=? k) && (k <? o + g)); cbn [negb andb].
    + by rewrite andb_false_r.
    + by rewrite andb_true_r, orb_false_r.
  - apply Z.bits_inj'. intros n Hn.
    rewrite Z.land_spec, Z.bits_0, HA, HB by done.
    destruct ((o <=? n) && (n <? o + g)); cbn [negb andb];
      [by rewrite andb_false_r|by rewrite andb_false_r].
Qed.

Lemma stream_bit_insert buf byteOffset new i :
  0 <= byteOffset < Z.of_nat (length buf) -> 0 <= i ->
  stream_bit (<[Z.to_nat byteOffset := Z_to_byte new]> buf) i
  = if decide (i / 8 = byteOffset) then Z.testbit (new mod 256) (i mod 8)
    else stream_bit buf i.
Proof.
  intros Hb Hi. unfold stream_bit. case_decide as Hhere.
  - rewrite Hhere, list_lookup_insert_eq by lia.
    by rewrite byte_to_Z_to_byte.
  - rewrite list_lookup_insert_ne; [done|].
    assert (0 <= i / 8) by (apply Z.div_pos; lia). lia.
Qed.

(** What the loop of [BitStreamPutInt] leaves: the next [bits] bits of the
    buffer are the low bits of the value, every other bit is as before. *)
Lemma BitStreamPutInt_loop_spec fuel :
  forall buf byteOffset bitOffset bits value,
  0 <= byteOffset -> 0 <= bitOffset < 8 -> 0 <= bits < 2 ^ 32 ->
  0 <= value ->
  8 * byteOffset + bitOffset + bits <= 8 * Z.of_nat (length buf) ->
  bits <= Z.of_nat fuel ->
  exists buf',
    BitStreamPutInt_loop fuel buf byteOffset bitOffset bits value
    = Some buf' /\
    length buf' = length buf /\
    forall i, 0 <= i ->
      stream_bit buf' i
      = if (8 * byteOffset + bitOffset <=? i)
           && (i <? 8 * byteOffset + bitOffset + bits)
        then Z.testbit value (i - (8 * byteOffset + bitOffset))
        else stream_bit buf i.
Proof.
  induction fuel as [|fuel IH];
    intros buf byteOffset bitOffset bits value Hbyte Hbit Hbits Hvalue
      Hlen Hfuel.
  - assert (bits = 0) as -> by lia. exists buf. cbn.
    split; [done|]. split; [done|]. intros i Hi.
    destruct (Z.leb_spec (8 * byteOffset + bitOffset) i);
      destruct (Z.ltb_spec i (8 * byteOffset + bitOffset + 0)); try done; lia.
  - cbn [BitStreamPutInt_loop]. destruct (Z.gtb_spec bits 0) as [Hpos|Hzero].
    2:{ assert (bits = 0) as -> by lia. exists buf.
        split; [done|]. split; [done|]. intros i Hi.
        destruct (Z.leb_spec (8 * byteOffset + bitOffset) i);
          destruct (Z.ltb_spec i (8 * byteOffset + bitOffset + 0));
          try done; lia. }
    cbv zeta. set (g := Z.min bits (8 - bitOffset)).
    assert (Hg : 1 <= g <= 8 /\ g <= bits /\ bitOffset + g <= 8) by lia.
    rewrite mask_ones by lia.
    destruct (lookup_lt_is_Some_2 buf (Z.to_nat byteOffset)) as [cur Hcur];
      [lia|].
    rewrite Hcur. cbn [mbind option_bind].
    pose proof (byte_to_Z_range cur) as Hcurr.
    rewrite uint32_small by lia.
    set (new := (Z.land (byte_to_Z cur) (Z.lnot (Z.shiftl (Z.ones g) bitOffset))
                 + uint64 (Z.shiftl (Z.land value (Z.ones g)) bitOffset))
                mod 2 ^ 8).
    destruct (IH (<[Z.to_nat byteOffset := Z_to_byte new]> buf)
                (byteOffset + 1) 0 (bits - g) (Z.shiftr value g))
      as (buf' & Hrun & Hlen' & Hbits'); try lia.
    { by apply Z.shiftr_nonneg. }
    { rewrite length_insert. lia. }
    exists buf'. split; [done|]. rewrite length_insert in Hlen'.
    split; [done|]. intros i Hi. rewrite Hbits' by done.
    rewrite stream_bit_insert by lia.
    set (pos := 8 * byteOffset + bitOffset).
    assert (Hnew : new mod 256 = new).
    { unfold new. change 256 with (2 ^ 8). apply Z.mod_mod. lia. }
    rewrite Hnew.
    destruct (Z.leb_spec (8 * (byteOffset + 1) + 0) i) as [Hnext|Hhere];
      cbn [andb].
    + (* beyond the byte just written *)
      assert (i / 8 <> byteOffset).
      { intros E. pose proof (Z.div_mod i 8 ltac:(lia)).
        pose proof (Z.mod_pos_bound i 8 ltac:(lia)). lia. }
      rewrite decide_False by done.
      destruct (Z.leb_spec pos i); [|lia]. cbn [andb].
      destruct (Z.ltb_spec i (8 * (byteOffset + 1) + 0 + (bits - g)));
        destruct (Z.ltb_spec i (pos + bits)); try lia; try done.
      rewrite Z.shiftr_spec by lia. f_equal. lia.
    + case_decide as Hbyte'.
      * (* in the byte just written *)
        assert (Hi8 : i = 8 * byteOffset + i mod 8).
        { rewrite <- Hbyte'. apply Z.div_mod. lia. }
        pose proof (Z.mod_pos_bound i 8 ltac:(lia)) as Hk.
        unfold new. rewrite put_byte_testbit by lia.
        destruct (Z.leb_spec bitOffset (i mod 8));
          destruct (Z.ltb_spec (i mod 8) (bitOffset + g));
          destruct (Z.leb_spec pos i);
          destruct (Z.ltb_spec i (pos + bits)); cbn [andb]; try lia.
        all: first
          [ f_equal; lia
          | symmetry; rewrite Hi8 at 1; by apply stream_bit_in_byte ].
      * (* before the byte just written *)
        assert (i < 8 * byteOffset).
        { destruct (Z.lt_ge_cases i (8 * byteOffset)); [done|].
          exfalso. apply Hbyte'. symmetry.
          apply Z.div_unique with (i - 8 * byteOffset); lia. }
        destruct (Z.leb_spec pos i); [lia|]. done.
Qed.

Lemma assert_room offset bits len :
  0 <= offset -> 0 <= bits ->
  (offset + bits + 7) / 8 <= len ->
  8 * (offset / 8) + offset mod 8 + bits <= 8 * len.
Proof.
  intros Ho Hb Hroom. rewrite <- Z.div_mod by lia.
  pose proof (Z.div_mod (offset + bits + 7) 8 ltac:(lia)).
  pose proof (Z.mod_pos_bound (offset + bits + 7) 8 ltac:(lia)). lia.
Qed.

Lemma BitStreamGetInt_spec src offset bits :
  0 <= offset -> 0 <= bits <= 64 ->
  (offset + bits + 7) / 8 <= Z.of_nat (length src) ->
  exists r,
    BitStreamGetInt src offset bits = Some r /\
    0 <= r < 2 ^ bits /\
    forall j, 0 <= j ->
      Z.testbit r j = (j <? bits) && stream_bit src (offset + j).
Proof.
  intros Ho Hb Hroom. unfold BitStreamGetInt. cbv zeta.
  pose proof (Z.mod_pos_bound offset 8 ltac:(lia)).
  assert (0 <= offset / 8) by (apply Z.div_pos; lia).
  destruct (BitStreamGetInt_loop_spec src (Z.to_nat bits) (offset / 8)
              (offset mod 8) 0 bits 0) as (r & Hrun & Hr & Hbits);
    try lia.
  { apply assert_room; lia. }
  exists r. split; [done|]. split; [done|]. intros j Hj.
  rewrite Hbits by done. rewrite <- Z.div_mod by lia.
  destruct (Z.ltb_spec j 0); [lia|]. rewrite Z.sub_0_r.
  by destruct (Z.ltb_spec j (0 + bits)); destruct (Z.ltb_spec j bits); try lia.
Qed.

Lemma stream_value_testbit buf : forall i,
  0 <= i -> Z.testbit (stream_value buf) i = stream_bit buf i.
Proof.
  induction buf as [|b buf IH]; intros i Hi.
  { unfold stream_bit. by rewrite lookup_nil, Z.bits_0. }
  cbn [stream_value foldr]. fold (stream_value buf).
  pose proof (byte_to_Z_range b) as Hb.
  pose proof (Z.mod_pos_bound i 8 ltac:(lia)) as Hr.
  assert (Hq : 0 <= i / 8) by (apply Z.div_pos; lia).
  pose proof (Z.div_mod i 8 ltac:(lia)) as Hi8.
  replace (256 * stream_value buf) with (Z.shiftl (stream_value buf) 8)
    by (rewrite Z.shiftl_mul_pow2 by lia; change (2 ^ 8) with 256; lia).
  rewrite testbit_add_disjoint.
  2:{ apply Z.bits_inj'. intros k Hk. rewrite Z.land_spec, Z.bits_0.
      destruct (Z.lt_ge_cases k 8).
      - rewrite Z.shiftl_spec_low by lia. apply andb_false_r.
      - by rewrite (testbit_small _ 8) by (change (2 ^ 8) with 256; lia). }
  unfold stream_bit. destruct (Z.lt_ge_cases i 8) as [Hlt|Hge].
  - rewrite Z.shiftl_spec_low, orb_false_r by lia.
    rewrite Z.div_small, Z.mod_small by lia. done.
  - rewrite (testbit_small _ 8) by (change (2 ^ 8) with 256; lia).
    rewrite orb_false_l, Z.shiftl_spec by lia. rewrite IH by lia.
    unfold stream_bit.
    replace (i / 8) with ((i - 8) / 8 + 1)
      by (rewrite <- (Z.div_add (i - 8) 1 8) by lia; f_equal; lia).
    replace (i mod 8) with ((i - 8) mod 8)
      by (rewrite <- (Z.mod_add (i - 8) 1 8) by lia; f_equal; lia).
    assert (0 <= (i - 8) / 8) by (apply Z.div_pos; lia).
    replace (Z.to_nat ((i - 8) / 8 + 1)) with (S (Z.to_nat ((i - 8) / 8)))
      by lia.
    done.
Qed.

(** [BitStreamGetInt] on a range inside the buffer returns the [bits] bits
    that start at bit [offset] of the buffer, read as one number with the
    first byte at the low end. *)
Theorem BitStreamGetInt_reads_the_bits src offset bits :
  0 <= offset -> 0 <= bits <= 64 ->
  (offset + bits + 7) / 8 <= Z.of_nat (length src) ->
  BitStreamGetInt src offset bits
  = Some (Z.shiftr (stream_value src) offset mod 2 ^ bits).
Proof.
  intros Ho Hb Hroom.
  destruct (BitStreamGetInt_spec src offset bits Ho Hb Hroom)
    as (r & -> & Hr & Hbits).
  f_equal. apply Z.bits_inj'. intros j Hj. rewrite Hbits by done.
  destruct (Z.ltb_spec j bits) as [Hlt|Hge].
  - rewrite Z.mod_pow2_bits_low by lia.
    rewrite Z.shiftr_spec by done.
    rewrite stream_value_testbit by lia. cbn. f_equal. lia.
  - rewrite Z.mod_pow2_bits_high by lia. done.
Qed.

(** A read of [bits1 + bits2] bits is the read of the first [bits1] bits
    with the read of the next [bits2] bits above them. *)
Theorem BitStreamGetInt_splits src offset bits1 bits2 :
  0 <= offset -> 0 <= bits1 -> 0 <= bits2 -> bits1 + bits2 <= 64 ->
  (offset + bits1 + bits2 + 7) / 8 <= Z.of_nat (length src) ->
  exists low high,
    BitStreamGetInt src offset bits1 = Some low /\
    BitStreamGetInt src (offset + bits1) bits2 = Some high /\
    BitStreamGetInt src offset (bits1 + bits2)
    = Some (Z.lor low (Z.shiftl high bits1)).
Proof.
  intros Ho Hb1 Hb2 Hb Hroom.
  assert (Hroom1 : (offset + bits1 + 7) / 8 <= Z.of_nat (length src)).
  { etrans; [|exact Hroom]. apply Z.div_le_mono; lia. }
  destruct (BitStreamGetInt_spec src offset bits1)
    as (low & Hlow & _ & Hlbits); try lia.
  destruct (BitStreamGetInt_spec src (offset + bits1) bits2)
    as (high & Hhigh & _ & Hhbits); try lia.
  destruct (BitStreamGetInt_spec src offset (bits1 + bits2))
    as (r & Hr & _ & Hrbits); try lia.
  { by rewrite Z.add_assoc. }
  exists low, high. split; [done|]. split; [done|].
  rewrite Hr. f_equal. apply Z.bits_inj'. intros j Hj.
  rewrite Z.lor_spec, Z.shiftl_spec, Hrbits, Hlbits by done.
  destruct (Z.ltb_spec j bits1).
  - rewrite Z.testbit_neg_r by lia.
    destruct (Z.ltb_spec j (bits1 + bits2)); [|lia].
    by rewrite orb_false_r.
  - rewrite Hhbits by lia. cbn [andb orb].
    replace (offset + bits1 + (j - bits1)) with (offset + j) by lia.
    by destruct (Z.ltb_spec j (bits1 + bits2));
      destruct (Z.ltb_spec (j - bits1) bits2); try lia.
Qed.

Lemma BitStreamPutInt_writes_the_bits dst offset bits value :
  0 <= offset -> 0 <= bits <= 64 -> 0 <= value ->
  (offset + bits + 7) / 8 <= Z.of_nat (length dst) ->
  exists dst',
    BitStreamPutInt dst offset bits value = Some dst' /\
    length dst' = length dst /\
    forall i, 0 <= i ->
      stream_bit dst' i
      = if (offset <=? i) && (i <? offset + bits)
        then Z.testbit value (i - offset) else stream_bit dst i.
Proof.
  intros Ho Hb Hv Hroom. unfold BitStreamPutInt. cbv zeta.
  pose proof (Z.mod_pos_bound offset 8 ltac:(lia)).
  assert (0 <= offset / 8) by (apply Z.div_pos; lia).
  destruct (BitStreamPutInt_loop_spec (Z.to_nat bits) dst (offset / 8)
              (offset mod 8) bits value) as (dst' & Hrun & Hlen & Hbits);
    try lia.
  { apply assert_room; lia. }
  exists dst'. split; [done|]. split; [done|]. intros i Hi.
  rewrite Hbits by done. by rewrite <- Z.div_mod by lia.
Qed.

(** [BitStreamGetInt] reads back what [BitStreamPutInt] wrote: the value
    truncated to [bits] bits, as the assertion at the end of
    [BitStreamPutInt] says. *)
Theorem BitStreamGetInt_after_PutInt dst offset bits value :
  0 <= offset -> 0 <= bits <= 64 -> 0 <= value < 2 ^ 64 ->
  (offset + bits + 7) / 8 <= Z.of_nat (length dst) ->
  exists dst',
    BitStreamPutInt dst offset bits value = Some dst' /\
    length dst' = length dst /\
    BitStreamGetInt dst' offset bits = Some (value mod 2 ^ bits).
Proof.
  intros Ho Hb Hv Hroom.
  destruct (BitStreamPutInt_writes_the_bits dst offset bits value)
    as (dst' & Hput & Hlen & Hbits); try lia.
  exists dst'. split; [done|]. split; [done|].
  destruct (BitStreamGetInt_spec dst' offset bits)
    as (r & Hget & Hr & Hrbits); try lia.
  rewrite Hget. f_equal. apply Z.bits_inj'. intros j Hj.
  rewrite Hrbits, Z.testbit_mod_pow2 by lia.
  destruct (Z.ltb_spec j bits); [|done]. cbn [andb].
  rewrite Hbits by lia.
  destruct (Z.leb_spec offset (offset + j)); [|lia].
  destruct (Z.ltb_spec (offset + j) (offset + bits)); [|lia].
  cbn [andb]. f_equal. lia.
Qed.

(** [BitStreamPutInt] changes no bit outside of its range: a read of a
    range that does not overlap it returns what it returned before. *)
Theorem BitStreamPutInt_leaves_the_rest dst offset bits value dst'
    offset' bits' :
  0 <= offset -> 0 <= bits <= 64 -> 0 <= value ->
  (offset + bits + 7) / 8 <= Z.of_nat (length dst) ->
  0 <= offset' -> 0 <= bits' <= 64 ->
  (offset' + bits' + 7) / 8 <= Z.of_nat (length dst) ->
  offset' + bits' <= offset \/ offset + bits <= offset' ->
  BitStreamPutInt dst offset bits value = Some dst' ->
  BitStreamGetInt dst' offset' bits' = BitStreamGetInt dst offset' bits'.
Proof.
  intros Ho Hb Hv Hroom Ho' Hb' Hroom' Hapart Hput.
  destruct (BitStreamPutInt_writes_the_bits dst offset bits value)
    as (dst1 & Hput1 & Hlen & Hbits); try lia.
  assert (dst1 = dst') as -> by congruence.
  destruct (BitStreamGetInt_spec dst offset' bits')
    as (r & Hget & Hr & Hrbits); try lia.
  destruct (BitStreamGetInt_spec dst' offset' bits')
    as (r' & Hget' & Hr' & Hrbits'); try lia.
  rewrite Hget, Hget'. f_equal. apply Z.bits_inj'. intros j Hj.
  rewrite Hrbits, Hrbits' by done.
  destruct (Z.ltb_spec j bits'); [|done]. cbn [andb].
  rewrite Hbits by lia.
  destruct (Z.leb_spec offset (offset' + j));
    destruct (Z.ltb_spec (offset' + j) (offset + bits)); cbn [andb];
    try done; lia.
Qed.

(** *** Thirteen bits at bit 3 of three bytes *)

Lemma BitStreamGetInt_reads_the_bits_witness :
  0 <= 3 /\ 0 <= 13 <= 64 /\
  (3 + 13 + 7) / 8 <= Z.of_nat (length [x5a; xa5; x3c]) /\
  BitStreamGetInt [x5a; xa5; x3c] 3 13
  = Some (Z.shiftr (stream_value [x5a; xa5; x3c]) 3 mod 2 ^ 13).
Proof.
  assert (H1 : 0 <= 3) by lia.
  assert (H2 : 0 <= 13 <= 64) by lia.
  assert (H3 : (3 + 13 + 7) / 8 <= Z.of_nat (length [x5a; xa5; x3c]))
    by (vm_compute; discriminate).
  split; [exact H1|]. split; [exact H2|]. split; [exact H3|].
  exact (BitStreamGetInt_reads_the_bits [x5a; xa5; x3c] 3 13 H1 H2 H3).
Defined.

Lemma BitStreamGetInt_after_PutInt_witness :
  0 <= 3 /\ 0 <= 13 <= 64 /\ 0 <= 2650 < 2 ^ 64 /\
  (3 + 13 + 7) / 8 <= Z.of_nat (length [xff; xff; xff]) /\
  exists dst',
    BitStreamPutInt [xff; xff; xff] 3 13 2650 = Some dst' /\
    length dst' = length [xff; xff; xff] /\
    BitStreamGetInt dst' 3 13 = Some (2650 mod 2 ^ 13).
Proof.
  assert (H1 : 0 <= 3) by lia.
  assert (H2 : 0 <= 13 <= 64) by lia.
  assert (H3 : 0 <= 2650 < 2 ^ 64) by lia.
  assert (H4 : (3 + 13 + 7) / 8 <= Z.of_nat (length [xff; xff; xff]))
    by (vm_compute; discriminate).
  split; [exact H1|]. split; [exact H2|]. split; [exact H3|].
  split; [exact H4|].
  exact (BitStreamGetInt_after_PutInt [xff; xff; xff] 3 13 2650 H1 H2 H3 H4).
Defined.

Lemma BitStreamPutInt_leaves_the_rest_witness :
  0 <= 3 /\ 0 <= 13 <= 64 /\ 0 <= 2650 /\
  (3 + 13 + 7) / 8 <= Z.of_nat (length [xff; xff; xff]) /\
  0 <= 16 /\ 0 <= 8 <= 64 /\
  (16 + 8 + 7) / 8 <= Z.of_nat (length [xff; xff; xff]) /\
  (16 + 8 <= 3 \/ 3 + 13 <= 16) /\
  BitStreamPutInt [xff; xff; xff] 3 13 2650 = Some [xd7; x52; xff] /\
  BitStreamGetInt [xd7; x52; xff] 16 8 = BitStreamGetInt [xff; xff; xff] 16 8.
Proof.
  assert (H1 : 0 <= 3) by lia.
  assert (H2 : 0 <= 13 <= 64) by lia.
  assert (H3 : 0 <= 2650) by lia.
  assert (H4 : (3 + 13 + 7) / 8 <= Z.of_nat (length [xff; xff; xff]))
    by (vm_compute; discriminate).
  assert (H5 : 0 <= 16) by lia.
  assert (H6 : 0 <= 8 <= 64) by lia.
  assert (H7 : (16 + 8 + 7) / 8 <= Z.of_nat (length [xff; xff; xff]))
    by (vm_compute; discriminate).
  assert (H8 : 16 + 8 <= 3 \/ 3 + 13 <= 16) by lia.
  assert (H9 : BitStreamPutInt [xff; xff; xff] 3 13 2650
               = Some [xd7; x52; xff]) by (vm_compute; reflexivity).
  repeat (split; [assumption|]).
  exact (BitStreamPutInt_leaves_the_rest [xff; xff; xff] 3 13 2650
           [xd7; x52; xff] 16 8 H1 H2 H3 H4 H5 H6 H7 H8 H9).
Defined.

Lemma BitStreamGetInt_splits_witness :
  0 <= 3 /\ 0 <= 5 /\ 0 <= 8 /\ 5 + 8 <= 64 /\
  (3 + 5 + 8 + 7) / 8 <= Z.of_nat (length [x5a; xa5; x3c]) /\
  exists low high,
    BitStreamGetInt [x5a; xa5; x3c] 3 5 = Some low /\
    BitStreamGetInt [x5a; xa5; x3c] (3 + 5) 8 = Some high /\
    BitStreamGetInt [x5a; xa5; x3c] 3 (5 + 8)
    = Some (Z.lor low (Z.shiftl high 5)).
Proof.
  assert (H1 : 0 <= 3) by lia.
  assert (H2 : 0 <= 5) by lia.
  assert (H3 : 0 <= 8) by lia.
  assert (H4 : 5 + 8 <= 64) by lia.
  assert (H5 : (3 + 5 + 8 + 7) / 8 <= Z.of_nat (length [x5a; xa5; x3c]))
    by (vm_compute; discriminate).
  repeat (split; [assumption|]).
  exact (BitStreamGetInt_splits [x5a; xa5; x3c] 3 5 8 H1 H2 H3 H4 H5).
Defined.

End BitStreamProofs.

(** ** What the varint decoders of coding.cc accept *)

Module VarintProofs.
Import Coding CodingProofs.

Lemma lor_range a b n :
  0 <= n -> 0 <= a < 2 ^ n -> 0 <= b < 2 ^ n -> 0 <= Z.lor a b < 2 ^ n.
Proof.
  intros Hn Ha Hb.
  assert (0 <= Z.lor a b) by (apply Z.lor_nonneg; lia).
  split; [done|]. apply BitStreamProofs.small_of_bits; try done.
  intros j Hj. rewrite Z.lor_spec.
  rewrite (BitStreamProofs.testbit_small a n j),
          (BitStreamProofs.testbit_small b n j) by done.
  done.
Qed.

Lemma uint32_range x : 0 <= uint32 x < 2 ^ 32.
Proof. unfold uint32. apply Z.mod_pos_bound. lia. Qed.

Lemma uint64_range x : 0 <= uint64 x < 2 ^ 64.
Proof. unfold uint64. apply Z.mod_pos_bound. lia. Qed.

Lemma GetVarint32PtrFallback_loop_bounds p : forall k result v rest,
  0 <= k -> 0 <= result < 2 ^ 32 ->
  GetVarint32PtrFallback_loop (7 * k) result p = Some (v, rest) ->
  0 <= v < 2 ^ 32 /\
  exists used,
    p = used ++ rest /\ (1 <= length used)%nat /\
    Z.of_nat (length used) + k <= 5.
Proof.
  induction p as [|b p IH]; intros k result v rest Hk Hresult; cbn.
  { destruct (7 * k <=? 28); discriminate. }
  destruct (Z.leb_spec (7 * k) 28) as [Hshift|]; [|discriminate].
  destruct (negb _).
  - replace (7 * k + 7) with (7 * (k + 1)) by lia. intros Hrun.
    apply IH in Hrun as (Hv & used & -> & Hone & Hmany); [|lia|].
    + split; [done|]. exists (b :: used). cbn. split; [done|]. lia.
    + apply lor_range; [lia|done|apply uint32_range].
  - intros [= <- <-]. split.
    + apply lor_range; [lia|done|apply uint32_range].
    + exists [b]. cbn. split; [done|]. lia.
Qed.

Lemma GetVarint64Ptr_loop_bounds p : forall k result v rest,
  0 <= k -> 0 <= result < 2 ^ 64 ->
  GetVarint64Ptr_loop (7 * k) result p = Some (v, rest) ->
  0 <= v < 2 ^ 64 /\
  exists used,
    p = used ++ rest /\ (1 <= length used)%nat /\
    Z.of_nat (length used) + k <= 10.
Proof.
  induction p as [|b p IH]; intros k result v rest Hk Hresult; cbn.
  { destruct (7 * k <=? 63); discriminate. }
  destruct (Z.leb_spec (7 * k) 63) as [Hshift|]; [|discriminate].
  destruct (negb _).
  - replace (7 * k + 7) with (7 * (k + 1)) by lia. intros Hrun.
    apply IH in Hrun as (Hv & used & -> & Hone & Hmany); [|lia|].
    + split; [done|]. exists (b :: used). cbn. split; [done|]. lia.
    + apply lor_range; [lia|done|apply uint64_range].
  - intros [= <- <-]. split.
    + apply lor_range; [lia|done|apply uint64_range].
    + exists [b]. cbn. split; [done|]. lia.
Qed.

Lemma GetVarint32PtrFallback_loop_more p more : forall shift result v rest,
  GetVarint32PtrFallback_loop shift result p = Some (v, rest) ->
  GetVarint32PtrFallback_loop shift result (p ++ more)
  = Some (v, rest ++ more).
Proof.
  induction p as [|b p IH]; intros shift result v rest; cbn.
  { destruct (shift <=? 28); discriminate. }
  destruct (shift <=? 28); [|discriminate].
  destruct (negb _); [apply IH|]. by intros [= <- <-].
Qed.

Lemma GetVarint64Ptr_loop_more p more : forall shift result v rest,
  GetVarint64Ptr_loop shift result p = Some (v, rest) ->
  GetVarint64Ptr_loop shift result (p ++ more) = Some (v, rest ++ more).
Proof.
  induction p as [|b p IH]; intros shift result v rest; cbn.
  { destruct (shift <=? 63); discriminate. }
  destruct (shift <=? 63); [|discriminate].
  destruct (negb _); [apply IH|]. by intros [= <- <-].
Qed.

(** A varint that [GetVarint32PtrFallback] decodes is made of the first
    one to five bytes of the input; the value is below [2^32], the rest of
    the input is what follows those bytes, and the result does not depend
    on what follows. *)
Theorem GetVarint32PtrFallback_consumes_prefix p v rest :
  GetVarint32PtrFallback p = Some (v, rest) ->
  0 <= v < 2 ^ 32 /\
  (exists used, p = used ++ rest /\ (1 <= length used <= 5)%nat) /\
  forall more, GetVarint32PtrFallback (p ++ more) = Some (v, rest ++ more).
Proof.
  intros Hrun. split; [|split].
  - apply (GetVarint32PtrFallback_loop_bounds p 0) in Hrun
      as (Hv & _); [done|lia|lia].
  - apply (GetVarint32PtrFallback_loop_bounds p 0) in Hrun
      as (_ & used & Hp & Hone & Hmany); [|lia|lia].
    exists used. split; [done|]. lia.
  - intros more. by apply GetVarint32PtrFallback_loop_more.
Qed.

(** The same for [GetVarint64Ptr], with one to ten bytes and a value
    below [2^64]. *)
Theorem GetVarint64Ptr_consumes_prefix p v rest :
  GetVarint64Ptr p = Some (v, rest) ->
  0 <= v < 2 ^ 64 /\
  (exists used, p = used ++ rest /\ (1 <= length used <= 10)%nat) /\
  forall more, GetVarint64Ptr (p ++ more) = Some (v, rest ++ more).
Proof.
  intros Hrun. split; [|split].
  - apply (GetVarint64Ptr_loop_bounds p 0) in Hrun
      as (Hv & _); [done|lia|lia].
  - apply (GetVarint64Ptr_loop_bounds p 0) in Hrun
      as (_ & used & Hp & Hone & Hmany); [|lia|lia].
    exists used. split; [done|]. lia.
  - intros more. by apply GetVarint64Ptr_loop_more.
Qed.

(** Every byte of an encoding but the last has the continuation bit. *)
Lemma EncodeVarint64_loop_prefix fuel : forall v pre suf,
  0 <= v -> EncodeVarint64_loop fuel v = pre ++ suf -> suf <> [] ->
  Forall (fun b => 128 <= byte_to_Z b) pre.
Proof.
  induction fuel as [|fuel IH]; intros v pre suf Hv Henc Hsuf; cbn in Henc.
  { symmetry in Henc. apply app_eq_nil in Henc as [-> _]. constructor. }
  destruct (128 <=? v).
  - destruct pre as [|b pre]; [constructor|].
    cbn in Henc. injection Henc as <- Henc. constructor.
    + rewrite continuation_byte_value by done.
      pose proof (Z.mod_pos_bound v 128). lia.
    + apply (IH (Z.shiftr v 7) pre suf); [|done|done].
      by apply Z.shiftr_nonneg.
  - destruct pre as [|b pre]; [constructor|].
    cbn in Henc. injection Henc as _ Henc.
    symmetry in Henc. apply app_eq_nil in Henc as [_ ->]. done.
Qed.

Lemma GetVarint32PtrFallback_loop_continuation p : forall shift result,
  Forall (fun b => 128 <= byte_to_Z b) p ->
  GetVarint32PtrFallback_loop shift result p = None.
Proof.
  induction p as [|b p IH]; intros shift result Hall; cbn.
  { by destruct (shift <=? 28). }
  apply Forall_cons in Hall as [Hb Hall].
  destruct (shift <=? 28); [|done].
  rewrite byte_continuation_bit.
  destruct (Z.leb_spec 128 (byte_to_Z b)); [|lia]. by apply IH.
Qed.

(** An encoding that was cut short does not decode: the decoder does not
    take a part of a varint for a varint. *)
Theorem cut_varint_is_rejected v pre suf :
  0 <= v < 2 ^ 32 -> EncodeVarint32 v = pre ++ suf -> suf <> [] ->
  GetVarint32PtrFallback pre = None.
Proof.
  intros Hv Henc Hsuf. rewrite EncodeVarint32_as_loop in Henc by done.
  apply GetVarint32PtrFallback_loop_continuation.
  apply (EncodeVarint64_loop_prefix 5 v pre suf); [lia|done|done].
Qed.

Lemma GetVarint32PtrFallback_consumes_prefix_witness :
  GetVarint32PtrFallback [xac; x02; x07] = Some (300, [x07]) /\
  0 <= 300 < 2 ^ 32 /\
  (exists used, [xac; x02; x07] = used ++ [x07] /\
                (1 <= length used <= 5)%nat) /\
  forall more,
    GetVarint32PtrFallback ([xac; x02; x07] ++ more)
    = Some (300, [x07] ++ more).
Proof.
  assert (H : GetVarint32PtrFallback [xac; x02; x07] = Some (300, [x07]))
    by (vm_compute; reflexivity).
  split; [exact H|].
  exact (GetVarint32PtrFallback_consumes_prefix [xac; x02; x07] 300 [x07] H).
Defined.

Lemma GetVarint64Ptr_consumes_prefix_witness :
  GetVarint64Ptr [xac; x02; x07] = Some (300, [x07]) /\
  0 <= 300 < 2 ^ 64 /\
  (exists used, [xac; x02; x07] = used ++ [x07] /\
                (1 <= length used <= 10)%nat) /\
  forall more,
    GetVarint64Ptr ([xac; x02; x07] ++ more) = Some (300, [x07] ++ more).
Proof.
  assert (H : GetVarint64Ptr [xac; x02; x07] = Some (300, [x07]))
    by (vm_compute; reflexivity).
  split; [exact H|].
  exact (GetVarint64Ptr_consumes_prefix [xac; x02; x07] 300 [x07] H).
Defined.

Lemma cut_varint_is_rejected_witness :
  0 <= 300 < 2 ^ 32 /\ EncodeVarint32 300 = [xac] ++ [x02] /\
  [x02] <> ([] : list byte) /\
  GetVarint32PtrFallback [xac] = None.
Proof.
  assert (H1 : 0 <= 300 < 2 ^ 32) by lia.
  assert (H2 : EncodeVarint32 300 = [xac] ++ [x02])
    by (vm_compute; reflexivity).
  assert (H3 : [x02] <> ([] : list byte)) by discriminate.
  split; [exact H1|]. split; [exact H2|]. split; [exact H3|].
  exact (cut_varint_is_rejected 300 [xac] [x02] H1 H2 H3).
Defined.

End VarintProofs.

(** ** Numbers and strings of logging.cc *)

Module LoggingProofs.
Import Logging.

Definition is_digit (c : byte) : Prop := 48 <= byte_to_Z c <= 57.

Definition printable (c : byte) : Prop := 32 <= byte_to_Z c <= 126.

(** The value of a string of decimal digits that follows digits of value
    [v]. *)
Definition digits_value (v : Z) (ds : list byte) : Z :=
  foldl (fun v c => v * 10 + (byte_to_Z c - 48)) v ds.

(** The decimal digits at the front of a slice, and what follows them. *)
Fixpoint split_digits (in_ : Slice) : list byte * Slice :=
  match in_ with
  | [] => ([], [])
  | c :: in' =>
      if (48 <=? byte_to_Z c) && (byte_to_Z c <=? 57) then
        (c :: (split_digits in').1, (split_digits in').2)
      else ([], in_)
  end.

Lemma digit_char_value d :
  0 <= d < 16 ->
  byte_to_Z (digit_char d) = if d <? 10 then 48 + d else 87 + d.
Proof.
  intros Hd. unfold digit_char. rewrite byte_to_Z_to_byte.
  destruct (Z.ltb_spec d 10); apply Z.mod_small; lia.
Qed.

Lemma digit_char_is_digit d : 0 <= d < 10 -> is_digit (digit_char d).
Proof.
  intros Hd. unfold is_digit. rewrite digit_char_value by lia.
  destruct (Z.ltb_spec d 10); lia.
Qed.

Lemma digit_char_printable d : 0 <= d < 16 -> printable (digit_char d).
Proof.
  intros Hd. unfold printable. rewrite digit_char_value by lia.
  destruct (Z.ltb_spec d 10); lia.
Qed.

Lemma decimal_loop_digits fuel : forall num acc,
  0 <= num -> Forall is_digit acc ->
  Forall is_digit (decimal_loop fuel num acc).
Proof.
  induction fuel as [|fuel IH]; intros num acc Hnum Hacc; [done|].
  cbn [decimal_loop]. cbv zeta.
  assert (Forall is_digit (digit_char (num mod 10) :: acc)).
  { constructor; [|done]. apply digit_char_is_digit.
    apply Z.mod_pos_bound. lia. }
  destruct (num <? 10); [done|]. apply IH; [|done].
  apply Z.div_pos; lia.
Qed.

Lemma decimal_loop_value fuel : forall num acc,
  0 <= num < 10 ^ Z.of_nat fuel -> fuel <> O ->
  digits_value 0 (decimal_loop fuel num acc) = digits_value num acc.
Proof.
  induction fuel as [|fuel IH]; intros num acc Hnum Hfuel; [done|].
  cbn [decimal_loop]. cbv zeta.
  pose proof (Z.mod_pos_bound num 10 ltac:(lia)) as Hmod.
  assert (Hd : byte_to_Z (digit_char (num mod 10)) - 48 = num mod 10).
  { rewrite digit_char_value by lia.
    destruct (Z.ltb_spec (num mod 10) 10); lia. }
  destruct (Z.ltb_spec num 10) as [Hsmall|Hbig].
  - unfold digits_value. cbn [foldl]. rewrite Hd.
    rewrite Z.mod_small by lia. done.
  - assert (Hpow : 10 ^ Z.of_nat (S fuel) = 10 * 10 ^ Z.of_nat fuel).
    { rewrite Nat2Z.inj_succ, Z.pow_succ_r by lia. done. }
    destruct fuel as [|fuel]; [cbn in Hnum; lia|].
    rewrite IH; [| |done].
    + unfold digits_value. cbn [foldl]. rewrite Hd. f_equal.
      pose proof (Z.div_mod num 10 ltac:(lia)). lia.
    + split; [apply Z.div_pos; lia|].
      apply Z.div_lt_upper_bound; lia.
Qed.

Lemma decimal_loop_length fuel : forall num acc d,
  0 <= num < 10 ^ d -> 1 <= d ->
  (length acc < length (decimal_loop (S fuel) num acc))%nat /\
  Z.of_nat (length (decimal_loop (S fuel) num acc))
  <= Z.of_nat (length acc) + d.
Proof.
  induction fuel as [|fuel IH]; intros num acc d Hnum Hd.
  { cbn. destruct (num <? 10); cbn; lia. }
  remember (S fuel) as fuel1. cbn [decimal_loop]. cbv zeta.
  destruct (Z.ltb_spec num 10) as [Hsmall|Hbig]; [cbn; lia|].
  subst fuel1.
  assert (Hpow : 10 ^ d = 10 * 10 ^ (d - 1)).
  { rewrite <- Z.pow_succ_r by lia. f_equal. lia. }
  assert (d <> 1) by (intros ->; cbn in Hnum; lia).
  destruct (IH (num / 10) (digit_char (num mod 10) :: acc) (d - 1))
    as [Hlow Hhigh]; [|lia|cbn [length] in *; lia].
  split; [apply Z.div_pos; lia|]. apply Z.div_lt_upper_bound; lia.
Qed.

Lemma decimal_spec num :
  0 <= num < 2 ^ 64 ->
  Forall is_digit (decimal num) /\ decimal num <> [] /\
  digits_value 0 (decimal num) = num /\
  (length (decimal num) <= 20)%nat.
Proof.
  intros Hnum. unfold decimal. split; [|split; [|split]].
  - apply decimal_loop_digits; [lia|constructor].
  - destruct (decimal_loop_length 19 num [] 20) as [Hlow _]; [lia|lia|].
    intros E. rewrite E in Hlow. cbn in Hlow. lia.
  - rewrite decimal_loop_value; [done| |done]. cbn. lia.
  - destruct (decimal_loop_length 19 num [] 20) as [_ Hhigh]; [lia|lia|].
    cbn [length] in Hhigh. lia.
Qed.

Lemma digits_value_grows ds : forall v,
  0 <= v -> Forall is_digit ds -> v <= digits_value v ds.
Proof.
  induction ds as [|c ds IH]; intros v Hv Hds; [cbn; lia|].
  apply Forall_cons in Hds as [Hc Hds]. unfold digits_value. cbn [foldl].
  fold (digits_value (v * 10 + (byte_to_Z c - 48)) ds).
  unfold is_digit in Hc.
  pose proof (IH (v * 10 + (byte_to_Z c - 48)) ltac:(lia) Hds). lia.
Qed.

Lemma split_digits_spec in_ :
  Forall is_digit (split_digits in_).1 /\
  in_ = (split_digits in_).1 ++ (split_digits in_).2 /\
  match (split_digits in_).2 with
  | [] => True
  | c :: _ => ~ is_digit c
  end.
Proof.
  induction in_ as [|c in_ IH]; cbn [split_digits].
  { repeat split. constructor. }
  destruct (Z.leb_spec 48 (byte_to_Z c));
    destruct (Z.leb_spec (byte_to_Z c) 57); cbn [andb fst snd].
  2-4: (repeat split; [constructor|unfold is_digit; lia]).
  destruct IH as (Hds & Heq & Hrest). repeat split; try done.
  - constructor; [by unfold is_digit|done].
  - cbn [app]. by rewrite <- Heq.
Qed.

Lemma ConsumeDecimalNumber_loop_spec in_ : forall v digits,
  0 <= v < 2 ^ 64 ->
  ConsumeDecimalNumber_loop in_ v digits
  = if digits_value v (split_digits in_).1 <? 2 ^ 64
    then Some (digits_value v (split_digits in_).1,
               digits + Z.of_nat (length (split_digits in_).1),
               (split_digits in_).2)
    else None.
Proof.
  induction in_ as [|c in_ IH]; intros v digits Hv;
    cbn [ConsumeDecimalNumber_loop split_digits].
  { cbn. destruct (Z.ltb_spec v (2 ^ 64)); [|lia]. do 3 f_equal. lia. }
  destruct (Z.leb_spec 48 (byte_to_Z c));
    destruct (Z.leb_spec (byte_to_Z c) 57); cbn [andb].
  2-4: (cbn; destruct (Z.ltb_spec v (2 ^ 64)); [|lia]; do 3 f_equal; lia).
  cbv zeta. pose proof (split_digits_spec in_) as (Hds & _ & _).
  cbn [fst snd].
  set (ds := (split_digits in_).1) in *.
  set (rest := (split_digits in_).2) in *.
  unfold digits_value at 1 2. cbn [foldl].
  fold (digits_value (v * 10 + (byte_to_Z c - 48)) ds).
  change ((2 ^ 64 - 1) / 10) with 1844674407370955161.
  change ((2 ^ 64 - 1) mod 10) with 5.
  set (delta := byte_to_Z c - 48) in *.
  assert (Hcheck :
    (v >? 1844674407370955161)
    || ((v =? 1844674407370955161) && (delta >? 5))
    = negb (v * 10 + delta <? 2 ^ 64)).
  { destruct (Z.gtb_spec v 1844674407370955161);
      destruct (Z.eqb_spec v 1844674407370955161);
      destruct (Z.gtb_spec delta 5);
      destruct (Z.ltb_spec (v * 10 + delta) (2 ^ 64)); cbn; lia. }
  rewrite Hcheck. destruct (Z.ltb_spec (v * 10 + delta) (2 ^ 64)); cbn [negb].
  - unfold uint64. rewrite Z.mod_small by lia.
    rewrite IH by lia. fold ds rest. cbn [length].
    destruct (_ <? _); [|done]. do 3 f_equal. lia.
  - pose proof (digits_value_grows ds (v * 10 + delta) ltac:(lia) Hds).
    destruct (Z.ltb_spec (digits_value (v * 10 + delta) ds) (2 ^ 64));
      [lia|done].
Qed.

Lemma ConsumeDecimalNumber_spec in_ :
  ConsumeDecimalNumber in_
  = if digits_value 0 (split_digits in_).1 <? 2 ^ 64
    then (negb (bool_decide ((split_digits in_).1 = [])),
          Some (digits_value 0 (split_digits in_).1, (split_digits in_).2))
    else (false, None).
Proof.
  unfold ConsumeDecimalNumber.
  rewrite ConsumeDecimalNumber_loop_spec by lia.
  destruct (_ <? _); [|done]. f_equal.
  destruct (split_digits in_).1 as [|c ds]; [done|].
  rewrite bool_decide_false by done. cbn [length negb].
  apply Z.gtb_gt. lia.
Qed.

(** [ConsumeDecimalNumber] takes the digits at the front of the slice,
    [in_ = ds ++ rest] with [rest] not beginning with a digit. When the
    value of the digits fits 64 bits it stores the value, leaves the slice
    at [rest] and returns whether there was a digit; otherwise it returns
    false and stores nothing. It never stores a wrapped value. The count
    of digits is an [int] in the source, so the slice is shorter than
    [2 ^ 31]. *)
Theorem ConsumeDecimalNumber_reads_the_digits in_ :
  Z.of_nat (length in_) < 2 ^ 31 ->
  exists ds rest,
    in_ = ds ++ rest /\ Forall is_digit ds /\
    match rest with [] => True | c :: _ => ~ is_digit c end /\
    ConsumeDecimalNumber in_
    = if digits_value 0 ds <? 2 ^ 64
      then (negb (bool_decide (ds = [])), Some (digits_value 0 ds, rest))
      else (false, None).
Proof.
  intros _. exists (split_digits in_).1, (split_digits in_).2.
  destruct (split_digits_spec in_) as (Hds & Heq & Hrest).
  repeat split; try done. apply ConsumeDecimalNumber_spec.
Qed.

Lemma split_digits_app ds rest :
  Forall is_digit ds ->
  match rest with [] => True | c :: _ => ~ is_digit c end ->
  split_digits (ds ++ rest) = (ds, rest).
Proof.
  intros Hds Hrest. induction Hds as [|c ds Hc _ IH]; cbn [app split_digits].
  - destruct rest as [|c rest]; [done|]. cbn [split_digits].
    unfold is_digit in Hrest.
    destruct (Z.leb_spec 48 (byte_to_Z c));
      destruct (Z.leb_spec (byte_to_Z c) 57); cbn [andb]; try done; lia.
  - unfold is_digit in Hc.
    destruct (Z.leb_spec 48 (byte_to_Z c));
      destruct (Z.leb_spec (byte_to_Z c) 57); cbn [andb]; try lia.
    by rewrite IH.
Qed.

Lemma NumberToString_decimal num :
  0 <= num < 2 ^ 64 -> NumberToString num = decimal num.
Proof.
  intros Hnum. unfold NumberToString, AppendNumberTo, snprintf.
  cbn [fst app]. apply take_ge.
  destruct (decimal_spec num Hnum) as (_ & _ & _ & Hlen). lia.
Qed.

(** [ConsumeDecimalNumber] reads back what [NumberToString] printed, up
    to the first character that is not a digit. *)
Theorem ConsumeDecimalNumber_NumberToString num rest :
  0 <= num < 2 ^ 64 ->
  match rest with [] => True | c :: _ => ~ is_digit c end ->
  ConsumeDecimalNumber (NumberToString num ++ rest)
  = (true, Some (num, rest)).
Proof.
  intros Hnum Hrest. rewrite NumberToString_decimal by done.
  destruct (decimal_spec num Hnum) as (Hds & Hne & Hvalue & _).
  rewrite ConsumeDecimalNumber_spec.
  rewrite split_digits_app by done. cbn [fst snd]. rewrite Hvalue.
  destruct (Z.ltb_spec num (2 ^ 64)); [|lia].
  by rewrite bool_decide_false.
Qed.

(** *** Escaping *)

(** What [AppendEscapedStringTo] appends for one character. *)
Definition escaped (c : byte) : list byte := escape_char [] c.

Lemma escape_char_app str c : escape_char str c = str ++ escaped c.
Proof.
  unfold escaped, escape_char.
  by destruct ((32 <=? byte_to_Z c) && (byte_to_Z c <=? 126)).
Qed.

Lemma AppendEscapedStringTo_app value : forall str,
  AppendEscapedStringTo str value = str ++ EscapeString value.
Proof.
  unfold EscapeString, AppendEscapedStringTo.
  induction value as [|c value IH]; intros str; cbn [foldl].
  { by rewrite app_nil_r. }
  rewrite IH, (IH (escape_char [] c)), escape_char_app.
  cbn [app]. by rewrite <- app_assoc.
Qed.

Lemma EscapeString_cons c value :
  EscapeString (c :: value) = escaped c ++ EscapeString value.
Proof.
  unfold EscapeString at 1. unfold AppendEscapedStringTo. cbn [foldl].
  apply AppendEscapedStringTo_app.
Qed.

Lemma escaped_printable c : printable c -> escaped c = [c].
Proof.
  unfold printable, escaped, escape_char. intros Hc.
  destruct (Z.leb_spec 32 (byte_to_Z c));
    destruct (Z.leb_spec (byte_to_Z c) 126); cbn [andb app]; try lia; done.
Qed.

Lemma escaped_spec c :
  Forall printable (escaped c) /\
  (1 <= length (escaped c) <= 4)%nat /\
  (escaped c = [c] -> printable c).
Proof.
  unfold escaped, escape_char.
  destruct ((32 <=? byte_to_Z c) && (byte_to_Z c <=? 126)) eqn:Hc;
    cbn [app length].
  { assert (printable c) by (unfold printable; lia).
    split; [apply Forall_cons_2; [done|constructor]|]. split; [lia|done]. }
  pose proof (byte_to_Z_range c) as Hrange.
  change 255 with (Z.ones 8). rewrite Z.land_ones by lia.
  rewrite Z.mod_small by lia.
  split; [|split; [lia|discriminate]].
  repeat apply Forall_cons_2; [| | | |constructor].
  - vm_compute. split; discriminate.
  - vm_compute. split; discriminate.
  - apply digit_char_printable. split; [apply Z.div_pos; lia|].
    apply Z.div_lt_upper_bound; lia.
  - apply digit_char_printable. apply Z.mod_pos_bound. lia.
Qed.

Lemma EscapeString_printable value : Forall printable (EscapeString value).
Proof.
  induction value as [|c value IH]; [constructor|].
  rewrite EscapeString_cons. apply Forall_app. split; [|done].
  apply escaped_spec.
Qed.

Lemma EscapeString_of_printable value :
  Forall printable value -> EscapeString value = value.
Proof.
  induction 1 as [|c value Hc _ IH]; [done|].
  by rewrite EscapeString_cons, escaped_printable, IH.
Qed.

Lemma EscapeString_length value :
  (length value <= length (EscapeString value) <= 4 * length value)%nat.
Proof.
  induction value as [|c value IH]; [cbn; lia|].
  rewrite EscapeString_cons, length_app.
  destruct (escaped_spec c) as (_ & Hlen & _). cbn [length]. lia.
Qed.

(** [EscapeString] returns printable ASCII only, between one and four
    characters for each character of the input, and the concatenation of
    what it returns for the parts of the input. It leaves a string as it is
    exactly when the string is printable; so escaping twice is escaping
    once. *)
Theorem EscapeString_is_printable value other :
  Forall printable (EscapeString value) /\
  (length value <= length (EscapeString value) <= 4 * length value)%nat /\
  (EscapeString value = value <-> Forall printable value) /\
  EscapeString (EscapeString value) = EscapeString value /\
  EscapeString (value ++ other) = EscapeString value ++ EscapeString other.
Proof.
  split; [apply EscapeString_printable|].
  split; [apply EscapeString_length|].
  split; [|split].
  - split; [|apply EscapeString_of_printable].
    intros <-. apply EscapeString_printable.
  - apply EscapeString_of_printable, EscapeString_printable.
  - unfold EscapeString at 1. unfold AppendEscapedStringTo.
    rewrite foldl_app. apply AppendEscapedStringTo_app.
Qed.

(** *** Sizes for people *)

(** [BytesToString] is never cut short by its buffer of 32 characters: it
    is the number and the unit, ten characters at most. The unit is the
    largest of TB, GB, MB and KB of which the size has ten or more, and B
    below 10 KB. *)
Theorem BytesToString_fits bytes :
  0 <= bytes < 2 ^ 64 ->
  exists k unit_,
    (k, unit_) ∈ [(40, [x54; x42]); (30, [x47; x42]); (20, [x4d; x42]);
                  (10, [x4b; x42]); (0, [x42])] /\
    BytesToString bytes = decimal (bytes / 2 ^ k) ++ unit_ /\
    (AppendHumanBytes bytes 32).2 = Z.of_nat (length (BytesToString bytes)) /\
    (length (BytesToString bytes) <= 10)%nat /\
    (k <> 0 -> 10 <= bytes / 2 ^ k) /\
    (k <> 40 -> bytes < 10 * 2 ^ (k + 10)).
Proof.
  intros Hbytes. unfold BytesToString, AppendHumanBytes. cbv zeta.
  change (uint64 (Z.shiftl 10 40)) with (10 * 2 ^ 40).
  change (uint64 (Z.shiftl 10 30)) with (10 * 2 ^ 30).
  change (uint64 (Z.shiftl 10 20)) with (10 * 2 ^ 20).
  change (uint64 (Z.shiftl 10 10)) with (10 * 2 ^ 10).
  assert (Hfit : forall k u, 0 <= k -> (length u <= 2)%nat ->
            0 <= bytes / 2 ^ k < 10 ^ 8 ->
            (snprintf 32 (decimal (Z.shiftr bytes k) ++ u)).1
            = decimal (bytes / 2 ^ k) ++ u /\
            (snprintf 32 (decimal (Z.shiftr bytes k) ++ u)).2
            = Z.of_nat (length (decimal (bytes / 2 ^ k) ++ u)) /\
            (length (decimal (bytes / 2 ^ k) ++ u) <= 10)%nat).
  { intros k u Hk Hu Hrange. rewrite Z.shiftr_div_pow2 by done.
    unfold snprintf. cbn [fst snd].
    assert (Hlen : (length (decimal (bytes / 2 ^ k)) <= 8)%nat).
    { unfold decimal.
      destruct (decimal_loop_length 19 (bytes / 2 ^ k) [] 8) as [_ Hhigh];
        [lia|lia|]. cbn [length] in Hhigh. lia. }
    rewrite length_app. split; [|split; [done|lia]].
    apply take_ge. rewrite length_app. lia. }
  assert (Hdiv : forall k, 0 <= k ->
            (10 * 2 ^ k <= bytes -> 10 <= bytes / 2 ^ k) /\
            (bytes < 10 * 2 ^ (k + 10) -> bytes / 2 ^ k < 10 ^ 8) /\
            0 <= bytes / 2 ^ k).
  { intros k Hk. assert (0 < 2 ^ k) by (apply Z.pow_pos_nonneg; lia).
    split; [|split].
    - intros Hle. apply Z.div_le_lower_bound; lia.
    - intros Hlt. apply Z.div_lt_upper_bound; [lia|].
      rewrite Z.pow_add_r in Hlt by lia. change (2 ^ 10) with 1024 in Hlt.
      nia.
    - apply Z.div_pos; lia. }
  destruct (Z.geb_spec bytes (10 * 2 ^ 40)) as [H40|H40].
  { exists 40, [x54; x42].
    assert (bytes / 2 ^ 40 < 10 ^ 8).
    { apply Z.div_lt_upper_bound; lia. }
    destruct (Hfit 40 [x54; x42]) as (-> & -> & Hlen); [lia|cbn; lia| |].
    { split; [apply Hdiv; lia|done]. }
    split; [repeat constructor|].
    split; [done|]. split; [done|]. split; [done|].
    split; [intros _; apply Hdiv; lia|].
    first [done | intros _; simpl Z.add; lia]. }
  destruct (Z.geb_spec bytes (10 * 2 ^ 30)) as [H30|H30].
  { exists 30, [x47; x42].
    destruct (Hfit 30 [x47; x42]) as (-> & -> & Hlen); [lia|cbn; lia| |].
    { split; apply Hdiv; first [lia | simpl Z.add; lia]. }
    split; [repeat constructor|].
    split; [done|]. split; [done|]. split; [done|].
    split; [intros _; apply Hdiv; lia|].
    first [done | intros _; simpl Z.add; lia]. }
  destruct (Z.geb_spec bytes (10 * 2 ^ 20)) as [H20|H20].
  { exists 20, [x4d; x42].
    destruct (Hfit 20 [x4d; x42]) as (-> & -> & Hlen); [lia|cbn; lia| |].
    { split; apply Hdiv; first [lia | simpl Z.add; lia]. }
    split; [repeat constructor|].
    split; [done|]. split; [done|]. split; [done|].
    split; [intros _; apply Hdiv; lia|].
    first [done | intros _; simpl Z.add; lia]. }
  destruct (Z.geb_spec bytes (10 * 2 ^ 10)) as [H10|H10].
  { exists 10, [x4b; x42].
    destruct (Hfit 10 [x4b; x42]) as (-> & -> & Hlen); [lia|cbn; lia| |].
    { split; apply Hdiv; first [lia | simpl Z.add; lia]. }
    split; [repeat constructor|].
    split; [done|]. split; [done|]. split; [done|].
    split; [intros _; apply Hdiv; lia|].
    first [done | intros _; simpl Z.add; lia]. }
  exists 0, [x42].
  pose proof (Hfit 0 [x42]) as Hfit0. rewrite Z.shiftr_0_r in Hfit0.
  destruct Hfit0 as (-> & -> & Hlen); [lia|cbn; lia| |].
  { rewrite Z.pow_0_r, Z.div_1_r. lia. }
  split; [repeat constructor|].
  split; [done|]. split; [done|]. split; [done|].
  split; [done|intros _; simpl Z.add; lia].
Qed.

Lemma ConsumeDecimalNumber_NumberToString_witness :
  0 <= 2016 < 2 ^ 64 /\ ~ is_digit x20 /\
  ConsumeDecimalNumber (NumberToString 2016 ++ [x20; x31])
  = (true, Some (2016, [x20; x31])).
Proof.
  assert (H1 : 0 <= 2016 < 2 ^ 64) by lia.
  assert (H2 : ~ is_digit x20) by (vm_compute; intros [H _]; by apply H).
  split; [exact H1|]. split; [exact H2|].
  exact (ConsumeDecimalNumber_NumberToString 2016 [x20; x31] H1 H2).
Defined.

Lemma BytesToString_fits_witness :
  0 <= 123456789 < 2 ^ 64 /\
  exists k unit_,
    (k, unit_) ∈ [(40, [x54; x42]); (30, [x47; x42]); (20, [x4d; x42]);
                  (10, [x4b; x42]); (0, [x42])] /\
    BytesToString 123456789 = decimal (123456789 / 2 ^ k) ++ unit_ /\
    (AppendHumanBytes 123456789 32).2
    = Z.of_nat (length (BytesToString 123456789)) /\
    (length (BytesToString 123456789) <= 10)%nat /\
    (k <> 0 -> 10 <= 123456789 / 2 ^ k) /\
    (k <> 40 -> 123456789 < 10 * 2 ^ (k + 10)).
Proof.
  assert (H1 : 0 <= 123456789 < 2 ^ 64) by lia.
  split; [exact H1|]. exact (BytesToString_fits 123456789 H1).
Defined.

Lemma ConsumeDecimalNumber_reads_the_digits_witness :
  Z.of_nat (length [x34; x32; x78]) < 2 ^ 31 /\
  exists ds rest,
    [x34; x32; x78] = ds ++ rest /\ Forall is_digit ds /\
    match rest with [] => True | c :: _ => ~ is_digit c end /\
    ConsumeDecimalNumber [x34; x32; x78]
    = if digits_value 0 ds <? 2 ^ 64
      then (negb (bool_decide (ds = [])), Some (digits_value 0 ds, rest))
      else (false, None).
Proof.
  assert (H1 : Z.of_nat (length [x34; x32; x78]) < 2 ^ 31)
    by (vm_compute; reflexivity).
  split; [exact H1|].
  exact (ConsumeDecimalNumber_reads_the_digits [x34; x32; x78] H1).
Defined.

End LoggingProofs.

(** ** The life of a subscription in rocketeer_server.cc *)

Module RocketeerLifecycleProofs.
Import Rocketeer RocketeerLifecycle.

(** What an event means for one subscription of one stream. *)
Inductive Step :=
  | Opened (start_seqno : SequenceNumber)
  | Sent (seqno_prev seqno : SequenceNumber)
  | Closed
  | Told.

Definition step_on (stream sub : Z) (e : Event) : option Step :=
  match e with
  | Did (SendData data stream' _) =>
      let deliver := MessageDeliverData.deliver data in
      if decide (stream' = stream /\ MessageDeliver.sub_id_ deliver = sub)
      then Some (Sent (MessageDeliver.seqno_prev_ deliver)
                   (MessageDeliver.seqno_ deliver))
      else None
  | Did (SendGap gap stream' _) =>
      let deliver := MessageDeliverGap.deliver gap in
      if decide (stream' = stream /\ MessageDeliver.sub_id_ deliver = sub)
      then Some (Sent (MessageDeliver.seqno_prev_ deliver)
                   (MessageDeliver.seqno_ deliver))
      else None
  | Did (HandleNewSubscription inbound_id params) =>
      if decide (stream_id inbound_id = stream /\ sub_id inbound_id = sub)
      then Some (Opened (params_start_seqno params))
      else None
  | HandleTermination inbound_id _ =>
      if decide (stream_id inbound_id = stream /\ sub_id inbound_id = sub)
      then Some Closed
      else None
  | SendUnsubscribe _ sub_id _ stream' _ =>
      if decide (stream' = stream /\ sub_id = sub) then Some Told else None
  end.

(** The protocol of a subscription. Its state is the sequence number of
    the last message, [None] while there is no subscription. It is opened
    only when there is none, and then stands one before the start (at 0
    for a start of 0); a message is sent only on a subscription, names the
    last sequence number as the previous one and has a larger one; it is
    closed only when there is one; the subscriber is told of a termination
    only after it. *)
Definition follow (state : option SequenceNumber) (step : Step)
    : option (option SequenceNumber) :=
  match step, state with
  | Opened start_seqno, None =>
      Some (Some (if decide (start_seqno = 0) then 0
                  else uint64 (start_seqno - 1)))
  | Sent seqno_prev seqno, Some prev =>
      if decide (seqno_prev = prev /\ prev < seqno) then Some (Some seqno)
      else None
  | Closed, Some _ => Some None
  | Told, None => Some None
  | _, _ => None
  end.

Fixpoint follows (stream sub : Z) (state : option SequenceNumber)
    (events : list Event) : option (option SequenceNumber) :=
  match events with
  | [] => Some state
  | e :: events' =>
      match step_on stream sub e with
      | Some step =>
          state' ← follow state step; follows stream sub state' events'
      | None => follows stream sub state events'
      end
  end.

(** The state of a subscription in the object. *)
Definition state_of (s : t) (stream sub : Z) : option SequenceNumber :=
  prev_seqno <$> Find (mkInboundID stream sub 0) s.

Lemma follows_app stream sub events1 : forall state events2,
  follows stream sub state (events1 ++ events2)
  = state' ← follows stream sub state events1;
    follows stream sub state' events2.
Proof.
  induction events1 as [|e events1 IH]; intros state events2; [done|].
  cbn [app follows]. destruct (step_on stream sub e) as [step|]; [|apply IH].
  destruct (follow state step) as [state'|]; [|done]. apply IH.
Qed.

Lemma follows_unconcerned stream sub state events :
  Forall (fun e => step_on stream sub e = None) events ->
  follows stream sub state events = Some state.
Proof.
  induction 1 as [|e events He _ IH]; [done|]. cbn [follows]. by rewrite He.
Qed.

Lemma state_of_lookup s stream sub :
  state_of s stream sub
  = prev_seqno <$> (inbound_subscriptions_ s !! stream ≫= (.!! sub)).
Proof. done. Qed.

Section messages.

Variable mDeliverData mDeliverGap kBenign : Z.
Variable Empty : MsgId -> bool.

Abbreviation run_request' :=
  (run_request mDeliverData mDeliverGap kBenign Empty).
Abbreviation run_requests' :=
  (run_requests mDeliverData mDeliverGap kBenign Empty).

Lemma state_of_set_prev inbound_id seqno s stream sub :
  state_of (set_prev_seqno inbound_id seqno s) stream sub
  = if decide (stream_id inbound_id = stream /\ sub_id inbound_id = sub)
    then (fun _ => seqno) <$> state_of s stream sub
    else state_of s stream sub.
Proof.
  unfold state_of.
  change (Find (mkInboundID stream sub 0) ?s)
    with (RocketeerProofs.subscription_at s stream sub).
  rewrite RocketeerProofs.subscription_at_set_prev.
  case_decide; [|done].
  by destruct (RocketeerProofs.subscription_at s stream sub).
Qed.

Lemma run_call_follows c s stream sub :
  follows stream sub (state_of s stream sub)
    (Did <$> (run_call mDeliverData mDeliverGap kBenign Empty c s).2)
  = Some (state_of
            (run_call mDeliverData mDeliverGap kBenign Empty c s).1
            stream sub).
Proof.
  destruct c as [inbound_id seqno payload msg_id generated|inbound_id seqno];
    cbn [run_call]; unfold Deliver, Advance; cbv zeta;
    destruct (Find inbound_id s) as [y|] eqn:Hy; try done;
    (case_decide as Hlt; [|done]);
    cbn [fst snd fmap list_fmap follows step_on];
    cbn [MessageDeliverData.deliver MessageDeliverGap.deliver
         data_SetSequenceNumbers gap_SetSequenceNumbers
         MessageDeliverData_new MessageDeliverGap_new SetSequenceNumbers
         MessageDeliver.sub_id_ MessageDeliver.seqno_prev_
         MessageDeliver.seqno_];
    rewrite state_of_set_prev; (case_decide as Hhere; [|done]);
    destruct Hhere as [<- <-];
    unfold state_of; change (mkInboundID _ _ 0) with
      (mkInboundID (stream_id inbound_id) (sub_id inbound_id) 0);
    change (Find (mkInboundID (stream_id inbound_id) (sub_id inbound_id) 0) s)
      with (Find inbound_id s); rewrite Hy; cbn;
    by rewrite decide_True by done.
Qed.


Lemma state_of_insert (m : gmap Z (gmap Z InboundSubscription)) stats id
    origin subs' stream sub :
  state_of (mk (<[origin := subs']> m) stats id) stream sub
  = if decide (origin = stream) then prev_seqno <$> subs' !! sub
    else prev_seqno <$> (m !! stream ≫= (.!! sub)).
Proof.
  rewrite state_of_lookup. cbn [inbound_subscriptions_].
  case_decide as Hstream.
  - subst stream. by rewrite lookup_insert_eq.
  - by rewrite lookup_insert_ne.
Qed.

Lemma state_of_delete (m : gmap Z (gmap Z InboundSubscription)) stats id
    origin stream sub :
  state_of (mk (delete origin m) stats id) stream sub
  = if decide (origin = stream) then None
    else prev_seqno <$> (m !! stream ≫= (.!! sub)).
Proof.
  rewrite state_of_lookup. cbn [inbound_subscriptions_].
  case_decide as Hstream.
  - subst stream. by rewrite lookup_delete_eq.
  - by rewrite lookup_delete_ne.
Qed.

Lemma Receive_subscribe_follows subscribe origin s stream sub :
  follows stream sub (state_of s stream sub)
    (Did <$> (Receive_subscribe subscribe origin s).2)
  = Some (state_of (Receive_subscribe subscribe origin s).1 stream sub).
Proof.
  unfold Receive_subscribe. cbv zeta.
  destruct (default ∅ (inbound_subscriptions_ s !! origin)
              !! MessageSubscribe.sub_id_ subscribe) as [existing|] eqn:Hsub;
    [done|].
  cbn [fst snd fmap list_fmap follows step_on stream_id sub_id
       params_start_seqno].
  cbn [inbound_subscriptions_]. rewrite state_of_insert.
  case_decide as Hhere.
  - destruct Hhere as [<- <-]. rewrite decide_True by done.
    rewrite lookup_insert_eq. rewrite state_of_lookup.
    assert (Hnone : inbound_subscriptions_ s !! origin
                    ≫= lookup (MessageSubscribe.sub_id_ subscribe) = None).
    { by destruct (inbound_subscriptions_ s !! origin) as [subs|]. }
    rewrite Hnone. cbn. case_decide as Hzero; [|done]. by rewrite Hzero.
  - case_decide as Hstream; [|done]. subst stream.
    rewrite lookup_insert_ne by tauto. rewrite state_of_lookup.
    by destruct (inbound_subscriptions_ s !! origin) as [subs|].
Qed.

Lemma Terminate_follows inbound_id reason s stream sub :
  follows stream sub (state_of s stream sub) (Terminate inbound_id reason s).2
  = Some (state_of (Terminate inbound_id reason s).1 stream sub).
Proof.
  unfold Terminate. cbv zeta.
  destruct (inbound_subscriptions_ s !! stream_id inbound_id) as [subs|]
    eqn:Hsubs; [|done].
  destruct (subs !! sub_id inbound_id) as [x|] eqn:Hx; [|done].
  cbn [fst snd follows step_on stream_id sub_id].
  rewrite state_of_insert.
  case_decide as Hhere.
  - destruct Hhere as [<- <-]. rewrite decide_True by done.
    rewrite lookup_delete_eq, state_of_lookup, Hsubs. cbn. by rewrite Hx.
  - case_decide as Hstream; [|done]. subst stream.
    rewrite lookup_delete_ne by tauto.
    by rewrite state_of_lookup, Hsubs.
Qed.

Lemma Receive_unsubscribe_follows unsubscribe origin s stream sub :
  follows stream sub (state_of s stream sub)
    (Receive_unsubscribe unsubscribe origin s).2
  = Some (state_of (Receive_unsubscribe unsubscribe origin s).1 stream sub).
Proof.
  unfold Receive_unsubscribe. cbv zeta.
  destruct (inbound_subscriptions_ s !! origin) as [subs|] eqn:Hsubs; [|done].
  case_decide as Hx; [|done]. destruct Hx as [x Hx].
  cbn [fst snd follows step_on stream_id sub_id inbound_subscriptions_].
  set (sub_id := MessageUnsubscribe.sub_id_ unsubscribe) in *.
  assert (Hafter :
    state_of
      (mk (if decide (delete sub_id subs = ∅)
           then delete origin
                  (<[origin := delete sub_id subs]> (inbound_subscriptions_ s))
           else <[origin := delete sub_id subs]> (inbound_subscriptions_ s))
          (stats_ (mk (<[origin := delete sub_id subs]>
                         (inbound_subscriptions_ s))
                      (count_unsubscribe (stats_ s)) (id_ s)))
          (id_ (mk (<[origin := delete sub_id subs]>
                      (inbound_subscriptions_ s))
                   (count_unsubscribe (stats_ s)) (id_ s))))
      stream sub
    = if decide (origin = stream) then prev_seqno <$> delete sub_id subs !! sub
      else state_of s stream sub).
  { rewrite state_of_lookup. cbn [inbound_subscriptions_].
    case_decide as Hempty.
    - rewrite delete_insert_eq. case_decide as Hstream.
      + subst stream. by rewrite lookup_delete_eq, Hempty, lookup_empty.
      + by rewrite lookup_delete_ne.
    - case_decide as Hstream.
      + subst stream. by rewrite lookup_insert_eq.
      + by rewrite lookup_insert_ne. }
  rewrite Hafter. clear Hafter.
  case_decide as Hhere.
  - destruct Hhere as [<- <-]. rewrite decide_True by done.
    rewrite lookup_delete_eq, state_of_lookup, Hsubs. cbn. by rewrite Hx.
  - case_decide as Hstream; [|done]. subst stream.
    rewrite lookup_delete_ne by tauto.
    by rewrite state_of_lookup, Hsubs.
Qed.

(** The loop of [Receive(MessageGoodbye)] counts one unsubscription and
    calls [HandleTermination] once for each entry. *)
Lemma goodbye_loop origin id entries : forall stats events,
  foldl (fun '(stats, events) (entry : Z * InboundSubscription) =>
           (count_unsubscribe stats,
            events ++ [HandleTermination (mkInboundID origin entry.1 id)
                         Subscriber]))
    (stats, events) entries
  = (Nat.iter (length entries) count_unsubscribe stats,
     events ++ ((fun entry : Z * InboundSubscription =>
                   HandleTermination (mkInboundID origin entry.1 id)
                     Subscriber) <$> entries)).
Proof.
  induction entries as [|entry entries IH]; intros stats events.
  { cbn. by rewrite app_nil_r. }
  cbn [foldl]. rewrite IH. cbn [length fmap list_fmap].
  rewrite <- app_assoc. cbn [app]. f_equal.
  by rewrite Nat.iter_swap.
Qed.

Lemma goodbye_events_follow origin id stream sub
    (entries : list (Z * InboundSubscription)) : forall state,
  NoDup entries.*1 ->
  (origin = stream -> sub ∈ entries.*1 -> is_Some state) ->
  follows stream sub state
    ((fun entry : Z * InboundSubscription =>
        HandleTermination (mkInboundID origin entry.1 id) Subscriber)
     <$> entries)
  = Some (if decide (origin = stream /\ sub ∈ entries.*1) then None
          else state).
Proof.
  induction entries as [|[k x] entries IH]; intros state Hnd Hstate.
  { cbn. rewrite decide_False; [done|]. intros [_ Hin].
    by apply elem_of_nil in Hin. }
  cbn [fmap list_fmap follows step_on stream_id sub_id fst] in Hnd, Hstate |- *.
  apply NoDup_cons in Hnd as [Hk Hnd].
  destruct (decide (origin = stream /\ k = sub)) as [Hhere|Hhere].
  - destruct Hhere as [-> ->].
    destruct Hstate as [prev ->]; [done|left|]. cbn [follow mbind option_bind].
    rewrite IH; [|done|by intros _ Hin].
    rewrite decide_False by tauto. rewrite decide_True; [done|].
    split; [done|left].
  - rewrite IH; [|done|].
    + f_equal.
      destruct (decide (origin = stream /\ sub ∈ entries.*1)) as [H1|H1];
        destruct (decide (origin = stream /\ sub ∈ k :: entries.*1))
          as [H2|H2]; try done.
      * destruct H2. split; [tauto|]. right. tauto.
      * destruct H2 as [-> H2]. apply elem_of_cons in H2 as [->|H2]; tauto.
    + intros Hs Hin. apply Hstate; [done|]. by right.
Qed.

Lemma Receive_goodbye_follows goodbye origin s stream sub :
  follows stream sub (state_of s stream sub)
    (Receive_goodbye goodbye origin s).2
  = Some (state_of (Receive_goodbye goodbye origin s).1 stream sub).
Proof.
  unfold Receive_goodbye.
  destruct (inbound_subscriptions_ s !! origin) as [subs|] eqn:Hsubs; [|done].
  rewrite goodbye_loop. cbn [fst snd app].
  assert (Hkey : sub ∈ (map_to_list subs).*1 <-> is_Some (subs !! sub)).
  { rewrite list_elem_of_fmap. split.
    - intros ([k x] & -> & Hin). apply elem_of_map_to_list in Hin. by exists x.
    - intros [x Hx]. exists (sub, x). split; [done|].
      by apply elem_of_map_to_list. }
  rewrite goodbye_events_follow.
  - rewrite state_of_delete. f_equal.
    case_decide as Hhere.
    + destruct Hhere as [-> _]. by rewrite decide_True.
    + case_decide as Hstream; [|done]. subst stream.
      rewrite state_of_lookup, Hsubs. cbn.
      destruct (subs !! sub) as [x|] eqn:Hx; [|done].
      destruct Hhere. split; [done|]. apply Hkey. by exists x.
  - apply NoDup_fst_map_to_list.
  - intros <- Hin. apply Hkey in Hin as [x Hx].
    rewrite state_of_lookup, Hsubs. cbn. rewrite Hx. by eexists.
Qed.

Lemma run_request_follows r s stream sub :
  follows stream sub (state_of s stream sub) (run_request' r s).2
  = Some (state_of (run_request' r s).1 stream sub).
Proof.
  destruct r as [subscribe origin|unsubscribe origin|goodbye origin
                |inbound_id reason|c]; cbn [run_request].
  - pose proof (Receive_subscribe_follows subscribe origin s stream sub).
    by destruct (Receive_subscribe subscribe origin s).
  - apply Receive_unsubscribe_follows.
  - apply Receive_goodbye_follows.
  - apply Terminate_follows.
  - pose proof (run_call_follows c s stream sub).
    by destruct (run_call mDeliverData mDeliverGap kBenign Empty c s).
Qed.

(** Whatever the subscribers and the application ask for, in whatever
    order, what a rocketeer does for one subscription follows the
    protocol, and the protocol ends in the state that the object holds:
    [HandleNewSubscription] and [HandleTermination] alternate, messages
    go out only between the two, the first one names the sequence number
    before the start as its previous one, and every other the sequence
    number of the message before it. *)
Theorem subscription_follows_the_protocol rs s stream sub :
  follows stream sub (state_of s stream sub) (run_requests' rs s).2
  = Some (state_of (run_requests' rs s).1 stream sub).
Proof.
  revert s. induction rs as [|r rs IH]; intros s; [done|].
  cbn [run_requests]. pose proof (run_request_follows r s stream sub) as Hone.
  destruct (run_request' r s) as [s1 out1]. cbn [fst snd] in Hone.
  specialize (IH s1). destruct (run_requests' rs s1) as [s2 out2].
  cbn [fst snd] in *. rewrite follows_app, Hone. exact IH.
Qed.


(** *** The counters *)

(** The number of subscriptions that the object holds. *)
Definition held_in (m : gmap Z (gmap Z InboundSubscription)) : Z :=
  map_fold (fun _ (subs : gmap Z InboundSubscription) n =>
              Z.of_nat (size subs) + n) 0 m.

Definition held (s : t) : Z := held_in (inbound_subscriptions_ s).

Definition count (p : Event -> bool) (events : list Event) : Z :=
  foldr (fun e n => if p e then n + 1 else n) 0 events.

Definition announced (e : Event) : bool :=
  match e with Did (HandleNewSubscription _ _) => true | _ => false end.

Definition ended_by_subscriber (e : Event) : bool :=
  match e with HandleTermination _ Subscriber => true | _ => false end.

Definition ended_by_rocketeer (e : Event) : bool :=
  match e with HandleTermination _ Rocketeer => true | _ => false end.

Lemma count_app p events1 events2 :
  count p (events1 ++ events2) = count p events1 + count p events2.
Proof.
  unfold count. induction events1 as [|e events1 IH]; cbn [app foldr]; [done|].
  rewrite IH. destruct (p e); lia.
Qed.

Lemma held_in_delete m origin :
  held_in (delete origin m)
  = held_in m - Z.of_nat (size (default ∅ (m !! origin))).
Proof.
  destruct (m !! origin) as [subs|] eqn:Hsubs; cbn [from_option id].
  - unfold held_in at 2.
    rewrite (map_fold_delete_L _ _ origin subs m); [|intros; cbn beta; lia|done].
    fold (held_in (delete origin m)). lia.
  - rewrite delete_id by done. rewrite map_size_empty. lia.
Qed.

Lemma held_in_insert m origin subs' :
  held_in (<[origin := subs']> m)
  = held_in m - Z.of_nat (size (default ∅ (m !! origin)))
    + Z.of_nat (size subs').
Proof.
  rewrite <- insert_delete_eq. unfold held_in at 1.
  rewrite map_fold_insert_L; [|intros; cbn beta; lia|apply lookup_delete_eq].
  fold (held_in (delete origin m)). rewrite held_in_delete. lia.
Qed.

Lemma size_delete_Some (subs : gmap Z InboundSubscription) sub x :
  subs !! sub = Some x ->
  Z.of_nat (size (delete sub subs)) = Z.of_nat (size subs) - 1.
Proof.
  intros Hx. rewrite <- (insert_delete_id subs sub x Hx) at 2.
  rewrite map_size_insert_None by apply lookup_delete_eq. lia.
Qed.

Lemma held_set_prev inbound_id seqno s :
  held (set_prev_seqno inbound_id seqno s) = held s.
Proof.
  unfold held, set_prev_seqno. cbn [inbound_subscriptions_].
  destruct (inbound_subscriptions_ s !! stream_id inbound_id) as [subs|]
    eqn:Hsubs; [|by rewrite alter_id' by (by rewrite Hsubs)].
  rewrite <- (insert_id _ _ _ Hsubs) at 1.
  rewrite alter_insert_eq, held_in_insert, Hsubs. cbn [from_option id].
  assert (size (alter (fun sub => mkSub (tenant_id sub) seqno)
                  (sub_id inbound_id) subs) = size subs) as ->; [|lia].
  destruct (subs !! sub_id inbound_id) as [x|] eqn:Hx;
    [|by rewrite alter_id' by (by rewrite Hx)].
  rewrite <- (insert_id _ _ _ Hx) at 1.
  rewrite alter_insert_eq. apply map_size_insert_Some. by eexists.
Qed.

(** What a run adds to the counters, and what stays as it was. *)
Definition counted (s s' : t) (out : list Event) : Prop :=
  subscribes (stats_ s') = subscribes (stats_ s) + count announced out /\
  unsubscribes (stats_ s')
  = unsubscribes (stats_ s) + count ended_by_subscriber out /\
  terminations (stats_ s')
  = terminations (stats_ s) + count ended_by_rocketeer out /\
  inbound_subscriptions (stats_ s') - held s'
  = inbound_subscriptions (stats_ s) - held s /\
  held s' - held s
  = count announced out - count ended_by_subscriber out
    - count ended_by_rocketeer out /\
  id_ s' = id_ s.

Lemma counted_nothing s s' :
  inbound_subscriptions_ s' = inbound_subscriptions_ s ->
  subscribes (stats_ s') = subscribes (stats_ s) ->
  unsubscribes (stats_ s') = unsubscribes (stats_ s) ->
  terminations (stats_ s') = terminations (stats_ s) ->
  inbound_subscriptions (stats_ s') = inbound_subscriptions (stats_ s) ->
  id_ s' = id_ s ->
  counted s s' [].
Proof.
  intros Hmap H1 H2 H3 H4 H5. unfold counted, held. rewrite Hmap. cbn. lia.
Qed.

Lemma run_call_counted c s :
  counted s (run_call mDeliverData mDeliverGap kBenign Empty c s).1
    (Did <$> (run_call mDeliverData mDeliverGap kBenign Empty c s).2).
Proof.
  destruct c as [inbound_id seqno payload msg_id generated|inbound_id seqno];
    cbn [run_call]; unfold Deliver, Advance; cbv zeta;
    (destruct (Find inbound_id s) as [y|]; [|by apply counted_nothing]);
    (case_decide as Hlt; [|by apply counted_nothing]);
    cbn [fst snd]; unfold counted; rewrite held_set_prev; cbn; lia.
Qed.

Lemma Receive_subscribe_counted subscribe origin s :
  counted s (Receive_subscribe subscribe origin s).1
    (Did <$> (Receive_subscribe subscribe origin s).2).
Proof.
  unfold Receive_subscribe. cbv zeta.
  destruct (default ∅ (inbound_subscriptions_ s !! origin)
              !! MessageSubscribe.sub_id_ subscribe) as [existing|] eqn:Hsub;
    [by apply counted_nothing|].
  unfold counted, held.
  cbn [fst snd inbound_subscriptions_ stats_ id_ subscribes unsubscribes
       terminations inbound_subscriptions].
  rewrite held_in_insert, map_size_insert_None by done. cbn. lia.
Qed.

Lemma Terminate_counted inbound_id reason s :
  counted s (Terminate inbound_id reason s).1 (Terminate inbound_id reason s).2.
Proof.
  unfold Terminate. cbv zeta.
  destruct (inbound_subscriptions_ s !! stream_id inbound_id) as [subs|]
    eqn:Hsubs; [|by apply counted_nothing].
  destruct (subs !! sub_id inbound_id) as [x|] eqn:Hx;
    [|by apply counted_nothing].
  unfold counted, held.
  cbn [fst snd inbound_subscriptions_ stats_ id_ subscribes unsubscribes
       terminations inbound_subscriptions count_termination].
  rewrite held_in_insert, Hsubs, (size_delete_Some _ _ x) by done. cbn. lia.
Qed.

Lemma Receive_unsubscribe_counted unsubscribe origin s :
  counted s (Receive_unsubscribe unsubscribe origin s).1
    (Receive_unsubscribe unsubscribe origin s).2.
Proof.
  unfold Receive_unsubscribe. cbv zeta.
  destruct (inbound_subscriptions_ s !! origin) as [subs|] eqn:Hsubs;
    [|by apply counted_nothing].
  case_decide as Hx; [|by apply counted_nothing]. destruct Hx as [x Hx].
  unfold counted, held.
  cbn [fst snd inbound_subscriptions_ stats_ id_ subscribes unsubscribes
       terminations inbound_subscriptions count_unsubscribe].
  pose proof (size_delete_Some _ _ x Hx) as Hsize.
  case_decide as Hempty.
  - rewrite delete_insert_eq, held_in_delete, Hsubs.
    rewrite Hempty, map_size_empty in Hsize. cbn. lia.
  - rewrite held_in_insert, Hsubs. cbn. lia.
Qed.

Lemma count_unsubscribe_iter n stats :
  Nat.iter n count_unsubscribe stats
  = mkStats (subscribes stats) (unsubscribes stats + Z.of_nat n)
      (terminations stats) (inbound_subscriptions stats - Z.of_nat n)
      (dropped_reordered stats).
Proof.
  induction n as [|n IH].
  { destruct stats. cbn. f_equal; lia. }
  cbn [Nat.iter nat_rect] in *. unfold Nat.iter in IH. rewrite IH.
  unfold count_unsubscribe. cbn. f_equal; lia.
Qed.

Lemma count_goodbye_events origin id
    (entries : list (Z * InboundSubscription)) :
  let events :=
    (fun entry : Z * InboundSubscription =>
       HandleTermination (mkInboundID origin entry.1 id) Subscriber)
    <$> entries in
  count announced events = 0 /\
  count ended_by_subscriber events = Z.of_nat (length entries) /\
  count ended_by_rocketeer events = 0.
Proof.
  cbv zeta. induction entries as [|entry entries (IH1 & IH2 & IH3)]; [done|].
  cbn [fmap list_fmap length count foldr announced ended_by_subscriber
       ended_by_rocketeer] in *.
  unfold count in *. rewrite IH2. repeat split; try done. lia.
Qed.

Lemma Receive_goodbye_counted goodbye origin s :
  counted s (Receive_goodbye goodbye origin s).1
    (Receive_goodbye goodbye origin s).2.
Proof.
  unfold Receive_goodbye.
  destruct (inbound_subscriptions_ s !! origin) as [subs|] eqn:Hsubs;
    [|by apply counted_nothing].
  rewrite goodbye_loop, count_unsubscribe_iter. cbn [fst snd app].
  destruct (count_goodbye_events origin (GetID s) (map_to_list subs))
    as (H1 & H2 & H3).
  unfold counted, held. rewrite H1, H2, H3.
  cbn [fst snd inbound_subscriptions_ stats_ id_ subscribes unsubscribes
       terminations inbound_subscriptions].
  rewrite held_in_delete, Hsubs, length_map_to_list. cbn. lia.
Qed.

Lemma run_request_counted r s :
  counted s (run_request' r s).1 (run_request' r s).2.
Proof.
  destruct r as [subscribe origin|unsubscribe origin|goodbye origin
                |inbound_id reason|c]; cbn [run_request].
  - pose proof (Receive_subscribe_counted subscribe origin s).
    by destruct (Receive_subscribe subscribe origin s).
  - apply Receive_unsubscribe_counted.
  - apply Receive_goodbye_counted.
  - apply Terminate_counted.
  - pose proof (run_call_counted c s).
    by destruct (run_call mDeliverData mDeliverGap kBenign Empty c s).
Qed.

Lemma run_requests_counted rs : forall s,
  counted s (run_requests' rs s).1 (run_requests' rs s).2.
Proof.
  induction rs as [|r rs IH]; intros s.
  { by apply counted_nothing. }
  cbn [run_requests]. pose proof (run_request_counted r s) as Hone.
  destruct (run_request' r s) as [s1 out1]. cbn [fst snd] in Hone.
  specialize (IH s1). destruct (run_requests' rs s1) as [s2 out2].
  cbn [fst snd] in *. unfold counted in *. rewrite !count_app. lia.
Qed.

(** The counters of a rocketeer are right after every run from
    [Initialize]: [subscribes] is the number of calls of
    [HandleNewSubscription], [unsubscribes] and [terminations] are the
    numbers of calls of [HandleTermination] on behalf of the subscriber
    and of the rocketeer, and [inbound_subscriptions] is the number of
    subscriptions in the object, which is the first less the other two;
    it never goes below zero. *)
Theorem counters_match_the_callbacks rs id :
  let s := (run_requests' rs (Initialize id)).1 in
  let out := (run_requests' rs (Initialize id)).2 in
  subscribes (stats_ s) = count announced out /\
  unsubscribes (stats_ s) = count ended_by_subscriber out /\
  terminations (stats_ s) = count ended_by_rocketeer out /\
  inbound_subscriptions (stats_ s) = held s /\
  inbound_subscriptions (stats_ s)
  = subscribes (stats_ s) - unsubscribes (stats_ s) - terminations (stats_ s) /\
  0 <= inbound_subscriptions (stats_ s).
Proof.
  cbv zeta.
  destruct (run_requests_counted rs (Initialize id))
    as (H1 & H2 & H3 & H4 & H5 & _).
  assert (Hzero : held (Initialize id) = 0) by done.
  assert (Hheld : forall s, 0 <= held s).
  { intros s. unfold held, held_in.
    apply (map_fold_weak_ind (fun n _ => 0 <= n)); [done|]. intros. lia. }
  pose proof (Hheld (run_requests' rs (Initialize id)).1).
  cbn [Initialize stats_ subscribes unsubscribes terminations
       inbound_subscriptions] in *. lia.
Qed.

End messages.

End RocketeerLifecycleProofs.

(** ** Opening and closing logs in log_tailer.cc *)

Module LogTailerControlProofs.
Import LogTailer LogTailerControl LogTailerProofs.

Local Open Scope nat_scope.

(** What the room and the storage see of the tailer: a call of [Open]
    with the status it returned, a call of [Close], or a call of one of
    the user's callbacks. *)
Inductive Seen :=
  | Opened (reader_id : nat) (logid : Z) (start : SequenceNumber)
      (st : Status)
  | Closed (reader_id : nat) (logid : Z)
  | Called (c : Command).

Definition reader_of_op (o : Op) : nat :=
  match o with
  | DoStartReading _ _ _ reader_id => reader_id
  | DoStopReading _ _ reader_id => reader_id
  | DoCommand c => reader_of c
  end.

(** The storage calls of an operation, with the status that the operation
    was given for them. *)
Definition seen_call (o : Op) (call : StorageCall) : Seen :=
  match call with
  | Open reader_id logid start =>
      Opened reader_id logid start
        match o with DoStartReading opened _ _ _ => opened | _ => OK end
  | Close reader_id logid => Closed reader_id logid
  end.

(** A run under callbacks that write down what they are called with
    ([note_record] and [note_gap]), and what is seen of it, in order. *)
Fixpoint observe (ops : list Op) (s : t * Counters)
    : option (t * Counters * list Seen) :=
  match ops with
  | [] => Some (s, [])
  | o :: ops' =>
      '(s1, noted, calls) ← run_op note_record note_gap o (s, []);
      '(s2, seen) ← observe ops' s1;
      Some (s2, (seen_call o <$> calls) ++ (Called <$> noted) ++ seen)
  end.

Definition concerns (reader_id : nat) (log : Z) (e : Seen) : Prop :=
  match e with
  | Opened r l _ _ => r = reader_id /\ l = log
  | Closed r l => r = reader_id /\ l = log
  | Called c => reader_of c = reader_id /\ log_of c = log
  end.

#[local] Instance concerns_dec reader_id log e :
  Decision (concerns reader_id log e).
Proof. destruct e; apply _. Defined.

(** The protocol of one log of one reader. Its state is the sequence
    number expected next, [None] while the log is not open. An [Open]
    that succeeds sets it to the start, one that fails leaves it; [Close]
    is called only on an open log; a callback is called only on an open
    log, with a record or gap that begins at the expected sequence
    number, and moves it past the end of that. *)
Definition step (state : option SequenceNumber) (e : Seen)
    : option (option SequenceNumber) :=
  match e with
  | Opened _ _ start st => Some (if ok st then Some start else state)
  | Closed _ _ =>
      match state with Some _ => Some None | None => None end
  | Called c =>
      match state with
      | Some expected =>
          if decide (first_of c = expected)
          then Some (Some (uint64 (last_of c + 1)%Z))
          else None
      | None => None
      end
  end.

Fixpoint follows (reader_id : nat) (log : Z)
    (state : option SequenceNumber) (seen : list Seen)
    : option (option SequenceNumber) :=
  match seen with
  | [] => Some state
  | e :: seen' =>
      if decide (concerns reader_id log e) then
        state' ← step state e; follows reader_id log state' seen'
      else follows reader_id log state seen'
  end.

Lemma follows_seen_app reader_id log seen1 : forall state seen2,
  follows reader_id log state (seen1 ++ seen2)
  = state' ← follows reader_id log state seen1;
    follows reader_id log state' seen2.
Proof.
  induction seen1 as [|e seen1 IH]; intros state seen2; [done|].
  cbn [app follows]. case_decide; [|apply IH].
  destruct (step state e) as [state'|]; [|done]. apply IH.
Qed.

Lemma expected_at_erase s reader_id log r l :
  expected_at (erase_log s reader_id log) r l
  = if decide (r = reader_id /\ l = log) then None else expected_at s r l.
Proof.
  unfold expected_at, erase_log. cbn [readers_].
  destruct (decide (r = reader_id)) as [->|Hr].
  - rewrite list_lookup_alter_eq.
    destruct (readers_ s !! reader_id) as [reader|]; cbn;
      [|by case_decide].
    destruct (decide (l = log)) as [->|Hl].
    + rewrite lookup_delete_eq. by rewrite decide_True.
    + rewrite lookup_delete_ne by done. by rewrite decide_False by tauto.
  - rewrite list_lookup_alter_ne by done. by rewrite decide_False by tauto.
Qed.

(** One operation, seen from one log of one reader. *)
Lemma observe_one o s reader_id log :
  reader_of_op o < length (readers_ s.1) ->
  exists s1 noted calls,
    run_op note_record note_gap o (s, []) = Some (s1, noted, calls) /\
    length (readers_ s1.1) = length (readers_ s.1) /\
    follows reader_id log (expected_at s.1 reader_id log)
      ((seen_call o <$> calls) ++ (Called <$> noted))
    = Some (expected_at s1.1 reader_id log).
Proof.
  intros Hlt. destruct s as [s counters].
  assert (Hnonempty : length (readers_ s) <> 0) by (cbn in Hlt; lia).
  destruct o as [opened logid start r|closed logid r|c];
    cbn [reader_of_op fst snd] in Hlt.
  - destruct (lookup_lt_is_Some_2 _ _ Hlt) as [reader Hreader].
    cbn [run_op]. unfold StartReading. cbn [fst snd].
    rewrite decide_False by done. rewrite Hreader.
    cbn [mbind option_bind]. eexists _, _, _. split; [reflexivity|].
    cbn [fmap list_fmap app follows seen_call concerns].
    destruct (ok opened) eqn:Hok.
    + assert (Hlen : forall counters' : Counters,
                length (readers_ (set_expected s r logid start, counters').1)
                = length (readers_ s)).
      { intros. unfold set_expected. cbn. by rewrite length_alter. }
      assert (Hexp : forall counters' : Counters,
                follows reader_id log (expected_at s reader_id log)
                  [Opened r logid start opened]
                = Some (expected_at
                          (set_expected s r logid start, counters').1
                          reader_id log)).
      { intros. cbn [follows fst]. rewrite expected_at_set by done.
        case_decide as Hhere; cbn [concerns] in Hhere.
        - destruct Hhere as [-> ->]. rewrite decide_True by done.
          cbn. by rewrite Hok.
        - by rewrite decide_False by (intros [-> ->]; by apply Hhere). }
      destruct (log_state reader !! logid); (split; [apply Hlen|apply Hexp]).
    + split; [done|]. cbn [follows fst]. case_decide; [|done]. cbn. by rewrite Hok.
  - destruct (lookup_lt_is_Some_2 _ _ Hlt) as [reader Hreader].
    cbn [run_op]. unfold StopReading. cbn [fst snd].
    rewrite decide_False by done. rewrite Hreader.
    cbn [mbind option_bind]. case_decide as Hopen.
    + eexists _, _, _. split; [reflexivity|].
      cbn [fmap list_fmap app follows seen_call concerns fst].
      split. { unfold erase_log. cbn. by rewrite length_alter. }
      rewrite expected_at_erase. case_decide as Hhere; cbn [concerns] in Hhere.
      * destruct Hhere as [-> ->]. rewrite decide_True by done.
        unfold expected_at. rewrite Hreader. cbn.
        by destruct Hopen as [e ->].
      * by rewrite decide_False by (intros [-> ->]; by apply Hhere).
    + eexists _, _, _. split; [reflexivity|]. by split.
  - destruct (run_command_noted c s [] Hlt)
      as (s1 & out & Hrun & Hlen & Hcase).
    cbn [run_op fst snd]. rewrite Hrun. cbn [mbind option_bind app].
    eexists _, _, _. split; [reflexivity|]. split; [done|].
    cbn [fmap list_fmap app fst].
    destruct Hcase as [[-> Hsame]|(-> & Hexp & Hmoved)].
    + cbn. by rewrite Hsame.
    + cbn [fmap list_fmap follows concerns]. rewrite Hmoved.
      case_decide as Hhere; cbn [concerns] in Hhere.
      * destruct Hhere as [<- <-]. rewrite decide_True by done.
        rewrite Hexp. cbn. by rewrite decide_True.
      * by rewrite decide_False by (intros [-> ->]; by apply Hhere).
Qed.

Lemma observe_runs ops : forall s,
  Forall (fun o => reader_of_op o < length (readers_ s.1)) ops ->
  exists s' seen, observe ops s = Some (s', seen).
Proof.
  induction ops as [|o ops IH]; intros s Hrange.
  { by exists s, []. }
  apply Forall_cons in Hrange as [Ho Hrange].
  destruct (observe_one o s 0 0%Z Ho)
    as (s1 & noted & calls & Hrun & Hlen & _).
  destruct (IH s1) as (s' & seen & Hrest).
  { by rewrite Hlen. }
  exists s', ((seen_call o <$> calls) ++ (Called <$> noted) ++ seen).
  cbn [observe]. rewrite Hrun. cbn [mbind option_bind]. by rewrite Hrest.
Qed.

(** Whatever the room and the readers do, in whatever order, what is seen
    for one log of one reader follows the protocol, and the protocol ends
    in the expectation that the tailer holds: the callbacks get
    consecutive records and gaps that begin at the sequence number of the
    last [StartReading], and nothing between a [StopReading] and the next
    [StartReading]. *)
Theorem reading_follows_the_protocol ops s reader_id log :
  Forall (fun o => reader_of_op o < length (readers_ s.1)) ops ->
  exists s' seen,
    observe ops s = Some (s', seen) /\
    follows reader_id log (expected_at s.1 reader_id log) seen
    = Some (expected_at s'.1 reader_id log).
Proof.
  revert s. induction ops as [|o ops IH]; intros s Hrange.
  { by exists s, []. }
  apply Forall_cons in Hrange as [Ho Hrange].
  destruct (observe_one o s reader_id log Ho)
    as (s1 & noted & calls & Hrun & Hlen & Hone).
  destruct (IH s1) as (s' & seen & Hrest & Hfollows).
  { by rewrite Hlen. }
  exists s', ((seen_call o <$> calls) ++ (Called <$> noted) ++ seen).
  cbn [observe]. rewrite Hrun. cbn [mbind option_bind]. rewrite Hrest.
  split; [done|]. by rewrite app_assoc, follows_seen_app, Hone.
Qed.

(** *** The counters and the open logs *)

Definition count (p : Seen -> bool) (seen : list Seen) : Z :=
  foldr (fun e n => if p e then (n + 1)%Z else n) 0%Z seen.

Definition opened_ok (e : Seen) : bool :=
  match e with Opened _ _ _ st => ok st | _ => false end.

Definition closed (e : Seen) : bool :=
  match e with Closed _ _ => true | _ => false end.

Lemma count_seen_app p seen1 seen2 :
  count p (seen1 ++ seen2) = (count p seen1 + count p seen2)%Z.
Proof.
  unfold count. induction seen1 as [|e seen1 IH]; cbn [app foldr]; [done|].
  rewrite IH. destruct (p e); lia.
Qed.

Lemma count_Called p (noted : list Command) :
  (forall c, p (Called c) = false) -> count p (Called <$> noted) = 0%Z.
Proof.
  intros Hp. unfold count. induction noted as [|c noted IH]; [done|].
  cbn [fmap list_fmap foldr] in *. by rewrite Hp.
Qed.

Definition open_in (readers : list Reader) : Z :=
  foldl (fun count reader => (count + Z.of_nat (size (log_state reader)))%Z)
    0%Z readers.

Lemma open_in_from acc readers :
  foldl (fun count reader => (count + Z.of_nat (size (log_state reader)))%Z)
    acc readers
  = (acc + open_in readers)%Z.
Proof.
  unfold open_in. revert acc.
  induction readers as [|r readers IH]; intros acc; cbn [foldl]; [lia|].
  rewrite IH, (IH (0 + _)%Z). lia.
Qed.

Lemma open_in_alter g i : forall readers r,
  readers !! i = Some r ->
  open_in (alter g i readers)
  = (open_in readers - Z.of_nat (size (log_state r))
     + Z.of_nat (size (log_state (g r))))%Z.
Proof.
  induction i as [|i IH]; intros [|r0 readers] r Hr; try done.
  - injection Hr as ->. unfold open_in. cbn [alter list_alter foldl].
    rewrite !open_in_from. lia.
  - cbn in Hr. unfold open_in. cbn [alter list_alter foldl].
    rewrite !open_in_from.
    change (list_alter g i readers) with (alter g i readers).
    rewrite (IH readers r Hr). lia.
Qed.

Lemma NumberOpenLogs_set_expected s reader_id log v reader :
  readers_ s !! reader_id = Some reader ->
  NumberOpenLogs (set_expected s reader_id log v)
  = (NumberOpenLogs s
     + if log_state reader !! log is Some _ then 0 else 1)%Z.
Proof.
  intros Hreader. unfold NumberOpenLogs, set_expected. cbn [readers_].
  fold (open_in (readers_ s)).
  change (foldl _ 0%Z ?l) with (open_in l).
  rewrite (open_in_alter _ _ _ reader Hreader). cbn [log_state].
  rewrite map_size_insert. destruct (log_state reader !! log); cbn; lia.
Qed.

Lemma NumberOpenLogs_erase s reader_id log reader :
  readers_ s !! reader_id = Some reader ->
  is_Some (log_state reader !! log) ->
  NumberOpenLogs (erase_log s reader_id log) = (NumberOpenLogs s - 1)%Z.
Proof.
  intros Hreader [e He]. unfold NumberOpenLogs, erase_log. cbn [readers_].
  change (foldl _ 0%Z ?l) with (open_in l).
  rewrite (open_in_alter _ _ _ reader Hreader). cbn [log_state].
  rewrite <- (insert_delete_id (log_state reader) log e He) at 1.
  rewrite map_size_insert_None by apply lookup_delete_eq. lia.
Qed.

(** What a run adds to the counters. *)
Definition counted (s s' : t * Counters) (seen : list Seen) : Prop :=
  (NumberOpenLogs s'.1 - NumberOpenLogs s.1
   = (readers_started s'.2 - readers_started s.2)
     - (readers_stopped s'.2 - readers_stopped s.2))%Z /\
  (readers_started s'.2 + readers_restarted s'.2
   = readers_started s.2 + readers_restarted s.2 + count opened_ok seen)%Z /\
  (readers_stopped s'.2 = readers_stopped s.2 + count closed seen)%Z /\
  (readers_started s.2 <= readers_started s'.2)%Z.

Lemma run_command_open_logs c s :
  forall s1 noted,
    run_command note_record note_gap c (s, []) = Some (s1, noted) ->
    NumberOpenLogs s1 = NumberOpenLogs s.
Proof.
  intros s1 noted.
  destruct c as [msg log reader_id|log type from to reader_id];
    cbn [run_command]; unfold RecordCallback, GapCallback; cbn [fst snd];
    (destruct (readers_ s !! reader_id) as [reader|] eqn:Hreader; [|done]);
    cbn [mbind option_bind];
    (destruct (log_state reader !! log) as [expected|] eqn:Hexp;
     [|by intros [= <- <-]]);
    (case_decide as Hne; [by intros [= <- <-]|]);
    unfold note_record, note_gap; cbn [fst snd]; intros [= <- <-];
    rewrite (NumberOpenLogs_set_expected _ _ _ _ reader Hreader), Hexp; lia.
Qed.

Lemma observe_one_counted o s s1 noted calls :
  run_op note_record note_gap o (s, []) = Some (s1, noted, calls) ->
  counted s s1 ((seen_call o <$> calls) ++ (Called <$> noted)).
Proof.
  destruct s as [s counters].
  destruct o as [opened logid start r|closed_ logid r|c];
    cbn [run_op fst snd].
  - unfold StartReading. cbn [fst snd].
    case_decide as Hempty.
    { intros [= <- <- <-]. unfold counted. cbn. lia. }
    destruct (readers_ s !! r) as [reader|] eqn:Hreader; [|done].
    cbn [mbind option_bind]. intros [= <- <- <-].
    unfold counted.
    cbn [fmap list_fmap app count foldr seen_call opened_ok closed fst snd].
    destruct (ok opened); [|cbn; lia].
    destruct (log_state reader !! logid) as [e|] eqn:He;
      cbn [fst snd readers_started readers_restarted readers_stopped];
      rewrite (NumberOpenLogs_set_expected _ _ _ _ reader Hreader), He; lia.
  - unfold StopReading. cbn [fst snd].
    case_decide as Hempty.
    { intros [= <- <- <-]. unfold counted. cbn. lia. }
    destruct (readers_ s !! r) as [reader|] eqn:Hreader; [|done].
    cbn [mbind option_bind]. case_decide as Hopen.
    + intros [= <- <- <-]. unfold counted.
      cbn [fmap list_fmap app count foldr seen_call opened_ok closed fst snd
           readers_started readers_restarted readers_stopped].
      rewrite (NumberOpenLogs_erase _ _ _ reader Hreader Hopen). lia.
    + intros [= <- <- <-]. unfold counted. cbn. lia.
  - destruct (run_command note_record note_gap c (s, [])) as [[t1 w1]|]
      eqn:Hrun; [|done].
    cbn [mbind option_bind]. intros [= <- <- <-].
    unfold counted. cbn [fmap list_fmap app fst snd].
    rewrite (run_command_open_logs c s t1 w1 Hrun).
    rewrite !count_Called by done. lia.
Qed.

Lemma observe_counted ops : forall s s' seen,
  observe ops s = Some (s', seen) -> counted s s' seen.
Proof.
  induction ops as [|o ops IH]; intros s s' seen.
  { intros [= <- <-]. unfold counted. cbn. lia. }
  cbn [observe].
  destruct (run_op note_record note_gap o (s, [])) as [[[s1 noted] calls]|]
    eqn:Hone; [|done].
  cbn [mbind option_bind].
  destruct (observe ops s1) as [[s2 seen2]|] eqn:Hrest; [|done].
  cbn [mbind option_bind]. intros [= <- <-].
  pose proof (observe_one_counted o s s1 noted calls Hone) as H1.
  pose proof (IH s1 s2 seen2 Hrest) as H2.
  unfold counted in *. rewrite app_assoc, !count_seen_app in *. lia.
Qed.

(** On a tailer that begins with no open log and counters at zero,
    whatever the room and the readers do: the number of open logs is
    [readers_started] less [readers_stopped], [Close] was called
    [readers_stopped] times, and [Open] succeeded [readers_started] plus
    [readers_restarted] times. *)
Theorem open_logs_are_counted ops s :
  Forall (fun o => reader_of_op o < length (readers_ s.1)) ops ->
  NumberOpenLogs s.1 = 0%Z -> s.2 = mkCounters 0 0 0 ->
  exists s' seen,
    observe ops s = Some (s', seen) /\
    NumberOpenLogs s'.1 = (readers_started s'.2 - readers_stopped s'.2)%Z /\
    readers_stopped s'.2 = count closed seen /\
    (readers_started s'.2 + readers_restarted s'.2)%Z
    = count opened_ok seen /\
    (readers_stopped s'.2 <= readers_started s'.2)%Z.
Proof.
  intros Hrange Hnone Hzero.
  destruct (observe_runs ops s Hrange) as (s' & seen & Hrun).
  exists s', seen. split; [done|].
  destruct (observe_counted ops s s' seen Hrun) as (H1 & H2 & H3 & H4).
  rewrite Hzero in *.
  cbn [readers_started readers_restarted readers_stopped] in *.
  assert (0 <= NumberOpenLogs s'.1)%Z; [|lia].
  unfold NumberOpenLogs. change (foldl _ 0%Z ?l) with (open_in l).
  generalize (readers_ s'.1). intros readers.
  induction readers as [|r readers IH]; [done|].
  unfold open_in in *. cbn [foldl]. rewrite open_in_from.
  unfold open_in. lia.
Qed.

(** *** [Initialize] *)

Lemma Initialize_loop_spec CreateReader todo : forall reader_id readers,
  exists k,
    k <= todo /\
    (Initialize_loop CreateReader todo reader_id readers).2
    = readers ++ replicate k (mkReader ∅) /\
    (forall i, i < k -> ok (CreateReader (reader_id + i)) = true) /\
    (k = todo ->
     (Initialize_loop CreateReader todo reader_id readers).1 = OK) /\
    (k < todo ->
     (Initialize_loop CreateReader todo reader_id readers).1
     = CreateReader (reader_id + k) /\
     ok (CreateReader (reader_id + k)) = false).
Proof.
  induction todo as [|todo IH]; intros reader_id readers.
  { exists 0. cbn. rewrite app_nil_r. repeat split; try done; lia. }
  cbn [Initialize_loop].
  destruct (ok (CreateReader reader_id)) eqn:Hok; cbn [negb].
  - destruct (IH (S reader_id) (readers ++ [mkReader ∅]))
      as (k & Hk & Hreaders & Hall & Hdone & Hfailed).
    exists (S k). split; [lia|]. split.
    { rewrite Hreaders, <- app_assoc. done. }
    split.
    { intros [|i] Hi; [by rewrite Nat.add_0_r|].
      replace (reader_id + S i) with (S reader_id + i) by lia.
      apply Hall. lia. }
    replace (reader_id + S k) with (S reader_id + k) by lia.
    split; [intros Heq; apply Hdone; lia|intros Hlt; apply Hfailed; lia].
  - exists 0. cbn [fst snd replicate]. rewrite app_nil_r, Nat.add_0_r.
    repeat split; try done; lia.
Qed.

(** [Initialize] on a tailer without readers creates the readers one by
    one, each with no open log, up to the first [CreateReader] that
    fails, and returns the status of that one, or OK when none fails. It
    leaves the readers that it created in place, so that, when a later
    reader failed, a second call finds the tailer initialized: it returns
    OK and creates no reader, whatever it is called with. Without one of
    the callbacks nothing is created. *)
Theorem Initialize_creates_the_readers num_readers CreateReader s :
  readers_ s = [] ->
  (forall on_gap,
     Initialize false on_gap num_readers CreateReader s
     = (InvalidArgument "on_record must not be null", s)) /\
  Initialize true false num_readers CreateReader s
  = (InvalidArgument "on_gap must not be null", s) /\
  exists k,
    k <= num_readers /\
    (Initialize true true num_readers CreateReader s).2
    = mk (replicate k (mkReader ∅)) (stats_ s) /\
    NumberOpenLogs (Initialize true true num_readers CreateReader s).2 = 0%Z /\
    (forall i, i < k -> ok (CreateReader i) = true) /\
    (k = num_readers ->
     (Initialize true true num_readers CreateReader s).1 = OK) /\
    (k < num_readers ->
     (Initialize true true num_readers CreateReader s).1 = CreateReader k /\
     ok (CreateReader k) = false) /\
    (0 < k ->
     forall on_record on_gap num_readers' CreateReader',
       Initialize on_record on_gap num_readers' CreateReader'
         (Initialize true true num_readers CreateReader s).2
       = (OK, (Initialize true true num_readers CreateReader s).2)).
Proof.
  intros Hnone. unfold Initialize. rewrite Hnone. cbn [length].
  rewrite !decide_False by (intros Hne; by apply Hne).
  split; [done|]. split; [done|]. cbn [negb].
  destruct (Initialize_loop_spec CreateReader num_readers 0 [])
    as (k & Hk & Hreaders & Hall & Hdone & Hfailed).
  destruct (Initialize_loop CreateReader num_readers 0 []) as [st readers].
  cbn [fst snd app] in *. subst readers. exists k.
  split; [done|]. split; [done|]. split.
  { unfold NumberOpenLogs. cbn [readers_]. clear.
    change (foldl _ 0%Z ?l) with (open_in l).
    induction k as [|k IH]; [done|]. cbn [replicate]. unfold open_in.
    cbn [foldl]. rewrite open_in_from, IH. cbn [log_state].
    rewrite map_size_empty. lia. }
  split; [done|]. split; [done|]. split; [done|].
  intros Hpos on_record on_gap num_readers' CreateReader'.
  cbn [readers_]. rewrite decide_True; [done|].
  rewrite length_replicate. lia.
Qed.

(** *** A tailer with one reader *)

Definition one_reader : t * Counters :=
  (mk [mkReader ∅] (mkStats 0 0), mkCounters 0 0 0).

Definition start_read_stop : list Op :=
  [DoStartReading OK 7%Z 10%Z 0;
   DoCommand (ForwardRecord (example_data 9) 7%Z 0);
   DoCommand (ForwardRecord (example_data 10) 7%Z 0);
   DoStopReading OK 7%Z 0;
   DoCommand (ForwardRecord (example_data 11) 7%Z 0)].

Lemma start_read_stop_in_range :
  Forall (fun o => reader_of_op o < length (readers_ one_reader.1))
         start_read_stop.
Proof. repeat constructor. Defined.

Lemma reading_follows_the_protocol_witness :
  Forall (fun o => reader_of_op o < length (readers_ one_reader.1))
         start_read_stop /\
  exists s' seen,
    observe start_read_stop one_reader = Some (s', seen) /\
    follows 0 7%Z (expected_at one_reader.1 0 7%Z) seen
    = Some (expected_at s'.1 0 7%Z).
Proof.
  split; [exact start_read_stop_in_range|].
  exact (reading_follows_the_protocol start_read_stop one_reader 0 7%Z
           start_read_stop_in_range).
Defined.

Lemma open_logs_are_counted_witness :
  Forall (fun o => reader_of_op o < length (readers_ one_reader.1))
         start_read_stop /\
  NumberOpenLogs one_reader.1 = 0%Z /\ one_reader.2 = mkCounters 0 0 0 /\
  exists s' seen,
    observe start_read_stop one_reader = Some (s', seen) /\
    NumberOpenLogs s'.1 = (readers_started s'.2 - readers_stopped s'.2)%Z /\
    readers_stopped s'.2 = count closed seen /\
    (readers_started s'.2 + readers_restarted s'.2)%Z
    = count opened_ok seen /\
    (readers_stopped s'.2 <= readers_started s'.2)%Z.
Proof.
  assert (H1 : NumberOpenLogs one_reader.1 = 0%Z) by reflexivity.
  assert (H2 : one_reader.2 = mkCounters 0 0 0) by reflexivity.
  split; [exact start_read_stop_in_range|]. split; [exact H1|].
  split; [exact H2|].
  exact (open_logs_are_counted start_read_stop one_reader
           start_read_stop_in_range H1 H2).
Defined.

(** The storage creates two readers and fails on the third. *)
Definition two_then_failure (reader_id : nat) : Status :=
  if decide (reader_id < 2) then OK else Failure "no more readers".

Definition no_readers : t := mk [] (mkStats 0 0).

Lemma Initialize_creates_the_readers_witness :
  readers_ no_readers = [] /\
  (forall on_gap,
     Initialize false on_gap 3 two_then_failure no_readers
     = (InvalidArgument "on_record must not be null", no_readers)) /\
  Initialize true false 3 two_then_failure no_readers
  = (InvalidArgument "on_gap must not be null", no_readers) /\
  exists k,
    k <= 3 /\
    (Initialize true true 3 two_then_failure no_readers).2
    = mk (replicate k (mkReader ∅)) (stats_ no_readers) /\
    NumberOpenLogs (Initialize true true 3 two_then_failure no_readers).2
    = 0%Z /\
    (forall i, i < k -> ok (two_then_failure i) = true) /\
    (k = 3 ->
     (Initialize true true 3 two_then_failure no_readers).1 = OK) /\
    (k < 3 ->
     (Initialize true true 3 two_then_failure no_readers).1
     = two_then_failure k /\
     ok (two_then_failure k) = false) /\
    (0 < k ->
     forall on_record on_gap num_readers' CreateReader',
       Initialize on_record on_gap num_readers' CreateReader'
         (Initialize true true 3 two_then_failure no_readers).2
       = (OK, (Initialize true true 3 two_then_failure no_readers).2)).
Proof.
  assert (H1 : readers_ no_readers = []) by reflexivity.
  split; [exact H1|].
  exact (Initialize_creates_the_readers 3 two_then_failure no_readers H1).
Defined.

End LogTailerControlProofs.

(** ** The class and the type of a message *)

Module NewInstanceProofs.
Import Wire Codec NewInstance WireProofs.

(** The types that [CreateNewInstance] has a case for. *)
Definition handled (T : MessageTypes) : list Z :=
  [mPing T; mPublish T; mDeliver T; mDataAck T; mGap T; mGoodbye T;
   mSubscribe T; mUnsubscribe T; mDeliverGap T; mDeliverData T;
   mFindTailSeqno T; mTailSeqno T; mDeliverBatch T; mHeartbeat T;
   mHeartbeatDelta T; mBacklogQuery T; mBacklogFill T; mIntroduction T;
   mSubAck T].

(** The class of [m] is the one that [CreateNewInstance] makes an object
    of for [mtype]; it makes no object of the class [MessageDeliver]
    itself. *)
Definition class_for (T : MessageTypes) (mtype : Z) (m : AnyMessage) : Prop :=
  match m with
  | Ping _ => mtype = mPing T
  | Data _ => mtype = mPublish T \/ mtype = mDeliver T
  | DataAck _ => mtype = mDataAck T
  | Gap _ => mtype = mGap T
  | Goodbye _ => mtype = mGoodbye T
  | Subscribe _ => mtype = mSubscribe T
  | Unsubscribe _ => mtype = mUnsubscribe T
  | Deliver _ => False
  | DeliverGap _ => mtype = mDeliverGap T
  | DeliverData _ => mtype = mDeliverData T
  | DeliverBatch _ => mtype = mDeliverBatch T
  | Heartbeat _ => mtype = mHeartbeat T
  | HeartbeatDelta _ => mtype = mHeartbeatDelta T
  | FindTailSeqno _ => mtype = mFindTailSeqno T
  | TailSeqno _ => mtype = mTailSeqno T
  | BacklogQuery _ => mtype = mBacklogQuery T
  | BacklogFill _ => mtype = mBacklogFill T
  | Introduction _ => mtype = mIntroduction T
  | SubAck _ => mtype = mSubAck T
  end.

Section types.

Context `{WireFormat}.

(** [DeSerialize] reads the type from the first byte. *)
Definition reads_type {A} (base : A -> Message.t) (r : result A)
    (in_ : Slice) : Prop :=
  forall m rest, r = OK m rest ->
  exists b in', in_ = b :: in' /\ Message.type_ (base m) = byte_to_Z b.

Ltac read_type :=
  intros m rest Hrun;
  match goal with
  | |- exists b in', ?in_ = _ /\ _ =>
      destruct in_ as [|b in_]; [by cbn in Hrun|]
  end;
  cbn [GetFixedEnum8] in Hrun;
  repeat case_match; simplify_eq; by eexists _, _.

Lemma Message_reads_type in_ :
  reads_type id (Message.DeSerialize in_) in_.
Proof. unfold Message.DeSerialize. read_type. Qed.

Lemma MessagePing_reads_type in_ :
  reads_type MessagePing.base (MessagePing.DeSerialize in_) in_.
Proof. unfold MessagePing.DeSerialize. read_type. Qed.

Lemma MessageData_reads_type self in_ :
  reads_type MessageData.base (MessageData.DeSerialize self in_) in_.
Proof.
  unfold MessageData.DeSerialize, MessageData.DeSerializeStorage. read_type.
Qed.

Lemma MessageDataAck_reads_type self in_ :
  reads_type MessageDataAck.base
    (MessageDataAck.DeSerialize self in_) in_.
Proof. unfold MessageDataAck.DeSerialize. read_type. Qed.

Lemma MessageGap_reads_type in_ :
  reads_type MessageGap.base
    (MessageGap.DeSerialize in_) in_.
Proof. unfold MessageGap.DeSerialize. read_type. Qed.

Lemma MessageGoodbye_reads_type in_ :
  reads_type MessageGoodbye.base
    (MessageGoodbye.DeSerialize in_) in_.
Proof. unfold MessageGoodbye.DeSerialize. read_type. Qed.

Lemma MessageSubscribe_reads_type self in_ :
  reads_type MessageSubscribe.base
    (MessageSubscribe.DeSerialize self in_) in_.
Proof. unfold MessageSubscribe.DeSerialize, Message.DeSerialize. read_type. Qed.

Lemma MessageUnsubscribe_reads_type in_ :
  reads_type MessageUnsubscribe.base
    (MessageUnsubscribe.DeSerialize in_) in_.
Proof. unfold MessageUnsubscribe.DeSerialize, Message.DeSerialize. read_type. Qed.

Lemma MessageDeliverGap_reads_type self in_ :
  reads_type (fun m => MessageDeliver.base (MessageDeliverGap.deliver m))
    (MessageDeliverGap.DeSerialize self in_) in_.
Proof. unfold MessageDeliverGap.DeSerialize, MessageDeliver.DeSerialize, Message.DeSerialize. read_type. Qed.

Lemma MessageDeliverData_reads_type self in_ :
  reads_type (fun m => MessageDeliver.base (MessageDeliverData.deliver m))
    (MessageDeliverData.DeSerialize self in_) in_.
Proof. unfold MessageDeliverData.DeSerialize, MessageDeliver.DeSerialize, Message.DeSerialize. read_type. Qed.

Lemma MessageFindTailSeqno_reads_type in_ :
  reads_type MessageFindTailSeqno.base
    (MessageFindTailSeqno.DeSerialize in_) in_.
Proof. unfold MessageFindTailSeqno.DeSerialize, Message.DeSerialize. read_type. Qed.

Lemma MessageTailSeqno_reads_type in_ :
  reads_type MessageTailSeqno.base
    (MessageTailSeqno.DeSerialize in_) in_.
Proof. unfold MessageTailSeqno.DeSerialize, Message.DeSerialize. read_type. Qed.

Lemma MessageDeliverBatch_reads_type in_ :
  reads_type MessageDeliverBatch.base
    (MessageDeliverBatch.DeSerialize in_) in_.
Proof. unfold MessageDeliverBatch.DeSerialize, Message.DeSerialize. read_type. Qed.

Lemma MessageHeartbeat_reads_type self in_ :
  reads_type MessageHeartbeat.base
    (MessageHeartbeat.DeSerialize self in_) in_.
Proof. unfold MessageHeartbeat.DeSerialize. read_type. Qed.

Lemma MessageHeartbeatDelta_reads_type self in_ :
  reads_type MessageHeartbeatDelta.base
    (MessageHeartbeatDelta.DeSerialize self in_) in_.
Proof. unfold MessageHeartbeatDelta.DeSerialize. read_type. Qed.

Lemma MessageBacklogQuery_reads_type in_ :
  reads_type MessageBacklogQuery.base
    (MessageBacklogQuery.DeSerialize in_) in_.
Proof. unfold MessageBacklogQuery.DeSerialize. read_type. Qed.

Lemma MessageBacklogFill_reads_type in_ :
  reads_type MessageBacklogFill.base
    (MessageBacklogFill.DeSerialize in_) in_.
Proof. unfold MessageBacklogFill.DeSerialize. read_type. Qed.

Lemma MessageIntroduction_reads_type in_ :
  reads_type MessageIntroduction.base
    (MessageIntroduction.DeSerialize in_) in_.
Proof. unfold MessageIntroduction.DeSerialize, Message.DeSerialize. read_type. Qed.

Lemma MessageSubAck_reads_type self in_ :
  reads_type MessageSubAck.base
    (MessageSubAck.DeSerialize self in_) in_.
Proof. unfold MessageSubAck.DeSerialize, Message.DeSerialize. read_type. Qed.

Lemma release_Some {A} (inj : A -> AnyMessage) (st : result A) m :
  release inj st = Some m -> exists msg rest, st = OK msg rest /\ m = inj msg.
Proof.
  destruct st as [msg rest|what]; [|done]. intros [= <-]. by exists msg, rest.
Qed.

(** An object that [CreateNewInstance] returns is of the class that goes
    with its type, and its type is the first byte of the input, which is
    one that [CreateNewInstance] has a case for: a receiver that looks at
    [GetMessageType()] may cast the object to the class of that type.
    There is no object for an empty input, nor for another first byte. *)
Theorem CreateNewInstance_makes_the_class_of_the_type T new in_ m :
  CreateNewInstance T new in_ = Some m ->
  exists mtype rest,
    in_ = mtype :: rest /\
    GetMessageType m = byte_to_Z mtype /\
    byte_to_Z mtype <> NotInitialized T /\
    byte_to_Z mtype ∈ handled T /\
    class_for T (GetMessageType m) m.
Proof.
  unfold CreateNewInstance. cbv zeta.
  destruct in_ as [|mtype in_]; cbn [ReadMessageType].
  { by rewrite decide_True. }
  intros Hrun. exists mtype, in_. split; [done|].
  assert (Hfirst : forall b in', mtype :: in_ = b :: in' -> b = mtype)
    by (by intros b in' [= <- _]).
  assert (Hin : forall x, x ∈ handled T ->
            byte_to_Z mtype = x -> byte_to_Z mtype ∈ handled T)
    by (by intros x Hx ->).
  repeat case_decide; try done;
    apply release_Some in Hrun as (msg & rest & Hrun & ->);
    unfold GetMessageType; cbn [class_for];
    match type of Hrun with
    | MessagePing.DeSerialize _ = _ =>
        apply MessagePing_reads_type in Hrun
    | MessageData.DeSerialize _ _ = _ =>
        apply MessageData_reads_type in Hrun
    | MessageDataAck.DeSerialize _ _ = _ =>
        apply MessageDataAck_reads_type in Hrun
    | MessageGap.DeSerialize _ = _ => apply MessageGap_reads_type in Hrun
    | MessageGoodbye.DeSerialize _ = _ =>
        apply MessageGoodbye_reads_type in Hrun
    | MessageSubscribe.DeSerialize _ _ = _ =>
        apply MessageSubscribe_reads_type in Hrun
    | MessageUnsubscribe.DeSerialize _ = _ =>
        apply MessageUnsubscribe_reads_type in Hrun
    | MessageDeliverGap.DeSerialize _ _ = _ =>
        apply MessageDeliverGap_reads_type in Hrun
    | MessageDeliverData.DeSerialize _ _ = _ =>
        apply MessageDeliverData_reads_type in Hrun
    | MessageFindTailSeqno.DeSerialize _ = _ =>
        apply MessageFindTailSeqno_reads_type in Hrun
    | MessageTailSeqno.DeSerialize _ = _ =>
        apply MessageTailSeqno_reads_type in Hrun
    | MessageDeliverBatch.DeSerialize _ = _ =>
        apply MessageDeliverBatch_reads_type in Hrun
    | MessageHeartbeat.DeSerialize _ _ = _ =>
        apply MessageHeartbeat_reads_type in Hrun
    | MessageHeartbeatDelta.DeSerialize _ _ = _ =>
        apply MessageHeartbeatDelta_reads_type in Hrun
    | MessageBacklogQuery.DeSerialize _ = _ =>
        apply MessageBacklogQuery_reads_type in Hrun
    | MessageBacklogFill.DeSerialize _ = _ =>
        apply MessageBacklogFill_reads_type in Hrun
    | MessageIntroduction.DeSerialize _ = _ =>
        apply MessageIntroduction_reads_type in Hrun
    | MessageSubAck.DeSerialize _ _ = _ =>
        apply MessageSubAck_reads_type in Hrun
    end;
    destruct Hrun as (b & in' & Hb & Htype);
    apply Hfirst in Hb as ->; rewrite Htype;
    (split; [done|]); (split; [done|]); (split; [|done]);
    repeat match goal with Hor : _ \/ _ |- _ => destruct Hor end;
    match goal with Heq : byte_to_Z mtype = _ |- _ => rewrite Heq end;
    unfold handled; repeat constructor.
Qed.

Lemma ReadMessageType_read {A} T (base : A -> Message.t) (st : result A)
    serial m rest :
  reads_type base st serial -> st = OK m rest ->
  ReadMessageType T serial = Message.type_ (base m).
Proof.
  intros Hreads Hrun. destruct (Hreads m rest Hrun) as (b & in' & -> & ->).
  done.
Qed.

End types.

Section laws.

Context `{WireFormatLaws}.

(** The values of the enumerators differ from one another. *)
Definition distinct (T : MessageTypes) : Prop :=
  NoDup (NotInitialized T :: handled T).

(** The vectors of a new object are empty. *)
Definition empty_vectors (new : NewObjects) : Prop :=
  MessageDataAck.acks_ (new_MessageDataAck new) = [] /\
  MessageHeartbeat.healthy_streams_ (new_MessageHeartbeat new) = [] /\
  MessageHeartbeatDelta.added_healthy_ (new_MessageHeartbeatDelta new) = [] /\
  MessageHeartbeatDelta.removed_healthy_ (new_MessageHeartbeatDelta new) = [].

Ltac copy_class Hrt Hreads :=
  match goal with
  | Hclass : GetMessageType _ = _ |- _ =>
      unfold Copy, CreateNewInstance; cbv zeta; cbn [Serialize];
      rewrite (ReadMessageType_read _ _ _ _ _ _ Hreads Hrt);
      cbn [MessageHeartbeat.sent MessageHeartbeat.base
           MessageHeartbeatDelta.sent MessageHeartbeatDelta.base];
      unfold GetMessageType in Hclass; rewrite Hclass;
      repeat (rewrite decide_False
                by first [congruence | intros [?|?]; congruence]);
      rewrite decide_True by first [done | by left | by right];
      by rewrite Hrt
  end.

(** [Copy] of a well-formed message whose type is the type of its class
    returns a message, and the message is equal to the one it is given but
    for the timestamp of a heartbeat, which has lost what it had below a
    millisecond: the copy is equal exactly when the message is no
    heartbeat, or a heartbeat on a whole millisecond. *)
Theorem Copy_returns_the_message T new m :
  distinct T -> empty_vectors new ->
  WellFormed m -> class_for T (GetMessageType m) m ->
  Copy T new m = Some (sent m) /\
  (sent m = m <-> in_milliseconds m).
Proof.
  intros Hdistinct (Hacks & Hhealthy & Hadded & Hremoved) Hwf Hclass.
  split; [|apply CodecProofs.sent_fixed].
  unfold distinct, handled in Hdistinct.
  repeat match goal with
         | Hnd : NoDup (_ :: _) |- _ => apply NoDup_cons in Hnd as [? Hnd]
         end.
  repeat match goal with
         | Hn : _ ∉ _ :: _ |- _ => apply not_elem_of_cons in Hn as [? Hn]
         end.
  destruct m as [m|m|m|m|m|m|m|m|m|m|m|m|m|m|m|m|m|m|m];
    cbn [class_for WellFormed] in Hwf, Hclass; try done; cbn [sent].
  - pose proof (MessagePing_roundtrip m [] Hwf) as Hrt.
    rewrite app_nil_r in Hrt.
    copy_class Hrt (MessagePing_reads_type (MessagePing.Serialize m [])).
  - pose proof (MessageData_roundtrip (new_MessageData new) m [] Hwf) as Hrt.
    rewrite app_nil_r in Hrt.
    destruct Hclass as [Hclass|Hclass];
      copy_class Hrt (MessageData_reads_type (new_MessageData new)
                        (MessageData.Serialize m [])).
  - pose proof (MessageDataAck_roundtrip (new_MessageDataAck new) m []
                  Hacks Hwf) as Hrt.
    rewrite app_nil_r in Hrt.
    copy_class Hrt (MessageDataAck_reads_type (new_MessageDataAck new)
                      (MessageDataAck.Serialize m [])).
  - pose proof (MessageGap_roundtrip m [] Hwf) as Hrt.
    rewrite app_nil_r in Hrt.
    copy_class Hrt (MessageGap_reads_type (MessageGap.Serialize m [])).
  - pose proof (MessageGoodbye_roundtrip m [] Hwf) as Hrt.
    rewrite app_nil_r in Hrt.
    copy_class Hrt (MessageGoodbye_reads_type (MessageGoodbye.Serialize m [])).
  - pose proof (MessageSubscribe_roundtrip (new_MessageSubscribe new) m []
                  Hwf) as Hrt.
    rewrite app_nil_r in Hrt.
    copy_class Hrt (MessageSubscribe_reads_type (new_MessageSubscribe new)
                      (MessageSubscribe.Serialize m [])).
  - pose proof (MessageUnsubscribe_roundtrip m [] Hwf) as Hrt.
    rewrite app_nil_r in Hrt.
    copy_class Hrt (MessageUnsubscribe_reads_type
                      (MessageUnsubscribe.Serialize m [])).
  - pose proof (MessageDeliverGap_roundtrip (new_MessageDeliverGap new) m []
                  Hwf) as Hrt.
    rewrite app_nil_r in Hrt.
    copy_class Hrt (MessageDeliverGap_reads_type (new_MessageDeliverGap new)
                      (MessageDeliverGap.Serialize m [])).
  - pose proof (MessageDeliverData_roundtrip (new_MessageDeliverData new) m
                  [] Hwf) as Hrt.
    rewrite app_nil_r in Hrt.
    copy_class Hrt (MessageDeliverData_reads_type
                      (new_MessageDeliverData new)
                      (MessageDeliverData.Serialize m [])).
  - pose proof (MessageDeliverBatch_roundtrip m [] Hwf) as Hrt.
    rewrite app_nil_r in Hrt.
    copy_class Hrt (MessageDeliverBatch_reads_type
                      (MessageDeliverBatch.Serialize m [])).
  - pose proof (MessageHeartbeat_roundtrip (new_MessageHeartbeat new) m
                  Hhealthy Hwf) as Hrt.
    copy_class Hrt (MessageHeartbeat_reads_type (new_MessageHeartbeat new)
                      (MessageHeartbeat.Serialize m [])).
  - pose proof (MessageHeartbeatDelta_roundtrip
                  (new_MessageHeartbeatDelta new) m [] Hadded Hremoved Hwf)
      as Hrt.
    rewrite app_nil_r in Hrt.
    copy_class Hrt (MessageHeartbeatDelta_reads_type
                      (new_MessageHeartbeatDelta new)
                      (MessageHeartbeatDelta.Serialize m [])).
  - pose proof (MessageFindTailSeqno_roundtrip m [] Hwf) as Hrt.
    rewrite app_nil_r in Hrt.
    copy_class Hrt (MessageFindTailSeqno_reads_type
                      (MessageFindTailSeqno.Serialize m [])).
  - pose proof (MessageTailSeqno_roundtrip m [] Hwf) as Hrt.
    rewrite app_nil_r in Hrt.
    copy_class Hrt (MessageTailSeqno_reads_type
                      (MessageTailSeqno.Serialize m [])).
  - pose proof (MessageBacklogQuery_roundtrip m [] Hwf) as Hrt.
    rewrite app_nil_r in Hrt.
    copy_class Hrt (MessageBacklogQuery_reads_type
                      (MessageBacklogQuery.Serialize m [])).
  - pose proof (MessageBacklogFill_roundtrip m [] Hwf) as Hrt.
    rewrite app_nil_r in Hrt.
    copy_class Hrt (MessageBacklogFill_reads_type
                      (MessageBacklogFill.Serialize m [])).
  - pose proof (MessageIntroduction_roundtrip m [] Hwf) as Hrt.
    rewrite app_nil_r in Hrt.
    copy_class Hrt (MessageIntroduction_reads_type
                      (MessageIntroduction.Serialize m [])).
  - pose proof (MessageSubAck_roundtrip (new_MessageSubAck new) m [] Hwf)
      as Hrt.
    rewrite app_nil_r in Hrt.
    copy_class Hrt (MessageSubAck_reads_type (new_MessageSubAck new)
                      (MessageSubAck.Serialize m [])).
Qed.

End laws.

(** *** The types in the order of [kMessageTypeNames] *)

Definition wire_types : MessageTypes :=
  {| NotInitialized := 0; mPing := 1; mPublish := 2; mDataAck := 4;
     mGap := 5; mDeliver := 6; mGoodbye := 7; mSubscribe := 8;
     mUnsubscribe := 9; mDeliverGap := 10; mDeliverData := 11;
     mFindTailSeqno := 12; mTailSeqno := 13; mDeliverBatch := 14;
     mHeartbeat := 15; mHeartbeatDelta := 16; mBacklogQuery := 17;
     mBacklogFill := 18; mIntroduction := 19; mSubAck := 20 |}.

Definition zero_deliver : MessageDeliver.t :=
  MessageDeliver.mk (Message.mk 0 0) 0 0 0.

Definition zero_objects : NewObjects :=
  {| new_MessageData := MessageData.mk (Message.mk 2 0) 0 0 [] [] [] [];
     new_MessageDataAck := MessageDataAck.mk (Message.mk 4 0) [];
     new_MessageSubscribe :=
       MessageSubscribe.mk (Message.mk 8 0) [] [] 0 [];
     new_MessageDeliverGap := MessageDeliverGap.mk zero_deliver 0 [] [] [];
     new_MessageDeliverData :=
       MessageDeliverData.mk zero_deliver [] [] [] [] [];
     new_MessageHeartbeat := MessageHeartbeat.mk (Message.mk 15 0) 0 [];
     new_MessageHeartbeatDelta :=
       MessageHeartbeatDelta.mk (Message.mk 16 0) 0 [] [];
     new_MessageSubAck := MessageSubAck.mk (Message.mk 20 0) [] [] 0 [] |}.

Lemma wire_types_distinct : distinct wire_types.
Proof.
  apply (bool_decide_unpack
           (NoDup (NotInitialized wire_types :: handled wire_types))).
  vm_compute. exact I.
Qed.

Lemma CreateNewInstance_makes_the_class_of_the_type_witness :
  CreateNewInstance wire_types zero_objects
    (Serialize CodecProofs.example_subscribe)
  = Some CodecProofs.example_subscribe /\
  exists mtype rest,
    Serialize CodecProofs.example_subscribe = mtype :: rest /\
    GetMessageType CodecProofs.example_subscribe = byte_to_Z mtype /\
    byte_to_Z mtype <> NotInitialized wire_types /\
    byte_to_Z mtype ∈ handled wire_types /\
    class_for wire_types (GetMessageType CodecProofs.example_subscribe)
      CodecProofs.example_subscribe.
Proof.
  assert (H1 : CreateNewInstance wire_types zero_objects
                 (Serialize CodecProofs.example_subscribe)
               = Some CodecProofs.example_subscribe)
    by (vm_compute; reflexivity).
  split; [exact H1|].
  exact (CreateNewInstance_makes_the_class_of_the_type wire_types
           zero_objects _ _ H1).
Defined.

(** The heartbeat taken 1.5 ms after the epoch: its copy is the heartbeat
    of 1 ms after the epoch. *)
Lemma Copy_returns_the_message_witness :
  distinct wire_types /\ empty_vectors zero_objects /\
  WellFormed CodecProofs.example_heartbeat /\
  class_for wire_types (GetMessageType CodecProofs.example_heartbeat)
    CodecProofs.example_heartbeat /\
  Copy wire_types zero_objects CodecProofs.example_heartbeat
  = Some (sent CodecProofs.example_heartbeat) /\
  (sent CodecProofs.example_heartbeat = CodecProofs.example_heartbeat
   <-> in_milliseconds CodecProofs.example_heartbeat).
Proof.
  assert (H1 : empty_vectors zero_objects) by (by repeat split).
  assert (H3 : class_for wire_types
                 (GetMessageType CodecProofs.example_heartbeat)
                 CodecProofs.example_heartbeat) by reflexivity.
  split; [exact wire_types_distinct|]. split; [exact H1|].
  split; [exact CodecProofs.example_heartbeat_WellFormed|].
  split; [exact H3|].
  exact (Copy_returns_the_message (H := CodecProofs.LittleEndian_laws)
           wire_types zero_objects CodecProofs.example_heartbeat
           wire_types_distinct H1 CodecProofs.example_heartbeat_WellFormed
           H3).
Defined.

End NewInstanceProofs.
(** ** From [GetStorage] to the callback of the tailer *)

Module StoragePathProofs.
Import Wire Codec LogTailer MessageStorage WireProofs.

Section laws.

Context `{WireFormatLaws}.

(** [DeSerializeStorage] reads back what [GetStorage] wrote, and leaves
    the type and the sequence numbers of the object as they are. *)
Lemma DeSerializeStorage_GetStorage self (m : MessageData.t) rest :
  MessageData.WellFormed m ->
  MessageData.DeSerializeStorage self (GetStorage m ++ rest)
  = OK (MessageData.mk
          (Message.mk (Message.type_ (MessageData.base self))
             (Message.tenantid_ (MessageData.base m)))
          (MessageData.seqno_prev_ self) (MessageData.seqno_ self)
          (MessageData.topic_name_ m) (MessageData.payload_ m)
          (MessageData.namespaceid_ m) (MessageData.msgid_ m))
       rest.
Proof.
  destruct m as [[ty tenant] prev seqno topic payload ns msgid].
  intros ([Hty Htenant] & Hprev & Hseqno & Hns & Htopic & Hid & Hpayload).
  simpl in *.
  unfold GetStorage, MessageData.SerializeInternal,
    MessageData.DeSerializeStorage; simpl.
  put_to_app. get_all.
  rewrite decide_False by lia. get_all.
  rewrite <- Hid, firstn_all. reflexivity.
Qed.

(** A message that was stored with [GetStorage] comes back from the log
    as it was stored: [record_cb] forwards it with its tenant, namespace,
    topic, message ID and payload, as a message of type [mDeliver] with
    the sequence number of the record and the one before it as the
    previous one. On a log that expects the sequence number, the command
    hands this message to [on_record] and moves the expectation on by
    one. When the queue does not take the command, the record is handed
    back as it was. *)
Theorem stored_message_is_delivered (mDeliver : Z) (m : MessageData.t)
    (log_id : LogID) (seqno : SequenceNumber) (reader_id : nat)
    (queue : list Command) :
  MessageData.WellFormed m ->
  let record := mkLogRecord log_id seqno (GetStorage m) in
  let msg :=
    mkData
      (MessageData.mk
         (Message.mk mDeliver (Message.tenantid_ (MessageData.base m)))
         (uint64 (seqno - 1)) seqno (MessageData.topic_name_ m)
         (MessageData.payload_ m) (MessageData.namespaceid_ m)
         (MessageData.msgid_ m))
      record in
  record_cb mDeliver reader_id true record queue
  = (true, None, queue ++ [ForwardRecord msg log_id reader_id]) /\
  record_cb mDeliver reader_id false record queue
  = (false, Some record, queue) /\
  forall (World : Type) on_record on_gap (s : t * World) reader,
    readers_ s.1 !! reader_id = Some reader ->
    log_state reader !! log_id = Some seqno ->
    run_command on_record on_gap (ForwardRecord msg log_id reader_id) s
    = Some (on_record msg log_id reader_id
              (set_expected s.1 reader_id log_id (uint64 (seqno + 1)), s.2)).
Proof.
  intros Hwf record msg.
  pose proof (DeSerializeStorage_GetStorage (MessageData_new mDeliver) m []
                Hwf) as Hread.
  rewrite app_nil_r in Hread.
  assert (Hnew : LogRecordMessageData_new mDeliver record = (msg, StatusOK)).
  { unfold LogRecordMessageData_new. cbn [payload record]. by rewrite Hread. }
  split; [|split].
  - unfold record_cb. cbv zeta. by rewrite Hnew.
  - unfold record_cb. cbv zeta. by rewrite Hnew.
  - intros World on_record on_gap s reader Hreader Hexpected.
    cbn [run_command]. unfold RecordCallback. rewrite Hreader.
    cbn [mbind option_bind]. rewrite Hexpected.
    by rewrite decide_False by (intros Hne; by apply Hne).
Qed.

End laws.

(** *** A message of tenant 102 at sequence number 5 of log 7 *)

Definition stored : MessageData.t :=
  MessageData.mk (Message.mk 2 102) 0 0
    (CodecProofs.bytes_of_string "test_topic")
    (CodecProofs.bytes_of_string "payload")
    (CodecProofs.bytes_of_string "102")
    (CodecProofs.bytes_of_string "0123456789abcdef").

Lemma stored_message_is_delivered_witness :
  MessageData.WellFormed stored /\
  let record := mkLogRecord 7 5 (GetStorage stored) in
  let msg :=
    mkData
      (MessageData.mk
         (Message.mk 6 (Message.tenantid_ (MessageData.base stored)))
         (uint64 (5 - 1)) 5 (MessageData.topic_name_ stored)
         (MessageData.payload_ stored) (MessageData.namespaceid_ stored)
         (MessageData.msgid_ stored))
      record in
  record_cb 6 0 true record []
  = (true, None, [] ++ [ForwardRecord msg 7 0]) /\
  record_cb 6 0 false record [] = (false, Some record, []) /\
  forall (World : Type) on_record on_gap (s : t * World) reader,
    readers_ s.1 !! 0%nat = Some reader ->
    log_state reader !! 7 = Some 5 ->
    run_command on_record on_gap (ForwardRecord msg 7 0) s
    = Some (on_record msg 7 0%nat
              (set_expected s.1 0 7 (uint64 (5 + 1)), s.2)).
Proof.
  assert (H1 : MessageData.WellFormed stored).
  { repeat split; simpl; lia. }
  split; [exact H1|].
  exact (stored_message_is_delivered (H := CodecProofs.LittleEndian_laws)
           6 stored 7 5 0 [] H1).
Defined.

End StoragePathProofs.

(** ** What [Remove] returns and leaves in topic_subscription_map.cc *)

Module TopicMapRemoveProofs.
Import TopicToSubscriptionMap TopicMapProofs.

Section traces.

Variable XXH64 : Z -> list byte -> Z.
Variable get_state_ : SubscriptionID -> option SubscriptionState.

(** [Remove] returns false only where it leaves the map as it is. *)
Lemma Remove_false namespace_id topic_name id m m' :
  Remove XXH64 get_state_ namespace_id topic_name id m = Some (false, m') ->
  m' = m.
Proof.
  unfold Remove. cbv zeta.
  destruct (Remove_find _ _ _ _ _) as [position|]; [|done].
  cbn [mbind option_bind].
  destruct (vector_ m !! position) as [current|]; [|done].
  cbn [mbind option_bind]. case_decide; [by intros [= <-]|].
  destruct (Remove_shift _ _ _ _ _) as [vector_'|]; [|done].
  cbn [mbind option_bind]. by destruct (Rehash _ _ _).
Qed.

(** After a legal sequence of [Insert] and [Remove] on a fresh map,
    [Remove] of an ID returns true exactly when the ID is in the map,
    inserted and not yet removed. It takes out that ID and no other: the
    IDs stored afterwards are the other live IDs, each once, and [Find]
    does not return the removed ID for any namespace and topic. A
    [Remove] that returns false leaves the map as it is. *)
Theorem Remove_returns_whether_stored ops namespace_id topic_name id :
  ops <> [] -> legal_from_empty get_state_ ops ->
  (Z.of_nat (length ops) < 2 ^ 50)%Z ->
  id <> 0%Z ->
  (id ∈ live_after ops ->
   key_of get_state_ id = Some (namespace_id, topic_name)) ->
  exists m m',
    run XXH64 get_state_ ops empty = Some m /\
    Remove XXH64 get_state_ namespace_id topic_name id m
    = Some (bool_decide (id ∈ live_after ops), m') /\
    (id ∉ live_after ops -> m' = m) /\
    entries (vector_ m') ≡ₚ filter (fun c => c <> id) (live_after ops) /\
    NoDup (entries (vector_ m')) /\
    forall namespace_id' topic_name',
      exists r state,
        Find XXH64 get_state_ namespace_id' topic_name' m' = Some (r, state) /\
        r <> id.
Proof.
  intros Hops [Hstart Hlegal] Hsmall Hid Hkey.
  destruct (run_spec XXH64 get_state_ ops empty []) as (m & Hrun & Hinv);
    [by right|done|by cbn|].
  destruct Hinv as [Hinv|[-> _]]; [|done].
  fold (live_after ops) in Hinv.
  assert (Hlive : (Z.of_nat (length (live_after ops)) < 2 ^ 50)%Z).
  { destruct Hinv as (_ & _ & _ & _ & _ & Hcount & _).
    assert (length (live_after ops) <= length ops)%nat; [|lia].
    clear. unfold live_after.
    assert (Hgen : forall live,
              (length (foldl live_step live ops)
               <= length live + length ops)%nat).
    { induction ops as [|o ops IH]; intros live; cbn [foldl length]; [lia|].
      etrans; [apply IH|]. destruct o; cbn [live_step length]; [lia|].
      pose proof (length_filter (fun c => c <> sub_id) live). lia. }
    apply (Hgen []). }
  destruct (Remove_spec XXH64 get_state_ m (live_after ops) namespace_id
              topic_name id Hinv Hid Hkey Hlive)
    as (m' & Hremove & Hinv' & _).
  exists m, m'. split; [done|]. split; [done|]. split.
  { intros Hnot. rewrite bool_decide_false in Hremove by done.
    by eapply Remove_false. }
  pose proof Hinv' as (_ & _ & _ & Hperm & Hnd & _).
  split; [done|]. split; [by rewrite Hperm|].
  intros namespace_id' topic_name'.
  destruct (Find_spec XXH64 get_state_ m' _ namespace_id' topic_name'
              (or_introl Hinv')) as (r & state & Hfind & Hres).
  exists r, state. split; [done|].
  destruct Hres as [(-> & _)|(Hin & _)]; [done|].
  by apply list_elem_of_filter in Hin as [Hne _].
Qed.

End traces.

Lemma Remove_returns_whether_stored_witness :
  insert_remove_insert <> [] /\
  legal_from_empty example_state insert_remove_insert /\
  (Z.of_nat (length insert_remove_insert) < 2 ^ 50)%Z /\
  2%Z <> 0%Z /\
  (2%Z ∈ live_after insert_remove_insert ->
   key_of example_state 2%Z = Some ([], topic_of 2%Z)) /\
  exists m m',
    run example_hash example_state insert_remove_insert empty = Some m /\
    Remove example_hash example_state [] (topic_of 2%Z) 2%Z m
    = Some (bool_decide (2%Z ∈ live_after insert_remove_insert), m') /\
    (2%Z ∉ live_after insert_remove_insert -> m' = m) /\
    entries (vector_ m')
    ≡ₚ filter (fun c => c <> 2%Z) (live_after insert_remove_insert) /\
    NoDup (entries (vector_ m')) /\
    forall namespace_id' topic_name',
      exists r state,
        Find example_hash example_state namespace_id' topic_name' m'
        = Some (r, state) /\
        r <> 2%Z.
Proof.
  assert (H1 : insert_remove_insert <> []) by discriminate.
  assert (H2 : (Z.of_nat (length insert_remove_insert) < 2 ^ 50)%Z)
    by reflexivity.
  assert (H3 : 2%Z <> 0%Z) by discriminate.
  assert (H4 : 2%Z ∈ live_after insert_remove_insert ->
               key_of example_state 2%Z = Some ([], topic_of 2%Z))
    by (intros _; vm_compute; reflexivity).
  split; [exact H1|]. split; [exact insert_remove_insert_legal|].
  split; [exact H2|]. split; [exact H3|]. split; [exact H4|].
  exact (Remove_returns_whether_stored example_hash example_state
           insert_remove_insert [] (topic_of 2%Z) 2%Z H1
           insert_remove_insert_legal H2 H3 H4).
Defined.

End TopicMapRemoveProofs.
(** ** The two [BitStreamPutInt] agree *)

Module BitStreamStringProofs.
Import BitStream BitStreamString BitStreamProofs.

Lemma byte_to_Z_inj a b : byte_to_Z a = byte_to_Z b -> a = b.
Proof. intros E. by rewrite <- (Z_to_byte_to_Z a), E, Z_to_byte_to_Z. Qed.

(** Buffers of the same length with the same bits are the same. *)
Lemma same_bits (a b : list byte) :
  length a = length b ->
  (forall i, 0 <= i < 8 * Z.of_nat (length a) ->
     stream_bit a i = stream_bit b i) ->
  a = b.
Proof.
  intros Hlen Hbits. apply list_eq. intros q.
  destruct (decide (q < length a)%nat) as [Hq|Hq]; cycle 1.
  { rewrite !lookup_ge_None_2 by lia. done. }
  destruct (lookup_lt_is_Some_2 a q Hq) as [x Hx].
  destruct (lookup_lt_is_Some_2 b q ltac:(lia)) as [y Hy].
  rewrite Hx, Hy. f_equal. apply byte_to_Z_inj. apply Z.bits_inj'.
  intros k Hk. destruct (Z.ltb_spec k 8) as [Hk8|Hk8]; cycle 1.
  { pose proof (byte_to_Z_range x). pose proof (byte_to_Z_range y).
    rewrite !(testbit_small _ 8) by lia. done. }
  rewrite <- (stream_bit_in_byte a (Z.of_nat q) k x),
          <- (stream_bit_in_byte b (Z.of_nat q) k y)
    by (rewrite ?Nat2Z.id; try done; lia).
  apply Hbits. lia.
Qed.

Lemma char_at_inside dst pos :
  0 <= pos < Z.of_nat (length dst) -> char_at dst pos = dst !! Z.to_nat pos.
Proof. intros Hpos. unfold char_at. by rewrite decide_False by lia. Qed.

Lemma char_at_is_Some dst pos :
  0 <= pos <= Z.of_nat (length dst) -> is_Some (char_at dst pos).
Proof.
  intros Hpos. unfold char_at. case_decide; [by eexists|].
  apply lookup_lt_is_Some_2. lia.
Qed.

Lemma copy_to_tmpBuf_spec dst first todo : forall idx tmpBuf,
  0 <= idx -> idx + Z.of_nat todo <= Z.of_nat (length tmpBuf) ->
  0 <= first ->
  first + idx + Z.of_nat todo <= Z.of_nat (length dst) + 1 ->
  exists tmp',
    copy_to_tmpBuf todo dst first idx tmpBuf = Some tmp' /\
    length tmp' = length tmpBuf /\
    forall j, 0 <= j ->
      tmp' !! Z.to_nat j
      = if decide (idx <= j < idx + Z.of_nat todo)
        then char_at dst (first + j) else tmpBuf !! Z.to_nat j.
Proof.
  induction todo as [|todo IH]; intros idx tmpBuf Hidx Htmp Hfirst Hdst.
  { exists tmpBuf. split; [done|]. split; [done|]. intros j Hj.
    by rewrite decide_False by lia. }
  cbn [copy_to_tmpBuf].
  destruct (char_at_is_Some dst (first + idx)) as [c Hc]; [lia|].
  rewrite Hc. cbn [mbind option_bind]. rewrite decide_True by lia.
  destruct (IH (idx + 1) (<[Z.to_nat idx := c]> tmpBuf))
    as (tmp' & Hrun & Hlen & Hlook); try lia.
  { rewrite length_insert. lia. }
  exists tmp'. split; [done|]. split; [by rewrite Hlen, length_insert|].
  intros j Hj. rewrite Hlook by done.
  destruct (decide (j = idx)) as [->|Hne].
  - rewrite decide_False by lia. rewrite decide_True by lia.
    rewrite list_lookup_insert_eq by lia. done.
  - rewrite list_lookup_insert_ne by lia.
    destruct (decide (idx + 1 <= j < idx + 1 + Z.of_nat todo));
      [by rewrite decide_True by lia|by rewrite decide_False by lia].
Qed.

Lemma copy_to_dst_spec tmpBuf first todo : forall idx dst,
  0 <= idx -> 0 <= first ->
  first + idx + Z.of_nat todo <= Z.of_nat (length dst) + 1 ->
  (forall j, idx <= j < idx + Z.of_nat todo ->
     exists c, tmpBuf !! Z.to_nat j = Some c /\
               (first + j = Z.of_nat (length dst) -> c = x00)) ->
  exists dst',
    copy_to_dst todo tmpBuf first idx dst = Some dst' /\
    length dst' = length dst /\
    forall q, 0 <= q < Z.of_nat (length dst) ->
      dst' !! Z.to_nat q
      = if decide (first + idx <= q < first + idx + Z.of_nat todo)
        then tmpBuf !! Z.to_nat (q - first) else dst !! Z.to_nat q.
Proof.
  induction todo as [|todo IH]; intros idx dst Hidx Hfirst Hdst Htmp.
  { exists dst. split; [done|]. split; [done|]. intros q Hq.
    by rewrite decide_False by lia. }
  cbn [copy_to_dst].
  destruct (Htmp idx) as (c & Hc & Hzero); [lia|].
  rewrite Hc. cbn [mbind option_bind].
  assert (Hset : exists dst1,
            set_char dst (first + idx) c = Some dst1 /\
            length dst1 = length dst /\
            forall q, 0 <= q < Z.of_nat (length dst) ->
              dst1 !! Z.to_nat q
              = if decide (q = first + idx) then Some c
                else dst !! Z.to_nat q).
  { unfold set_char. case_decide as Hend.
    - rewrite (Hzero Hend), decide_True by done. exists dst.
      split; [done|]. split; [done|]. intros q Hq.
      by rewrite decide_False by lia.
    - rewrite decide_True by lia. eexists. split; [done|].
      split; [by rewrite length_insert|]. intros q Hq.
      case_decide as Hhere.
      + subst q. rewrite list_lookup_insert_eq by lia. done.
      + rewrite list_lookup_insert_ne by lia. done. }
  destruct Hset as (dst1 & Hset & Hlen1 & Hlook1). rewrite Hset.
  cbn [mbind option_bind].
  destruct (IH (idx + 1) dst1) as (dst' & Hrun & Hlen & Hlook); try lia.
  { intros j Hj. rewrite Hlen1. apply Htmp. lia. }
  exists dst'. split; [done|]. split; [congruence|].
  intros q Hq. rewrite Hlook by lia.
  destruct (decide (q = first + idx)) as [->|Hne].
  - rewrite decide_False by lia. rewrite decide_True by lia.
    rewrite Hlook1 by lia. rewrite decide_True by done.
    replace (first + idx - first) with idx by lia. done.
  - rewrite Hlook1 by lia. rewrite (decide_False (P := q = _)) by done.
    destruct (decide (first + (idx + 1) <= q
                      < first + (idx + 1) + Z.of_nat todo));
      [by rewrite decide_True by lia|by rewrite decide_False by lia].
Qed.

Lemma stream_bit_at buf i b :
  0 <= i -> buf !! Z.to_nat (i / 8) = Some b ->
  stream_bit buf i = Z.testbit (byte_to_Z b) (i mod 8).
Proof. intros Hi Hb. unfold stream_bit. by rewrite Hb. Qed.

(** [BitStreamPutInt] on a string does what [BitStreamPutInt] on the
    characters of the string does, for every range that the assertion
    lets in, whatever the local buffer holds at the start. When the range
    ends with the string, the loops copy the terminating zero out and
    back. *)
Theorem BitStreamPutInt_string_agrees tmpBuf dst offset bits value :
  0 <= offset -> 0 <= bits <= 64 -> 0 <= value ->
  (offset + bits + 7) / 8 <= Z.of_nat (length dst) ->
  length tmpBuf = 9%nat ->
  exists dst',
    BitStreamPutInt_string tmpBuf dst offset bits value = Some dst' /\
    BitStreamPutInt dst offset bits value = Some dst' /\
    length dst' = length dst.
Proof.
  intros Hoffset Hbits Hvalue Hroom Htmp.
  unfold BitStreamPutInt_string. cbv zeta.
  set (base := offset / 8). set (o := offset mod 8).
  set (k := (o + bits) / 8). set (len := Z.of_nat (length dst)) in *.
  assert (Hsplit : offset = 8 * base + o) by (apply Z.div_mod; lia).
  assert (Ho : 0 <= o < 8) by (apply Z.mod_pos_bound; lia).
  assert (Hbase : 0 <= base) by (apply Z.div_pos; lia).
  assert (Hk : 8 * k <= o + bits < 8 * k + 8).
  { pose proof (Z.div_mod (o + bits) 8 ltac:(lia)) as Hdm.
    pose proof (Z.mod_pos_bound (o + bits) 8 ltac:(lia)) as Hmod.
    unfold k. lia. }
  assert (Ht : 8 * ((offset + bits + 7) / 8) <= offset + bits + 7
               < 8 * ((offset + bits + 7) / 8) + 8).
  { pose proof (Z.div_mod (offset + bits + 7) 8 ltac:(lia)).
    pose proof (Z.mod_pos_bound (offset + bits + 7) 8 ltac:(lia)). lia. }
  assert (Hfit : base + k <= len) by lia.
  assert (Hend : base + k = len -> o + bits = 8 * k) by lia.
  assert (Hk0 : 0 <= k <= 8) by lia.
  destruct (copy_to_tmpBuf_spec dst base (Z.to_nat (k + 1)) 0 tmpBuf)
    as (tmp1 & Hrun1 & Hlen1 & Hlook1); try lia.
  rewrite Hrun1. cbn [mbind option_bind].
  destruct (BitStreamPutInt_writes_the_bits tmp1 o bits value)
    as (tmp2 & Hrun2 & Hlen2 & Hbits2); try lia.
  { rewrite Hlen1, Htmp.
    assert ((o + bits + 7) / 8 < 10) by (apply Z.div_lt_upper_bound; lia).
    lia. }
  rewrite Hrun2. cbn [mbind option_bind].
  assert (Hin1 : forall j, 0 <= j <= k ->
            tmp1 !! Z.to_nat j = char_at dst (base + j)).
  { intros j Hj. rewrite Hlook1 by lia. by rewrite decide_True by lia. }
  destruct (copy_to_dst_spec tmp2 base (Z.to_nat (k + 1)) 0 dst)
    as (dst' & Hrun3 & Hlen3 & Hlook3); try lia.
  { intros j Hj.
    destruct (lookup_lt_is_Some_2 tmp2 (Z.to_nat j)) as [c Hc]; [lia|].
    exists c. split; [done|]. intros Hlast.
    assert (j = k) as -> by lia.
    apply byte_to_Z_inj, Z.bits_inj'. intros b Hb.
    change (byte_to_Z x00) with 0. rewrite Z.bits_0.
    destruct (Z.ltb_spec b 8) as [Hb8|Hb8]; cycle 1.
    { pose proof (byte_to_Z_range c). apply (testbit_small _ 8); lia. }
    rewrite <- (stream_bit_in_byte tmp2 k b c) by (try done; lia).
    rewrite Hbits2 by lia.
    destruct (Z.ltb_spec (8 * k + b) (o + bits)); [lia|].
    rewrite andb_false_r.
    assert (Hzero : tmp1 !! Z.to_nat k = Some x00).
    { rewrite Hin1 by lia. unfold char_at. by rewrite decide_True by lia. }
    rewrite (stream_bit_in_byte tmp1 k b x00) by (try done; lia).
    change (byte_to_Z x00) with 0. apply Z.bits_0. }
  rewrite Hrun3.
  destruct (BitStreamPutInt_writes_the_bits dst offset bits value)
    as (dst'' & Hrun & Hlen & Hbits''); try lia.
  exists dst'. split; [done|]. split; [|done]. rewrite Hrun. f_equal.
  symmetry. apply same_bits; [congruence|].
  intros i Hi. rewrite Hlen3 in Hi. fold len in Hi. rewrite Hbits'' by lia.
  assert (Hi8 : i = 8 * (i / 8) + i mod 8) by (apply Z.div_mod; lia).
  assert (Hr : 0 <= i mod 8 < 8) by (apply Z.mod_pos_bound; lia).
  assert (Hq : 0 <= i / 8 < len).
  { split; [apply Z.div_pos; lia|apply Z.div_lt_upper_bound; lia]. }
  set (q := i / 8) in *. set (r := i mod 8) in *.
  pose proof (Hlook3 q Hq) as Hbyte.
  destruct (decide (base + 0 <= q < base + 0 + Z.of_nat (Z.to_nat (k + 1))))
    as [Hhere|Hhere].
  - destruct (lookup_lt_is_Some_2 tmp2 (Z.to_nat (q - base))) as [c Hc];
      [lia|].
    rewrite Hc in Hbyte.
    rewrite (stream_bit_at dst' i c) by (fold q; try done; lia). fold r.
    rewrite <- (stream_bit_in_byte tmp2 (q - base) r c) by (try done; lia).
    rewrite Hbits2 by lia.
    replace (8 * (q - base) + r - o) with (i - offset) by lia.
    destruct (Z.leb_spec o (8 * (q - base) + r));
      destruct (Z.leb_spec offset i); try lia;
      destruct (Z.ltb_spec (8 * (q - base) + r) (o + bits));
      destruct (Z.ltb_spec i (offset + bits)); try lia; cbn [andb];
      try done.
    all: assert (Hsame : tmp1 !! Z.to_nat (q - base) = dst !! Z.to_nat q)
      by (rewrite Hin1 by lia; rewrite char_at_inside by lia;
          f_equal; lia).
    all: destruct (lookup_lt_is_Some_2 dst (Z.to_nat q)) as [d Hd]; [lia|].
    all: rewrite Hd in Hsame.
    all: rewrite (stream_bit_in_byte tmp1 (q - base) r d) by (try done; lia).
    all: by rewrite (stream_bit_at dst i d) by (fold q; try done; lia).
  - destruct (lookup_lt_is_Some_2 dst (Z.to_nat q)) as [d Hd]; [lia|].
    rewrite Hd in Hbyte.
    rewrite (stream_bit_at dst' i d) by (fold q; try done; lia).
    rewrite (stream_bit_at dst i d) by (fold q; try done; lia).
    destruct (Z.leb_spec offset i); [|done].
    destruct (Z.ltb_spec i (offset + bits)); [|done]. lia.
Qed.

Lemma BitStreamPutInt_string_agrees_witness :
  0 <= 3 /\ 0 <= 13 <= 64 /\ 0 <= 2650 /\
  (3 + 13 + 7) / 8 <= Z.of_nat (length [xff; xff]) /\
  length (replicate 9 xaa) = 9%nat /\
  exists dst',
    BitStreamPutInt_string (replicate 9 xaa) [xff; xff] 3 13 2650
    = Some dst' /\
    BitStreamPutInt [xff; xff] 3 13 2650 = Some dst' /\
    length dst' = length [xff; xff].
Proof.
  assert (H1 : 0 <= 3) by lia.
  assert (H2 : 0 <= 13 <= 64) by lia.
  assert (H3 : 0 <= 2650) by lia.
  assert (H4 : (3 + 13 + 7) / 8 <= Z.of_nat (length [xff; xff]))
    by (vm_compute; discriminate).
  assert (H5 : length (replicate 9 xaa) = 9%nat) by reflexivity.
  repeat (split; [assumption|]).
  exact (BitStreamPutInt_string_agrees (replicate 9 xaa) [xff; xff] 3 13 2650
           H1 H2 H3 H4 H5).
Defined.

End BitStreamStringProofs.

(** ** The order of the flyweights of subscriber.h *)

Module TenantAndNamespaceProofs.
Import TenantAndNamespace.

Lemma byte_eq_of_Z a b : byte_to_Z a = byte_to_Z b -> a = b.
Proof. intros E. by rewrite <- (Z_to_byte_to_Z a), E, Z_to_byte_to_Z. Qed.

Lemma string_lt_irrefl a : string_lt a a = false.
Proof.
  induction a as [|x a IH]; [done|]. cbn [string_lt].
  by rewrite Z.ltb_irrefl.
Qed.

Lemma string_lt_trans a : forall b c,
  string_lt a b = true -> string_lt b c = true -> string_lt a c = true.
Proof.
  induction a as [|x a IH]; intros [|y b] [|z c]; cbn [string_lt];
    try done.
  destruct (Z.ltb_spec (byte_to_Z x) (byte_to_Z y));
    destruct (Z.ltb_spec (byte_to_Z y) (byte_to_Z x));
    destruct (Z.ltb_spec (byte_to_Z y) (byte_to_Z z));
    destruct (Z.ltb_spec (byte_to_Z z) (byte_to_Z y));
    destruct (Z.ltb_spec (byte_to_Z x) (byte_to_Z z));
    destruct (Z.ltb_spec (byte_to_Z z) (byte_to_Z x));
    try done; try lia.
  apply IH.
Qed.

Lemma string_lt_total a : forall b,
  string_lt a b = false -> string_lt b a = false -> a = b.
Proof.
  induction a as [|x a IH]; intros [|y b]; cbn [string_lt]; try done.
  destruct (Z.ltb_spec (byte_to_Z x) (byte_to_Z y));
    destruct (Z.ltb_spec (byte_to_Z y) (byte_to_Z x)); try done.
  intros Hab Hba. f_equal; [apply byte_eq_of_Z; lia|by apply IH].
Qed.

(** [operator<] of [TenantAndNamespace] is a strict total order, as a
    key of an ordered container has to be: nothing is below itself, the
    order is transitive, and of two keys that are not equal one is below
    the other. Keys of different tenants are ordered by the tenant. *)
Theorem TenantAndNamespace_lt_is_a_strict_total_order :
  (forall a, lt a a = false) /\
  (forall a b c, lt a b = true -> lt b c = true -> lt a c = true) /\
  (forall a b, lt a b = false -> lt b a = false -> a = b) /\
  (forall a b, lt a b = true -> lt b a = false) /\
  (forall a b, tenant_id a < tenant_id b -> lt a b = true).
Proof.
  assert (Hirrefl : forall a, lt a a = false).
  { intros a. unfold lt. rewrite decide_True by done.
    apply string_lt_irrefl. }
  assert (Htrans : forall a b c,
            lt a b = true -> lt b c = true -> lt a c = true).
  { intros [ta na] [tb nb] [tc nc]. unfold lt. cbn.
    repeat case_decide; subst; rewrite ?Z.ltb_lt; try lia; try done.
    apply string_lt_trans. }
  split; [done|]. split; [done|]. split; [|split].
  - intros [ta na] [tb nb]. unfold lt. cbn.
    repeat case_decide; subst; rewrite ?Z.ltb_ge; try lia; try done.
    intros Hab Hba. f_equal. by apply string_lt_total.
  - intros a b Hab. destruct (lt b a) eqn:Hba; [|done].
    by rewrite <- (Hirrefl a), <- (Htrans a b a Hab Hba).
  - intros a b Hlt. unfold lt. rewrite decide_False by lia.
    by apply Z.ltb_lt.
Qed.

End TenantAndNamespaceProofs.
(** ** Messages of the old format in messages.cc *)

Module OldFormatProofs.
Import Wire Cursors Codec WireProofs.

Section laws.

Context `{WireFormatLaws}.

(** A subscription as it was written before there were cursors: the
    [Message], the topic, the start and the subscription ID. *)
Definition old_subscribe (base : Message.t) (namespace_id : NamespaceID)
    (topic_name : Topic) (start_seqno : SequenceNumber)
    (sub_id : SubscriptionID) : list byte :=
  EncodeSubscriptionID
    (PutVarint64
       (PutTopicID (Message.Serialize base []) namespace_id topic_name)
       start_seqno)
    sub_id.

(** [MessageSubscribe] reads and writes the old format. [DeSerialize]
    takes a message of the old format for a subscription with one cursor
    on the empty source at the start of the message. [Serialize] begins
    with the message of the old format that starts at the sequence number
    of the first cursor (at 0 without a cursor), so that a reader of the
    old format finds the start it expects. *)
Theorem MessageSubscribe_reads_the_old_format self base namespace_id
    topic_name start_seqno sub_id :
  Message.WellFormed base ->
  Z.of_nat (length namespace_id) < 2 ^ 32 ->
  Z.of_nat (length topic_name) < 2 ^ 32 ->
  0 <= start_seqno < 2 ^ 64 -> 0 <= sub_id < 2 ^ 64 ->
  MessageSubscribe.start_ self = [] ->
  MessageSubscribe.DeSerialize self
    (old_subscribe base namespace_id topic_name start_seqno sub_id)
  = OK (MessageSubscribe.mk base namespace_id topic_name sub_id
          [mkCursor [] start_seqno]) [] /\
  MessageSubscribe.GetStartSequenceNumber
    (MessageSubscribe.mk base namespace_id topic_name sub_id
       [mkCursor [] start_seqno])
  = start_seqno /\
  forall m : MessageSubscribe.t,
    exists cursors,
      MessageSubscribe.Serialize m []
      = old_subscribe (MessageSubscribe.base m)
          (MessageSubscribe.namespace_id_ m)
          (MessageSubscribe.topic_name_ m)
          (MessageSubscribe.GetStartSequenceNumber m)
          (MessageSubscribe.sub_id_ m)
        ++ cursors.
Proof.
  destruct base as [ty tenant].
  intros [Hty Htenant] Hns Htopic Hstart Hsub Hfresh. cbn in Hty, Htenant.
  split; [|split; [done|]].
  - unfold old_subscribe, MessageSubscribe.DeSerialize, Message.Serialize,
      Message.DeSerialize.
    cbn [Message.type_ Message.tenantid_]. put_to_app.
    rewrite <- (app_nil_r (SubscriptionID_bytes sub_id)).
    get_all. rewrite Hfresh. reflexivity.
  - intros m. unfold MessageSubscribe.Serialize, old_subscribe. cbv zeta.
    rewrite Serialize_seqnos_app, Serialize_sources_app.
    rewrite PutVarint64_first. put_to_app.
    unfold MessageSubscribe.GetStartSequenceNumber.
    eexists. rewrite <- !app_assoc. reflexivity.
Qed.

(** [MessageUnsubscribe::DeSerialize] does not fail on what follows the
    reason: a message of the old format, which ends there, and a message
    with anything else there that is not a namespace and a topic, are
    read as an unsubscription with an empty namespace and topic. *)
Theorem MessageUnsubscribe_reads_the_old_format base sub_id reason tail :
  Message.WellFormed base -> 0 <= sub_id < 2 ^ 64 -> 0 <= reason < 2 ^ 8 ->
  exists namespace_id topic_name rest,
    MessageUnsubscribe.DeSerialize
      (PutFixedEnum8 (EncodeSubscriptionID (Message.Serialize base []) sub_id)
         reason ++ tail)
    = OK (MessageUnsubscribe.mk base sub_id reason namespace_id topic_name)
         rest /\
    (GetTopicID tail = None ->
     namespace_id = [] /\ topic_name = [] /\ rest = tail) /\
    (tail = [] -> namespace_id = [] /\ topic_name = [] /\ rest = []).
Proof.
  destruct base as [ty tenant]. intros [Hty Htenant] Hsub Hreason.
  cbn in Hty, Htenant.
  unfold MessageUnsubscribe.DeSerialize, Message.Serialize,
    Message.DeSerialize.
  cbn [Message.type_ Message.tenantid_]. put_to_app. get_all.
  destruct (GetTopicID tail) as [[[namespace_id topic_name] rest]|] eqn:Hid.
  - exists namespace_id, topic_name, rest. split; [done|]. split; [done|].
    intros ->. by cbn in Hid.
  - exists [], [], tail. split; [done|]. split; [done|]. by intros ->.
Qed.

End laws.

Lemma MessageSubscribe_reads_the_old_format_witness :
  Message.WellFormed (Message.mk 8 102) /\
  Z.of_nat (length (CodecProofs.bytes_of_string "102")) < 2 ^ 32 /\
  Z.of_nat (length (CodecProofs.bytes_of_string "test_topic")) < 2 ^ 32 /\
  0 <= 17 < 2 ^ 64 /\ 0 <= 4660 < 2 ^ 64 /\
  MessageSubscribe.start_
    (MessageSubscribe.mk (Message.mk 0 0) [] [] 0 []) = [] /\
  MessageSubscribe.DeSerialize
    (MessageSubscribe.mk (Message.mk 0 0) [] [] 0 [])
    (old_subscribe (Message.mk 8 102) (CodecProofs.bytes_of_string "102")
       (CodecProofs.bytes_of_string "test_topic") 17 4660)
  = OK (MessageSubscribe.mk (Message.mk 8 102)
          (CodecProofs.bytes_of_string "102")
          (CodecProofs.bytes_of_string "test_topic") 4660
          [mkCursor [] 17]) [].
Proof.
  assert (H1 : Message.WellFormed (Message.mk 8 102))
    by (split; cbn; lia).
  assert (H2 : Z.of_nat (length (CodecProofs.bytes_of_string "102"))
               < 2 ^ 32) by (cbn; lia).
  assert (H3 : Z.of_nat (length (CodecProofs.bytes_of_string "test_topic"))
               < 2 ^ 32) by (cbn; lia).
  assert (H4 : 0 <= 17 < 2 ^ 64) by lia.
  assert (H5 : 0 <= 4660 < 2 ^ 64) by lia.
  assert (H6 : MessageSubscribe.start_
                 (MessageSubscribe.mk (Message.mk 0 0) [] [] 0 []) = [])
    by reflexivity.
  repeat (split; [assumption|]).
  exact (proj1 (MessageSubscribe_reads_the_old_format
                  (H := CodecProofs.LittleEndian_laws)
                  (MessageSubscribe.mk (Message.mk 0 0) [] [] 0 [])
                  (Message.mk 8 102) (CodecProofs.bytes_of_string "102")
                  (CodecProofs.bytes_of_string "test_topic") 17 4660
                  H1 H2 H3 H4 H5 H6)).
Defined.

Lemma MessageUnsubscribe_reads_the_old_format_witness :
  Message.WellFormed (Message.mk 9 102) /\ 0 <= 4660 < 2 ^ 64 /\
  0 <= 1 < 2 ^ 8 /\
  exists namespace_id topic_name rest,
    MessageUnsubscribe.DeSerialize
      (PutFixedEnum8
         (EncodeSubscriptionID (Message.Serialize (Message.mk 9 102) []) 4660)
         1 ++ [])
    = OK (MessageUnsubscribe.mk (Message.mk 9 102) 4660 1 namespace_id
            topic_name) rest /\
    (GetTopicID [] = None ->
     namespace_id = [] /\ topic_name = [] /\ rest = []) /\
    (@nil byte = [] -> namespace_id = [] /\ topic_name = [] /\ rest = []).
Proof.
  assert (H1 : Message.WellFormed (Message.mk 9 102))
    by (split; cbn; lia).
  assert (H2 : 0 <= 4660 < 2 ^ 64) by lia.
  assert (H3 : 0 <= 1 < 2 ^ 8) by lia.
  repeat (split; [assumption|]).
  exact (MessageUnsubscribe_reads_the_old_format
           (H := CodecProofs.LittleEndian_laws)
           (Message.mk 9 102) 4660 1 [] H1 H2 H3).
Defined.

End OldFormatProofs.
